(** * SmartTestCase-AI: job orchestration, fallback generator, parser cascade
      and formatter, embedded from the JavaScript sources

    Sources embedded here:
    - [AITestAgent/src/utils/testCaseParser.js]  (parser cascade, formatters)
    - [AITestAgent/src/api/testCaseApi.js]       (job orchestration, fallback)
    - [AITestAgent/src/api/storage.js]           (job store wrappers)

    JavaScript strings are sequences of UTF-16 code units; they are modelled
    as lists of code units ([N]).  Regular expressions are kept as syntax
    trees and run by a backtracking matcher that follows the continuation
    semantics of the ECMAScript specification, so that every regular
    expression literal of the sources appears below as a term that can be
    compared with the literal. *)

From Stdlib Require Import String Ascii.
From Stdlib Require Import ZArith NArith List Lia Bool Sorted.
From stdpp Require Import base option list gmap.

Set Default Proof Using "Type".
Local Open Scope N_scope.

(** ** Strings as code-unit sequences *)

Definition char := N.
Definition jsstring := list char.

(** [lit "abc"] is the JavaScript string literal ['abc'] (ASCII literals). *)
Definition lit (s : string) : jsstring :=
  map N_of_ascii (list_ascii_of_string s).
Arguments lit s%_string.

Definition ch (a : ascii) : char := N_of_ascii a.
Arguments ch a%_char.

(** The bullet character U+2022, which the sources use in several places. *)
Definition bullet : char := 8226.

Definition char_eqb (a b : char) : bool := N.eqb a b.

Fixpoint str_eqb (s t : jsstring) : bool :=
  match s, t with
  | [], [] => true
  | a :: s', b :: t' => char_eqb a b && str_eqb s' t'
  | _, _ => false
  end.

(** Truthiness of a string value: the empty string is falsy. *)
Definition truthy (s : jsstring) : bool :=
  match s with [] => false | _ => true end.

Definition isDigit (c : char) : bool := (48 <=? c) && (c <=? 57).

(** ECMAScript LineTerminator: LF, CR, LS, PS. *)
Definition isLineTerminator (c : char) : bool :=
  (c =? 10) || (c =? 13) || (c =? 8232) || (c =? 8233).

(** ECMAScript WhiteSpace together with LineTerminator: what [\s] matches
    and what [String.prototype.trim] strips. *)
Definition isWhiteSpace (c : char) : bool :=
  ((9 <=? c) && (c <=? 13)) || (c =? 32) || (c =? 160) || (c =? 5760)
  || ((8192 <=? c) && (c <=? 8202)) || (c =? 8232) || (c =? 8233)
  || (c =? 8239) || (c =? 8287) || (c =? 12288) || (c =? 65279).

Definition isUpperAscii (c : char) : bool := (65 <=? c) && (c <=? 90).
Definition isLowerAscii (c : char) : bool := (97 <=? c) && (c <=? 122).

(** Canonicalize of the specification for a pattern without the [u] flag.
    A code unit outside ASCII never canonicalizes to an ASCII one, so against
    the ASCII pattern characters of the sources this is exact. *)
Definition canonicalize (ignoreCase : bool) (c : char) : char :=
  if ignoreCase && isLowerAscii c then c - 32 else c.

(** [s.substring(a, b)] for [a <= b]. *)
Definition substring (s : jsstring) (a b : nat) : jsstring :=
  take (b - a) (drop a s).

Fixpoint startsWith (s p : jsstring) : bool :=
  match p, s with
  | [], _ => true
  | b :: p', a :: s' => char_eqb a b && startsWith s' p'
  | _ :: _, [] => false
  end.

Fixpoint trimStart (s : jsstring) : jsstring :=
  match s with
  | a :: s' => if isWhiteSpace a then trimStart s' else s
  | [] => []
  end.

Definition trimEnd (s : jsstring) : jsstring := rev (trimStart (rev s)).

Definition trim (s : jsstring) : jsstring := trimEnd (trimStart s).

(** [s.includes(sub)] *)
Fixpoint str_includes (s sub : jsstring) : bool :=
  startsWith s sub ||
  match s with
  | [] => false
  | _ :: s' => str_includes s' sub
  end.

(** [parts.join(sep)] *)
Fixpoint join (sep : jsstring) (parts : list jsstring) : jsstring :=
  match parts with
  | [] => []
  | [p] => p
  | p :: rest => p ++ sep ++ join sep rest
  end.

(** [s.split(c)] for a one-character separator. *)
Fixpoint split_char_aux (c : char) (cur : jsstring) (s : jsstring) : list jsstring :=
  match s with
  | [] => [rev cur]
  | a :: s' =>
      if char_eqb a c then rev cur :: split_char_aux c [] s'
      else split_char_aux c (a :: cur) s'
  end.

Definition split_char (c : char) (s : jsstring) : list jsstring :=
  split_char_aux c [] s.

(** Decimal rendering of a number, as template literals print it. *)
Definition digit_char (d : N) : char := 48 + d.

Fixpoint show_N_aux (fuel : nat) (n : N) (acc : jsstring) : jsstring :=
  match fuel with
  | O => acc
  | S fuel' =>
      let acc' := digit_char (n mod 10) :: acc in
      if n <? 10 then acc' else show_N_aux fuel' (n / 10) acc'
  end.

(** A number below [2^k] has at most [k] decimal digits. *)
Definition show_N (n : N) : jsstring := show_N_aux (S (N.size_nat n)) n [].

Definition show_nat (n : nat) : jsstring := show_N (N.of_nat n).

Definition show_Z (z : Z) : jsstring :=
  match z with
  | Zneg p => lit "-" ++ show_N (Npos p)
  | _ => show_N (Z.to_N z)
  end.

(** Literals and the string functions are unfolded by evaluation only. *)
Arguments lit s%_string : simpl never.
Arguments str_eqb s t : simpl never.
Arguments show_N n : simpl never.
Arguments show_nat n : simpl never.
Arguments show_Z z : simpl never.
Arguments trim s : simpl never.
Arguments join sep parts : simpl never.
Arguments startsWith s p : simpl never.

(** ** Regular expressions *)

Inductive citem :=
| CChar (c : char)
| CRange (lo hi : char)
| CDigit        (* \d *)
| CSpace        (* \s *)
| CNotSpace.    (* \S *)

Inductive regex :=
| REmpty
| RChar (c : char)
| RAny                                           (* . *)
| RClass (negated : bool) (items : list citem)   (* [...] and [^...] *)
| RSeq (r1 r2 : regex)
| RAlt (r1 r2 : regex)
| RRep (min : nat) (max : option nat) (greedy : bool) (r : regex)
| RGroup (n : nat) (r : regex)                   (* n-th capturing group *)
| RLook (r : regex)                              (* (?=r) *)
| RBol                                           (* ^ *)
| REol.                                          (* $ *)

Record flags := Flags { ignoreCase : bool; multiline : bool; dotAll : bool }.

Definition no_flags := Flags false false false.
Definition flag_i := Flags true false false.
Definition flag_m := Flags false true false.
Definition flag_s := Flags false false true.

(** Matcher state: the character before the current position, the input
    that remains, the current index and the captures found so far. *)
Record mstate := MState {
  m_prev : option char;
  m_rest : jsstring;
  m_pos : nat;
  m_caps : list (nat * (nat * nat))
}.

Definition cont := mstate -> option mstate.

Definition advance (x : mstate) (a : char) (rest : jsstring) : mstate :=
  MState (Some a) rest (S (m_pos x)) (m_caps x).

Definition set_cap (n : nat) (se : nat * nat) (x : mstate) : mstate :=
  MState (m_prev x) (m_rest x) (m_pos x) ((n, se) :: m_caps x).

Fixpoint groups_of (r : regex) : list nat :=
  match r with
  | RSeq r1 r2 | RAlt r1 r2 => groups_of r1 ++ groups_of r2
  | RRep _ _ _ r | RLook r => groups_of r
  | RGroup n r => n :: groups_of r
  | _ => []
  end.

Definition nat_mem (n : nat) (l : list nat) : bool := existsb (Nat.eqb n) l.

Definition reset_caps (gs : list nat) (x : mstate) : mstate :=
  MState (m_prev x) (m_rest x) (m_pos x)
         (List.filter (fun p => negb (nat_mem (fst p) gs)) (m_caps x)).

Definition in_range (lo hi c : char) : bool := (lo <=? c) && (c <=? hi).

Definition other_case (c : char) : char :=
  if isLowerAscii c then c - 32 else if isUpperAscii c then c + 32 else c.

Definition citem_has (ic : bool) (it : citem) (c : char) : bool :=
  match it with
  | CChar a => char_eqb (canonicalize ic a) (canonicalize ic c)
  | CRange lo hi => in_range lo hi c || (ic && in_range lo hi (other_case c))
  | CDigit => isDigit c
  | CSpace => isWhiteSpace c
  | CNotSpace => negb (isWhiteSpace c)
  end.

Definition class_has (ic : bool) (negated : bool) (items : list citem) (c : char) : bool :=
  xorb negated (existsb (fun it => citem_has ic it c) items).

(** One-character matchers share this shape. *)
Definition char_matcher (p : char -> bool) (x : mstate) (c : cont) : option mstate :=
  match m_rest x with
  | a :: rest => if p a then c (advance x a rest) else None
  | [] => None
  end.

(** RepeatMatcher of the specification.  [fuel] bounds the number of
    iterations; an iteration either lowers [min] or consumes input. *)
Fixpoint repeat_matcher (fuel : nat) (m : mstate -> cont -> option mstate)
    (gs : list nat) (min : nat) (max : option nat) (greedy : bool)
    (x : mstate) (c : cont) : option mstate :=
  match fuel with
  | O => None
  | S fuel' =>
      match max with
      | Some O => c x
      | _ =>
          let d := fun y : mstate =>
            if Nat.eqb min 0 && Nat.eqb (m_pos y) (m_pos x) then None
            else repeat_matcher fuel' m gs (Nat.pred min) (Nat.pred <$> max) greedy y c in
          let xr := reset_caps gs x in
          if negb (Nat.eqb min 0) then m xr d
          else if greedy then
            match m xr d with Some z => Some z | None => c x end
          else
            match c x with Some z => Some z | None => m xr d end
      end
  end.

Fixpoint matcher (fl : flags) (r : regex) (x : mstate) (c : cont) {struct r} : option mstate :=
  match r with
  | REmpty => c x
  | RChar a =>
      char_matcher (fun b => char_eqb (canonicalize (ignoreCase fl) a)
                                      (canonicalize (ignoreCase fl) b)) x c
  | RAny =>
      char_matcher (fun b => dotAll fl || negb (isLineTerminator b)) x c
  | RClass neg items =>
      char_matcher (class_has (ignoreCase fl) neg items) x c
  | RSeq r1 r2 => matcher fl r1 x (fun y => matcher fl r2 y c)
  | RAlt r1 r2 =>
      match matcher fl r1 x c with
      | Some z => Some z
      | None => matcher fl r2 x c
      end
  | RRep min max greedy r' =>
      repeat_matcher (S (min + length (m_rest x))) (matcher fl r')
                     (groups_of r') min max greedy x c
  | RGroup n r' =>
      matcher fl r' x (fun y => c (set_cap n (m_pos x, m_pos y) y))
  | RLook r' =>
      match matcher fl r' x Some with
      | Some y => c (MState (m_prev x) (m_rest x) (m_pos x) (m_caps y))
      | None => None
      end
  | RBol =>
      match m_prev x with
      | None => c x
      | Some a => if multiline fl && isLineTerminator a then c x else None
      end
  | REol =>
      match m_rest x with
      | [] => c x
      | a :: _ => if multiline fl && isLineTerminator a then c x else None
      end
  end.

(** A successful match: where it starts and the final matcher state. *)
Record rmatch := RMatch { rm_start : nat; rm_state : mstate }.

Definition rm_end (m : rmatch) : nat := m_pos (rm_state m).

Definition match_at (fl : flags) (r : regex) (prev : option char)
    (rest : jsstring) (pos : nat) : option mstate :=
  matcher fl r (MState prev rest pos []) Some.

(** RegExpBuiltinExec: try successive start indices from [pos] on. *)
Fixpoint exec_from (fl : flags) (r : regex) (prev : option char)
    (rest : jsstring) (pos : nat) : option rmatch :=
  match match_at fl r prev rest pos with
  | Some y => Some (RMatch pos y)
  | None =>
      match rest with
      | [] => None
      | a :: rest' => exec_from fl r (Some a) rest' (S pos)
      end
  end.

Definition prev_at (s : jsstring) (i : nat) : option char :=
  match i with O => None | S j => s !! j end.

(** [r.exec(s)] with [lastIndex = i]. *)
Definition exec_at (fl : flags) (r : regex) (s : jsstring) (i : nat) : option rmatch :=
  exec_from fl r (prev_at s i) (drop i s) i.

(** [s.match(r)] for a pattern without the [g] flag. *)
Definition js_match (fl : flags) (r : regex) (s : jsstring) : option rmatch :=
  exec_from fl r None s 0.

Definition cap_lookup (n : nat) (caps : list (nat * (nat * nat))) : option (nat * nat) :=
  snd <$> List.find (fun p => Nat.eqb (fst p) n) caps.

(** [match[n]]: [None] stands for [undefined] (group did not take part). *)
Definition group (s : jsstring) (m : rmatch) (n : nat) : option jsstring :=
  match cap_lookup n (m_caps (rm_state m)) with
  | Some (a, b) => Some (substring s a b)
  | None => None
  end.

(** [s.replace(r, repl)] for a pattern without [g]; [repl] has no [$]. *)
Definition replace_first (fl : flags) (r : regex) (repl : jsstring) (s : jsstring) : jsstring :=
  match js_match fl r s with
  | Some m => take (rm_start m) s ++ repl ++ drop (rm_end m) s
  | None => s
  end.

(** [s.replace(r, repl)] for a pattern with [g]. *)
Fixpoint replace_all_loop (fuel : nat) (fl : flags) (r : regex) (repl : jsstring)
    (s : jsstring) (last i : nat) : jsstring :=
  match fuel with
  | O => drop last s
  | S fuel' =>
      match (if Nat.leb i (length s) then exec_at fl r s i else None) with
      | None => drop last s
      | Some m =>
          let e := rm_end m in
          substring s last (rm_start m) ++ repl ++
          replace_all_loop fuel' fl r repl s e (if Nat.eqb e (rm_start m) then S e else e)
      end
  end.

Definition replace_all (fl : flags) (r : regex) (repl : jsstring) (s : jsstring) : jsstring :=
  replace_all_loop (S (length s)) fl r repl s 0 0.

(** [s.split(r)] (no limit; the patterns of the sources have no capturing
    groups, so nothing but the pieces is pushed). *)
Fixpoint split_loop (fuel : nat) (fl : flags) (r : regex) (s : jsstring)
    (p q : nat) : list jsstring :=
  match fuel with
  | O => [drop p s]
  | S fuel' =>
      if Nat.ltb q (length s) then
        match match_at fl r (prev_at s q) (drop q s) q with
        | None => split_loop fuel' fl r s p (S q)
        | Some y =>
            let e := m_pos y in
            if Nat.eqb e p then split_loop fuel' fl r s p (S q)
            else substring s p q :: split_loop fuel' fl r s e e
        end
      else [drop p s]
  end.

Definition split_re (fl : flags) (r : regex) (s : jsstring) : list jsstring :=
  match s with
  | [] => match match_at fl r None [] 0 with Some _ => [] | None => [[]] end
  | _ => split_loop (2 * length s + 2) fl r s 0 0
  end.

(** *** Reference scans

    What a quantifier over a one-character pattern computes, written by
    recursion on the input; [RegexFacts] proves that the matcher agrees. *)

(** [x{min,}] followed by [c], for a one-character pattern with test [p]. *)
Fixpoint greedy_scan (p : char -> bool) (min : nat) (c : cont)
    (prev : option char) (rest : jsstring) (pos : nat)
    (caps : list (nat * (nat * nat))) : option mstate :=
  let here := if Nat.eqb min 0 then c (MState prev rest pos caps) else None in
  match rest with
  | a :: rest' =>
      if p a then
        match greedy_scan p (Nat.pred min) c (Some a) rest' (S pos) caps with
        | Some z => Some z
        | None => here
        end
      else here
  | [] => here
  end.

(** [x{min,}?] followed by [c]. *)
Fixpoint lazy_scan (p : char -> bool) (min : nat) (c : cont)
    (prev : option char) (rest : jsstring) (pos : nat)
    (caps : list (nat * (nat * nat))) : option mstate :=
  let more :=
    match rest with
    | a :: rest' =>
        if p a then lazy_scan p (Nat.pred min) c (Some a) rest' (S pos) caps else None
    | [] => None
    end in
  if Nat.eqb min 0 then
    match c (MState prev rest pos caps) with
    | Some z => Some z
    | None => more
    end
  else more.

(** The longest prefix of [s] whose characters pass [p], and the rest. *)
Fixpoint span (p : char -> bool) (s : jsstring) : jsstring * jsstring :=
  match s with
  | a :: s' => if p a then (a :: fst (span p s'), snd (span p s')) else ([], s)
  | [] => ([], [])
  end.

(** The character before the position reached after reading [w]. *)
Definition prev_after (prev : option char) (w : jsstring) : option char :=
  match last w with
  | Some a => Some a
  | None => prev
  end.

(** A pattern that reads exactly one character, accepted by [p]. *)
Definition one_char (fl : flags) (r : regex) (p : char -> bool) : Prop :=
  groups_of r = [] /\ forall x c, matcher fl r x c = char_matcher p x c.

(** *** Pattern-building shorthands *)

Fixpoint rseq (rs : list regex) : regex :=
  match rs with
  | [] => REmpty
  | [r] => r
  | r :: rs' => RSeq r (rseq rs')
  end.

Fixpoint ralt (rs : list regex) : regex :=
  match rs with
  | [] => REmpty
  | [r] => r
  | r :: rs' => RAlt r (ralt rs')
  end.

Definition rstr (s : string) : regex := rseq (map RChar (lit s)).
Arguments rstr s%_string.

Definition star (r : regex) := RRep 0 None true r.        (* r*  *)
Definition plus (r : regex) := RRep 1 None true r.        (* r+  *)
Definition opt (r : regex) := RRep 0 (Some 1%nat) true r. (* r?  *)
Definition lazy_star (r : regex) := RRep 0 None false r.  (* r*? *)

Definition r_digit := RClass false [CDigit].              (* \d *)
Definition r_space := RClass false [CSpace].              (* \s *)
Definition r_all := RClass false [CSpace; CNotSpace].     (* [\s\S] *)

Definition nl : char := 10.
Definition tab : char := 9.
Definition dquote : jsstring := [34].

Definition r_nl := RChar nl.

(** [match[n]] where the group is known to take part in every match. *)
Definition group_str (s : jsstring) (m : rmatch) (n : nat) : jsstring :=
  default [] (group s m n).

Definition js_test (fl : flags) (r : regex) (s : jsstring) : bool :=
  match js_match fl r s with Some _ => true | None => false end.

(** ** The parser cascade ([testCaseParser.js]) *)

Module Parser.

Record TestCase := {
  title : jsstring;
  steps : list jsstring;
  expectedResult : jsstring
}.

(** Pattern: "/(\d+\.\s*Title:\s* )(.*?)(\n\s*-\s*(?:Test )?Steps?:)([\s\S]*?)(\n\s*-\s*Expected Result:)([\s\S]*?)(?=\n\d+\.\s*Title:|\s*$)/g" *)
Definition re_structured : regex := rseq [
  RGroup 1 (rseq [plus r_digit; rstr "."; star r_space; rstr "Title:"; star r_space]);
  RGroup 2 (lazy_star RAny);
  RGroup 3 (rseq [r_nl; star r_space; rstr "-"; star r_space;
                  opt (rstr "Test "); rstr "Step"; opt (rstr "s"); rstr ":"]);
  RGroup 4 (lazy_star r_all);
  RGroup 5 (rseq [r_nl; star r_space; rstr "-"; star r_space; rstr "Expected Result:"]);
  RGroup 6 (lazy_star r_all);
  RLook (ralt [rseq [r_nl; plus r_digit; rstr "."; star r_space; rstr "Title:"];
               rseq [star r_space; REol]])
].

(** Pattern: "/^[•\-\*\d]+[\.\)]\s*/" *)
Definition re_step_marker : regex := rseq [
  RBol;
  plus (RClass false [CChar bullet; CChar (ch "-"); CChar (ch "*"); CDigit]);
  RClass false [CChar (ch "."); CChar (ch ")")];
  star r_space
].

(** Pattern: "/^[•\-\*\t\d]+[\.\)]\s*/" *)
Definition re_step_marker_tab : regex := rseq [
  RBol;
  plus (RClass false [CChar bullet; CChar (ch "-"); CChar (ch "*"); CChar tab; CDigit]);
  RClass false [CChar (ch "."); CChar (ch ")")];
  star r_space
].

(** Pattern: "/^.*?(?=\*\*Test Case|\d+\.\s*Title:)/s" *)
Definition re_intro : regex := rseq [
  RBol; lazy_star RAny;
  RLook (ralt [rstr "**Test Case";
               rseq [plus r_digit; rstr "."; star r_space; rstr "Title:"]])
].

(** Pattern: "/\*\*Test Case \d+:|##\s*Test Case \d+:|^\d+\.\s*Title:/m" *)
Definition re_block_marker : regex := ralt [
  rseq [rstr "**Test Case "; plus r_digit; rstr ":"];
  rseq [rstr "##"; star r_space; rstr "Test Case "; plus r_digit; rstr ":"];
  rseq [RBol; plus r_digit; rstr "."; star r_space; rstr "Title:"]
].

(** Pattern: "/^([^*#\n]+)(?:\*\*|\n|$)/" *)
Definition re_md_title : regex := rseq [
  RBol;
  RGroup 1 (plus (RClass true [CChar (ch "*"); CChar (ch "#"); CChar nl]));
  ralt [rstr "**"; r_nl; REol]
].

(** Pattern: "/^\d+\.\s*/" *)
Definition re_numbering : regex := rseq [RBol; plus r_digit; rstr "."; star r_space].

(** Pattern: "/^Title:\s*/" *)
Definition re_title_prefix : regex := rseq [RBol; rstr "Title:"; star r_space].

(** Pattern: "/(?:Test Steps?|Steps?):?\s*([\s\S]*?)(?:Expected Result|$)/i" *)
Definition re_md_steps : regex := rseq [
  ralt [rseq [rstr "Test Step"; opt (rstr "s")]; rseq [rstr "Step"; opt (rstr "s")]];
  opt (rstr ":"); star r_space;
  RGroup 1 (lazy_star r_all);
  ralt [rstr "Expected Result"; REol]
].

(** Pattern: "/^(?:Test Steps?|Steps?):?$/i" *)
Definition re_md_steps_header : regex := rseq [
  RBol;
  ralt [rseq [rstr "Test Step"; opt (rstr "s")]; rseq [rstr "Step"; opt (rstr "s")]];
  opt (rstr ":"); REol
].

(** Pattern: "/Expected Result:?\s*([\s\S]*?)(?=\*\*Test Case|\*\*\d+\.|\n\s*\n\s*\d+\.|\n\s*\n\s*\*\*|$)/i" *)
Definition re_md_result : regex := rseq [
  rstr "Expected Result"; opt (rstr ":"); star r_space;
  RGroup 1 (lazy_star r_all);
  RLook (ralt [rstr "**Test Case";
               rseq [rstr "**"; plus r_digit; rstr "."];
               rseq [r_nl; star r_space; r_nl; star r_space; plus r_digit; rstr "."];
               rseq [r_nl; star r_space; r_nl; star r_space; rstr "**"];
               REol])
].

(** Pattern: "/^Expected Result:?$/i" *)
Definition re_result_header : regex := rseq [RBol; rstr "Expected Result"; opt (rstr ":"); REol].

(** Pattern: "/\n\s*\n/" *)
Definition re_blank_line : regex := rseq [r_nl; star r_space; r_nl].

(** Pattern: "/^(Sure!|Here are|I'll create|Based on)/i" *)
Definition re_preamble : regex := rseq [
  RBol; RGroup 1 (ralt [rstr "Sure!"; rstr "Here are"; rstr "I'll create"; rstr "Based on"])
].

(** Pattern: "/^(?:\d+\.\s* )?(?:Test Case:?\s* )?([^\n]+)/i" *)
Definition re_gen_title : regex := rseq [
  RBol;
  opt (rseq [plus r_digit; rstr "."; star r_space]);
  opt (rseq [rstr "Test Case"; opt (rstr ":"); star r_space]);
  RGroup 1 (plus (RClass true [CChar nl]))
].

(** Pattern: "/(?:Steps?|Test Steps?):?\s*([\s\S]*?)(?:Expected Result|$)/i" *)
Definition re_gen_steps : regex := rseq [
  ralt [rseq [rstr "Step"; opt (rstr "s")]; rseq [rstr "Test Step"; opt (rstr "s")]];
  opt (rstr ":"); star r_space;
  RGroup 1 (lazy_star r_all);
  ralt [rstr "Expected Result"; REol]
].

(** Pattern: "/^(?:Steps?|Test Steps?):?$/i" *)
Definition re_gen_steps_header : regex := rseq [
  RBol;
  ralt [rseq [rstr "Step"; opt (rstr "s")]; rseq [rstr "Test Step"; opt (rstr "s")]];
  opt (rstr ":"); REol
].

(** Pattern: "/Expected Result:?\s*([\s\S]*?)$/i" *)
Definition re_gen_result : regex := rseq [
  rstr "Expected Result"; opt (rstr ":"); star r_space;
  RGroup 1 (lazy_star r_all); REol
].

(** *** [parseMarkdownTestCases] *)

Definition md_title (block : jsstring) : jsstring :=
  match js_match no_flags re_md_title block with
  | Some m =>
      let title := trim (group_str block m 1) in
      let title := replace_first no_flags re_numbering [] title in
      replace_first no_flags re_title_prefix [] title
  | None => []
  end.

Definition md_steps (block : jsstring) : list jsstring :=
  match js_match flag_i re_md_steps block with
  | Some m =>
      match group block m 1 with
      | Some ((_ :: _) as sec) =>
          let stepLines :=
            List.filter (fun line => truthy line && negb (js_test flag_i re_md_steps_header line))
                        (map trim (split_char nl sec)) in
          List.filter truthy
            (map (replace_first no_flags re_step_marker_tab []) stepLines)
      | _ => []
      end
  | None => []
  end.

Definition md_result (block : jsstring) : jsstring :=
  match js_match flag_i re_md_result block with
  | Some m =>
      match group block m 1 with
      | Some ((_ :: _) as sec) =>
          join [nl]
            (List.filter (fun line => truthy line && negb (js_test flag_i re_result_header line))
                         (map trim (split_char nl (trim sec))))
      | _ => []
      end
  | None => []
  end.

(** The body of the [for] loop over the blocks. *)
Definition md_block (raw : jsstring) : list TestCase :=
  let block := trim raw in
  if negb (truthy block) then []
  else
    let title := md_title block in
    if truthy title
    then [ {| title := title; steps := md_steps block; expectedResult := md_result block |} ]
    else [].

Definition parseMarkdownTestCases (testCasesString : jsstring) : list TestCase :=
  let cleanedString := replace_first flag_s re_intro [] testCasesString in
  let testCaseBlocks := split_re flag_m re_block_marker cleanedString in
  let startIndex :=
    match testCaseBlocks with
    | b0 :: _ => if truthy (trim b0) then 0%nat else 1%nat
    | [] => 0%nat
    end in
  concat (map md_block (drop startIndex testCaseBlocks)).

(** *** The structured-pattern loop of [parseTestCases] *)

Definition structured_case (s : jsstring) (m : rmatch) : TestCase :=
  let title := trim (group_str s m 2) in
  let stepsText := trim (group_str s m 4) in
  let expectedResult := trim (group_str s m 6) in
  {| title := title;
     steps := map (replace_first no_flags re_step_marker [])
                  (List.filter truthy (map trim (split_char nl stepsText)));
     expectedResult := expectedResult |}.

(** [while ((match = regex.exec(s)) !== null)]: [i] is [regex.lastIndex]. *)
Fixpoint structured_loop (fuel : nat) (s : jsstring) (i : nat) : list TestCase :=
  match fuel with
  | O => []
  | S fuel' =>
      match exec_at no_flags re_structured s i with
      | None => []
      | Some m => structured_case s m :: structured_loop fuel' s (rm_end m)
      end
  end.

Definition parseStructuredTestCases (s : jsstring) : list TestCase :=
  structured_loop (S (length s)) s 0.

(** *** [extractGenericTestCases] *)

Definition gen_title (block : jsstring) : jsstring :=
  match js_match flag_i re_gen_title block with
  | Some m => trim (group_str block m 1)
  | None => []
  end.

Definition gen_steps (block : jsstring) : list jsstring :=
  match js_match flag_i re_gen_steps block with
  | Some m =>
      match group block m 1 with
      | Some ((_ :: _) as sec) =>
          map (replace_first no_flags re_step_marker_tab [])
              (List.filter (fun line => truthy line && negb (js_test flag_i re_gen_steps_header line))
                           (map trim (split_char nl (trim sec))))
      | _ => []
      end
  | None => []
  end.

Definition gen_result (block : jsstring) : jsstring :=
  match js_match flag_i re_gen_result block with
  | Some m =>
      match group block m 1 with
      | Some ((_ :: _) as sec) => trim sec
      | _ => []
      end
  | None => []
  end.

Definition gen_block (raw : jsstring) : list TestCase :=
  let block := trim raw in
  if negb (truthy block) then []
  else if js_test flag_i re_preamble block then []
  else
    let title := gen_title block in
    let steps := gen_steps block in
    let expectedResult := gen_result block in
    if truthy title then
      [ {| title := title;
           steps := match steps with [] => [lit "No specific steps provided"] | _ => steps end;
           expectedResult := if truthy expectedResult then expectedResult
                             else lit "No specific expected result provided" |} ]
    else [].

Definition extractGenericTestCases (testCasesString : jsstring) : list TestCase :=
  concat (map gen_block (split_re no_flags re_blank_line testCasesString)).

(** *** [parseTestCases] *)

Definition parseTestCases (testCasesString : jsstring) : list TestCase :=
  if negb (truthy testCasesString) then []
  else
    match parseMarkdownTestCases testCasesString with
    | (_ :: _) as markdownTestCases => markdownTestCases
    | [] =>
        match parseStructuredTestCases testCasesString with
        | [] => extractGenericTestCases testCasesString
        | testCases => testCases
        end
    end.

End Parser.

Definition unlines (ls : list jsstring) : jsstring := join [nl] ls.


(** [arr.map((x, i) => f(i, x))] *)
Fixpoint mapi_from {A B : Type} (i : nat) (f : nat -> A -> B) (l : list A) : list B :=
  match l with
  | [] => []
  | x :: l' => f i x :: mapi_from (S i) f l'
  end.

Definition mapi {A B : Type} (f : nat -> A -> B) (l : list A) : list B :=
  mapi_from 0 f l.

(** An argument that may be [undefined] or [null]. *)
Inductive js_arg (A : Type) :=
| Undefined
| Null
| Value (a : A).
Arguments Undefined {A}.
Arguments Null {A}.
Arguments Value {A} a.

(** ** [formatTestCases] ([testCaseParser.js]) *)

Module Formatter.
Import Parser.

Definition numbered_step (i : nat) (step : jsstring) : jsstring :=
  lit "   " ++ show_nat (i + 1) ++ lit ". " ++ step.

Definition format_markdown (index : nat) (tc : TestCase) : jsstring :=
  let steps := join [nl] (mapi numbered_step (steps tc)) in
  lit "## " ++ show_nat (index + 1) ++ lit ". " ++ title tc ++ [nl; nl]
  ++ lit "### Test Steps:" ++ [nl] ++ steps ++ [nl; nl]
  ++ lit "### Expected Result:" ++ [nl] ++ expectedResult tc.

Definition format_html (index : nat) (tc : TestCase) : jsstring :=
  let steps := join [] (map (fun step => lit "<li>" ++ step ++ lit "</li>") (steps tc)) in
  lit "<div class=" ++ dquote ++ lit "test-case" ++ dquote ++ lit ">" ++ [nl]
  ++ lit "          <h3>" ++ show_nat (index + 1) ++ lit ". " ++ title tc ++ lit "</h3>" ++ [nl]
  ++ lit "          <h4>Test Steps:</h4>" ++ [nl]
  ++ lit "          <ol>" ++ steps ++ lit "</ol>" ++ [nl]
  ++ lit "          <h4>Expected Result:</h4>" ++ [nl]
  ++ lit "          <p>" ++ expectedResult tc ++ lit "</p>" ++ [nl]
  ++ lit "        </div>".

Definition format_text (index : nat) (tc : TestCase) : jsstring :=
  let steps := join [nl] (mapi numbered_step (steps tc)) in
  show_nat (index + 1) ++ lit ". " ++ title tc ++ [nl]
  ++ lit "   Test Steps:" ++ [nl] ++ steps ++ [nl]
  ++ lit "   Expected Result: " ++ expectedResult tc.

(** [formatTestCases(testCases, format = 'text')]: an [undefined] format
    takes the default. *)
Definition formatTestCases (testCases : js_arg (list TestCase))
    (format : js_arg jsstring) : jsstring :=
  match testCases with
  | Undefined | Null | Value [] => []
  | Value testCases =>
      let format := match format with Undefined => Value (lit "text") | f => f end in
      match format with
      | Value f =>
          if str_eqb f (lit "markdown") then join [nl; nl] (mapi format_markdown testCases)
          else if str_eqb f (lit "html") then join [] (mapi format_html testCases)
          else join [nl; nl] (mapi format_text testCases)
      | _ => join [nl; nl] (mapi format_text testCases)
      end
  end.

End Formatter.

(** ** Export utilities (second part of [testCaseParser.js]) *)

(** A test-case object as the export functions read it: each property is
    either absent or a string (an array of strings for the two lists). *)
Record TestCaseObj := {
  o_title : option jsstring;
  o_description : option jsstring;
  o_steps : option (list jsstring);
  o_expected_results : option (list jsstring);
  o_expectedResult : option jsstring
}.

(** The object that the parser builds, seen through its properties. *)
Definition obj_of_parsed (tc : Parser.TestCase) : TestCaseObj :=
  {| o_title := Some (Parser.title tc);
     o_description := None;
     o_steps := Some (Parser.steps tc);
     o_expected_results := None;
     o_expectedResult := Some (Parser.expectedResult tc) |}.

(** Values that flow through the export functions and the job store:
    strings, arrays of test-case objects, and other objects, which are
    kept up to their [test_cases] property ([VUndefined] when they have
    none).  [VUndefined] also stands for [null]. *)
Inductive JsValue :=
| VUndefined
| VString (s : jsstring)
| VArray (l : list TestCaseObj)
| VObject (test_cases : JsValue).

(** The ASCII part of [String.prototype.toLowerCase]. *)
Definition asciiLower (s : jsstring) : jsstring :=
  map (fun c => if isUpperAscii c then c + 32 else c) s.

(** [x || dflt] on an optional string property. *)
Definition or_else (x : option jsstring) (dflt : jsstring) : jsstring :=
  match x with
  | Some ((_ :: _) as s) => s
  | _ => dflt
  end.

Module ExportUtils.

(** [text.replace(/c/g, repl)] for a one-character pattern. *)
Definition replace_char (c : char) (repl : jsstring) (text : jsstring) : jsstring :=
  replace_all no_flags (RChar c) repl text.

Definition escapeHtml (text : option jsstring) : jsstring :=
  match text with
  | None => []
  | Some text =>
      replace_char (ch "'") (lit "&#039;")
        (replace_char 34 (lit "&quot;")
          (replace_char (ch ">") (lit "&gt;")
            (replace_char (ch "<") (lit "&lt;")
              (replace_char (ch "&") (lit "&amp;") text))))
  end.

Definition md_case (index : nat) (tc : TestCaseObj) : jsstring :=
  lit "## Test Case " ++ show_nat (index + 1) ++ lit ": "
    ++ or_else (o_title tc) (lit "Untitled") ++ [nl; nl]
  ++ match o_description tc with
     | Some ((_ :: _) as d) => lit "**Description:** " ++ d ++ [nl; nl]
     | _ => []
     end
  ++ match o_steps tc with
     | Some steps =>
         lit "### Steps:" ++ [nl]
         ++ concat (mapi (fun stepIndex step => show_nat (stepIndex + 1) ++ lit ". " ++ step ++ [nl]) steps)
         ++ [nl]
     | None => []
     end
  ++ match o_expected_results tc with
     | Some results =>
         lit "### Expected Results:" ++ [nl]
         ++ concat (map (fun result => lit "- " ++ result ++ [nl]) results)
     | None => []
     end.

Definition jira_case (index : nat) (tc : TestCaseObj) : jsstring :=
  lit "h2. Test Case " ++ show_nat (index + 1) ++ lit ": "
    ++ or_else (o_title tc) (lit "Untitled") ++ [nl; nl]
  ++ match o_description tc with
     | Some ((_ :: _) as d) => lit "*Description:* " ++ d ++ [nl; nl]
     | _ => []
     end
  ++ match o_steps tc with
     | Some steps =>
         lit "h3. Steps:" ++ [nl]
         ++ concat (map (fun step => lit "# " ++ step ++ [nl]) steps)
         ++ [nl]
     | None => []
     end
  ++ match o_expected_results tc with
     | Some results =>
         lit "h3. Expected Results:" ++ [nl]
         ++ concat (map (fun result => lit "* " ++ result ++ [nl]) results)
     | None => []
     end.

Definition html_case (index : nat) (tc : TestCaseObj) : jsstring :=
  lit "<h2>Test Case " ++ show_nat (index + 1) ++ lit ": "
    ++ escapeHtml (Some (or_else (o_title tc) (lit "Untitled"))) ++ lit "</h2>" ++ [nl; nl]
  ++ match o_description tc with
     | Some ((_ :: _) as d) =>
         lit "<p><strong>Description:</strong> " ++ escapeHtml (Some d) ++ lit "</p>" ++ [nl; nl]
     | _ => []
     end
  ++ match o_steps tc with
     | Some steps =>
         lit "<h3>Steps:</h3>" ++ [nl] ++ lit "<ol>"
         ++ concat (map (fun step => lit "<li>" ++ escapeHtml (Some step) ++ lit "</li>" ++ [nl]) steps)
         ++ lit "</ol>" ++ [nl; nl]
     | None => []
     end
  ++ match o_expected_results tc with
     | Some results =>
         lit "<h3>Expected Results:</h3>" ++ [nl] ++ lit "<ul>"
         ++ concat (map (fun result => lit "<li>" ++ escapeHtml (Some result) ++ lit "</li>" ++ [nl]) results)
         ++ lit "</ul>"
     | None => []
     end.

Section WithBuiltins.

(** [JSON.parse] ([None] when it throws), [JSON.stringify(v, null, 2)] and
    [String.prototype.toLowerCase] are built-ins of the host; the export
    functions are stated over them. *)
Variable JSON_parse : jsstring -> option JsValue.
Variable JSON_stringify : JsValue -> jsstring.
Variable toLowerCase : jsstring -> jsstring.

(** The three formatters, on the values they are given by
    [exportTestCases]: a text, an array of test-case objects, or another
    object.  A call with [undefined] or [null], and an array with a [null]
    element, end in a TypeError in the source; the clause for [VUndefined]
    below is no run of the program, and the formatters that may throw are
    in [ExportJson]. *)
Definition formatAsMarkdown (testCases : JsValue) : jsstring :=
  match testCases with
  | VString s => s
  | VArray l => join [nl; nl] (mapi md_case l)
  | VObject (VArray l) => join [nl; nl] (mapi md_case l)
  | _ => lit "```json" ++ [nl] ++ JSON_stringify testCases ++ [nl] ++ lit "```"
  end.

Definition formatAsJira (testCases : JsValue) : jsstring :=
  match testCases with
  | VString s => s
  | VArray l => join [nl; nl] (mapi jira_case l)
  | VObject (VArray l) => join [nl; nl] (mapi jira_case l)
  | _ => lit "{code:json}" ++ [nl] ++ JSON_stringify testCases ++ [nl] ++ lit "{code}"
  end.

Definition formatAsHtml (testCases : JsValue) : jsstring :=
  match testCases with
  | VString s => lit "<pre>" ++ escapeHtml (Some s) ++ lit "</pre>"
  | VArray l => join [nl; nl] (mapi html_case l)
  | VObject (VArray l) => join [nl; nl] (mapi html_case l)
  | _ => lit "<pre><code>" ++ escapeHtml (Some (JSON_stringify testCases)) ++ lit "</code></pre>"
  end.

(** [exportTestCases(testCases, format = 'markdown')]; [format] is a
    string or is left out ([None]). *)
Definition exportTestCases (testCases : JsValue) (format : option jsstring) : jsstring :=
  match testCases with
  | VUndefined | VString [] => []
  | _ =>
      let testCaseData :=
        match testCases with
        | VString s =>
            if startsWith (trim s) (lit "{") || startsWith (trim s) (lit "[")
            then match JSON_parse s with Some v => v | None => testCases end
            else testCases
        | _ => testCases
        end in
      let format := match format with Some f => f | None => lit "markdown" end in
      let f := toLowerCase format in
      if str_eqb f (lit "markdown") then formatAsMarkdown testCaseData
      else if str_eqb f (lit "jira") then formatAsJira testCaseData
      else if str_eqb f (lit "html") then formatAsHtml testCaseData
      else formatAsMarkdown testCaseData
  end.

End WithBuiltins.

End ExportUtils.

(** ** The fallback generator ([testCaseApi.js]) *)

(** The request: both fields may be missing ([None]). *)
Record Payload := {
  description : option jsstring;
  acceptance_criteria : option jsstring
}.

Module Fallback.

(** Pattern: "/[.,\/#!$%\^&\*;:{}=\-_`~()]/g" *)
Definition re_punctuation : regex :=
  RClass false (map CChar (lit ".,/#!$%^&*;:{}=-_`~()")).

(** Pattern: "/\s{2,}/g" *)
Definition re_spaces : regex := RRep 2 None true r_space.

(** Pattern: "/[a-zA-Z0-9]/" *)
Definition re_alnum : regex :=
  RClass false [CRange (ch "a") (ch "z"); CRange (ch "A") (ch "Z"); CRange (ch "0") (ch "9")].

Definition commonWords : list jsstring := map lit [
  "a"; "an"; "the"; "and"; "or"; "but"; "is"; "are"; "was"; "were";
  "be"; "been"; "being"; "to"; "of"; "for"; "with"; "by"; "about";
  "against"; "between"; "into"; "through"; "during"; "before"; "after";
  "above"; "below"; "from"; "up"; "down"; "in"; "out"; "on"; "off";
  "over"; "under"; "again"; "further"; "then"; "once"; "here"; "there";
  "when"; "where"; "why"; "how"; "all"; "any"; "both"; "each"; "few";
  "more"; "most"; "other"; "some"; "such"; "no"; "nor"; "not"; "only";
  "own"; "same"; "so"; "than"; "too"; "very"; "s"; "t"; "can"; "will";
  "just"; "don"; "should"; "now"; "that"; "this"; "these"; "those"
]%string.

Definition includes (l : list jsstring) (w : jsstring) : bool :=
  existsb (str_eqb w) l.

(** [[...new Set(l)]]: first occurrences, in order. *)
Fixpoint unique_aux (seen : list jsstring) (l : list jsstring) : list jsstring :=
  match l with
  | [] => []
  | w :: l' =>
      if includes seen w then unique_aux seen l'
      else w :: unique_aux (w :: seen) l'
  end.

Definition unique (l : list jsstring) : list jsstring := unique_aux [] l.

(** [arr.slice(-3)] *)
Definition last3 {A : Type} (l : list A) : list A :=
  drop (length l - 3) l.

Section WithLowerCase.

Variable toLowerCase : jsstring -> jsstring.

Definition extractKeywords (text : jsstring) : list jsstring :=
  let cleanText :=
    replace_all no_flags re_spaces (lit " ")
      (replace_all no_flags re_punctuation [] (toLowerCase text)) in
  let words := split_char (ch " ") cleanText in
  let keywords :=
    List.filter (fun word => Nat.ltb 3 (length word) && negb (includes commonWords word)) words in
  unique keywords.

(** [keywords[i] || dflt] *)
Definition keyword_or (keywords : list jsstring) (i : nat) (dflt : jsstring) : jsstring :=
  or_else (keywords !! i) dflt.

Definition keep_ac_line (line : jsstring) : bool :=
  if negb (truthy line) then false
  else if str_eqb line (lit "-") || str_eqb line (lit "*") || str_eqb line [bullet]
          || str_eqb line (lit ">") || str_eqb line (lit "#") then false
  else if Nat.leb (length line) 2 && negb (js_test no_flags re_alnum line) then false
  else if (startsWith line (lit "-") || startsWith line (lit "*") || startsWith line [bullet])
          && Nat.leb (length line) 3 then false
  else true.

Definition basic_case (feature detail : jsstring) : jsstring :=
  unlines [
    lit "Test Case 1: Verify " ++ feature ++ lit " Basic Functionality";
    lit "Description: This test case verifies the basic functionality described in the user story.";
    [];
    lit "Steps:";
    lit "1. Log in to the system as a user with appropriate permissions";
    lit "2. Navigate to the " ++ feature ++ lit " section";
    lit "3. Verify that the " ++ detail ++ lit " is available";
    lit "4. Attempt to use the " ++ feature ++ lit " with valid inputs";
    lit "5. Verify the results match the expected behavior";
    [];
    lit "Expected Results:";
    lit "- The " ++ feature ++ lit " is accessible to authorized users";
    lit "- The " ++ detail ++ lit " works as described in the user story";
    lit "- The system displays appropriate feedback after the action is completed";
    []
  ].

Definition criterion_case (feature : jsstring) (index : nat) (line : jsstring) : jsstring :=
  let acKeywords := extractKeywords line in
  let acFeature := keyword_or acKeywords 0 feature in
  let condition := keyword_or acKeywords 1 (lit "condition") in
  let behavior := join (lit " ") (last3 (split_char (ch " ") line)) in
  let testCaseTitle :=
    lit "Verify " ++ acFeature ++ lit " " ++ condition ++ lit " " ++ behavior in
  unlines [
    [];
    lit "Test Case " ++ show_nat (index + 2) ++ lit ": " ++ testCaseTitle;
    lit "Description: This test case verifies the acceptance criteria: " ++ dquote ++ line ++ dquote;
    [];
    lit "Steps:";
    lit "1. Log in to the system as a user with appropriate permissions";
    lit "2. Navigate to the " ++ acFeature ++ lit " section";
    lit "3. Set up the test conditions for testing " ++ dquote ++ line ++ dquote;
    lit "4. Perform the actions necessary to test this specific acceptance criteria";
    lit "5. Verify that the " ++ acFeature ++ lit " behaves as expected";
    [];
    lit "Expected Results:";
    lit "- The acceptance criteria " ++ dquote ++ line ++ dquote ++ lit " is fully satisfied";
    lit "- The " ++ acFeature ++ lit " behaves correctly under the test conditions";
    lit "- The system provides appropriate feedback or results";
    []
  ].

(** The array [testCases] that [generateFallbackTestCases] builds. *)
Definition fallbackBlocks (payload : Payload) : list jsstring :=
  let description := or_else (description payload) [] in
  let acceptanceCriteria := or_else (acceptance_criteria payload) [] in
  let keywords := extractKeywords (description ++ lit " " ++ acceptanceCriteria) in
  let feature := keyword_or keywords 0 (lit "feature") in
  let detail := keyword_or keywords 1 (lit "functionality") in
  let acLines := List.filter keep_ac_line (map trim (split_char nl acceptanceCriteria)) in
  basic_case feature detail :: mapi (criterion_case feature) acLines.

Definition generateFallbackTestCases (payload : Payload) : jsstring :=
  join [nl] (fallbackBlocks payload).

End WithLowerCase.

End Fallback.

Arguments Fallback.generateFallbackTestCases toLowerCase payload : simpl never.

(** ** The job store and the orchestrator ([storage.js], [testCaseApi.js]) *)

Module Orchestrator.

Inductive Status := pending | processing | completed | failed.

Definition status_eqb (a b : Status) : bool :=
  match a, b with
  | pending, pending | processing, processing
  | completed, completed | failed, failed => true
  | _, _ => false
  end.

(** A job record as it is kept in the store.  Properties that an object
    may lack are optional; [result] is [VUndefined] until it is set. *)
Record Job := {
  status : Status;
  payload : Payload;
  startTime : Z;
  timeoutAt : Z;
  result : JsValue;
  timedOut : option bool;
  completionTime : option Z;
  error : option jsstring
}.

(** An exception value: [error.name] and [error.message]. *)
Record JsError := { name : jsstring; message : jsstring }.

(** [new Error(msg)] *)
Definition Error (msg : jsstring) : JsError := {| name := lit "Error"; message := msg |}.

(** How an awaited call of the host ends. *)
Inductive outcome (A : Type) :=
| Ok (a : A)
| Threw (e : JsError).
Arguments Ok {A} a.
Arguments Threw {A} e.

(** The backend's JSON reply and the HTTP response that carries it. *)
Record ApiResult := {
  success : bool;
  api_error : option jsstring;
  test_cases : JsValue
}.

Record Response := {
  ok : bool;
  http_status : nat;
  statusText : jsstring;
  text : outcome jsstring;      (* await response.text() *)
  json : outcome ApiResult      (* await response.json() *)
}.

(** Asynchronous code as a tree of requests to the host: each constructor
    with a continuation is one [await] (or one reading of the clock or of
    the random source), answered by the host. *)
Inductive Prog (A : Type) : Type :=
| Ret (a : A)
| Throw (e : JsError)
| StorageGet (key : jsstring) (k : outcome (option Job) -> Prog A)
| StorageSet (key : jsstring) (value : Job) (k : outcome unit -> Prog A)
| StorageDelete (key : jsstring) (k : outcome unit -> Prog A)
| StorageQuery (prefix : jsstring) (k : outcome (list (jsstring * Job)) -> Prog A)
| DateNow (k : Z -> Prog A)
| RandomSuffix (k : jsstring -> Prog A)
| Fetch (request : Payload) (k : outcome Response -> Prog A)
| Spawn (task : Prog unit) (k : Prog A).
Arguments Ret {A} a.
Arguments Throw {A} e.
Arguments StorageGet {A} key k.
Arguments StorageSet {A} key value k.
Arguments StorageDelete {A} key k.
Arguments StorageQuery {A} prefix k.
Arguments DateNow {A} k.
Arguments RandomSuffix {A} k.
Arguments Fetch {A} request k.
Arguments Spawn {A} task k.

Fixpoint bind {A B : Type} (p : Prog A) (f : A -> Prog B) : Prog B :=
  match p with
  | Ret a => f a
  | Throw e => Throw e
  | StorageGet key k => StorageGet key (fun o => bind (k o) f)
  | StorageSet key v k => StorageSet key v (fun o => bind (k o) f)
  | StorageDelete key k => StorageDelete key (fun o => bind (k o) f)
  | StorageQuery pre k => StorageQuery pre (fun o => bind (k o) f)
  | DateNow k => DateNow (fun t => bind (k t) f)
  | RandomSuffix k => RandomSuffix (fun r => bind (k r) f)
  | Fetch rq k => Fetch rq (fun o => bind (k o) f)
  | Spawn task k => Spawn task (bind k f)
  end.

(** [try { p } catch (e) { h e }] *)
Fixpoint try_catch {A : Type} (p : Prog A) (h : JsError -> Prog A) : Prog A :=
  match p with
  | Ret a => Ret a
  | Throw e => h e
  | StorageGet key k => StorageGet key (fun o => try_catch (k o) h)
  | StorageSet key v k => StorageSet key v (fun o => try_catch (k o) h)
  | StorageDelete key k => StorageDelete key (fun o => try_catch (k o) h)
  | StorageQuery pre k => StorageQuery pre (fun o => try_catch (k o) h)
  | DateNow k => DateNow (fun t => try_catch (k t) h)
  | RandomSuffix k => RandomSuffix (fun r => try_catch (k r) h)
  | Fetch rq k => Fetch rq (fun o => try_catch (k o) h)
  | Spawn task k => Spawn task (try_catch k h)
  end.

#[global] Instance Prog_ret : MRet Prog := @Ret.
#[global] Instance Prog_bind : MBind Prog := fun A B f p => bind p f.

(** [await e]: the value of a resolved promise, or the rejection rethrown. *)
Definition await {A : Type} (o : outcome A) : Prog A :=
  match o with
  | Ok a => Ret a
  | Threw e => Throw e
  end.

(** *** [storage.js] *)

Definition job_key (jobId : jsstring) : jsstring := lit "job_" ++ jobId.

Definition storeJob (jobId : jsstring) (jobData : Job) : Prog unit :=
  try_catch (StorageSet (job_key jobId) jobData await) (fun error => Throw error).

Definition getJob (jobId : jsstring) : Prog (option Job) :=
  try_catch (StorageGet (job_key jobId) await) (fun error => Throw error).

Definition updateJob (jobId : jsstring) (jobData : Job) : Prog unit :=
  try_catch (StorageSet (job_key jobId) jobData await) (fun error => Throw error).

Definition deleteJob (jobId : jsstring) : Prog unit :=
  try_catch (StorageDelete (job_key jobId) await) (fun error => Throw error).

(** [jobs.sort((a, b) => a.value.startTime - b.value.startTime)]: a stable
    sort, oldest first.  The jobs are inserted from the last to the first,
    each before the jobs that do not start earlier, so jobs with the same
    [startTime] keep their order. *)
Fixpoint insert_by_start (x : jsstring * Job) (l : list (jsstring * Job)) : list (jsstring * Job) :=
  match l with
  | [] => [x]
  | y :: l' =>
      if (startTime (snd x) <=? startTime (snd y))%Z then x :: l
      else y :: insert_by_start x l'
  end.

Definition sort_by_start (l : list (jsstring * Job)) : list (jsstring * Job) :=
  foldr (fun x acc => insert_by_start x acc) [] l.

Fixpoint for_each {A : Type} (l : list A) (body : A -> Prog unit) : Prog unit :=
  match l with
  | [] => Ret tt
  | x :: l' => body x ;; for_each l' body
  end.

(** [cleanupOldJobs(maxJobs = 10)].  The query is one request to the host;
    in [storage.js] its argument uses [startsWith], a name the file does
    not import, so there the request always ends in [Threw]. *)
Definition cleanupOldJobs (maxJobs : nat) : Prog unit :=
  try_catch
    (jobs ← StorageQuery (lit "job_") await;
     let jobs := sort_by_start jobs in
     if Nat.ltb maxJobs (length jobs) then
       let jobsToDelete := take (length jobs - maxJobs) jobs in
       for_each jobsToDelete (fun job =>
         let jobId := replace_first no_flags (rstr "job_") [] (fst job) in
         deleteJob jobId)
     else Ret tt)
    (fun error => Ret tt).

(** *** [testCaseApi.js] *)

(** The reply of [startTestCaseGenerationJob]. *)
Record StartReply := { started : bool; jobId : jsstring }.

(** The reply of [getJobStatus]; [None] stands for a property that the
    reply does not have. *)
Record StatusView := {
  v_success : bool;
  v_status : option Status;
  v_result : JsValue;
  v_timedOut : option bool;
  v_error : option jsstring
}.

(** [!x] on an optional string property. *)
Definition falsy (x : option jsstring) : bool :=
  match x with
  | Some (_ :: _) => false
  | _ => true
  end.

(** Truthiness of a value. *)
Definition truthy_value (v : JsValue) : bool :=
  match v with
  | VUndefined | VString [] => false
  | _ => true
  end.

(** The two canned records of [generateDirectTestCases]. *)
Definition formatErrorCases : JsValue :=
  VObject (VArray [ {|
    o_title := Some (lit "API Response Format Error");
    o_description := Some (lit "The API response format was unexpected. Please check the backend logs.");
    o_steps := Some [lit "Contact system administrator"];
    o_expected_results := Some [lit "Issue resolved"];
    o_expectedResult := None |} ]).

Definition errorCases (e : JsError) : JsValue :=
  VObject (VArray [ {|
    o_title := Some (lit "Error Generating Test Cases");
    o_description := Some (lit "An error occurred: " ++ message e);
    o_steps := Some [lit "Check backend server is running";
                     lit "Check network connectivity";
                     lit "Review logs for details"];
    o_expected_results := Some [lit "Issue resolved"];
    o_expectedResult := None |} ]).

(** [generateDirectTestCases(payload)]: one request to the backend, cut
    off by an abort signal after 45 seconds. *)
Definition generateDirectTestCases (payload : Payload) : Prog JsValue :=
  try_catch
    (response ← Fetch payload await;
     if negb (ok response) then
       errorText ← await (text response);
       Throw (Error (lit "API request failed: " ++ show_nat (http_status response) ++ lit " "
                     ++ statusText response ++ [nl] ++ errorText))
     else
       result ← await (json response);
       if negb (success result) then
         Throw (Error (or_else (api_error result) (lit "API request failed")))
       else if truthy_value (test_cases result) then Ret (test_cases result)
       else Ret formatErrorCases)
    (fun error =>
       if str_eqb (name error) (lit "AbortError") then
         Throw (Error (lit "API request timed out"))
       else Ret (errorCases error)).

(** One entry of [formatJsonTestCases]. *)
Definition json_case (index : nat) (tc : TestCaseObj) : jsstring :=
  lit "Test Case " ++ show_nat (index + 1) ++ lit ": "
    ++ or_else (o_title tc) (lit "Untitled") ++ [nl]
  ++ match o_description tc with
     | Some ((_ :: _) as d) => lit "Description: " ++ d ++ [nl; nl]
     | _ => []
     end
  ++ match o_steps tc with
     | Some steps =>
         lit "Steps:" ++ [nl]
         ++ concat (mapi (fun stepIndex step => show_nat (stepIndex + 1) ++ lit ". " ++ step ++ [nl]) steps)
         ++ [nl]
     | None => []
     end
  ++ match o_expected_results tc with
     | Some results =>
         lit "Expected Results:" ++ [nl]
         ++ concat (map (fun result => lit "- " ++ result ++ [nl]) results)
     | None => []
     end.

Section WithBuiltins.

Variable JSON_parse : jsstring -> option JsValue.
Variable JSON_stringify : JsValue -> jsstring.
Variable toLowerCase : jsstring -> jsstring.

Definition generateFallbackTestCases : Payload -> jsstring :=
  Fallback.generateFallbackTestCases toLowerCase.

Definition formatJsonTestCases (testCases : JsValue) : jsstring :=
  match testCases with
  | VArray l => join [nl; nl] (mapi json_case l)
  | _ => JSON_stringify testCases
  end.

(** The [try] block of [generateTestCasesAsync] that reformats a JSON
    reply; anything that fails to parse is kept as it came. *)
Definition reformat_json (testCases : JsValue) : JsValue :=
  match testCases with
  | VString s =>
      if startsWith (trim s) (lit "{") then
        match JSON_parse s with
        | Some (VObject tc) =>
            if truthy_value tc then VString (formatJsonTestCases tc) else testCases
        | _ => testCases
        end
      else testCases
  | _ => testCases
  end.

(** [{...job, status: 'processing'}] and the other spreads. *)
Definition set_processing (job : Job) : Job :=
  {| status := processing; payload := payload job; startTime := startTime job;
     timeoutAt := timeoutAt job; result := result job; timedOut := timedOut job;
     completionTime := completionTime job; error := error job |}.

Definition set_completed (job : Job) (res : JsValue) (now : Z) : Job :=
  {| status := completed; payload := payload job; startTime := startTime job;
     timeoutAt := timeoutAt job; result := res; timedOut := timedOut job;
     completionTime := Some now; error := error job |}.

Definition set_timed_out (job : Job) (res : JsValue) (now : Z) : Job :=
  {| status := completed; payload := payload job; startTime := startTime job;
     timeoutAt := timeoutAt job; result := res; timedOut := Some true;
     completionTime := Some now; error := error job |}.

Definition set_failed (job : Job) (msg : jsstring) (now : Z) : Job :=
  {| status := failed; payload := payload job; startTime := startTime job;
     timeoutAt := timeoutAt job; result := result job; timedOut := timedOut job;
     completionTime := Some now; error := Some msg |}.

(** The outer [catch] block of [generateTestCasesAsync]. *)
Definition record_failure (jobId : jsstring) (error : JsError) : Prog unit :=
  try_catch
    (job ← getJob jobId;
     match job with
     | Some job =>
         now ← DateNow Ret;
         updateJob jobId (set_failed job (message error) now)
     | None => Ret tt
     end)
    (fun storageError => Ret tt).

(** [generateTestCasesAsync(jobId, payload)].  [updateTokenUsageStats]
    only logs and swallows its own errors; it touches neither the store
    nor the job and is not represented. *)
Definition generateTestCasesAsync (jobId : jsstring) (payload : Payload) : Prog unit :=
  try_catch
    (job ← getJob jobId;
     match job with
     | None => Ret tt
     | Some job =>
         updateJob jobId (set_processing job);;
         try_catch
           (testCases ← generateDirectTestCases payload;
            let parsedTestCases := reformat_json testCases in
            now ← DateNow Ret;
            updateJob jobId (set_completed job parsedTestCases now))
           (fun timeoutError =>
              let fallbackTestCases := generateFallbackTestCases payload in
              now ← DateNow Ret;
              updateJob jobId (set_timed_out job (VString fallbackTestCases) now));;
         cleanupOldJobs 10
     end)
    (fun error => record_failure jobId error).

(** [startTestCaseGenerationJob(payload)] *)
Definition startTestCaseGenerationJob (payload : Payload) : Prog StartReply :=
  try_catch
    (if falsy (description payload) || falsy (acceptance_criteria payload) then
       Throw (Error (lit "Missing required fields: description and acceptance_criteria"))
     else
       t0 ← DateNow Ret;
       suffix ← RandomSuffix Ret;
       let jobId := lit "job_" ++ show_Z t0 ++ lit "_" ++ suffix in
       t1 ← DateNow Ret;
       t2 ← DateNow Ret;
       let jobData :=
         {| status := pending; payload := payload; startTime := t1;
            timeoutAt := (t2 + 60000)%Z; result := VUndefined; timedOut := None;
            completionTime := None; error := None |} in
       storeJob jobId jobData;;
       Spawn (generateTestCasesAsync jobId payload)
         (Ret {| started := true; jobId := jobId |}))
    (fun error => Throw error).

Definition view_plain (st : Status) : StatusView :=
  {| v_success := true; v_status := Some st; v_result := VUndefined;
     v_timedOut := None; v_error := None |}.

Definition view_completed (res : JsValue) (timed : bool) : StatusView :=
  {| v_success := true; v_status := Some completed; v_result := res;
     v_timedOut := Some timed; v_error := None |}.

Definition view_failed (err : option jsstring) : StatusView :=
  {| v_success := false; v_status := Some failed; v_result := VUndefined;
     v_timedOut := None; v_error := err |}.

Definition view_error (msg : jsstring) : StatusView :=
  {| v_success := false; v_status := None; v_result := VUndefined;
     v_timedOut := None; v_error := Some msg |}.

(** What [getJobStatus] answers when the job has not just timed out. *)
Definition current_view (job : Job) : StatusView :=
  match status job with
  | completed => view_completed (result job) (default false (timedOut job))
  | failed => view_failed (error job)
  | st => view_plain st
  end.

(** [getJobStatus(jobId)] *)
Definition getJobStatus (jobId : jsstring) : Prog StatusView :=
  try_catch
    (job ← getJob jobId;
     match job with
     | None => Ret (view_error (lit "Job not found"))
     | Some job =>
         if status_eqb (status job) processing && negb (timeoutAt job =? 0)%Z then
           now ← DateNow Ret;
           if (timeoutAt job <? now)%Z then
             let fallbackTestCases := generateFallbackTestCases (payload job) in
             now' ← DateNow Ret;
             updateJob jobId (set_timed_out job (VString fallbackTestCases) now');;
             Ret (view_completed (VString fallbackTestCases) true)
           else Ret (current_view job)
         else Ret (current_view job)
     end)
    (fun error => Ret (view_error (lit "Error getting job status: " ++ message error))).

End WithBuiltins.

End Orchestrator.

Arguments Orchestrator.record_failure jobId error : simpl never.
Arguments Orchestrator.cleanupOldJobs maxJobs : simpl never.

(** ** The host: answers to requests, and interleaved execution *)

Module Host.
Import Orchestrator.

(** What the host answers to one request of a program. *)
Inductive answer :=
| AStorage (fault : option JsError)   (* a storage request is served, or rejected with an error *)
| AClock (now : Z)                    (* Date.now() *)
| ARandom (suffix : jsstring)         (* Math.random().toString(36).substring(2, 9) *)
| AFetch (r : outcome Response)       (* api.fetch and the reading of the body *)
| ASpawn.                             (* an async call that is not awaited *)

Definition serve {A : Type} (fault : option JsError) (a : A) : outcome A :=
  match fault with
  | None => Ok a
  | Some e => Threw e
  end.

Definition query (prefix : jsstring) (st : gmap jsstring Job) : list (jsstring * Job) :=
  List.filter (fun kv => startsWith (fst kv) prefix) (map_to_list st).

(** One request of [p], answered by [a] against the store [st]: the rest
    of the program, the store afterwards and the tasks started. *)
Definition step {A : Type} (p : Prog A) (a : answer) (st : gmap jsstring Job)
  : option (Prog A * gmap jsstring Job * list (Prog unit)) :=
  match p, a with
  | StorageGet key k, AStorage fault => Some (k (serve fault (st !! key)), st, [])
  | StorageSet key v k, AStorage fault =>
      Some (k (serve fault tt), match fault with None => <[key := v]> st | Some _ => st end, [])
  | StorageDelete key k, AStorage fault =>
      Some (k (serve fault tt), match fault with None => delete key st | Some _ => st end, [])
  | StorageQuery prefix k, AStorage fault => Some (k (serve fault (query prefix st)), st, [])
  | DateNow k, AClock now => Some (k now, st, [])
  | RandomSuffix k, ARandom suffix => Some (k suffix, st, [])
  | Fetch _ k, AFetch r => Some (k r, st, [])
  | Spawn task k, ASpawn => Some (k, st, [task])
  | _, _ => None
  end.

(** [exec p answers st]: [p] makes [length answers] requests in a row. *)
Fixpoint exec {A : Type} (p : Prog A) (answers : list answer) (st : gmap jsstring Job)
  : option (Prog A * gmap jsstring Job * list (Prog unit)) :=
  match answers with
  | [] => Some (p, st, [])
  | a :: answers' =>
      match step p a st with
      | Some (p', st', started) =>
          match exec p' answers' st' with
          | Some (p'', st'', started') => Some (p'', st'', started ++ started')
          | None => None
          end
      | None => None
      end
  end.

Definition finished {A : Type} (p : Prog A) : option (outcome A) :=
  match p with
  | Ret a => Some (Ok a)
  | Throw e => Some (Threw e)
  | _ => None
  end.

(** [run p answers st]: [p] runs to its end on exactly these answers. *)
Definition run {A : Type} (p : Prog A) (answers : list answer) (st : gmap jsstring Job)
  : option (outcome A * gmap jsstring Job * list (Prog unit)) :=
  match exec p answers st with
  | Some (p', st', started) =>
      match finished p' with
      | Some o => Some (o, st', started)
      | None => None
      end
  | None => None
  end.

(** *** Several invocations sharing the store *)

Inductive proc :=
| PStart (p : Prog StartReply)
| PStatus (p : Prog StatusView)
| PTask (p : Prog unit).

Record Sys := { store : gmap jsstring Job; procs : list proc }.

(** The error with which the backend call fails, if it fails: the fetch is
    rejected (by the abort signal or otherwise), the response is not [ok],
    its body cannot be read, or the reply says [success: false]. *)
Definition generation_failure (r : outcome Response) : option JsError :=
  match r with
  | Threw e => Some e
  | Ok response =>
      if negb (ok response) then
        match text response with
        | Threw e => Some e
        | Ok errorText =>
            Some (Error (lit "API request failed: " ++ show_nat (http_status response)
                         ++ lit " " ++ statusText response ++ [nl] ++ errorText))
        end
      else
        match json response with
        | Threw e => Some e
        | Ok result =>
            if negb (success result)
            then Some (Error (or_else (api_error result) (lit "API request failed")))
            else None
        end
  end.

(** The requests of the background task up to its completing write, all
    served by the store, with the backend answering [r]. *)
Definition task_answers (r : outcome Response) (now : Z) : list answer :=
  [AStorage None; AStorage None; AFetch r; AClock now; AStorage None].

(** The store after a run of deletions: what is still there is unchanged. *)
Definition kept_from (st st' : gmap jsstring Job) : Prop :=
  forall k j, st' !! k = Some j -> st !! k = Some j.

(** The job stored under [key] once a run has got this far. *)
Definition job_after {A : Type} (key : jsstring)
    (r : option (Prog A * gmap jsstring Job * list (Prog unit))) : option Job :=
  match r with
  | Some (_, st, _) => st !! key
  | None => None
  end.

(** The two operations that callers invoke. *)
Inductive call :=
| CallStart (payload : Payload)
| CallStatus (jobId : jsstring).

Inductive action :=
| Invoke (c : call)                 (* a caller invokes an operation *)
| Advance (pid : nat) (a : answer). (* process [pid] gets the answer to its pending request *)

Definition step_proc (p : proc) (a : answer) (st : gmap jsstring Job)
  : option (proc * gmap jsstring Job * list (Prog unit)) :=
  match p with
  | PStart q => (fun '(q', st', ts) => (PStart q', st', ts)) <$> step q a st
  | PStatus q => (fun '(q', st', ts) => (PStatus q', st', ts)) <$> step q a st
  | PTask q => (fun '(q', st', ts) => (PTask q', st', ts)) <$> step q a st
  end.

Definition sys_init : Sys := {| store := ∅; procs := [] |}.

Definition terminal (job : Job) : bool :=
  status_eqb (status job) completed || status_eqb (status job) failed.

Section System.

Variable JSON_parse : jsstring -> option JsValue.
Variable JSON_stringify : JsValue -> jsstring.
Variable toLowerCase : jsstring -> jsstring.

Definition invoke (c : call) : proc :=
  match c with
  | CallStart payload =>
      PStart (startTestCaseGenerationJob JSON_parse JSON_stringify toLowerCase payload)
  | CallStatus jobId => PStatus (getJobStatus toLowerCase jobId)
  end.

Definition sys_step (act : action) (s : Sys) : option Sys :=
  match act with
  | Invoke c => Some {| store := store s; procs := procs s ++ [invoke c] |}
  | Advance pid a =>
      match procs s !! pid with
      | Some p =>
          match step_proc p a (store s) with
          | Some (p', st', ts) =>
              Some {| store := st'; procs := <[pid := p']> (procs s) ++ map PTask ts |}
          | None => None
          end
      | None => None
      end
  end.

Fixpoint sys_run (sched : list action) (s : Sys) : option Sys :=
  match sched with
  | [] => Some s
  | act :: sched' =>
      match sys_step act s with
      | Some s' => sys_run sched' s'
      | None => None
      end
  end.

(** The invariant of the specification, over all interleavings: once a
    stored job is [completed] or [failed], whatever happens next leaves its
    [result] as it is (the job may be deleted). *)
Definition terminal_results_immutable : Prop :=
  forall (sched1 sched2 : list action) (s1 s2 : Sys) (key : jsstring) (j1 j2 : Job),
    sys_run sched1 sys_init = Some s1 ->
    store s1 !! key = Some j1 ->
    terminal j1 = true ->
    sys_run sched2 s1 = Some s2 ->
    store s2 !! key = Some j2 ->
    result j2 = result j1.

End System.

End Host.

(** ** Notions used in the properties

    None of the following is code of the repository: these are the scans
    and predicates in which the properties of the parser are stated and
    proved. *)

(** *** Line contexts

    A scan of a text that follows the only way the fifth group of the
    structured pattern, "\n\s*-\s*Expected Result:", can start to match: a
    line feed, white space, a dash, white space and then an "E".  The scan
    stops with [None] as soon as an "E" is read in that position. *)

Inductive line_ctx :=
| Idle                  (* no line feed is pending *)
| AtLineStart           (* a line feed, then white space only *)
| AfterDash             (* ... then a dash, then white space other than line feeds *)
| AfterDashAtLineStart. (* ... then a dash, then white space with a line feed *)

Definition ctx_step (s : line_ctx) (a : char) : option line_ctx :=
  if char_eqb nl a then
    Some match s with
         | Idle | AtLineStart => AtLineStart
         | AfterDash | AfterDashAtLineStart => AfterDashAtLineStart
         end
  else if isWhiteSpace a then Some s
  else if char_eqb (ch "-") a then
    Some match s with
         | AtLineStart | AfterDashAtLineStart => AfterDash
         | Idle | AfterDash => Idle
         end
  else if char_eqb (ch "E") a then
    match s with
    | AfterDash | AfterDashAtLineStart => None
    | Idle | AtLineStart => Some Idle
    end
  else Some Idle.

Fixpoint scan (s : line_ctx) (t : jsstring) : option line_ctx :=
  match t with
  | [] => Some s
  | a :: t' =>
      match ctx_step s a with
      | Some s' => scan s' t'
      | None => None
      end
  end.

Definition no_dash_pending (s : line_ctx) : bool :=
  match s with Idle | AtLineStart => true | _ => false end.

(** [safe t]: read from a context without a pending dash, [t] ends in such
    a context again.  [settles t]: it ends in [Idle]. *)
Definition safe (t : jsstring) : Prop :=
  forall s, no_dash_pending s = true ->
    exists s', scan s t = Some s' /\ no_dash_pending s' = true.

Definition settles (t : jsstring) : Prop :=
  forall s, no_dash_pending s = true -> scan s t = Some Idle.

Definition safeb (t : jsstring) : bool :=
  match scan Idle t, scan AtLineStart t with
  | Some s1, Some s2 => no_dash_pending s1 && no_dash_pending s2
  | _, _ => false
  end.

Definition settlesb (t : jsstring) : bool :=
  match scan Idle t, scan AtLineStart t with
  | Some Idle, Some Idle => true
  | _, _ => false
  end.

(** The fifth group of [re_structured]. *)
Definition re_result_bullet : regex :=
  RGroup 5 (rseq [r_nl; star r_space; rstr "-"; star r_space; rstr "Expected Result:"]).

(** *** Paragraphs

    [split(/\n\s*\n/)] written out on the list of characters.  After a line
    feed, [blank_tail] is the length of what the rest of the pattern,
    "\s*\n", takes: the white space up to the last line feed of the run of
    white space that follows. *)

Fixpoint blank_tail (t : jsstring) : option nat :=
  match t with
  | [] => None
  | a :: t' =>
      if isWhiteSpace a then
        match blank_tail t' with
        | Some n => Some (S n)
        | None => if char_eqb nl a then Some 1%nat else None
        end
      else None
  end.

(** [cur] is the paragraph read so far, last character first; [skip]
    counts the characters of a separator that are still to be passed. *)
Fixpoint paragraphs_from (skip : nat) (cur : jsstring) (t : jsstring) : list jsstring :=
  match t with
  | [] => [rev cur]
  | a :: t' =>
      match skip with
      | S k => paragraphs_from k cur t'
      | O =>
          match (if char_eqb nl a then blank_tail t' else None) with
          | Some n => rev cur :: paragraphs_from n [] t'
          | None => paragraphs_from 0 (a :: cur) t'
          end
      end
  end.

Definition paragraphs (t : jsstring) : list jsstring := paragraphs_from 0 [] t.

(** *** Test cases in plain words

    A field is plain when it has no line feed and none of the characters
    "*", "-" and ":" that the patterns of the parser look for. *)

Definition plain_char (a : char) : Prop :=
  a <> nl /\ a <> ch "*" /\ a <> ch "-" /\ a <> ch ":".

Definition plain (s : jsstring) : Prop := Forall plain_char s.

(** A test case with a plain title, at least one step, plain steps, and a
    plain expected result that starts with a character other than white
    space. *)
Definition plain_case (tc : Parser.TestCase) : Prop :=
  plain (Parser.title tc)
  /\ Parser.steps tc <> []
  /\ Forall plain (Parser.steps tc)
  /\ plain (Parser.expectedResult tc)
  /\ exists e es, Parser.expectedResult tc = e :: es /\ isWhiteSpace e = false.

(** A colon directly after an "e" or a digit: what "Title:" and
    "Test Case 1:" end with.  [colon_scan b t] is false when [t] has one;
    [b] tells whether the character before [t] is an "e" or a digit. *)
Fixpoint colon_scan (after_e_or_digit : bool) (t : jsstring) : bool :=
  match t with
  | [] => true
  | a :: t' =>
      if char_eqb (ch ":") a then negb after_e_or_digit && colon_scan false t'
      else colon_scan (char_eqb (ch "e") a || isDigit a) t'
  end.

Definition colon_ok (t : jsstring) : Prop := colon_scan true t = true.

(** The three paragraphs of the markdown that [formatTestCases] writes for
    one test case. *)
Definition heading_paragraph (i : nat) (tc : Parser.TestCase) : jsstring :=
  lit "## " ++ show_nat (i + 1) ++ lit ". " ++ Parser.title tc.

Definition steps_paragraph (tc : Parser.TestCase) : jsstring :=
  lit "### Test Steps:"
  ++ nl :: join [nl] (mapi_from 0 Formatter.numbered_step (Parser.steps tc)).

Definition result_paragraph (tc : Parser.TestCase) : jsstring :=
  lit "### Expected Result:" ++ nl :: Parser.expectedResult tc.

(** ** Sample inputs *)

Module Samples.
Import Orchestrator.

(** A text with no test-case marker at all. *)
Definition plain_sentence : jsstring := lit "The login page should load quickly".

(** Model output whose fields carry markup. *)
Definition markup_text : jsstring := unlines [
  lit "**Test Case 1: <script>alert(1)</script>**";
  lit "Steps:";
  lit "1. Click <b>here</b>";
  lit "Expected Result: a > b"
].

Definition markup_case : Parser.TestCase := {|
  Parser.title := lit "<script>alert(1)</script>";
  Parser.steps := [lit "Click <b>here</b>"];
  Parser.expectedResult := lit "a > b"
|}.

(** One structured test case, in the parser's shape and in the shape the
    export functions read. *)
Definition login_case : Parser.TestCase := {|
  Parser.title := lit "Login";
  Parser.steps := [lit "Open page"; lit "Click"];
  Parser.expectedResult := lit "Dashboard shown"
|}.

Definition login_obj : TestCaseObj := {|
  o_title := Some (lit "Login");
  o_description := None;
  o_steps := Some [lit "Open page"; lit "Click"];
  o_expected_results := Some [lit "Shown"; lit "Ok"];
  o_expectedResult := None
|}.

Definition logout_obj : TestCaseObj := {|
  o_title := Some (lit "Logout");
  o_description := None;
  o_steps := Some [lit "Out"];
  o_expected_results := Some [lit "Bye"];
  o_expectedResult := None
|}.

(** Stand-ins for the two JSON built-ins in closed examples; none of the
    examples reaches a call of either. *)
Definition parse_none (s : jsstring) : option JsValue := None.
Definition stringify_none (v : JsValue) : jsstring := [].

Definition login_payload : Payload := {|
  description := Some (lit "User login with email and password");
  acceptance_criteria :=
    Some (unlines [lit "- User sees error on invalid password";
                   lit "- User redirected to dashboard on success"])
|}.

Definition login_job (st : Status) : Job := {|
  status := st; payload := login_payload; startTime := 1000; timeoutAt := 61000;
  result := VUndefined; timedOut := None; completionTime := None; error := None
|}.

Definition done_job : Job := {|
  status := completed; payload := login_payload; startTime := 1000; timeoutAt := 61000;
  result := VString (lit "1. Title: Login"); timedOut := None;
  completionTime := Some 30000%Z; error := None
|}.

(** A backend reply with generated text. *)
Definition real_text : jsstring :=
  unlines [lit "1. Title: Login"; lit " - Steps: open the page"; lit " - Expected Result: dashboard"].

Definition real_response : Response := {|
  ok := true; http_status := 200; statusText := lit "OK"; text := Ok [];
  json := Ok {| success := true; api_error := None; test_cases := VString real_text |}
|}.

Definition login_id : jsstring := lit "job_1000_abc1234".

(** A job is created at time 1000; the task (process 1) marks it
    [processing] and calls the backend. *)
Definition sched_created : list Host.action := [
  Host.Invoke (Host.CallStart login_payload);
  Host.Advance 0 (Host.AClock 1000); Host.Advance 0 (Host.ARandom (lit "abc1234"));
  Host.Advance 0 (Host.AClock 1000); Host.Advance 0 (Host.AClock 1000);
  Host.Advance 0 (Host.AStorage None); Host.Advance 0 Host.ASpawn;
  Host.Advance 1 (Host.AStorage None); Host.Advance 1 (Host.AStorage None)
].

(** A poll (process 2) reads the job while it is [processing]; then the
    backend reply arrives and the task stores the generated text. *)
Definition sched_poll_reads_task_completes : list Host.action :=
  sched_created ++ [
    Host.Invoke (Host.CallStatus login_id);
    Host.Advance 2 (Host.AStorage None);
    Host.Advance 1 (Host.AFetch (Ok real_response));
    Host.Advance 1 (Host.AClock 61000);
    Host.Advance 1 (Host.AStorage None)
  ].

(** The poll goes on: it reads the clock past the deadline and writes. *)
Definition sched_poll_writes : list Host.action := [
  Host.Advance 2 (Host.AClock 61001); Host.Advance 2 (Host.AClock 61001);
  Host.Advance 2 (Host.AStorage None)
].

(** The other order: a poll past the deadline completes the job with
    fallback text; then the backend reply arrives at the task. *)
Definition sched_poll_times_out : list Host.action :=
  sched_created ++ [
    Host.Invoke (Host.CallStatus login_id);
    Host.Advance 2 (Host.AStorage None);
    Host.Advance 2 (Host.AClock 62000); Host.Advance 2 (Host.AClock 62000);
    Host.Advance 2 (Host.AStorage None)
  ].

Definition sched_task_completes : list Host.action := [
  Host.Advance 1 (Host.AFetch (Ok real_response));
  Host.Advance 1 (Host.AClock 63000);
  Host.Advance 1 (Host.AStorage None)
].

Definition login_key : jsstring := job_key login_id.

Definition created_job : Job := {|
  status := pending; payload := login_payload; startTime := 1000; timeoutAt := 61000;
  result := VUndefined; timedOut := None; completionTime := None; error := None
|}.

(** The backend answers with HTTP status 500. *)
Definition error_response : Response := {|
  ok := false; http_status := 500; statusText := lit "Internal Server Error";
  text := Ok (lit "boom");
  json := Threw (Error (lit "Unexpected token"))
|}.

Definition pending_store : gmap jsstring Job := {[ login_key := created_job ]}.

Definition abort_error : JsError :=
  {| name := lit "AbortError"; message := lit "The operation was aborted" |}.

Definition store_error : JsError := Error (lit "storage unavailable").

(** A run of the background task in which the store refuses the write of
    the [processing] status: read, refused write, then the reads and
    writes of the failure handler. *)
Definition store_fault_answers : list Host.answer :=
  [Host.AStorage None; Host.AStorage (Some store_error); Host.AStorage None;
   Host.AClock 2000; Host.AStorage None].

(** Stores holding the one job, still running or already completed. *)
Definition processing_store : gmap jsstring Job :=
  {[ login_key := login_job processing ]}.

Definition done_store : gmap jsstring Job := {[ login_key := done_job ]}.

End Samples.


(** ** Issue intake ([testCaseApi.js]): the text of a Jira issue *)

Module Intake.
Import Orchestrator.

(** A node of the Atlassian Document Format, as far as the functions read
    it: [type], [text] and [content], each of which may be missing.
    [content] is an array when it is there, [text] a string. *)
#[warnings="-register-all"] Inductive AdfNode :=
| Node (type : option jsstring) (text : option jsstring) (content : option (list AdfNode)).

Definition node_type (n : AdfNode) : option jsstring := let 'Node t _ _ := n in t.
Definition node_text (n : AdfNode) : option jsstring := let 'Node _ x _ := n in x.
Definition node_content (n : AdfNode) : option (list AdfNode) := let 'Node _ _ c := n in c.

(** [node.type === t] *)
Definition has_type (t : string) (n : AdfNode) : bool :=
  match node_type n with
  | Some ty => str_eqb ty (lit t)
  | None => false
  end.

(** The argument of [extractTextFromADF]: nothing ([undefined], [null]),
    a string, or a document node. *)
Inductive AdfValue :=
| AdfMissing
| AdfString (s : jsstring)
| AdfDoc (doc : AdfNode).

(** [extractNodeText(node)]; [join] prints a missing [text] as the empty
    string. *)
Definition extractNodeText (node : AdfNode) : jsstring :=
  match node_content node with
  | None => []
  | Some content =>
      join (lit " ")
        (map (fun content => default [] (node_text content))
             (List.filter (has_type "text") content))
  end.

(** [extractListText(listNode)] *)
Definition extractListText (listNode : AdfNode) : jsstring :=
  match node_content listNode with
  | None => []
  | Some content =>
      join [nl]
        (map (fun item => lit "- " ++ extractNodeText item)
             (List.filter (has_type "listItem") content))
  end.

(** The body of the loop over [adf.content]: what one node adds to
    [text]. *)
Definition adf_node_text (node : AdfNode) : jsstring :=
  if has_type "paragraph" node && bool_decide (is_Some (node_content node))
  then extractNodeText node ++ [nl]
  else if has_type "bulletList" node || has_type "orderedList" node
  then extractListText node
  else [].

(** [extractTextFromADF(adf)] *)
Definition extractTextFromADF (adf : AdfValue) : jsstring :=
  match adf with
  | AdfMissing => []
  | AdfString s => s
  | AdfDoc doc =>
      let text :=
        match node_content doc with
        | Some content => fold_left (fun text node => text ++ adf_node_text node) content []
        | None => []
        end in
      trim text
  end.

Section WithLowerCase.

Variable toLowerCase : jsstring -> jsstring.

(** The two tests that [extractAcceptanceCriteria] makes on the
    lower-cased line. *)
Definition opens_section (line : jsstring) : bool :=
  let lowerLine := toLowerCase line in
  str_includes lowerLine (lit "acceptance criteria") || str_includes lowerLine (lit "ac:").

Definition closes_section (line : jsstring) : bool :=
  let lowerLine := toLowerCase line in
  str_includes lowerLine (lit "implementation") || str_includes lowerLine (lit "notes:").

(** The [for] loop of [extractAcceptanceCriteria], with its two variables
    [inAcSection] and [acLines]; [continue] and [break] as in the source. *)
Fixpoint ac_loop (lines : list jsstring) (inAcSection : bool) (acLines : list jsstring)
  : list jsstring :=
  match lines with
  | [] => acLines
  | line :: lines' =>
      if opens_section line then ac_loop lines' true acLines
      else
        let acLines := if inAcSection && truthy (trim line) then acLines ++ [line] else acLines in
        if inAcSection && closes_section line then acLines
        else ac_loop lines' inAcSection acLines
  end.

(** The array [acLines] when the loop is left. *)
Definition acceptanceLines (description : jsstring) : list jsstring :=
  ac_loop (split_char nl description) false [].

(** [extractAcceptanceCriteria(description)] *)
Definition extractAcceptanceCriteria (description : jsstring) : jsstring :=
  join [nl] (acceptanceLines description).

(** The issue as the Jira API returns it, as far as [fetchIssueDetails]
    reads it: an object with [fields], of which [fields.summary] is a
    string when it is there, [fields.description] is as
    [extractTextFromADF] takes it, and the other properties, in the order
    of [Object.keys], are strings or something else. *)
Inductive FieldValue :=
| FString (s : jsstring)
| FOther.

Record IssueData := {
  f_summary : option jsstring;
  f_description : AdfValue;
  f_others : list (jsstring * FieldValue)
}.

Record JiraResponse := {
  jira_ok : bool;
  jira_status : nat;
  jira_statusText : jsstring;
  jira_text : outcome jsstring;     (* await response.text() *)
  jira_json : outcome IssueData     (* await response.json() *)
}.

Record IssueDetails := {
  issue_summary : jsstring;
  issue_description : jsstring;
  issue_acceptanceCriteria : jsstring
}.

(** [data.fields.description ? extractTextFromADF(...) : ''] *)
Definition description_text (adf : AdfValue) : jsstring :=
  match adf with
  | AdfMissing | AdfString [] => []
  | _ => extractTextFromADF adf
  end.

(** The loop over the custom fields: the first one that is a non-empty
    string with "accept" in it, or the empty string. *)
Definition custom_criteria (fields : list (jsstring * FieldValue)) : jsstring :=
  let customFields := List.filter (fun kv => startsWith (fst kv) (lit "customfield_")) fields in
  let hit := List.find (fun kv =>
                match snd kv with
                | FString ((_ :: _) as v) => str_includes (toLowerCase v) (lit "accept")
                | _ => false
                end) customFields in
  match hit with
  | Some (_, FString v) => v
  | _ => []
  end.

(** What [fetchIssueDetails] makes of the issue once it has been read. *)
Definition issue_details (data : IssueData) : IssueDetails :=
  let summary := or_else (f_summary data) [] in
  let description := description_text (f_description data) in
  let acceptanceCriteria := custom_criteria (f_others data) in
  let acceptanceCriteria :=
    if negb (truthy acceptanceCriteria) && truthy description then
      let acSection := extractAcceptanceCriteria description in
      if truthy acSection then acSection else acceptanceCriteria
    else acceptanceCriteria in
  {| issue_summary := summary; issue_description := description;
     issue_acceptanceCriteria := acceptanceCriteria |}.

(** [fetchIssueDetails(issueKey)], given how [requestJira] ends; the
    [catch] block rethrows. *)
Definition fetchIssueDetails (response : outcome JiraResponse) : outcome IssueDetails :=
  match response with
  | Threw error => Threw error
  | Ok response =>
      if negb (jira_ok response) then
        match jira_text response with
        | Threw error => Threw error
        | Ok errorText =>
            Threw (Error (lit "Failed to fetch issue: " ++ show_nat (jira_status response)
                          ++ lit " " ++ jira_statusText response))
        end
      else
        match jira_json response with
        | Threw error => Threw error
        | Ok data => Ok (issue_details data)
        end
  end.

End WithLowerCase.

End Intake.

(** ** Further functions of [storage.js] and [testCaseApi.js] *)

Module OrchestratorExt.
Import Orchestrator.



(** The reply of the legacy [generateTestCases]. *)
Record LegacyReply := { l_success : bool; l_test_cases : jsstring }.

Definition legacy_text (jobId : jsstring) : jsstring :=
  unlines [
    [];
    lit "Test case generation has started in the background.";
    lit "Job ID: " ++ jobId;
    [];
    lit "Your detailed test cases are being generated and will be available shortly.";
    lit "Please check back in a few moments.";
    [];
    lit "In the meantime, here are some general test case guidelines:";
    lit "1. Test the main functionality described in the user story";
    lit "2. Test edge cases and error conditions";
    lit "3. Test with different input values";
    lit "4. Verify that all acceptance criteria are met";
    []
  ].

Section WithBuiltins.

Variable JSON_parse : jsstring -> option JsValue.
Variable JSON_stringify : JsValue -> jsstring.
Variable toLowerCase : jsstring -> jsstring.

(** [generateTestCases(payload)], the legacy entry point. *)
Definition generateTestCases (payload : Payload) : Prog LegacyReply :=
  try_catch
    (jobResult ← startTestCaseGenerationJob JSON_parse JSON_stringify toLowerCase payload;
     let jobId := jobId jobResult in
     Ret {| l_success := true; l_test_cases := legacy_text jobId |})
    (fun error => Throw error).

End WithBuiltins.

End OrchestratorExt.

(** ** Further notions used in the properties *)

(** The tags that [formatAsHtml] writes. *)
Definition export_tags : list jsstring := map lit [
  "<h2>"; "</h2>"; "<h3>"; "</h3>"; "<p>"; "</p>"; "<strong>"; "</strong>";
  "<ol>"; "</ol>"; "<ul>"; "</ul>"; "<li>"; "</li>";
  "<pre>"; "</pre>"; "<code>"; "</code>"
]%string.

(** The characters that delimit tags and attribute values. *)
Definition markup_char (a : char) : bool :=
  char_eqb a (ch "<") || char_eqb a (ch ">") || char_eqb a 34 || char_eqb a (ch "'").

(** [tags_only s]: [s] is made of the tags of [export_tags] and of
    characters that are not markup. *)
Inductive tags_only : jsstring -> Prop :=
| tags_only_nil : tags_only []
| tags_only_char (a : char) (s : jsstring) :
    markup_char a = false -> tags_only s -> tags_only (a :: s)
| tags_only_tag (t s : jsstring) :
    In t export_tags -> tags_only s -> tags_only (t ++ s).

(** What [escapeHtml] writes for one character. *)
Definition escape_char (a : char) : jsstring :=
  if char_eqb a (ch "&") then lit "&amp;"
  else if char_eqb a (ch "<") then lit "&lt;"
  else if char_eqb a (ch ">") then lit "&gt;"
  else if char_eqb a 34 then lit "&quot;"
  else if char_eqb a (ch "'") then lit "&#039;"
  else [a].

(** The characters that [extractKeywords] strips from the text. *)
Definition punctuation_chars : jsstring := lit ".,/#!$%^&*;:{}=-_`~()".

(** White space only. *)
Definition blank (s : jsstring) : Prop := Forall (fun a => isWhiteSpace a = true) s.

(** A text that is not empty and neither begins nor ends with white
    space. *)
Definition trimmed (s : jsstring) : Prop :=
  (exists a s', s = a :: s' /\ isWhiteSpace a = false)
  /\ (exists pre z, s = pre ++ [z] /\ isWhiteSpace z = false).

(** A run that ends in a value, not in an exception. *)
Definition returns {A : Type} (o : Orchestrator.outcome A) : Prop :=
  exists a, o = Orchestrator.Ok a.

(** The nodes at the top of a document that [extractTextFromADF] looks
    at. *)
Definition adf_readable (node : Intake.AdfNode) : bool :=
  Intake.has_type "paragraph" node || Intake.has_type "bulletList" node
  || Intake.has_type "orderedList" node.

(** A node without a text node directly under it. *)
Definition no_direct_text (node : Intake.AdfNode) : bool :=
  match Intake.node_content node with
  | Some content => forallb (fun child => negb (Intake.has_type "text" child)) content
  | None => true
  end.

(** [writes_only key p]: whatever the host answers, every write of [p] to
    the store goes to [key]; [p] may read, delete, ask the clock and the
    backend, and start tasks. *)
Inductive writes_only (key : jsstring) {A : Type} : Orchestrator.Prog A -> Prop :=
| wo_ret (a : A) : writes_only key (Orchestrator.Ret a)
| wo_throw (e : Orchestrator.JsError) : writes_only key (Orchestrator.Throw e)
| wo_get (k0 : jsstring) k :
    (forall o, writes_only key (k o)) -> writes_only key (Orchestrator.StorageGet k0 k)
| wo_set (value : Orchestrator.Job) k :
    (forall o, writes_only key (k o)) -> writes_only key (Orchestrator.StorageSet key value k)
| wo_delete (k0 : jsstring) k :
    (forall o, writes_only key (k o)) -> writes_only key (Orchestrator.StorageDelete k0 k)
| wo_query (prefix : jsstring) k :
    (forall o, writes_only key (k o)) -> writes_only key (Orchestrator.StorageQuery prefix k)
| wo_now k :
    (forall t, writes_only key (k t)) -> writes_only key (Orchestrator.DateNow k)
| wo_random k :
    (forall r, writes_only key (k r)) -> writes_only key (Orchestrator.RandomSuffix k)
| wo_fetch (request : Payload) k :
    (forall o, writes_only key (k o)) -> writes_only key (Orchestrator.Fetch request k)
| wo_spawn (task : Orchestrator.Prog unit) k :
    writes_only key k -> writes_only key (Orchestrator.Spawn task k).

(** ** Further sample inputs *)

Module MoreSamples.
Import Orchestrator Intake Samples.

(** A store with a second, completed job. *)
Definition other_id : jsstring := lit "job_900_zzz0000".

Definition two_job_store : gmap jsstring Job :=
  <[job_key other_id := done_job]> pending_store.

(** A description with a section of acceptance criteria and notes after
    it. *)
Definition story_lines : list jsstring :=
  [lit "As a user I want to log in"; lit "Acceptance Criteria:"; lit "- login works"].

Definition closing_line : jsstring := lit "Implementation notes".

Definition later_lines : list jsstring := [lit "- use the session cookie"].

(** A bullet list as Jira writes it: the text of the item is inside a
    paragraph. *)
Definition wrapped_item : AdfNode :=
  Node (Some (lit "listItem")) None
    (Some [Node (Some (lit "paragraph")) None
             (Some [Node (Some (lit "text")) (Some (lit "login works")) None])]).

End MoreSamples.

(** The number that a run of decimal digits stands for, read after the
    digits of [v]. *)
Definition read_digits (v : N) (s : jsstring) : N :=
  fold_left (fun acc a => (acc * 10 + (a - 48))%N) s v.

(** ** The HTML export on any JSON value ([testCaseParser.js])

    [ExportUtils] reads test cases whose properties are texts.  The HTML
    formatter is taken up again here for every value that [JSON.parse] can
    return or a caller can pass as data: an array may hold [null] or a
    number where a test case is expected, and a property may hold any
    value.  Where the source throws a TypeError, the functions return
    [None]. *)

Module ExportJson.

#[warnings="-register-all"] Inductive Json :=
| JNull
| JBool (b : bool)
| JNumber (n : Z)
| JString (s : jsstring)
| JArray (items : list Json)
| JObject (props : list (jsstring * Json)).

(** Truthiness of a value. *)
Definition truthy_json (v : Json) : bool :=
  match v with
  | JNull => false
  | JBool b => b
  | JNumber n => negb (n =? 0)%Z
  | JString s => truthy s
  | JArray _ | JObject _ => true
  end.

(** [v.name] for a value [v] other than [null] and one of the names that
    the formatter reads; [None] is [undefined].  [props] lists the
    properties that the object has, each name once.  A number, a boolean,
    a string and an array have none of these names. *)
Definition prop (name : string) (v : Json) : option Json :=
  match v with
  | JObject props => snd <$> List.find (fun kv => str_eqb (fst kv) (lit name)) props
  | _ => None
  end.

Definition truthy_prop (v : option Json) : bool :=
  match v with
  | Some v => truthy_json v
  | None => false
  end.

(** [escapeHtml(text)]: anything but a string gives the empty text. *)
Definition escapeHtml (text : option Json) : jsstring :=
  ExportUtils.escapeHtml
    match text with
    | Some (JString s) => Some s
    | _ => None
    end.

(** The callback of [testCases.map] in [formatAsHtml]; [tc.title] throws
    when [tc] is [null]. *)
Definition html_case (index : nat) (tc : Json) : option jsstring :=
  match tc with
  | JNull => None
  | _ =>
      Some
        (lit "<h2>Test Case " ++ show_nat (index + 1) ++ lit ": "
           ++ escapeHtml (if truthy_prop (prop "title" tc) then prop "title" tc
                          else Some (JString (lit "Untitled")))
           ++ lit "</h2>" ++ [nl; nl]
         ++ (if truthy_prop (prop "description" tc)
             then lit "<p><strong>Description:</strong> "
                    ++ escapeHtml (prop "description" tc) ++ lit "</p>" ++ [nl; nl]
             else [])
         ++ match prop "steps" tc with
            | Some (JArray steps) =>
                lit "<h3>Steps:</h3>" ++ [nl] ++ lit "<ol>"
                ++ concat (map (fun step => lit "<li>" ++ escapeHtml (Some step)
                                            ++ lit "</li>" ++ [nl]) steps)
                ++ lit "</ol>" ++ [nl; nl]
            | _ => []
            end
         ++ match prop "expected_results" tc with
            | Some (JArray results) =>
                lit "<h3>Expected Results:</h3>" ++ [nl] ++ lit "<ul>"
                ++ concat (map (fun result => lit "<li>" ++ escapeHtml (Some result)
                                              ++ lit "</li>" ++ [nl]) results)
                ++ lit "</ul>"
            | _ => []
            end)
  end.

(** [testCases.map((tc, index) => ...)]: the first [null] ends it. *)
Fixpoint html_cases (index : nat) (testCases : list Json) : option (list jsstring) :=
  match testCases with
  | [] => Some []
  | tc :: rest =>
      html ← html_case index tc;
      htmls ← html_cases (S index) rest;
      Some (html :: htmls)
  end.

(** The array that [formatAsHtml] goes through, if there is one: the
    value itself or its property [test_cases]. *)
Definition case_array (testCases : Json) : option (list Json) :=
  match testCases with
  | JArray l => Some l
  | JObject _ =>
      match prop "test_cases" testCases with
      | Some (JArray l) => Some l
      | _ => None
      end
  | _ => None
  end.

Section WithBuiltins.

(** [JSON.parse] ([None] when it throws), [JSON.stringify(v, null, 2)] and
    [String.prototype.toLowerCase] are built-ins of the host.  The
    Markdown and the Jira formatter are not taken up again: they are
    arguments here. *)
Variable JSON_parse : jsstring -> option Json.
Variable JSON_stringify : Json -> jsstring.
Variable toLowerCase : jsstring -> jsstring.
Variable formatAsMarkdown : Json -> option jsstring.
Variable formatAsJira : Json -> option jsstring.

(** [formatAsHtml(testCases)]; [testCases.test_cases] throws when
    [testCases] is [null]. *)
Definition formatAsHtml (testCases : Json) : option jsstring :=
  match testCases with
  | JString _ => Some (lit "<pre>" ++ escapeHtml (Some testCases) ++ lit "</pre>")
  | JArray l => join [nl; nl] <$> html_cases 0 l
  | JNull => None
  | _ =>
      match prop "test_cases" testCases with
      | Some (JArray l) => join [nl; nl] <$> html_cases 0 l
      | _ =>
          Some (lit "<pre><code>" ++ escapeHtml (Some (JString (JSON_stringify testCases)))
                ++ lit "</code></pre>")
      end
  end.

(** The value that [exportTestCases] hands to the formatter: a string
    that begins as a JSON object or array, if it can be parsed, is
    replaced by what it holds. *)
Definition testCaseData (testCases : Json) : Json :=
  match testCases with
  | JString s =>
      if startsWith (trim s) (lit "{") || startsWith (trim s) (lit "[")
      then match JSON_parse s with Some v => v | None => testCases end
      else testCases
  | _ => testCases
  end.

(** [exportTestCases(testCases, format = 'markdown')]; [format] is a
    string or is left out ([None]). *)
Definition exportTestCases (testCases : Json) (format : option jsstring) : option jsstring :=
  if negb (truthy_json testCases) then Some []
  else
    let format := match format with Some f => f | None => lit "markdown" end in
    let f := toLowerCase format in
    if str_eqb f (lit "markdown") then formatAsMarkdown (testCaseData testCases)
    else if str_eqb f (lit "jira") then formatAsJira (testCaseData testCases)
    else if str_eqb f (lit "html") then formatAsHtml (testCaseData testCases)
    else formatAsMarkdown (testCaseData testCases).

End WithBuiltins.

(** A test-case object of [ExportUtils] as a JSON value. *)
Definition json_of_obj (tc : TestCaseObj) : Json :=
  JObject
    (match o_title tc with Some s => [(lit "title", JString s)] | None => [] end
     ++ match o_description tc with Some s => [(lit "description", JString s)] | None => [] end
     ++ match o_steps tc with Some l => [(lit "steps", JArray (map JString l))] | None => [] end
     ++ match o_expected_results tc with
        | Some l => [(lit "expected_results", JArray (map JString l))]
        | None => []
        end
     ++ match o_expectedResult tc with
        | Some s => [(lit "expectedResult", JString s)]
        | None => []
        end).

End ExportJson.

(** ** The fallback generator and the formatter among the objects of their caller

    For claim C9 the two functions are taken up statement by statement, in
    a world that holds what a function of this program can reach beyond
    its arguments: the objects and arrays of the heap, which it shares
    with its caller, the console, the store, the clock, the random
    generator and the backend.  A function is a transformation of this
    world that returns a value or throws. *)

Module Runtime.
Import Orchestrator.

(** A value: a primitive, or the address of an object or array. *)
Inductive Val :=
| HUndefined
| HNull
| HBool (b : bool)
| HNumber (n : Z)
| HString (s : jsstring)
| HRef (address : nat).

(** An array, or a plain object with its properties, each name once. *)
Inductive Obj :=
| HArray (items : list Val)
| HRecord (props : list (jsstring * Val)).

Record World := {
  heap : list Obj;                        (* the objects, by address *)
  console : list jsstring;                (* the lines written by console.log *)
  store : gmap jsstring Job;              (* Forge storage *)
  clock : Z;                              (* what Date.now() returns *)
  random : list jsstring;                 (* what Math.random() will give *)
  backend : Payload -> outcome Response   (* what api.fetch answers *)
}.

(** The world with another heap, and with another console. *)
Definition with_heap (w : World) (h : list Obj) : World :=
  {| heap := h; console := console w; store := store w; clock := clock w;
     random := random w; backend := backend w |}.

Definition with_console (w : World) (lines : list jsstring) : World :=
  {| heap := heap w; console := lines; store := store w; clock := clock w;
     random := random w; backend := backend w |}.

Definition JS (A : Type) : Type := World -> outcome A * World.

Definition js_ret {A : Type} (a : A) : JS A := fun w => (Ok a, w).

Definition js_bind {A B : Type} (p : JS A) (f : A -> JS B) : JS B :=
  fun w =>
    match p w with
    | (Ok a, w') => f a w'
    | (Threw e, w') => (Threw e, w')
    end.

#[global] Instance JS_ret : MRet JS := @js_ret.
#[global] Instance JS_bind : MBind JS := fun A B f p => js_bind p f.

(** A TypeError; its message differs between engines and is left out. *)
Definition TypeError : JsError := {| name := lit "TypeError"; message := [] |}.

Definition js_throw {A : Type} (e : JsError) : JS A := fun w => (Threw e, w).

Definition truthy_val (v : Val) : bool :=
  match v with
  | HUndefined | HNull => false
  | HBool b => b
  | HNumber n => negb (n =? 0)%Z
  | HString s => truthy s
  | HRef _ => true
  end.

Definition lookup_prop (name : jsstring) (props : list (jsstring * Val)) : Val :=
  match List.find (fun kv => str_eqb (fst kv) name) props with
  | Some (_, v) => v
  | None => HUndefined
  end.

(** [console.log(line)] *)
Definition console_log (line : jsstring) : JS unit :=
  fun w => (Ok tt, with_console w (console w ++ [line])).

(** [v.name] for a name that is a property of plain objects only:
    [undefined] and [null] throw, a primitive and an array have no such
    property. *)
Definition get (v : Val) (name : string) : JS Val :=
  fun w =>
    match v with
    | HUndefined | HNull => (Threw TypeError, w)
    | HRef a =>
        match heap w !! a with
        | Some (HRecord props) => (Ok (lookup_prop (lit name) props), w)
        | _ => (Ok HUndefined, w)
        end
    | _ => (Ok HUndefined, w)
    end.

(** [v.length === 0] for a truthy value [v]. *)
Definition has_no_items (v : Val) : JS bool :=
  fun w =>
    match v with
    | HString s => (Ok (Nat.eqb (length s) 0), w)
    | HRef a =>
        match heap w !! a with
        | Some (HArray items) => (Ok (Nat.eqb (length items) 0), w)
        | Some (HRecord props) =>
            (Ok match lookup_prop (lit "length") props with
                | HNumber 0 => true
                | _ => false
                end, w)
        | None => (Ok false, w)
        end
    | _ => (Ok false, w)
    end.

(** A new array. *)
Definition new_array (items : list Val) : JS Val :=
  fun w => (Ok (HRef (length (heap w))), with_heap w (heap w ++ [HArray items])).

(** [arr.push(x)] *)
Definition push (arr : Val) (x : Val) : JS unit :=
  fun w =>
    match arr with
    | HRef a =>
        match heap w !! a with
        | Some (HArray items) =>
            (Ok tt, with_heap w (<[a := HArray (items ++ [x])]> (heap w)))
        | _ => (Threw TypeError, w)
        end
    | _ => (Threw TypeError, w)
    end.

(** The calls of a callback on the items of an array, with their index. *)
Fixpoint each {A : Type} (items : list Val) (index : nat) (callback : Val -> nat -> JS A)
  : JS (list A) :=
  match items with
  | [] => mret []
  | x :: rest =>
      y ← callback x index;
      ys ← each rest (S index) callback;
      mret (y :: ys)
  end.

(** [v.map(callback)], read at once: the results of the callback.  A value
    that is not an array has no [map] to call. *)
Definition array_map {A : Type} (v : Val) (callback : Val -> nat -> JS A) : JS (list A) :=
  fun w =>
    match v with
    | HRef a =>
        match heap w !! a with
        | Some (HArray items) => each items 0 callback w
        | _ => (Threw TypeError, w)
        end
    | _ => (Threw TypeError, w)
    end.

(** [list.forEach(callback)] on the lines of a text. *)
Fixpoint for_each_line (lines : list jsstring) (index : nat)
    (callback : jsstring -> nat -> JS unit) : JS unit :=
  match lines with
  | [] => mret tt
  | line :: rest => callback line index;; for_each_line rest (S index) callback
  end.

(** The receiver of a string method: anything but a string has no
    [split] to call. *)
Definition as_string (v : Val) : JS jsstring :=
  fun w =>
    match v with
    | HString s => (Ok s, w)
    | _ => (Threw TypeError, w)
    end.

Section WithBuiltins.

(** [String(o)] for the object or array at an address, which the engine
    computes from the heap, and [String.prototype.toLowerCase]. *)
Variable objectText : list Obj -> nat -> jsstring.
Variable toLowerCase : jsstring -> jsstring.

(** A value inside a template literal or under [+] with a string. *)
Definition text (v : Val) : JS jsstring :=
  fun w =>
    (Ok match v with
        | HUndefined => lit "undefined"
        | HNull => lit "null"
        | HBool true => lit "true"
        | HBool false => lit "false"
        | HNumber n => show_Z n
        | HString s => s
        | HRef a => objectText (heap w) a
        end, w).

(** [arr.join(sep)] for an array of strings that the function has built. *)
Definition join_array (arr : Val) (sep : jsstring) : JS jsstring :=
  fun w =>
    match arr with
    | HRef a =>
        match heap w !! a with
        | Some (HArray items) =>
            (Ok (join sep (map (fun x => match x with HString s => s | _ => [] end) items)), w)
        | _ => (Threw TypeError, w)
        end
    | _ => (Threw TypeError, w)
    end.

(** [generateFallbackTestCases(payload)] *)
Definition generateFallbackTestCases (payload : Val) : JS jsstring :=
  console_log (lit "Generating fallback test cases");;
  description ← get payload "description";
  let description := if truthy_val description then description else HString [] in
  acceptanceCriteria ← get payload "acceptance_criteria";
  let acceptanceCriteria :=
    if truthy_val acceptanceCriteria then acceptanceCriteria else HString [] in
  description ← as_string description;          (* description.split('\n') *)
  criteriaText ← text acceptanceCriteria;       (* description + ' ' + acceptanceCriteria *)
  let keywords :=
    Fallback.extractKeywords toLowerCase (description ++ lit " " ++ criteriaText) in
  let feature := Fallback.keyword_or keywords 0 (lit "feature") in
  testCases ← new_array [];
  push testCases
    (HString (Fallback.basic_case feature (Fallback.keyword_or keywords 1 (lit "functionality"))));;
  acceptanceCriteria ← as_string acceptanceCriteria;   (* acceptanceCriteria.split('\n') *)
  let acLines :=
    List.filter Fallback.keep_ac_line (map trim (split_char nl acceptanceCriteria)) in
  for_each_line acLines 0 (fun line index =>
    push testCases (HString (Fallback.criterion_case toLowerCase feature index line)));;
  join_array testCases [nl].

(** The three callbacks of [formatTestCases]. *)
Definition numbered_steps (tc : Val) : JS jsstring :=
  steps ← get tc "steps";
  lines ← array_map steps (fun step i =>
             step ← text step;
             mret (lit "   " ++ show_nat (i + 1) ++ lit ". " ++ step));
  mret (join [nl] lines).

Definition format_markdown (tc : Val) (index : nat) : JS jsstring :=
  steps ← numbered_steps tc;
  title ← get tc "title"; title ← text title;
  expectedResult ← get tc "expectedResult"; expectedResult ← text expectedResult;
  mret (lit "## " ++ show_nat (index + 1) ++ lit ". " ++ title ++ [nl; nl]
        ++ lit "### Test Steps:" ++ [nl] ++ steps ++ [nl; nl]
        ++ lit "### Expected Result:" ++ [nl] ++ expectedResult).

Definition format_html (tc : Val) (index : nat) : JS jsstring :=
  steps ← get tc "steps";
  items ← array_map steps (fun step _ =>
             step ← text step;
             mret (lit "<li>" ++ step ++ lit "</li>"));
  let steps := join [] items in
  title ← get tc "title"; title ← text title;
  expectedResult ← get tc "expectedResult"; expectedResult ← text expectedResult;
  mret (lit "<div class=" ++ dquote ++ lit "test-case" ++ dquote ++ lit ">" ++ [nl]
        ++ lit "          <h3>" ++ show_nat (index + 1) ++ lit ". " ++ title ++ lit "</h3>" ++ [nl]
        ++ lit "          <h4>Test Steps:</h4>" ++ [nl]
        ++ lit "          <ol>" ++ steps ++ lit "</ol>" ++ [nl]
        ++ lit "          <h4>Expected Result:</h4>" ++ [nl]
        ++ lit "          <p>" ++ expectedResult ++ lit "</p>" ++ [nl]
        ++ lit "        </div>").

Definition format_text (tc : Val) (index : nat) : JS jsstring :=
  steps ← numbered_steps tc;
  title ← get tc "title"; title ← text title;
  expectedResult ← get tc "expectedResult"; expectedResult ← text expectedResult;
  mret (show_nat (index + 1) ++ lit ". " ++ title ++ [nl]
        ++ lit "   Test Steps:" ++ [nl] ++ steps ++ [nl]
        ++ lit "   Expected Result: " ++ expectedResult).

(** [formatTestCases(testCases, format = 'text')] *)
Definition formatTestCases (testCases : Val) (format : js_arg jsstring) : JS jsstring :=
  if negb (truthy_val testCases) then mret []
  else
    empty ← has_no_items testCases;
    if (empty : bool) then mret []
    else
      let format := match format with Undefined => Value (lit "text") | f => f end in
      let as_text := cases ← array_map testCases format_text; mret (join [nl; nl] cases) in
      match format with
      | Value f =>
          if str_eqb f (lit "markdown") then
            cases ← array_map testCases format_markdown; mret (join [nl; nl] cases)
          else if str_eqb f (lit "html") then
            cases ← array_map testCases format_html; mret (join [] cases)
          else as_text
      | _ => as_text
      end.

End WithBuiltins.

(** *** What the heap holds for an argument *)

(** The property [name] is the text [value], or is not there. *)
Definition holds_text (props : list (jsstring * Val)) (name : string)
    (value : option jsstring) : Prop :=
  lookup_prop (lit name) props
  = match value with Some s => HString s | None => HUndefined end.

(** [v] is the address of an object with the two properties of [p]. *)
Definition holds_payload (h : list Obj) (v : Val) (p : Payload) : Prop :=
  exists a props,
    v = HRef a /\ h !! a = Some (HRecord props)
    /\ holds_text props "description" (description p)
    /\ holds_text props "acceptance_criteria" (acceptance_criteria p).

(** [v] is the address of an object with the three properties of [tc]. *)
Definition holds_case (h : list Obj) (v : Val) (tc : Parser.TestCase) : Prop :=
  exists a props s,
    v = HRef a /\ h !! a = Some (HRecord props)
    /\ lookup_prop (lit "title") props = HString (Parser.title tc)
    /\ lookup_prop (lit "steps") props = HRef s
    /\ h !! s = Some (HArray (map HString (Parser.steps tc)))
    /\ lookup_prop (lit "expectedResult") props = HString (Parser.expectedResult tc).

(** [v] is the address of an array of such objects. *)
Definition holds_cases (h : list Obj) (v : Val) (tcs : list Parser.TestCase) : Prop :=
  exists a items,
    v = HRef a /\ h !! a = Some (HArray items) /\ Forall2 (holds_case h) items tcs.

(** *** Two worlds with the same payload and the same test case *)

Module Worlds.
Import Orchestrator.

(** An engine that prints every object alike. *)
Definition object_text (h : list Obj) (a : nat) : jsstring := lit "[object Object]".

Definition payload_record : Obj :=
  HRecord [(lit "description", HString (lit "User login with email and password"));
           (lit "acceptance_criteria",
            HString (unlines [lit "- User sees error on invalid password";
                              lit "- User redirected to dashboard on success"]))].

(** The record of [Samples.login_case], with its steps at [steps_at]. *)
Definition case_record (steps_at : nat) : Obj :=
  HRecord [(lit "title", HString (lit "Login"));
           (lit "steps", HRef steps_at);
           (lit "expectedResult", HString (lit "Dashboard shown"))].

Definition steps_array : Obj := HArray [HString (lit "Open page"); HString (lit "Click")].

(** Nothing stored, nothing logged, a backend that is down. *)
Definition quiet_world : World := {|
  heap := [payload_record; HArray [HRef 2]; case_record 3; steps_array];
  console := [];
  store := ∅;
  clock := 0;
  random := [];
  backend := fun _ => Threw Samples.abort_error
|}.

(** The same objects at other addresses, among a running job, earlier
    console lines, a later clock and a backend that answers. *)
Definition busy_world : World := {|
  heap := [steps_array; case_record 0; payload_record; HArray [HRef 1]];
  console := [lit "Starting test case generation job"];
  store := Samples.processing_store;
  clock := 62000;
  random := [lit "abc1234"];
  backend := fun _ => Ok Samples.real_response
|}.

End Worlds.

End Runtime.
(** * Properties *)

Local Open Scope nat_scope.

(** ** The matcher *)

Module RegexFacts.

Lemma filter_all {A : Type} (l : list A) : List.filter (fun _ => true) l = l.
Proof. induction l as [|a l IH]; simpl; [reflexivity|]. rewrite IH. reflexivity. Qed.

Lemma reset_caps_nil (x : mstate) : reset_caps [] x = x.
Proof. destruct x as [prev rest pos caps]. unfold reset_caps. simpl. rewrite filter_all. reflexivity. Qed.

Lemma one_char_class (fl : flags) (neg : bool) (items : list citem) :
  one_char fl (RClass neg items) (class_has (ignoreCase fl) neg items).
Proof. split; reflexivity. Qed.

Lemma one_char_any (fl : flags) :
  one_char fl RAny (fun b => dotAll fl || negb (isLineTerminator b)).
Proof. split; reflexivity. Qed.

Lemma one_char_char (fl : flags) (a : char) :
  one_char fl (RChar a)
    (fun b => char_eqb (canonicalize (ignoreCase fl) a) (canonicalize (ignoreCase fl) b)).
Proof. split; reflexivity. Qed.

(** The greedy quantifier over a one-character pattern is [greedy_scan]. *)
Lemma repeat_greedy (fl : flags) (r : regex) (p : char -> bool) (c : cont) :
  one_char fl r p ->
  forall (fuel min : nat) (x : mstate),
    min + length (m_rest x) < fuel ->
    repeat_matcher fuel (matcher fl r) (groups_of r) min None true x c
    = greedy_scan p min c (m_prev x) (m_rest x) (m_pos x) (m_caps x).
Proof.
  intros [Hg Hm] fuel. rewrite Hg.
  induction fuel as [|fuel IH]; intros min x Hfuel; [lia|].
  destruct x as [prev rest pos caps]. simpl in Hfuel.
  cbn [repeat_matcher]. rewrite reset_caps_nil, Hm. unfold char_matcher. cbn [m_rest].
  destruct rest as [|a rest]; cbn [greedy_scan].
  - destruct (Nat.eqb min 0); reflexivity.
  - destruct (p a) eqn:Hp.
    + unfold advance. cbn [m_pos m_caps].
      replace (Nat.eqb (S pos) pos) with false by (symmetry; apply Nat.eqb_neq; lia).
      rewrite andb_false_r.
      rewrite IH by (simpl in *; lia). cbn [m_prev m_rest m_pos m_caps].
      destruct (Nat.eqb min 0); simpl; try reflexivity;
        destruct (greedy_scan _ _ _ _ _ _ _); reflexivity.
    + destruct (Nat.eqb min 0); reflexivity.
Qed.

(** The lazy quantifier over a one-character pattern is [lazy_scan]. *)
Lemma repeat_lazy (fl : flags) (r : regex) (p : char -> bool) (c : cont) :
  one_char fl r p ->
  forall (fuel min : nat) (x : mstate),
    min + length (m_rest x) < fuel ->
    repeat_matcher fuel (matcher fl r) (groups_of r) min None false x c
    = lazy_scan p min c (m_prev x) (m_rest x) (m_pos x) (m_caps x).
Proof.
  intros [Hg Hm] fuel. rewrite Hg.
  induction fuel as [|fuel IH]; intros min x Hfuel; [lia|].
  destruct x as [prev rest pos caps]. simpl in Hfuel.
  cbn [repeat_matcher]. rewrite reset_caps_nil, Hm. unfold char_matcher. cbn [m_rest].
  destruct rest as [|a rest]; cbn [lazy_scan].
  - destruct (Nat.eqb min 0); simpl; [destruct (c _); reflexivity|reflexivity].
  - destruct (p a) eqn:Hp.
    + unfold advance. cbn [m_pos m_caps].
      replace (Nat.eqb (S pos) pos) with false by (symmetry; apply Nat.eqb_neq; lia).
      rewrite andb_false_r.
      rewrite IH by (simpl in *; lia). cbn [m_prev m_rest m_pos m_caps].
      destruct (Nat.eqb min 0); simpl; try reflexivity.
    + destruct (Nat.eqb min 0); simpl; try reflexivity.
Qed.

Lemma matcher_greedy (fl : flags) (r : regex) (p : char -> bool) (min : nat)
    (x : mstate) (c : cont) :
  one_char fl r p ->
  matcher fl (RRep min None true r) x c
  = greedy_scan p min c (m_prev x) (m_rest x) (m_pos x) (m_caps x).
Proof. intros H. cbn [matcher]. apply repeat_greedy; [exact H|lia]. Qed.

Lemma matcher_lazy (fl : flags) (r : regex) (p : char -> bool) (min : nat)
    (x : mstate) (c : cont) :
  one_char fl r p ->
  matcher fl (RRep min None false r) x c
  = lazy_scan p min c (m_prev x) (m_rest x) (m_pos x) (m_caps x).
Proof. intros H. cbn [matcher]. apply repeat_lazy; [exact H|lia]. Qed.

(** *** Reading a run of characters in one step *)

Lemma prev_after_cons (prev : option char) (a : char) (w : jsstring) :
  prev_after prev (a :: w) = prev_after (Some a) w.
Proof.
  unfold prev_after. destruct w as [|b w]; [reflexivity|].
  change (last (a :: b :: w)) with (last (b :: w)).
  destruct (last (b :: w)) eqn:E; [reflexivity|].
  apply last_None in E. discriminate.
Qed.

Lemma span_app (p : char -> bool) (s : jsstring) :
  fst (span p s) ++ snd (span p s) = s.
Proof.
  induction s as [|a s IH]; simpl; [reflexivity|].
  destruct (p a); simpl; [rewrite IH|]; reflexivity.
Qed.

(** When the continuation accepts at the end of the longest run, the
    greedy scan returns its answer there. *)
Lemma greedy_scan_longest (p : char -> bool) (c : cont) (caps : list (nat * (nat * nat))) :
  forall (rest : jsstring) (min : nat) (prev : option char) (pos : nat) (z : mstate),
    min <= length (fst (span p rest)) ->
    c (MState (prev_after prev (fst (span p rest))) (snd (span p rest))
              (pos + length (fst (span p rest))) caps) = Some z ->
    greedy_scan p min c prev rest pos caps = Some z.
Proof.
  induction rest as [|a rest IH]; intros min prev pos z Hmin Hc; simpl in *.
  - replace min with 0 by lia. simpl. rewrite Nat.add_0_r in Hc. exact Hc.
  - destruct (p a) eqn:Hp; simpl in *.
    + rewrite (IH (Nat.pred min) (Some a) (S pos) z).
      * reflexivity.
      * lia.
      * rewrite prev_after_cons in Hc. rewrite <- Hc. f_equal. f_equal. lia.
    + replace min with 0 by lia. simpl. rewrite Nat.add_0_r in Hc. exact Hc.
Qed.

(** *** Patterns anchored at the start *)

(** A pattern anchored by [^], without the [m] flag, matches at index 0 or
    nowhere. *)
Lemma exec_from_anchored (fl : flags) (r : regex) :
  multiline fl = false ->
  forall (rest : jsstring) (a : char) (pos : nat),
    exec_from fl (RSeq RBol r) (Some a) rest pos = None.
Proof.
  intros Hm. destruct fl as [ic ml da]. simpl in Hm. subst ml.
  induction rest as [|b rest IH]; intros a pos; simpl.
  - reflexivity.
  - apply IH.
Qed.

Lemma js_match_anchored (fl : flags) (r : regex) (s : jsstring) :
  multiline fl = false ->
  js_match fl (RSeq RBol r) s
  = match matcher fl r (MState None s 0 []) Some with
    | Some y => Some (RMatch 0 y)
    | None => None
    end.
Proof.
  intros Hm. unfold js_match.
  destruct s as [|a s]; cbn [exec_from]; unfold match_at; cbn [matcher m_prev].
  - destruct (matcher fl r _ Some); reflexivity.
  - destruct (matcher fl r _ Some); [reflexivity|].
    apply (exec_from_anchored fl r Hm).
Qed.

Ltac eval_const c := let v := eval vm_compute in c in change c with v.

(** *** Stepping the matcher through a known prefix of the input *)

Lemma m_seq fl r1 r2 x c :
  matcher fl (RSeq r1 r2) x c = matcher fl r1 x (fun y => matcher fl r2 y c).
Proof. reflexivity. Qed.

Lemma m_alt fl r1 r2 x c :
  matcher fl (RAlt r1 r2) x c
  = match matcher fl r1 x c with Some z => Some z | None => matcher fl r2 x c end.
Proof. reflexivity. Qed.

Lemma m_group fl n r x c :
  matcher fl (RGroup n r) x c
  = matcher fl r x (fun y => c (set_cap n (m_pos x, m_pos y) y)).
Proof. reflexivity. Qed.

Lemma m_empty fl x c : matcher fl REmpty x c = c x.
Proof. reflexivity. Qed.

Lemma m_bol_start fl rest pos caps c :
  matcher fl RBol (MState None rest pos caps) c = c (MState None rest pos caps).
Proof. reflexivity. Qed.

Lemma m_char_hit fl a prev b rest pos caps c :
  char_eqb (canonicalize (ignoreCase fl) a) (canonicalize (ignoreCase fl) b) = true ->
  matcher fl (RChar a) (MState prev (b :: rest) pos caps) c
  = c (MState (Some b) rest (S pos) caps).
Proof. intros H. cbn [matcher]. unfold char_matcher. cbn [m_rest]. rewrite H. reflexivity. Qed.

Lemma m_char_miss fl a prev b rest pos caps c :
  char_eqb (canonicalize (ignoreCase fl) a) (canonicalize (ignoreCase fl) b) = false ->
  matcher fl (RChar a) (MState prev (b :: rest) pos caps) c = None.
Proof. intros H. cbn [matcher]. unfold char_matcher. cbn [m_rest]. rewrite H. reflexivity. Qed.

Lemma m_class_hit fl neg items prev b rest pos caps c :
  class_has (ignoreCase fl) neg items b = true ->
  matcher fl (RClass neg items) (MState prev (b :: rest) pos caps) c
  = c (MState (Some b) rest (S pos) caps).
Proof. intros H. cbn [matcher]. unfold char_matcher. cbn [m_rest]. rewrite H. reflexivity. Qed.

Lemma m_class_miss fl neg items prev b rest pos caps c :
  class_has (ignoreCase fl) neg items b = false ->
  matcher fl (RClass neg items) (MState prev (b :: rest) pos caps) c = None.
Proof. intros H. cbn [matcher]. unfold char_matcher. cbn [m_rest]. rewrite H. reflexivity. Qed.

(** [r?] before at least one more character of input. *)
Lemma m_opt fl r prev a rest pos caps c :
  matcher fl (RRep 0 (Some 1) true r) (MState prev (a :: rest) pos caps) c
  = match matcher fl r (reset_caps (groups_of r) (MState prev (a :: rest) pos caps))
            (fun y => if Nat.eqb (m_pos y) pos then None else c y) with
    | Some z => Some z
    | None => c (MState prev (a :: rest) pos caps)
    end.
Proof. reflexivity. Qed.

Lemma m_greedy_class fl neg items min x c :
  matcher fl (RRep min None true (RClass neg items)) x c
  = greedy_scan (class_has (ignoreCase fl) neg items) min c
      (m_prev x) (m_rest x) (m_pos x) (m_caps x).
Proof. apply matcher_greedy, one_char_class. Qed.

Lemma m_lazy_class fl neg items min x c :
  matcher fl (RRep min None false (RClass neg items)) x c
  = lazy_scan (class_has (ignoreCase fl) neg items) min c
      (m_prev x) (m_rest x) (m_pos x) (m_caps x).
Proof. apply matcher_lazy, one_char_class. Qed.

Lemma greedy_scan_hit p min c prev a rest pos caps :
  p a = true ->
  greedy_scan p min c prev (a :: rest) pos caps
  = match greedy_scan p (Nat.pred min) c (Some a) rest (S pos) caps with
    | Some z => Some z
    | None => if Nat.eqb min 0 then c (MState prev (a :: rest) pos caps) else None
    end.
Proof. intros H. cbn [greedy_scan]. rewrite H. reflexivity. Qed.

Lemma greedy_scan_miss p min c prev a rest pos caps :
  p a = false ->
  greedy_scan p min c prev (a :: rest) pos caps
  = if Nat.eqb min 0 then c (MState prev (a :: rest) pos caps) else None.
Proof. intros H. cbn [greedy_scan]. rewrite H. reflexivity. Qed.

Lemma first_some {A : Type} (a b : option A) (z : A) :
  a = Some z -> match a with Some z => Some z | None => b end = Some z.
Proof. intros ->. reflexivity. Qed.

Lemma first_none {A : Type} (a b r : option A) :
  a = None -> b = r -> match a with Some z => Some z | None => b end = r.
Proof. intros -> ->. reflexivity. Qed.

Ltac by_eval := vm_compute; reflexivity.

(** One step of the matcher at the head of a goal [e = r]. *)
Ltac mstep1 :=
  lazymatch goal with
  | |- matcher _ (RSeq _ _) _ _ = _ => rewrite m_seq
  | |- matcher _ (RGroup _ _) _ _ = _ => rewrite m_group
  | |- matcher _ (RAlt _ _) _ _ = _ => rewrite m_alt
  | |- matcher _ REmpty _ _ = _ => rewrite m_empty
  | |- matcher _ RBol (MState None _ _ _) _ = _ => rewrite m_bol_start
  | |- matcher _ (RChar _) (MState _ (_ :: _) _ _) _ = _ =>
      first [rewrite m_char_hit by by_eval | rewrite m_char_miss by by_eval]
  | |- matcher _ (RClass _ _) (MState _ (_ :: _) _ _) _ = _ =>
      first [rewrite m_class_hit by by_eval | rewrite m_class_miss by by_eval]
  | |- matcher _ (RRep 0 (Some 1) true _) (MState _ (_ :: _) _ _) _ = _ => rewrite m_opt
  | |- matcher _ (RRep _ None true (RClass _ _)) _ _ = _ => rewrite m_greedy_class
  | |- matcher _ (RRep _ None false (RClass _ _)) _ _ = _ => rewrite m_lazy_class
  | |- matcher _ _ (reset_caps [] _) _ = _ => rewrite reset_caps_nil
  | |- greedy_scan _ _ _ _ (_ :: _) _ _ = _ =>
      first [rewrite greedy_scan_hit by by_eval | rewrite greedy_scan_miss by by_eval]
  | |- (if Nat.eqb _ _ then _ else _) = _ => cbn [Nat.eqb Nat.pred]
  end;
  cbn beta; cbn [m_prev m_rest m_pos m_caps groups_of app].

(** Run the matcher at the head of [e = r]: an alternative that comes to
    [None] is dropped, any other is followed. *)
Ltac mrun :=
  repeat first
    [ mstep1
    | lazymatch goal with
      | |- match ?a with Some z => Some z | None => _ end = _ =>
          first [ apply first_none; [solve [mrun; reflexivity]|]
                | apply first_some ]
      end ].

(** *** Where a match cannot be *)

(** The matcher calls its continuation only at states whose remaining
    input is a suffix of the present one: if the continuation fails at all
    of them, the match fails. *)
Lemma matcher_none (fl : flags) (r : regex) :
  forall (x : mstate) (c : cont),
    (forall y, m_rest y `suffix_of` m_rest x -> c y = None) ->
    matcher fl r x c = None.
Proof.
  induction r as [ |a| |neg items|r1 IH1 r2 IH2|r1 IH1 r2 IH2|min max greedy r IH|n r IH|r IH| | ];
    intros x c Hc; cbn [matcher].
  - apply Hc. reflexivity.
  - unfold char_matcher. destruct (m_rest x) as [|b rest] eqn:Hx; [reflexivity|].
    destruct (char_eqb _ _); [|reflexivity].
    apply Hc. cbn. apply suffix_cons_r. reflexivity.
  - unfold char_matcher. destruct (m_rest x) as [|b rest] eqn:Hx; [reflexivity|].
    destruct (_ || _); [|reflexivity].
    apply Hc. cbn. apply suffix_cons_r. reflexivity.
  - unfold char_matcher. destruct (m_rest x) as [|b rest] eqn:Hx; [reflexivity|].
    destruct (class_has _ _ _ _); [|reflexivity].
    apply Hc. cbn. apply suffix_cons_r. reflexivity.
  - apply IH1. intros y Hy. apply IH2. intros y' Hy'. apply Hc. etrans; eassumption.
  - rewrite IH1 by exact Hc. apply IH2, Hc.
  - generalize (S (min + length (m_rest x))). intros fuel.
    revert min max x Hc.
    induction fuel as [|fuel IHf]; intros min max x Hc; cbn [repeat_matcher]; [reflexivity|].
    assert (Hx : c x = None) by (apply Hc; reflexivity).
    assert (Hd : matcher fl r (reset_caps (groups_of r) x)
                   (fun y => if Nat.eqb min 0 && Nat.eqb (m_pos y) (m_pos x) then None
                             else repeat_matcher fuel (matcher fl r) (groups_of r)
                                    (Nat.pred min) (Nat.pred <$> max) greedy y c) = None).
    { apply IH. intros y Hy. destruct (_ && _); [reflexivity|].
      apply IHf. intros y' Hy'. apply Hc. etrans; [exact Hy'|]. exact Hy. }
    destruct max as [[|k]|]; [exact Hx| |];
      (destruct (negb (Nat.eqb min 0)); [exact Hd|]);
      (destruct greedy; [rewrite Hd; exact Hx|rewrite Hx; exact Hd]).
  - apply IH. intros y Hy. apply Hc. exact Hy.
  - destruct (matcher fl r x Some); [|reflexivity]. apply Hc. reflexivity.
  - destruct (m_prev x) as [a|]; [destruct (_ && _); [|reflexivity]|]; apply Hc; reflexivity.
  - destruct (m_rest x) as [|a rest] eqn:Hx.
    + apply Hc. rewrite Hx. reflexivity.
    + destruct (_ && _); [|reflexivity]. apply Hc. rewrite Hx. reflexivity.
Qed.

(** No match anywhere when the match fails at every suffix. *)
Lemma exec_from_none (fl : flags) (r : regex) :
  forall (rest : jsstring) (prev : option char) (pos : nat),
    (forall x, m_rest x `suffix_of` rest -> matcher fl r x Some = None) ->
    exec_from fl r prev rest pos = None.
Proof.
  induction rest as [|a rest IH]; intros prev pos H; cbn [exec_from]; unfold match_at.
  - rewrite H by reflexivity. reflexivity.
  - rewrite H by reflexivity. apply IH. intros x Hx. apply H.
    apply suffix_cons_r. exact Hx.
Qed.

(** *** [split] and [replace] *)

(** The first piece of a split is the whole string or ends where the
    pattern matches. *)
Lemma split_loop_head (fl : flags) (r : regex) (s : jsstring) :
  forall (fuel q : nat),
    exists b bs,
      split_loop fuel fl r s 0 q = b :: bs
      /\ (b = s
          \/ exists q', q <= q'
                /\ is_Some (match_at fl r (prev_at s q') (drop q' s) q')
                /\ b = take q' s).
Proof.
  induction fuel as [|fuel IH]; intros q; cbn [split_loop].
  - exists s, []. split; [reflexivity|left; reflexivity].
  - destruct (Nat.ltb q (length s)).
    + destruct (match_at fl r (prev_at s q) (drop q s) q) as [y|] eqn:Hm.
      * destruct (Nat.eqb (m_pos y) 0).
        -- destruct (IH (S q)) as (b & bs & Hb & Hcase).
           exists b, bs. split; [exact Hb|].
           destruct Hcase as [->|(q' & Hq & Hs & ->)]; [left; reflexivity|].
           right. exists q'. split; [lia|]. split; [exact Hs|reflexivity].
        -- eexists. eexists. split; [reflexivity|].
           right. exists q. split; [lia|]. split.
           ++ rewrite Hm. eexists; reflexivity.
           ++ unfold substring. replace (q - 0) with q by lia. reflexivity.
      * destruct (IH (S q)) as (b & bs & Hb & Hcase).
        exists b, bs. split; [exact Hb|].
        destruct Hcase as [->|(q' & Hq & Hs & ->)]; [left; reflexivity|].
        right. exists q'. split; [lia|]. split; [exact Hs|reflexivity].
    + exists s, []. split; [reflexivity|left; reflexivity].
Qed.

Lemma replace_all_loop_Forall (P : char -> Prop) (fl : flags) (r : regex)
    (repl s : jsstring) :
  Forall P s -> Forall P repl ->
  forall fuel last i, Forall P (replace_all_loop fuel fl r repl s last i).
Proof.
  intros Hs Hr. induction fuel as [|fuel IH]; intros last i; cbn [replace_all_loop].
  - apply Forall_drop, Hs.
  - destruct (if Nat.leb i (length s) then exec_at fl r s i else None) as [m|].
    + apply Forall_app. split; [apply Forall_take, Forall_drop, Hs|].
      apply Forall_app. split; [exact Hr|apply IH].
    + apply Forall_drop, Hs.
Qed.

Lemma replace_all_Forall (P : char -> Prop) (fl : flags) (r : regex)
    (repl s : jsstring) :
  Forall P s -> Forall P repl -> Forall P (replace_all fl r repl s).
Proof. intros Hs Hr. apply replace_all_loop_Forall; assumption. Qed.

(** *** Replacing every character of a class *)

Lemma span_prefix (p : char -> bool) (s : jsstring) :
  Forall (fun a => p a = true) (fst (span p s)).
Proof.
  induction s as [|a s IH]; cbn [span]; [constructor|].
  destruct (p a) eqn:E; cbn [fst]; [constructor; assumption|constructor].
Qed.

Lemma span_stop (p : char -> bool) (s : jsstring) (a : char) (rest : jsstring) :
  snd (span p s) = a :: rest -> p a = false.
Proof.
  induction s as [|b s IH]; cbn [span]; [discriminate|].
  destruct (p b) eqn:E; cbn [snd]; [exact IH|].
  intros [= -> _]. exact E.
Qed.

Lemma exec_from_one_char (fl : flags) (r : regex) (p : char -> bool) :
  one_char fl r p ->
  forall (rest : jsstring) (prev : option char) (pos : nat),
    exec_from fl r prev rest pos
    = match snd (span (fun a => negb (p a)) rest) with
      | a :: rest' =>
          let k := pos + length (fst (span (fun a => negb (p a)) rest)) in
          Some (RMatch k (MState (Some a) rest' (S k) []))
      | [] => None
      end.
Proof.
  intros [_ Hr]. induction rest as [|a rest IH]; intros prev pos;
    cbn [exec_from span]; unfold match_at; rewrite Hr; unfold char_matcher; cbn [m_rest].
  - reflexivity.
  - destruct (p a) eqn:E; cbn [negb fst snd length].
    + rewrite Nat.add_0_r. reflexivity.
    + rewrite IH. destruct (snd (span _ rest)); [reflexivity|].
      cbn zeta. rewrite Nat.add_succ_r. reflexivity.
Qed.

Lemma replace_all_loop_one_char (fl : flags) (r : regex) (p : char -> bool)
    (repl : jsstring) :
  one_char fl r p ->
  forall (fuel : nat) (pre rest : jsstring),
    length rest < fuel ->
    replace_all_loop fuel fl r repl (pre ++ rest) (length pre) (length pre)
    = flat_map (fun a => if p a then repl else [a]) rest.
Proof.
  intros Hr. induction fuel as [|fuel IH]; intros pre rest Hlen; [lia|].
  cbn [replace_all_loop].
  assert (Hle : Nat.leb (length pre) (length (pre ++ rest)) = true).
  { apply Nat.leb_le. rewrite length_app. lia. }
  rewrite Hle. unfold exec_at. rewrite drop_app_length.
  rewrite (exec_from_one_char fl r p Hr).
  pose proof (span_app (fun a => negb (p a)) rest) as Happ.
  pose proof (span_prefix (fun a => negb (p a)) rest) as Hpre.
  pose proof (span_stop (fun a => negb (p a)) rest) as Hstop.
  destruct (span (fun a => negb (p a)) rest) as [w tl]. cbn [fst snd] in *.
  assert (Hw : flat_map (fun a => if p a then repl else [a]) w = w).
  { clear -Hpre. induction Hpre as [|a w Ha _ IHw]; [reflexivity|].
    cbn [flat_map]. apply negb_true_iff in Ha. rewrite Ha, IHw. reflexivity. }
  destruct tl as [|a rest'].
  - rewrite app_nil_r in Happ. subst w. symmetry. exact Hw.
  - cbn zeta. unfold rm_end. cbn [rm_start rm_state m_pos].
    assert (Ha : p a = true).
    { specialize (Hstop a rest' eq_refl). apply negb_false_iff in Hstop. exact Hstop. }
    subst rest. unfold substring.
    replace (length pre + length w - length pre) with (length w) by lia.
    rewrite drop_app_length, take_app_length.
    rewrite flat_map_app, Hw. cbn [flat_map]. rewrite Ha.
    do 2 f_equal.
    assert (Hne : Nat.eqb (S (length pre + length w)) (length pre + length w) = false).
    { apply Nat.eqb_neq. lia. }
    rewrite Hne.
    replace (pre ++ w ++ a :: rest') with ((pre ++ w ++ [a]) ++ rest')
      by (rewrite <- !app_assoc; reflexivity).
    replace (S (length pre + length w)) with (length (pre ++ w ++ [a]))
      by (rewrite !length_app; cbn [length]; lia).
    apply IH. rewrite length_app in Hlen. cbn [length] in Hlen. lia.
Qed.

(** [s.replace(/[...]/g, repl)] replaces each character of the class. *)
Lemma replace_all_one_char (fl : flags) (r : regex) (p : char -> bool)
    (repl s : jsstring) :
  one_char fl r p ->
  replace_all fl r repl s = flat_map (fun a => if p a then repl else [a]) s.
Proof.
  intros Hr. unfold replace_all.
  apply (replace_all_loop_one_char fl r p repl Hr (S (length s)) [] s). lia.
Qed.

(** *** What a match returns *)

(** A state that reads the text [b] at its position. *)
Abbreviation reads b y := (m_rest y = drop (m_pos y) b /\ m_pos y < S (length b)).

Lemma reads_advance (b : jsstring) (x : mstate) (a : char) (rest : jsstring) :
  reads b x -> m_rest x = a :: rest -> reads b (advance x a rest).
Proof.
  intros [Hr Hp] Hx. cbn [advance m_rest m_pos]. rewrite Hx in Hr.
  assert (Hlt : m_pos x < length b).
  { destruct (Nat.lt_ge_cases (m_pos x) (length b)) as [H|H]; [exact H|].
    rewrite drop_ge in Hr by lia. discriminate. }
  split; [|lia].
  rewrite <- (Nat.add_1_l (m_pos x)), Nat.add_comm, <- drop_drop, <- Hr. reflexivity.
Qed.

(** Whatever a match returns was returned by its continuation, called at a
    state that reads the same text further on. *)
Lemma matcher_result (fl : flags) (b : jsstring) (P : mstate -> Prop) (r : regex) :
  forall (x : mstate) (c : cont),
    reads b x ->
    (forall y, reads b y -> m_pos x <= m_pos y -> forall z, c y = Some z -> P z) ->
    forall z, matcher fl r x c = Some z -> P z.
Proof.
  assert (Hchar : forall p (x : mstate) (c : cont),
             reads b x ->
             (forall y, reads b y -> m_pos x <= m_pos y -> forall z, c y = Some z -> P z) ->
             forall z, char_matcher p x c = Some z -> P z).
  { intros p x c Hx Hc z. unfold char_matcher.
    destruct (m_rest x) as [|a rest] eqn:E; [discriminate|]. rewrite <- E in Hx.
    destruct (p a); [|discriminate].
    apply Hc; [exact (reads_advance b x a rest Hx E)|cbn; lia]. }
  induction r as [ |a| |neg items|r1 IH1 r2 IH2|r1 IH1 r2 IH2|min max greedy r IH|n r IH|r IH| | ];
    intros x c Hx Hc z; cbn [matcher].
  - apply Hc; [exact Hx|lia].
  - apply Hchar; assumption.
  - apply Hchar; assumption.
  - apply Hchar; assumption.
  - apply IH1; [exact Hx|]. intros y Hy Hle z'. apply IH2; [exact Hy|].
    intros y' Hy' Hle'. apply Hc; [exact Hy'|lia].
  - destruct (matcher fl r1 x c) as [z'|] eqn:E.
    + intros [= <-]. exact (IH1 x c Hx Hc z' E).
    + apply IH2; assumption.
  - generalize (S (min + length (m_rest x))). intros fuel.
    revert min max x Hx Hc z.
    induction fuel as [|fuel IHf]; intros min max x Hx Hc z; cbn [repeat_matcher];
      [discriminate|].
    assert (Hhere : c x = Some z -> P z) by (apply Hc; [exact Hx|lia]).
    assert (Hmore : matcher fl r (reset_caps (groups_of r) x)
                      (fun y => if Nat.eqb min 0 && Nat.eqb (m_pos y) (m_pos x) then None
                                else repeat_matcher fuel (matcher fl r) (groups_of r)
                                       (Nat.pred min) (Nat.pred <$> max) greedy y c)
                    = Some z -> P z).
    { apply IH; [exact Hx|]. intros y Hy Hle z'.
      destruct (_ && _); [discriminate|].
      apply IHf; [exact Hy|]. intros y' Hy' Hle'. apply Hc; [exact Hy'|].
      cbn [reset_caps m_pos] in Hle. lia. }
    destruct max as [[|k]|]; [exact Hhere| |];
      (destruct (negb (Nat.eqb min 0)); [exact Hmore|]);
      (destruct greedy;
       [destruct (matcher fl r _ _) as [z'|]; [intros [= <-]; apply Hmore; reflexivity|exact Hhere]
       |destruct (c x) as [z'|]; [intros [= <-]; apply Hhere; reflexivity|exact Hmore]]).
  - apply IH; [exact Hx|]. intros y Hy Hle z'. apply Hc; [exact Hy|exact Hle].
  - destruct (matcher fl r x Some) as [y|]; [|discriminate].
    apply Hc; [exact Hx|cbn; lia].
  - destruct (m_prev x) as [a|]; [destruct (_ && _); [|discriminate]|];
      (apply Hc; [exact Hx|lia]).
  - destruct (m_rest x) as [|a rest] eqn:E; rewrite <- E in Hx.
    + apply Hc; [exact Hx|lia].
    + destruct (_ && _); [|discriminate]. apply Hc; [exact Hx|lia].
Qed.

(** An optional part can be skipped. *)
Lemma opt_is_Some (fl : flags) (r : regex) (x : mstate) (c : cont) :
  is_Some (c x) -> is_Some (matcher fl (opt r) x c).
Proof.
  intros H. unfold opt. cbn [matcher Nat.add repeat_matcher Nat.eqb negb].
  destruct (matcher fl r _ _); [eauto|exact H].
Qed.

Lemma span_all (p : char -> bool) (s : jsstring) :
  Forall (fun a => p a = true) s -> span p s = (s, []).
Proof.
  induction 1 as [|a s Ha _ IH]; cbn [span]; [reflexivity|].
  rewrite Ha, IH. reflexivity.
Qed.

Lemma split_loop_no_match (fl : flags) (r : regex) (s : jsstring) (p : nat) :
  (forall q, match_at fl r (prev_at s q) (drop q s) q = None) ->
  forall fuel q, split_loop fuel fl r s p q = [drop p s].
Proof.
  intros H. induction fuel as [|fuel IH]; intros q; cbn [split_loop]; [reflexivity|].
  destruct (Nat.ltb q (length s)); [|reflexivity].
  rewrite H. apply IH.
Qed.

Lemma m_look fl r x c :
  matcher fl (RLook r) x c
  = match matcher fl r x Some with
    | Some y => c (MState (m_prev x) (m_rest x) (m_pos x) (m_caps y))
    | None => None
    end.
Proof. reflexivity. Qed.

Lemma matcher_none_within (text : jsstring) (fl : flags) (r : regex) (x : mstate) (c : cont) :
  m_rest x `suffix_of` text ->
  (forall y, m_rest y `suffix_of` text -> c y = None) ->
  matcher fl r x c = None.
Proof.
  intros Hx Hc. apply matcher_none. intros y Hy. apply Hc. etrans; eassumption.
Qed.

End RegexFacts.

(** ** The string functions *)

Module StringFacts.

Lemma trimStart_keeps (a : char) (s : jsstring) :
  isWhiteSpace a = false -> trimStart (a :: s) = a :: s.
Proof. intros H. simpl. rewrite H. reflexivity. Qed.

(** [trimStart] returns a suffix that is empty or starts with a
    character that is not white space. *)
Lemma trimStart_app_keeps (w s : jsstring) (a : char) :
  isWhiteSpace a = false ->
  exists u, trimStart (w ++ a :: s) = u ++ a :: s.
Proof.
  intros Ha. induction w as [|b w IH]; simpl.
  - exists []. rewrite Ha. reflexivity.
  - destruct (isWhiteSpace b).
    + exact IH.
    + exists (b :: w). reflexivity.
Qed.

Lemma trimEnd_keeps_prefix (b : char) (p0 rest : jsstring) :
  isWhiteSpace b = false ->
  exists rest', trimEnd (p0 ++ b :: rest) = p0 ++ b :: rest'.
Proof.
  intros Hb. unfold trimEnd.
  assert (E : rev (p0 ++ b :: rest) = rev rest ++ b :: rev p0).
  { rewrite rev_app_distr. simpl. rewrite <- app_assoc. reflexivity. }
  rewrite E.
  destruct (trimStart_app_keeps (rev rest) (rev p0) b Hb) as [u Hu].
  rewrite Hu. exists (rev u).
  rewrite rev_app_distr. simpl. rewrite rev_involutive, <- app_assoc. reflexivity.
Qed.

(** Trimming keeps a prefix whose first and last characters are not white
    space. *)
Lemma trim_keeps_prefix (a b : char) (pre rest : jsstring) :
  isWhiteSpace a = false -> isWhiteSpace b = false ->
  exists rest', trim ((a :: pre) ++ b :: rest) = (a :: pre) ++ b :: rest'.
Proof.
  intros Ha Hb. unfold trim.
  change (trimStart ((a :: pre) ++ b :: rest)) with (trimStart (a :: (pre ++ b :: rest))).
  rewrite trimStart_keeps by exact Ha.
  apply (trimEnd_keeps_prefix b (a :: pre) rest Hb).
Qed.

Lemma truthy_trim (a : char) (s : jsstring) :
  isWhiteSpace a = false -> truthy (trim (a :: s)) = true.
Proof.
  intros Ha. unfold trim. rewrite trimStart_keeps by exact Ha.
  unfold trimEnd.
  destruct (trimStart_app_keeps (rev s) [] a Ha) as [u Hu].
  change (rev (a :: s)) with (rev s ++ [a]). rewrite Hu.
  rewrite rev_app_distr. reflexivity.
Qed.

(** *** Characters of the results of the string functions *)

Lemma trimStart_suffix (s : jsstring) : trimStart s `suffix_of` s.
Proof.
  induction s as [|a s IH]; cbn [trimStart]; [reflexivity|].
  destruct (isWhiteSpace a); [apply suffix_cons_r, IH|reflexivity].
Qed.

Lemma trim_Forall (P : char -> Prop) (s : jsstring) : Forall P s -> Forall P (trim s).
Proof.
  intros H. unfold trim, trimEnd.
  assert (Hs : forall t, Forall P t -> Forall P (trimStart t)).
  { intros t Ht. destruct (trimStart_suffix t) as [pre E].
    rewrite E in Ht. apply Forall_app in Ht as [_ Ht]. exact Ht. }
  apply Forall_rev, Hs, Forall_rev, Hs, H.
Qed.

Lemma split_char_aux_Forall (P : char -> Prop) (c : char) :
  forall (s cur : jsstring),
    Forall P cur -> Forall P s -> Forall (Forall P) (split_char_aux c cur s).
Proof.
  induction s as [|a s IH]; intros cur Hcur Hs; cbn [split_char_aux].
  - constructor; [apply Forall_rev, Hcur|constructor].
  - apply Forall_cons in Hs as [Ha Hs]. destruct (char_eqb a c).
    + constructor; [apply Forall_rev, Hcur|]. apply IH; [constructor|exact Hs].
    + apply IH; [constructor; assumption|exact Hs].
Qed.

Lemma split_char_Forall (P : char -> Prop) (c : char) (s : jsstring) :
  Forall P s -> Forall (Forall P) (split_char c s).
Proof. intros H. apply split_char_aux_Forall; [constructor|exact H]. Qed.

Lemma elem_of_rev {A : Type} (x : A) (l : list A) : x ∈ rev l <-> x ∈ l.
Proof. rewrite !list_elem_of_In. symmetry. apply in_rev. Qed.

(** The pieces of a split do not contain the separator. *)
Lemma split_char_aux_sep (c : char) :
  forall (s cur : jsstring),
    c ∉ cur -> Forall (fun piece => c ∉ piece) (split_char_aux c cur s).
Proof.
  induction s as [|a s IH]; intros cur Hcur; cbn [split_char_aux].
  - constructor; [|constructor]. rewrite elem_of_rev. exact Hcur.
  - destruct (char_eqb a c) eqn:E.
    + constructor; [rewrite elem_of_rev; exact Hcur|].
      apply IH. apply not_elem_of_nil.
    + apply IH. apply not_elem_of_cons. split; [|exact Hcur].
      intros ->. unfold char_eqb in E. rewrite N.eqb_refl in E. discriminate.
Qed.

Lemma split_char_sep (c : char) (s : jsstring) :
  Forall (fun piece => c ∉ piece) (split_char c s).
Proof. apply split_char_aux_sep, not_elem_of_nil. Qed.

Lemma avoids_Forall (c : char) (t : jsstring) :
  Forall (fun a => a <> c) t <-> c ∉ t.
Proof.
  rewrite Forall_forall. split.
  - intros H Hc. exact (H c Hc eq_refl).
  - intros H a Ha ->. exact (H Ha).
Qed.

Lemma avoids_check (c : char) (t : jsstring) :
  forallb (fun a => negb (char_eqb c a)) t = true -> c ∉ t.
Proof.
  intros H. apply avoids_Forall. apply Forall_forall. intros a Ha ->.
  rewrite forallb_forall in H. apply list_elem_of_In in Ha. specialize (H _ Ha).
  unfold char_eqb in H. rewrite N.eqb_refl in H. discriminate.
Qed.

Lemma join_Forall (P : char -> Prop) (sep : jsstring) (parts : list jsstring) :
  Forall P sep -> Forall (Forall P) parts -> Forall P (join sep parts).
Proof.
  intros Hsep. induction 1 as [|p parts Hp _ IH]; [constructor|].
  destruct parts as [|q parts]; [exact Hp|].
  change (join sep (p :: q :: parts)) with (p ++ sep ++ join sep (q :: parts)).
  apply Forall_app. split; [exact Hp|]. apply Forall_app. split; [exact Hsep|exact IH].
Qed.

Lemma show_N_aux_digits (fuel : nat) :
  forall (n : N) (acc : jsstring),
    Forall (fun a => (48 <= a)%N) acc -> Forall (fun a => (48 <= a)%N) (show_N_aux fuel n acc).
Proof.
  induction fuel as [|fuel IH]; intros n acc Hacc; cbn [show_N_aux]; [exact Hacc|].
  assert (H : Forall (fun a => (48 <= a)%N) (digit_char (n mod 10) :: acc)).
  { constructor; [unfold digit_char; apply N.le_add_r|exact Hacc]. }
  destruct (n <? 10)%N; [exact H|apply IH, H].
Qed.

Lemma show_nat_dashless (n : nat) : ch "-" ∉ show_nat n.
Proof.
  apply avoids_Forall. unfold show_nat, show_N.
  eapply Forall_impl; [apply show_N_aux_digits; constructor|].
  intros a Ha ->. vm_compute in Ha. apply Ha. reflexivity.
Qed.

Lemma mapi_from_Forall {A B : Type} (Q : B -> Prop) (f : nat -> A -> B) (l : list A) :
  (forall i x, x ∈ l -> Q (f i x)) -> forall k, Forall Q (mapi_from k f l).
Proof.
  induction l as [|x l IH]; intros H k; cbn [mapi_from]; constructor.
  - apply H. left.
  - apply IH. intros i y Hy. apply H. right. exact Hy.
Qed.

Lemma trimStart_head (t : jsstring) :
  trimStart t = [] \/ exists a t', trimStart t = a :: t' /\ isWhiteSpace a = false.
Proof.
  induction t as [|a t IH]; cbn [trimStart]; [left; reflexivity|].
  destruct (isWhiteSpace a) eqn:E; [exact IH|]. right. exists a, t. split; [reflexivity|exact E].
Qed.

(** A trimmed string is empty or ends with a character that is not white
    space. *)
Lemma trim_last (s : jsstring) :
  trim s = [] \/ exists pre z, trim s = pre ++ [z] /\ isWhiteSpace z = false.
Proof.
  unfold trim, trimEnd.
  destruct (trimStart_head (rev (trimStart s))) as [-> | (a & t' & -> & Ha)];
    [left; reflexivity|].
  right. exists (rev t'), a. split; [reflexivity|exact Ha].
Qed.

Lemma trim_of_last (u : jsstring) (z : char) :
  isWhiteSpace z = false -> truthy (trim (u ++ [z])) = true.
Proof.
  intros Hz. unfold trim.
  destruct (trimStart_app_keeps u [] z Hz) as [u' ->].
  unfold trimEnd. rewrite rev_app_distr. cbn [rev app].
  rewrite trimStart_keeps by exact Hz.
  cbn [rev]. destruct (rev (rev u')); reflexivity.
Qed.

Lemma trim_head (a : char) (s : jsstring) :
  isWhiteSpace a = false -> exists s', trim (a :: s) = a :: s'.
Proof.
  intros Ha. unfold trim. rewrite trimStart_keeps by exact Ha.
  unfold trimEnd. cbn [rev].
  destruct (trimStart_app_keeps (rev s) [] a Ha) as [u ->].
  rewrite rev_app_distr. cbn [rev app]. eexists. reflexivity.
Qed.

(** *** Decimal numbers *)

Lemma show_N_aux_range (fuel : nat) :
  forall (n : N) (acc : jsstring),
    Forall (fun a => (48 <= a <= 57)%N) acc ->
    Forall (fun a => (48 <= a <= 57)%N) (show_N_aux fuel n acc).
Proof.
  induction fuel as [|fuel IH]; intros n acc Hacc; cbn [show_N_aux]; [exact Hacc|].
  assert (H : Forall (fun a => (48 <= a <= 57)%N) (digit_char (n mod 10) :: acc)).
  { constructor; [|exact Hacc]. unfold digit_char.
    assert (Hm : (n mod 10 < 10)%N) by (apply N.mod_lt; discriminate).
    revert Hm. generalize (n mod 10)%N. intros m Hm. split; lia. }
  destruct (n <? 10)%N; [exact H|apply IH, H].
Qed.

Lemma show_N_aux_nonempty (fuel : nat) :
  forall (n : N) (acc : jsstring), acc <> [] -> show_N_aux fuel n acc <> [].
Proof.
  induction fuel as [|fuel IH]; intros n acc Hacc; cbn [show_N_aux]; [exact Hacc|].
  destruct (n <? 10)%N; [discriminate|]. apply IH. discriminate.
Qed.

Lemma show_nat_range (n : nat) : Forall (fun a => (48 <= a <= 57)%N) (show_nat n).
Proof. apply show_N_aux_range. constructor. Qed.

Lemma show_nat_head (n : nat) :
  exists d ds, show_nat n = d :: ds /\ isWhiteSpace d = false.
Proof.
  pose proof (show_nat_range n) as H.
  destruct (show_nat n) as [|d ds] eqn:E.
  - exfalso. revert E. unfold show_nat, show_N. cbn [show_N_aux].
    destruct (_ <? 10)%N; [discriminate|]. apply show_N_aux_nonempty. discriminate.
  - exists d, ds. split; [reflexivity|].
    apply Forall_cons in H as [H _]. unfold isWhiteSpace.
    repeat (apply orb_false_intro); try (apply andb_false_iff; left; apply N.leb_gt; lia);
      try (apply andb_false_iff; right; apply N.leb_gt; lia);
      apply N.eqb_neq; lia.
Qed.

Lemma show_nat_avoids (c : char) (n : nat) : (c < 48 \/ 57 < c)%N -> c ∉ show_nat n.
Proof.
  intros Hc. apply avoids_Forall. eapply Forall_impl; [apply show_nat_range|].
  intros a Ha ->. lia.
Qed.

Lemma mapi_from_Forall_if {A B : Type} (Q : B -> Prop) (R : A -> Prop)
    (f : nat -> A -> B) (l : list A) :
  (forall i x, R x -> Q (f i x)) -> Forall R l -> forall k, Forall Q (mapi_from k f l).
Proof.
  intros H Hl. induction Hl as [|x l Hx _ IH]; intros k; cbn [mapi_from]; constructor.
  - apply H, Hx.
  - apply IH.
Qed.

Ltac avoid_literal := apply avoids_check; vm_compute; reflexivity.
Ltac avoids :=
  lazymatch goal with
  | |- _ ∉ _ ++ _ => apply not_elem_of_app; split; avoids
  | |- _ ∉ lit _ => avoid_literal
  | |- _ ∉ _ :: _ => avoid_literal
  | |- _ ∉ [] => apply not_elem_of_nil
  | |- _ ∉ show_nat _ => apply show_nat_avoids; vm_compute; auto
  | |- _ => assumption
  end.

End StringFacts.

(** ** The formatter on missing input (C10) *)

Module FormatterFacts.
Import Parser Formatter.

(** C10: whatever the format argument is (a known mode, an unknown string,
    [undefined] or [null]), [formatTestCases] returns the empty string when
    the test-case argument is [null], [undefined] or an empty array. *)
Theorem formatTestCases_nothing_to_format :
  forall format : js_arg jsstring,
    formatTestCases Undefined format = []
    /\ formatTestCases Null format = []
    /\ formatTestCases (Value []) format = [].
Proof. intros format. repeat split. Qed.

End FormatterFacts.

(** ** Line contexts: where the structured pattern cannot match *)

Module LineContextFacts.
Import RegexFacts StringFacts Parser.

Lemma scan_app (s : line_ctx) (a b : jsstring) :
  scan s (a ++ b) = scan s a ≫= fun s' => scan s' b.
Proof.
  revert s. induction a as [|x a IH]; intros s; cbn [scan app]; [reflexivity|].
  destruct (ctx_step s x); [apply IH|reflexivity].
Qed.

Lemma scan_suffix (s : line_ctx) (t u : jsstring) :
  is_Some (scan s t) -> u `suffix_of` t -> exists s', is_Some (scan s' u).
Proof.
  intros Ht [pre ->]. rewrite scan_app in Ht.
  destruct (scan s pre) as [s'|]; [|destruct Ht; discriminate].
  exists s'. exact Ht.
Qed.

Lemma space_class (a : char) : class_has false false [CSpace] a = isWhiteSpace a.
Proof. unfold class_has. cbn. destruct (isWhiteSpace a); reflexivity. Qed.

Lemma not_space_E a : char_eqb (ch "E") a = true -> isWhiteSpace a = false.
Proof. intros H. apply N.eqb_eq in H. subst a. reflexivity. Qed.

Lemma not_space_dash a : char_eqb (ch "-") a = true -> isWhiteSpace a = false.
Proof. intros H. apply N.eqb_eq in H. subst a. reflexivity. Qed.

Lemma space_nl a : char_eqb nl a = true -> isWhiteSpace a = true.
Proof. intros H. apply N.eqb_eq in H. subst a. reflexivity. Qed.

Abbreviation is_space := (class_has false false [CSpace]).

(** After the dash: white space, then an "E". *)
Lemma after_dash_fails (c : cont) :
  forall (u : jsstring) (s : line_ctx) (prev : option char) (pos : nat) caps,
    no_dash_pending s = false -> is_Some (scan s u) ->
    greedy_scan is_space 0
      (fun y => matcher no_flags (rstr "Expected Result:") y c) prev u pos caps = None.
Proof.
  induction u as [|a u IH]; intros s prev pos caps Hs Hu.
  - reflexivity.
  - cbn [greedy_scan Nat.eqb Nat.pred]. cbn [scan] in Hu.
    assert (Hhere : matcher no_flags (rstr "Expected Result:")
                      (MState prev (a :: u) pos caps) c = None).
    { change (rstr "Expected Result:")
        with (RSeq (RChar (ch "E")) (rstr "xpected Result:")).
      cbn [matcher]. unfold char_matcher.
      cbn [m_rest ignoreCase no_flags canonicalize andb].
      destruct (char_eqb (ch "E") a) eqn:HE; [|reflexivity].
      exfalso. unfold ctx_step in Hu.
      rewrite (not_space_E a HE) in Hu.
      destruct (char_eqb nl a) eqn:Hnl.
      { apply space_nl in Hnl. rewrite (not_space_E a HE) in Hnl. discriminate. }
      destruct (char_eqb (ch "-") a) eqn:Hd.
      { apply N.eqb_eq in Hd, HE. subst a. discriminate. }
      rewrite HE in Hu.
      destruct s; try discriminate; destruct Hu; discriminate. }
    destruct (is_space a) eqn:Hw; [|exact Hhere].
    rewrite space_class in Hw.
    rewrite Hhere.
    unfold ctx_step in Hu. rewrite Hw in Hu.
    destruct (char_eqb nl a).
    + rewrite (fun H => IH _ (Some a) (S pos) caps H Hu); [reflexivity|].
      destruct s; try discriminate; reflexivity.
    + rewrite (IH s (Some a) (S pos) caps Hs Hu). reflexivity.
Qed.

(** At the start of a line: white space, a dash, and the above. *)
Lemma at_line_start_fails (c : cont) :
  forall (u : jsstring) (s : line_ctx) (prev : option char) (pos : nat) caps,
    (s = AtLineStart \/ s = AfterDashAtLineStart) -> is_Some (scan s u) ->
    greedy_scan is_space 0
      (fun y => matcher no_flags
         (RSeq (RChar (ch "-")) (RSeq (star r_space) (rstr "Expected Result:"))) y c)
      prev u pos caps = None.
Proof.
  induction u as [|a u IH]; intros s prev pos caps Hs Hu.
  - reflexivity.
  - cbn [greedy_scan Nat.eqb Nat.pred]. cbn [scan] in Hu.
    destruct (is_space a) eqn:Hw; rewrite space_class in Hw.
    + assert (Hhere : matcher no_flags
                        (RSeq (RChar (ch "-")) (RSeq (star r_space) (rstr "Expected Result:")))
                        (MState prev (a :: u) pos caps) c = None).
      { cbn [matcher].
        unfold char_matcher. cbn [m_rest ignoreCase no_flags canonicalize andb].
        destruct (char_eqb (ch "-") a) eqn:Hd; [|reflexivity].
        rewrite (not_space_dash a Hd) in Hw. discriminate. }
      rewrite Hhere. unfold ctx_step in Hu. rewrite Hw in Hu.
      destruct (char_eqb nl a).
      * rewrite (fun H => IH _ (Some a) (S pos) caps H Hu); [reflexivity|].
        destruct Hs as [-> | ->]; [left|right]; reflexivity.
      * rewrite (IH s (Some a) (S pos) caps Hs Hu). reflexivity.
    + cbn [matcher].
      unfold char_matcher at 1. cbn [m_rest ignoreCase no_flags canonicalize andb].
      destruct (char_eqb (ch "-") a) eqn:Hd; [|reflexivity].
      unfold star.
      rewrite (matcher_greedy no_flags r_space _ 0 _ _ (one_char_class _ _ _)).
      cbn [ignoreCase no_flags advance m_prev m_rest m_pos m_caps].
      eapply (after_dash_fails c u AfterDash); [reflexivity|].
      unfold ctx_step in Hu. rewrite Hw, Hd in Hu.
      destruct (char_eqb nl a) eqn:Hnl.
      { apply space_nl in Hnl. congruence. }
      destruct Hs as [-> | ->]; exact Hu.
Qed.

(** The fifth group matches nowhere in a text that the scan reads to its
    end. *)
Lemma result_bullet_fails (u : jsstring) (s : line_ctx) (x : mstate) (c : cont) :
  is_Some (scan s u) -> m_rest x = u -> matcher no_flags re_result_bullet x c = None.
Proof.
  intros Hu Hx. unfold re_result_bullet.
  change (rseq [r_nl; star r_space; rstr "-"; star r_space; rstr "Expected Result:"])
    with (RSeq (RChar nl) (RSeq (star r_space)
            (RSeq (RChar (ch "-")) (RSeq (star r_space) (rstr "Expected Result:"))))).
  cbn [matcher]. unfold char_matcher at 1. rewrite Hx.
  destruct u as [|a u]; [reflexivity|].
  cbn [ignoreCase no_flags canonicalize andb].
  destruct (char_eqb nl a) eqn:Hnl; [|reflexivity].
  unfold star.
  rewrite (matcher_greedy no_flags r_space _ 0 _ _ (one_char_class _ _ _)).
  cbn [ignoreCase no_flags advance m_prev m_rest m_pos m_caps].
  cbn [scan] in Hu. unfold ctx_step in Hu. rewrite Hnl in Hu.
  eapply at_line_start_fails; [|exact Hu].
  destruct s; [left|left|right|right]; reflexivity.
Qed.

Lemma char_eqb_neq (a b : char) : a <> b -> char_eqb a b = false.
Proof. intros H. apply N.eqb_neq. exact H. Qed.

Lemma scan_calm (t : jsstring) : nl ∉ t -> scan Idle t = Some Idle.
Proof.
  induction t as [|a t IH]; intros H; [reflexivity|].
  apply not_elem_of_cons in H as [Ha Ht].
  cbn [scan]. unfold ctx_step. rewrite (char_eqb_neq nl a) by exact Ha.
  destruct (isWhiteSpace a); [exact (IH Ht)|].
  destruct (char_eqb (ch "-") a); [exact (IH Ht)|].
  destruct (char_eqb (ch "E") a); exact (IH Ht).
Qed.

Lemma scan_dashless (t : jsstring) : ch "-" ∉ t -> safe t.
Proof.
  induction t as [|a t IH]; intros H s Hs.
  - exists s. split; [reflexivity|exact Hs].
  - apply not_elem_of_cons in H as [Ha Ht].
    cbn [scan]. unfold ctx_step. rewrite (char_eqb_neq (ch "-") a) by exact Ha.
    destruct (char_eqb nl a).
    { apply (IH Ht). destruct s; try discriminate; reflexivity. }
    destruct (isWhiteSpace a); [exact (IH Ht s Hs)|].
    destruct (char_eqb (ch "E") a).
    + destruct s; try discriminate; apply (IH Ht); reflexivity.
    + apply (IH Ht). reflexivity.
Qed.

Lemma safe_nil : safe [].
Proof. intros s Hs. exists s. split; [reflexivity|exact Hs]. Qed.

Lemma safe_app (a b : jsstring) : safe a -> safe b -> safe (a ++ b).
Proof.
  intros Ha Hb s Hs. destruct (Ha s Hs) as (s1 & E1 & H1).
  rewrite scan_app, E1. exact (Hb s1 H1).
Qed.

Lemma settles_safe (a : jsstring) : settles a -> safe a.
Proof. intros Ha s Hs. exists Idle. split; [exact (Ha s Hs)|reflexivity]. Qed.

Lemma settles_calm (a b : jsstring) : settles a -> nl ∉ b -> settles (a ++ b).
Proof. intros Ha Hb s Hs. rewrite scan_app, (Ha s Hs). exact (scan_calm b Hb). Qed.

Lemma safeb_safe (t : jsstring) : safeb t = true -> safe t.
Proof.
  unfold safeb. intros H s Hs.
  destruct (scan Idle t) as [s1|] eqn:E1; [|discriminate].
  destruct (scan AtLineStart t) as [s2|] eqn:E2; [|discriminate].
  apply andb_true_iff in H as [H1 H2].
  destruct s; try discriminate; eauto.
Qed.

Lemma settlesb_settles (t : jsstring) : settlesb t = true -> settles t.
Proof.
  unfold settlesb. intros H s Hs.
  destruct (scan Idle t) as [[]|] eqn:E1; try discriminate.
  destruct (scan AtLineStart t) as [[]|] eqn:E2; try discriminate.
  destruct s; try discriminate; assumption.
Qed.

Lemma safe_join (parts : list jsstring) :
  Forall safe parts -> safe (join [nl] parts).
Proof.
  induction 1 as [|p parts Hp _ IH]; [exact safe_nil|].
  destruct parts as [|q parts]; [exact Hp|].
  change (join [nl] (p :: q :: parts)) with (p ++ [nl] ++ join [nl] (q :: parts)).
  apply safe_app; [exact Hp|]. apply safe_app; [|exact IH].
  apply safeb_safe. reflexivity.
Qed.

Lemma safe_is_scanned (t : jsstring) : safe t -> is_Some (scan Idle t).
Proof. intros H. destruct (H Idle eq_refl) as (s & E & _). rewrite E. eauto. Qed.

End LineContextFacts.

(** ** The three strategies on a text that starts with a heading *)

Module StrategyFacts.
Import RegexFacts StringFacts LineContextFacts Parser.

(** Every test case of the markdown strategy has a title. *)
Lemma markdown_titles (t : jsstring) (tc : TestCase) :
  tc ∈ parseMarkdownTestCases t -> truthy (title tc) = true.
Proof.
  unfold parseMarkdownTestCases. cbn zeta. intros H.
  apply list_elem_of_In, in_concat in H as (l & Hl & Htc).
  apply in_map_iff in Hl as (raw & <- & _).
  unfold md_block in Htc. cbn zeta in Htc.
  destruct (negb (truthy (trim raw))); [destruct Htc|].
  destruct (truthy (md_title (trim raw))) eqn:E; [|destruct Htc].
  destruct Htc as [<- | []]. exact E.
Qed.

Lemma structured_split :
  exists g1 g2 g3 g4 g6,
    re_structured = RSeq g1 (RSeq g2 (RSeq g3 (RSeq g4 (RSeq re_result_bullet g6)))).
Proof. do 5 eexists. reflexivity. Qed.

(** The structured pattern finds nothing in such a text. *)
Lemma structured_finds_nothing (t : jsstring) (s : line_ctx) :
  is_Some (scan s t) -> parseStructuredTestCases t = [].
Proof.
  intros Ht. unfold parseStructuredTestCases. cbn [structured_loop].
  unfold exec_at. rewrite drop_0.
  rewrite exec_from_none; [reflexivity|].
  intros x Hx. destruct structured_split as (g1 & g2 & g3 & g4 & g6 & ->).
  cbn [matcher].
  apply matcher_none; intros y1 H1.
  apply matcher_none; intros y2 H2.
  apply matcher_none; intros y3 H3.
  apply matcher_none; intros y4 H4.
  assert (Hs : m_rest y4 `suffix_of` t).
  { etrans; [exact H4|]. etrans; [exact H3|]. etrans; [exact H2|]. etrans; [exact H1|exact Hx]. }
  destruct (scan_suffix s t _ Ht Hs) as [s' Hs'].
  eapply result_bullet_fails; [exact Hs'|reflexivity].
Qed.

Lemma heading_is_no_preamble (t : jsstring) :
  js_test flag_i re_preamble (lit "Test Case 1: Verify" ++ t) = false.
Proof.
  unfold js_test.
  eval_const re_preamble. eval_const (lit "Test Case 1: Verify").
  rewrite js_match_anchored by reflexivity.
  cbn. reflexivity.
Qed.

Lemma gen_title_match_heading (t : jsstring) :
  exists z,
    js_match flag_i re_gen_title (lit "Test Case 1: Verify" ++ t) = Some (RMatch 0 z)
    /\ m_caps z
       = [(1, (10, 19 + length (fst (span (class_has true true [CChar nl]) t))))].
Proof.
  eval_const re_gen_title. eval_const (lit "Test Case 1: Verify").
  rewrite js_match_anchored by reflexivity. cbn [app].
  eexists. split.
  - apply (f_equal (fun o => match o with Some y => Some (RMatch 0 y) | None => None end)
             (y := Some _)).
    mrun. cbn [Nat.pred].
    apply greedy_scan_longest; [lia|reflexivity].
  - reflexivity.
Qed.

Lemma gen_title_heading (t : jsstring) :
  truthy (gen_title (lit "Test Case 1: Verify" ++ t)) = true.
Proof.
  unfold gen_title.
  destruct (gen_title_match_heading t) as [z [Hm Hcaps]]. rewrite Hm.
  unfold group_str, group. cbn [rm_state]. rewrite Hcaps.
  cbn [cap_lookup List.find fst snd Nat.eqb fmap option_fmap option_map default].
  unfold substring.
  eval_const (lit "Test Case 1: Verify"). cbn [app drop].
  apply truthy_trim. reflexivity.
Qed.

(** A blank-line separator starts with a line feed. *)
Lemma blank_line_starts_with_nl (prev : option char) (rest : jsstring) (pos : nat) :
  is_Some (match_at no_flags re_blank_line prev rest pos) ->
  exists rest', rest = nl :: rest'.
Proof.
  unfold match_at. eval_const re_blank_line. rewrite m_seq.
  destruct rest as [|a rest]; [intros [y Hy]; discriminate|].
  cbn [matcher]. unfold char_matcher. cbn [m_rest ignoreCase no_flags canonicalize andb].
  destruct (char_eqb 10%N a) eqn:Ha; [|intros [y Hy]; discriminate].
  intros _. apply N.eqb_eq in Ha. subst a. exists rest. reflexivity.
Qed.

(** The first paragraph of a text keeps any prefix that has no line
    feed. *)
Lemma first_paragraph_keeps_prefix (pre tail : jsstring) :
  pre <> [] -> Forall (fun a => a <> nl) pre ->
  exists t bs, split_re no_flags re_blank_line (pre ++ tail) = (pre ++ t) :: bs.
Proof.
  intros Hne Hpre. unfold split_re.
  destruct (pre ++ tail) as [|a0 s0] eqn:Hs.
  { destruct pre; [congruence|discriminate]. }
  rewrite <- Hs.
  destruct (split_loop_head no_flags re_blank_line (pre ++ tail)
              (2 * length (pre ++ tail) + 2) 0) as (b & bs & Hb & Hcase).
  rewrite Hb.
  destruct Hcase as [->|(q' & _ & Hmatch & ->)].
  - exists tail, bs. reflexivity.
  - apply blank_line_starts_with_nl in Hmatch. destruct Hmatch as [rest' Hrest].
    assert (Hq : length pre <= q').
    { destruct (Nat.le_gt_cases (length pre) q') as [H|H]; [exact H|exfalso].
      assert (Hl : (pre ++ tail) !! q' = Some nl).
      { rewrite <- (Nat.add_0_r q'), <- lookup_drop, Hrest. reflexivity. }
      rewrite lookup_app_l in Hl by lia.
      apply list_elem_of_lookup_2 in Hl.
      rewrite Forall_forall in Hpre. exact (Hpre nl Hl eq_refl). }
    exists (take (q' - length pre) tail), bs.
    rewrite take_app_ge by lia. reflexivity.
Qed.

(** The generic strategy keeps the first paragraph of a text that starts
    with [pre], when [pre] has no line feed, neither starts nor ends with
    white space, is not a preamble and gives a title. *)
Lemma generic_keeps_first_paragraph (a b : char) (p : jsstring) :
  isWhiteSpace a = false -> isWhiteSpace b = false ->
  Forall (fun c => c <> nl) (a :: p ++ [b]) ->
  (forall t, js_test flag_i re_preamble (a :: p ++ b :: t) = false) ->
  (forall t, truthy (gen_title (a :: p ++ b :: t)) = true) ->
  forall tail,
    exists tc tcs,
      extractGenericTestCases (a :: p ++ b :: tail) = tc :: tcs
      /\ truthy (title tc) = true.
Proof.
  intros Ha Hb Hnl Hpre Htitle tail. unfold extractGenericTestCases.
  destruct (first_paragraph_keeps_prefix (a :: p ++ [b]) tail) as (t & bs & Hsplit);
    [discriminate|exact Hnl|].
  assert (E : forall u, (a :: p ++ [b]) ++ u = a :: p ++ b :: u).
  { intros u. cbn [app]. rewrite <- app_assoc. reflexivity. }
  rewrite !E in Hsplit. rewrite Hsplit. cbn [map concat].
  unfold gen_block at 1.
  destruct (trim_keeps_prefix a b p t Ha Hb) as [t' Ht'].
  cbn [app] in Ht'. rewrite Ht'. cbn [truthy negb].
  rewrite Hpre. rewrite (Htitle t').
  cbn [app]. eexists. eexists. split; [reflexivity|]. exact (Htitle t').
Qed.

Lemma generic_reads_fallback_heading (tail : jsstring) :
  exists tc tcs,
    extractGenericTestCases (lit "Test Case 1: Verify" ++ tail) = tc :: tcs
    /\ truthy (title tc) = true.
Proof.
  pose proof (generic_keeps_first_paragraph (ch "T") (ch "y") (lit "est Case 1: Verif")) as H.
  assert (E : forall t, lit "Test Case 1: Verify" ++ t
                        = ch "T" :: lit "est Case 1: Verif" ++ ch "y" :: t)
    by (intros t; reflexivity).
  rewrite E. apply H; try reflexivity.
  - vm_compute. repeat constructor; discriminate.
  - intros t. rewrite <- E. apply heading_is_no_preamble.
  - intros t. rewrite <- E. apply gen_title_heading.
Qed.

(** *** A single line *)

Lemma not_nl_class (a : char) : a <> nl -> class_has true true [CChar nl] a = true.
Proof.
  intros Ha. unfold class_has. cbn [existsb citem_has orb].
  replace (char_eqb (canonicalize true nl) (canonicalize true a)) with false; [reflexivity|].
  symmetry. apply N.eqb_neq. unfold canonicalize. cbn [andb].
  change (isLowerAscii nl) with false. cbn iota.
  destruct (isLowerAscii a) eqn:E; [|intros H; apply Ha; symmetry; exact H].
  unfold isLowerAscii in E. apply andb_true_iff in E as [E _]. apply N.leb_le in E.
  unfold nl. lia.
Qed.

(** The group of the generic title pattern, read at any position of a
    line [b]: it takes the rest of the line, which is not empty. *)
Lemma gen_title_group (b : jsstring) (y z : mstate) :
  nl ∉ b -> reads b y ->
  matcher flag_i (RGroup 1 (plus (RClass true [CChar nl]))) y Some = Some z ->
  exists k, cap_lookup 1 (m_caps z) = Some (k, length b) /\ k < length b.
Proof.
  intros Hb [Hr Hp]. rewrite m_group. unfold plus. rewrite m_greedy_class.
  cbn [ignoreCase flag_i].
  assert (Hall : Forall (fun a => class_has true true [CChar nl] a = true) (m_rest y)).
  { rewrite Hr. apply Forall_drop. apply avoids_Forall in Hb.
    eapply Forall_impl; [exact Hb|]. intros a Ha. apply not_nl_class, Ha. }
  assert (Hlen : m_pos y + length (m_rest y) = length b).
  { rewrite Hr, length_drop. lia. }
  destruct (m_rest y) as [|a rest] eqn:E; [discriminate|].
  pose proof (span_all _ _ Hall) as Hspan.
  assert (Hg : exists z0,
             greedy_scan (class_has true true [CChar nl]) 1
               (fun y0 => Some (set_cap 1 (m_pos y, m_pos y0) y0))
               (m_prev y) (a :: rest) (m_pos y) (m_caps y) = Some z0
             /\ cap_lookup 1 (m_caps z0) = Some (m_pos y, m_pos y + length (a :: rest))).
  { eexists. split.
    - apply greedy_scan_longest; rewrite Hspan; [cbn [fst length]; lia|reflexivity].
    - reflexivity. }
  destruct Hg as (z0 & -> & Hcap). intros [= <-].
  exists (m_pos y). rewrite Hcap, Hlen. split; [reflexivity|].
  cbn [length] in Hlen. lia.
Qed.

(** The generic strategy finds a title in every line that ends with a
    character other than white space. *)
Lemma gen_title_of_line (pre : jsstring) (z : char) :
  nl ∉ pre ++ [z] -> isWhiteSpace z = false -> truthy (gen_title (pre ++ [z])) = true.
Proof.
  intros Hb Hz. set (b := pre ++ [z]) in *.
  unfold gen_title.
  change re_gen_title
    with (RSeq RBol
            (RSeq (opt (rseq [plus r_digit; rstr "."; star r_space]))
               (RSeq (opt (rseq [rstr "Test Case"; opt (rstr ":"); star r_space]))
                  (RGroup 1 (plus (RClass true [CChar nl])))))).
  rewrite js_match_anchored by reflexivity.
  assert (Hstart : reads b (MState None b 0 [])).
  { split; [reflexivity|cbn; lia]. }
  assert (Hall : Forall (fun a => class_has true true [CChar nl] a = true) b).
  { apply avoids_Forall in Hb. eapply Forall_impl; [exact Hb|].
    intros a Ha. apply not_nl_class, Ha. }
  assert (Hsome : is_Some (matcher flag_i
            (RSeq (opt (rseq [plus r_digit; rstr "."; star r_space]))
               (RSeq (opt (rseq [rstr "Test Case"; opt (rstr ":"); star r_space]))
                  (RGroup 1 (plus (RClass true [CChar nl])))))
            (MState None b 0 []) Some)).
  { rewrite m_seq. apply opt_is_Some. rewrite m_seq. apply opt_is_Some.
    rewrite m_group. unfold plus. rewrite m_greedy_class. cbn [ignoreCase flag_i].
    cbn [m_rest m_prev m_pos m_caps].
    eexists. apply greedy_scan_longest; rewrite (span_all _ _ Hall); [|reflexivity].
    cbn [fst]. subst b. rewrite length_app. cbn. lia. }
  destruct Hsome as [y Hy]. rewrite Hy.
  assert (Hcap : exists k, cap_lookup 1 (m_caps y) = Some (k, length b) /\ k < length b).
  { revert y Hy. intros y. rewrite m_seq.
    apply (matcher_result flag_i b
             (fun z => exists k, cap_lookup 1 (m_caps z) = Some (k, length b) /\ k < length b));
      [exact Hstart|].
    intros y1 Hy1 _ z1. rewrite m_seq.
    apply (matcher_result flag_i b
             (fun z => exists k, cap_lookup 1 (m_caps z) = Some (k, length b) /\ k < length b));
      [exact Hy1|].
    intros y2 Hy2 _ z2. apply gen_title_group; assumption. }
  destruct Hcap as (k & Hk & Hlt).
  unfold group_str, group. cbn [rm_state]. rewrite Hk. cbn [default].
  unfold substring. rewrite take_ge by (rewrite length_drop; lia).
  subst b. rewrite drop_app_le by (rewrite length_app in Hlt; cbn in Hlt; lia).
  apply trim_of_last, Hz.
Qed.

(** A text without line feed is one paragraph. *)
Lemma one_paragraph (s : jsstring) :
  s <> [] -> nl ∉ s -> split_re no_flags re_blank_line s = [s].
Proof.
  intros Hs Hnl. destruct s as [|a s]; [congruence|]. unfold split_re.
  apply split_loop_no_match. intros q.
  destruct (match_at _ _ _ _ _) as [y|] eqn:E; [|reflexivity].
  destruct (blank_line_starts_with_nl (prev_at (a :: s) q) (drop q (a :: s)) q) as [rest' Hr].
  { rewrite E. eauto. }
  exfalso. apply Hnl. rewrite <- (take_drop q (a :: s)).
  apply elem_of_app. right. rewrite Hr. left.
Qed.

(** The generic strategy keeps a single line that is not blank and does
    not begin as a preamble. *)
Lemma generic_keeps_a_line (s : jsstring) :
  nl ∉ s -> trim s <> [] -> js_test flag_i re_preamble (trim s) = false ->
  extractGenericTestCases s <> [].
Proof.
  intros Hnl Htrim Hpre.
  assert (Hs : s <> []) by (intros ->; apply Htrim; reflexivity).
  unfold extractGenericTestCases. rewrite (one_paragraph s Hs Hnl).
  cbn [map concat]. unfold gen_block. cbn zeta. rewrite Hpre.
  destruct (trim_last s) as [E | (pre & z & E & Hz)]; [contradiction|].
  assert (Hline : nl ∉ trim s) by (apply avoids_Forall, trim_Forall, avoids_Forall, Hnl).
  rewrite E in Hline |- *.
  rewrite (gen_title_of_line pre z Hline Hz).
  destruct pre; discriminate.
Qed.

Lemma single_line_is_parsed (s : jsstring) :
  nl ∉ s -> trim s <> [] -> js_test flag_i re_preamble (trim s) = false ->
  parseTestCases s <> [].
Proof.
  intros Hnl Htrim Hpre.
  pose proof (generic_keeps_a_line s Hnl Htrim Hpre) as Hgen.
  unfold parseTestCases.
  destruct s as [|a s]; [exfalso; apply Htrim; reflexivity|]. cbn [truthy negb].
  destruct (parseMarkdownTestCases (a :: s)); [|discriminate].
  destruct (parseStructuredTestCases (a :: s)); [exact Hgen|discriminate].
Qed.

End StrategyFacts.

(** ** The parser cascade (C4) *)

Module ParserFacts.
Import StringFacts StrategyFacts.
Import Parser Samples.

(** C4, as stated, fails: a single plain sentence is not parsed to the
    empty list; the markdown strategy already takes the sentence as the
    title of a test case, with no steps and no expected result (and the
    generic strategy would keep it as well). *)
Lemma plain_sentence_is_parsed_to_a_test_case :
  parseTestCases plain_sentence
  = [ {| title := plain_sentence; steps := []; expectedResult := [] |} ]
  /\ parseTestCases plain_sentence <> []
  /\ extractGenericTestCases plain_sentence
     = [ {| title := plain_sentence;
            steps := [lit "No specific steps provided"];
            expectedResult := lit "No specific expected result provided" |} ].
Proof.
  split; [vm_compute; reflexivity|]. split; [vm_compute; discriminate|].
  vm_compute; reflexivity.
Qed.

(** C4, amended: [parseTestCases] returns the empty list for the empty
    string; otherwise it returns the result of the markdown strategy when
    that is non-empty, else the result of the structured pattern when that
    is non-empty, else the result of the generic strategy; it returns the
    empty list exactly when the text is empty or all three strategies
    return nothing.  A text of a single line is not such a text, unless the
    line is blank or begins with one of the preamble phrases: the result is
    never the empty list.  For the plain sentence it is one test case whose
    title is the sentence. *)
Theorem parse_is_a_cascade :
  (forall s : jsstring,
     (s = [] -> parseTestCases s = [])
     /\ (s <> [] -> parseMarkdownTestCases s <> [] ->
           parseTestCases s = parseMarkdownTestCases s)
     /\ (s <> [] -> parseMarkdownTestCases s = [] -> parseStructuredTestCases s <> [] ->
           parseTestCases s = parseStructuredTestCases s)
     /\ (s <> [] -> parseMarkdownTestCases s = [] -> parseStructuredTestCases s = [] ->
           parseTestCases s = extractGenericTestCases s)
     /\ (parseTestCases s = [] <->
           s = [] \/ (parseMarkdownTestCases s = [] /\ parseStructuredTestCases s = []
                      /\ extractGenericTestCases s = [])))
  /\ (forall s : jsstring,
        nl ∉ s -> trim s <> [] -> js_test flag_i re_preamble (trim s) = false ->
        parseTestCases s <> [])
  /\ parseTestCases plain_sentence
     = [ {| title := plain_sentence; steps := []; expectedResult := [] |} ].
Proof.
  split; [|split; [exact single_line_is_parsed|vm_compute; reflexivity]].
  intros s. unfold parseTestCases.
  destruct s as [|a s]; simpl.
  - repeat split; try congruence; auto.
  - destruct (parseMarkdownTestCases (a :: s)) as [|m ms] eqn:Hmd;
      destruct (parseStructuredTestCases (a :: s)) as [|t ts] eqn:Hst;
      repeat split; try congruence; auto;
      try (intros [? | (? & ? & ?)]; congruence).
Qed.

Lemma parse_is_a_cascade_witness :
  plain_sentence <> []
  /\ parseMarkdownTestCases plain_sentence <> []
  /\ parseTestCases plain_sentence = parseMarkdownTestCases plain_sentence
  /\ (nl ∉ plain_sentence)
  /\ trim plain_sentence <> []
  /\ js_test flag_i re_preamble (trim plain_sentence) = false
  /\ parseTestCases plain_sentence <> [].
Proof.
  assert (H1 : plain_sentence <> []) by (vm_compute; discriminate).
  assert (H2 : parseMarkdownTestCases plain_sentence <> []) by (vm_compute; discriminate).
  assert (H3 : nl ∉ plain_sentence) by (apply avoids_check; vm_compute; reflexivity).
  assert (H4 : trim plain_sentence <> []) by (vm_compute; discriminate).
  assert (H5 : js_test flag_i re_preamble (trim plain_sentence) = false)
    by (vm_compute; reflexivity).
  split; [exact H1|]. split; [exact H2|]. split.
  - exact (proj1 (proj2 (proj1 parse_is_a_cascade plain_sentence)) H1 H2).
  - split; [exact H3|]. split; [exact H4|]. split; [exact H5|].
    exact (proj1 (proj2 parse_is_a_cascade) plain_sentence H3 H4 H5).
Defined.

End ParserFacts.

(** ** Paragraphs: the split of the generic strategy *)

Module ParagraphFacts.
Import RegexFacts StringFacts LineContextFacts StrategyFacts Parser.

(** *** The blank-line pattern *)

Lemma blank_tail_scan (caps : list (nat * (nat * nat))) :
  forall (t : jsstring) (prev : option char) (pos : nat),
    greedy_scan is_space 0 (fun y => matcher no_flags r_nl y Some) prev t pos caps
    = (fun n => MState (Some nl) (drop n t) (pos + n) caps) <$> blank_tail t.
Proof.
  induction t as [|a t IH]; intros prev pos; [reflexivity|].
  cbn [greedy_scan blank_tail Nat.eqb Nat.pred].
  rewrite space_class.
  assert (Hhere : matcher no_flags r_nl (MState prev (a :: t) pos caps) Some
                  = if char_eqb nl a then Some (MState (Some nl) t (pos + 1) caps) else None).
  { unfold r_nl. cbn [matcher]. unfold char_matcher.
    cbn [m_rest ignoreCase no_flags canonicalize andb].
    destruct (char_eqb nl a) eqn:E; [|reflexivity].
    apply N.eqb_eq in E. subst a. unfold advance. cbn [m_pos m_caps].
    rewrite Nat.add_1_r. reflexivity. }
  destruct (isWhiteSpace a) eqn:Hw.
  - rewrite IH. destruct (blank_tail t) as [n|]; cbn [fmap option_fmap option_map].
    + rewrite Nat.add_succ_r. reflexivity.
    + rewrite Hhere. destruct (char_eqb nl a); reflexivity.
  - rewrite Hhere. destruct (char_eqb nl a) eqn:E; [|reflexivity].
    apply space_nl in E. congruence.
Qed.

Lemma blank_line_match (prev : option char) (rest : jsstring) (pos : nat) :
  match_at no_flags re_blank_line prev rest pos
  = match rest with
    | a :: t =>
        if char_eqb nl a
        then (fun n => MState (Some nl) (drop n t) (pos + 1 + n) []) <$> blank_tail t
        else None
    | [] => None
    end.
Proof.
  unfold match_at.
  change re_blank_line with (RSeq r_nl (RSeq (star r_space) r_nl)).
  rewrite m_seq. destruct rest as [|a t]; [reflexivity|].
  unfold r_nl at 1. cbn [matcher]. unfold char_matcher.
  cbn [m_rest ignoreCase no_flags canonicalize andb].
  destruct (char_eqb nl a) eqn:E; [|reflexivity].
  unfold star.
  rewrite (matcher_greedy no_flags r_space _ 0 _ _ (one_char_class _ _ _)).
  cbn [ignoreCase no_flags advance m_prev m_rest m_pos m_caps].
  rewrite blank_tail_scan. rewrite Nat.add_1_r. reflexivity.
Qed.

Lemma blank_tail_le (t : jsstring) (n : nat) : blank_tail t = Some n -> 0 < n <= length t.
Proof.
  revert n. induction t as [|a t IH]; intros n; cbn [blank_tail]; [discriminate|].
  destruct (isWhiteSpace a); [|discriminate].
  destruct (blank_tail t) as [m|].
  - intros [= <-]. specialize (IH m eq_refl). cbn [length]. lia.
  - destruct (char_eqb nl a); [|discriminate]. intros [= <-]. cbn [length]. lia.
Qed.

Lemma paragraphs_skip (cur : jsstring) :
  forall (n : nat) (t : jsstring),
    n <= length t -> paragraphs_from n cur t = paragraphs_from 0 cur (drop n t).
Proof.
  induction n as [|n IH]; intros t Hn; [reflexivity|].
  destruct t as [|a t]; [cbn in Hn; lia|].
  cbn [paragraphs_from drop]. apply IH. cbn in Hn. lia.
Qed.

(** [split] with the blank-line pattern gives the paragraphs. *)
Lemma split_loop_paragraphs (s : jsstring) :
  forall (fuel p q : nat),
    p <= q -> q <= length s -> length s - q < fuel ->
    split_loop fuel no_flags re_blank_line s p q
    = paragraphs_from 0 (rev (substring s p q)) (drop q s).
Proof.
  induction fuel as [|fuel IH]; intros p q Hpq Hq Hfuel; [lia|].
  cbn [split_loop].
  destruct (Nat.ltb q (length s)) eqn:Hlt.
  - apply Nat.ltb_lt in Hlt.
    rewrite blank_line_match.
    destruct (drop q s) as [|a t] eqn:Hd.
    { apply (f_equal length) in Hd. rewrite length_drop in Hd. cbn in Hd. lia. }
    assert (Hnext : drop (S q) s = t).
    { rewrite <- (Nat.add_1_l q), Nat.add_comm, <- drop_drop, Hd. reflexivity. }
    assert (Hsub : substring s p (S q) = substring s p q ++ [a]).
    { unfold substring. replace (S q - p) with (S (q - p)) by lia.
      assert (Hl : drop p s !! (q - p) = Some a).
      { rewrite lookup_drop. replace (p + (q - p)) with q by lia.
        rewrite <- (Nat.add_0_r q), <- lookup_drop, Hd. reflexivity. }
      rewrite (take_S_r _ _ _ Hl). reflexivity. }
    cbn [paragraphs_from].
    destruct (char_eqb nl a) eqn:Hnl.
    + destruct (blank_tail t) as [n|] eqn:Hb; cbn [fmap option_fmap option_map].
      * cbn [m_pos]. pose proof (blank_tail_le t n Hb) as Hn.
        assert (Hlen : length t = length s - S q).
        { rewrite <- Hnext, length_drop. reflexivity. }
        replace (Nat.eqb (q + 1 + n) p) with false by (symmetry; apply Nat.eqb_neq; lia).
        rewrite rev_involutive. f_equal.
        rewrite IH by lia.
        unfold substring. rewrite Nat.sub_diag.
        rewrite (paragraphs_skip [] n t) by lia.
        rewrite <- Hnext, drop_drop.
        replace (S q + n) with (q + 1 + n) by lia. reflexivity.
      * rewrite IH by lia. rewrite Hsub, rev_app_distr, Hnext. reflexivity.
    + rewrite IH by lia. rewrite Hsub, rev_app_distr, Hnext. reflexivity.
  - apply Nat.ltb_ge in Hlt. assert (q = length s) by lia. subst q.
    rewrite drop_all. cbn [paragraphs_from]. rewrite rev_involutive.
    unfold substring. rewrite take_ge by (rewrite length_drop; lia). reflexivity.
Qed.

Lemma split_paragraphs (s : jsstring) :
  split_re no_flags re_blank_line s = paragraphs s.
Proof.
  destruct s as [|a s]; [reflexivity|]. unfold split_re, paragraphs.
  rewrite split_loop_paragraphs by (cbn [length]; lia). reflexivity.
Qed.

(** *** Reading paragraphs piece by piece *)

Lemma paragraphs_plain (u : jsstring) :
  forall (acc t : jsstring),
    nl ∉ u -> paragraphs_from 0 (rev acc) (u ++ t) = paragraphs_from 0 (rev (acc ++ u)) t.
Proof.
  induction u as [|a u IH]; intros acc t Hu.
  - rewrite app_nil_r. reflexivity.
  - apply not_elem_of_cons in Hu as [Ha Hu]. cbn [app paragraphs_from].
    rewrite (char_eqb_neq nl a) by exact Ha.
    replace (a :: rev acc) with (rev (acc ++ [a])) by (rewrite rev_app_distr; reflexivity).
    rewrite (IH _ _ Hu), <- app_assoc. reflexivity.
Qed.

Lemma paragraphs_break (acc t : jsstring) :
  blank_tail t = None ->
  paragraphs_from 0 (rev acc) (nl :: t) = paragraphs_from 0 (rev (acc ++ [nl])) t.
Proof.
  intros H. cbn [paragraphs_from]. change (char_eqb nl nl) with true. cbn iota.
  rewrite H, rev_app_distr. reflexivity.
Qed.

Lemma blank_tail_nonspace (a : char) (t : jsstring) :
  isWhiteSpace a = false -> blank_tail (a :: t) = None.
Proof. intros H. cbn [blank_tail]. rewrite H. reflexivity. Qed.

Lemma paragraphs_cut (acc : jsstring) (a : char) (t : jsstring) :
  isWhiteSpace a = false ->
  paragraphs_from 0 (rev acc) (nl :: nl :: a :: t) = acc :: paragraphs_from 0 (rev []) (a :: t).
Proof.
  intros H. cbn [paragraphs_from]. change (char_eqb nl nl) with true. cbn iota.
  cbn [blank_tail]. change (isWhiteSpace nl) with true. cbn iota.
  rewrite H. change (char_eqb nl nl) with true. cbn iota.
  rewrite rev_involutive. reflexivity.
Qed.

Lemma paragraphs_end (acc : jsstring) : paragraphs_from 0 (rev acc) [] = [acc].
Proof. cbn [paragraphs_from]. rewrite rev_involutive. reflexivity. Qed.

(** *** A paragraph that starts with "#" *)

Lemma preamble_hash (t : jsstring) : js_test flag_i re_preamble (ch "#" :: t) = false.
Proof.
  unfold js_test. eval_const re_preamble. eval_const (ch "#").
  rewrite js_match_anchored by reflexivity.
  cbn. reflexivity.
Qed.

Lemma gen_title_match_hash (t : jsstring) :
  exists z,
    js_match flag_i re_gen_title (ch "#" :: t) = Some (RMatch 0 z)
    /\ m_caps z = [(1, (0, 1 + length (fst (span (class_has true true [CChar nl]) t))))].
Proof.
  eval_const re_gen_title. eval_const (ch "#").
  rewrite js_match_anchored by reflexivity.
  eexists. split.
  - apply (f_equal (fun o => match o with Some y => Some (RMatch 0 y) | None => None end)
             (y := Some _)).
    mrun. cbn [Nat.pred].
    apply greedy_scan_longest; [lia|reflexivity].
  - reflexivity.
Qed.

Lemma gen_title_hash (t : jsstring) : truthy (gen_title (ch "#" :: t)) = true.
Proof.
  unfold gen_title.
  destruct (gen_title_match_hash t) as [z [Hm Hcaps]]. rewrite Hm.
  unfold group_str, group. cbn [rm_state]. rewrite Hcaps.
  cbn [cap_lookup List.find fst snd Nat.eqb fmap option_fmap option_map default].
  unfold substring. cbn [drop Nat.add Nat.sub take].
  apply truthy_trim. reflexivity.
Qed.

(** The generic strategy makes one test case of it. *)
Lemma gen_block_hash (t : jsstring) : exists tc, gen_block (ch "#" :: t) = [tc].
Proof.
  unfold gen_block. cbn zeta.
  destruct (trim_head (ch "#") t eq_refl) as [t' ->]. cbn [truthy negb].
  rewrite preamble_hash, gen_title_hash. eexists. reflexivity.
Qed.

Lemma generic_count (ps : list jsstring) :
  Forall (fun p => exists t, p = ch "#" :: t) ps ->
  length (concat (map gen_block ps)) = length ps.
Proof.
  induction 1 as [|p ps [t ->] _ IH]; [reflexivity|].
  cbn [map concat]. destruct (gen_block_hash t) as [tc ->].
  cbn [app length]. rewrite IH. reflexivity.
Qed.

(** The markdown strategy takes no title from a block that starts with
    "#". *)
Lemma md_title_hash (t : jsstring) : md_title (ch "#" :: t) = [].
Proof.
  unfold md_title.
  assert (H : js_match no_flags re_md_title (ch "#" :: t) = None).
  { eval_const re_md_title. eval_const (ch "#").
    rewrite js_match_anchored by reflexivity.
    match goal with
    | |- match ?m with _ => _ end = None =>
        assert (Hm : m = None) by (mrun; reflexivity); rewrite Hm; reflexivity
    end. }
  rewrite H. reflexivity.
Qed.

Lemma md_block_hash (t : jsstring) : md_block (ch "#" :: t) = [].
Proof.
  unfold md_block. cbn zeta.
  destruct (trim_head (ch "#") t eq_refl) as [t' ->]. cbn [truthy negb].
  rewrite md_title_hash. reflexivity.
Qed.

End ParagraphFacts.

(** ** Markers of the markdown strategy *)

Module MarkerFacts.
Import RegexFacts StringFacts LineContextFacts StrategyFacts Parser.

(** *** Colons *)

Lemma colon_scan_weaken (t : jsstring) (b : bool) :
  colon_scan true t = true -> colon_scan b t = true.
Proof.
  destruct t as [|a t]; [reflexivity|]. cbn [colon_scan].
  destruct (char_eqb (ch ":") a); [discriminate|]. intros H. exact H.
Qed.

Lemma colon_scan_app (u v : jsstring) :
  colon_scan true v = true ->
  forall b : bool, colon_scan b u = true -> colon_scan b (u ++ v) = true.
Proof.
  intros Hv. induction u as [|a u IH]; intros b Hu.
  - apply colon_scan_weaken, Hv.
  - cbn [app colon_scan] in *. destruct (char_eqb (ch ":") a).
    + apply andb_true_iff in Hu as [-> Hu]. cbn [andb]. apply IH, Hu.
    + apply IH, Hu.
Qed.

Lemma colon_ok_app (u v : jsstring) : colon_ok u -> colon_ok v -> colon_ok (u ++ v).
Proof. intros Hu Hv. apply colon_scan_app; assumption. Qed.

Lemma colon_free_scan (t : jsstring) :
  ch ":" ∉ t -> forall b : bool, colon_scan b t = true.
Proof.
  induction t as [|a t IH]; intros H b; [reflexivity|].
  apply not_elem_of_cons in H as [Ha Ht]. cbn [colon_scan].
  rewrite (char_eqb_neq _ _ Ha). apply IH, Ht.
Qed.

Lemma colon_free_ok (t : jsstring) : ch ":" ∉ t -> colon_ok t.
Proof. intros H. apply colon_free_scan, H. Qed.

Lemma colon_ok_join (sep : jsstring) (parts : list jsstring) :
  colon_ok sep -> Forall colon_ok parts -> colon_ok (join sep parts).
Proof.
  intros Hsep. induction 1 as [|p parts Hp _ IH]; [reflexivity|].
  destruct parts as [|q parts]; [exact Hp|].
  change (join sep (p :: q :: parts)) with (p ++ sep ++ join sep (q :: parts)).
  apply colon_ok_app; [exact Hp|]. apply colon_ok_app; [exact Hsep|exact IH].
Qed.



Lemma colon_scan_suffix (pre rest : jsstring) :
  forall b, colon_scan b (pre ++ rest) = true -> exists b', colon_scan b' rest = true.
Proof.
  induction pre as [|a pre IH]; intros b H; [exists b; exact H|].
  cbn [app colon_scan] in H. destruct (char_eqb (ch ":") a).
  - apply andb_true_iff in H as [_ H]. exact (IH _ H).
  - exact (IH _ H).
Qed.

(** *** Where the markers of the markdown strategy cannot be *)

Section Markers.

Variable fl : flags.
Hypothesis case_sensitive : ignoreCase fl = false.

Variable text : jsstring.

(** No "*" in the text: a pattern that starts with "*" fails. *)
Lemma star_first_fails (r : regex) (x : mstate) (c : cont) :
  ch "*" ∉ text -> m_rest x `suffix_of` text ->
  matcher fl (RSeq (RChar (ch "*")) r) x c = None.
Proof using case_sensitive.
  intros Hstar [pre Hx]. cbn [matcher]. unfold char_matcher.
  destruct (m_rest x) as [|a rest]; [reflexivity|].
  rewrite case_sensitive. cbn [canonicalize andb].
  destruct (char_eqb (ch "*") a) eqn:E; [|reflexivity].
  apply N.eqb_eq in E. subst a. exfalso. apply Hstar. rewrite Hx.
  apply elem_of_app. right. left.
Qed.

(** No colon after an "e": "e:" is nowhere. *)
Lemma e_colon_fails (x : mstate) (c : cont) :
  colon_ok text -> m_rest x `suffix_of` text ->
  matcher fl (RSeq (RChar (ch "e")) (RChar (ch ":"))) x c = None.
Proof using case_sensitive.
  intros Hok [pre Hx]. cbn [matcher]. unfold char_matcher at 1.
  destruct (m_rest x) as [|a rest]; [reflexivity|].
  rewrite case_sensitive. cbn [canonicalize andb].
  destruct (char_eqb (ch "e") a) eqn:E; [|reflexivity].
  unfold char_matcher. cbn [advance m_rest].
  destruct rest as [|b rest]; [reflexivity|].
  destruct (char_eqb (ch ":") b) eqn:E'; [|reflexivity].
  exfalso. unfold colon_ok in Hok. rewrite Hx in Hok.
  apply colon_scan_suffix in Hok as [b' Hok].
  cbn [colon_scan] in Hok. rewrite E, E' in Hok.
  apply N.eqb_eq in E. subst a. cbn in Hok. discriminate.
Qed.

(** No colon after a digit. *)
Lemma digits_colon_scan (c : cont) :
  forall (rest : jsstring) (min : nat) (b : bool) (prev : option char) (pos : nat) caps,
    colon_scan b rest = true -> (min = 0 -> b = true) ->
    greedy_scan (class_has false false [CDigit]) min
      (fun y => matcher fl (RChar (ch ":")) y c) prev rest pos caps = None.
Proof using case_sensitive.
  assert (Hhere : forall prev a rest pos caps,
             matcher fl (RChar (ch ":")) (MState prev (a :: rest) pos caps) c
             = if char_eqb (ch ":") a then c (MState (Some a) rest (S pos) caps) else None).
  { intros. cbn [matcher]. unfold char_matcher. cbn [m_rest]. rewrite case_sensitive.
    reflexivity. }
  induction rest as [|a rest IH]; intros min b prev pos caps Hscan Hmin.
  - cbn [greedy_scan]. destruct (Nat.eqb min 0); reflexivity.
  - cbn [greedy_scan]. rewrite Hhere.
    cbn [colon_scan] in Hscan.
    destruct (class_has false false [CDigit] a) eqn:Hd.
    + assert (Hdigit : isDigit a = true).
      { unfold class_has in Hd. cbn in Hd. destruct (isDigit a); [reflexivity|discriminate]. }
      assert (Hc : char_eqb (ch ":") a = false).
      { destruct (char_eqb (ch ":") a) eqn:E; [|reflexivity].
        apply N.eqb_eq in E. subst a. discriminate. }
      rewrite Hc in Hscan |- *. rewrite Hdigit, orb_true_r in Hscan.
      rewrite (IH (Nat.pred min) true (Some a) (S pos) caps Hscan (fun _ => eq_refl)).
      destruct (Nat.eqb min 0); reflexivity.
    + destruct (Nat.eqb min 0) eqn:E0; [|reflexivity].
      destruct (char_eqb (ch ":") a); [|reflexivity].
      apply Nat.eqb_eq in E0. rewrite (Hmin E0) in Hscan. discriminate.
Qed.

Lemma digits_colon_fails (x : mstate) (c : cont) :
  colon_ok text -> m_rest x `suffix_of` text ->
  matcher fl (RSeq (plus r_digit) (RChar (ch ":"))) x c = None.
Proof using case_sensitive.
  intros Hok [pre Hx]. rewrite m_seq. unfold plus, r_digit. rewrite m_greedy_class.
  rewrite case_sensitive.
  unfold colon_ok in Hok. rewrite Hx in Hok.
  apply colon_scan_suffix in Hok as [b Hok].
  apply (digits_colon_scan c _ 1 b); [exact Hok|discriminate].
Qed.

Ltac descend :=
  rewrite ?m_seq; apply (matcher_none_within text); [assumption|];
  let y := fresh "y" in let Hy := fresh "Hy" in intros y Hy.

(** "Title:" after anything at all. *)
Lemma title_colon_fails (x : mstate) (c : cont) :
  colon_ok text -> m_rest x `suffix_of` text ->
  matcher fl (rstr "Title:") x c = None.
Proof using case_sensitive.
  intros Hok Hx.
  change (rstr "Title:")
    with (RSeq (RChar (ch "T")) (RSeq (RChar (ch "i")) (RSeq (RChar (ch "t"))
            (RSeq (RChar (ch "l")) (RSeq (RChar (ch "e")) (RChar (ch ":"))))))).
  do 4 descend. apply e_colon_fails; assumption.
Qed.

(** "1. Title:" *)
Lemma numbered_title_fails (x : mstate) (c : cont) :
  colon_ok text -> m_rest x `suffix_of` text ->
  matcher fl (rseq [plus r_digit; rstr "."; star r_space; rstr "Title:"]) x c = None.
Proof using case_sensitive.
  intros Hok Hx.
  change (rseq [plus r_digit; rstr "."; star r_space; rstr "Title:"])
    with (RSeq (plus r_digit) (RSeq (RChar (ch ".")) (RSeq (star r_space) (rstr "Title:")))).
  do 3 descend. apply title_colon_fails; assumption.
Qed.

End Markers.



(** The pattern that cuts the introduction finds nothing. *)
Lemma intro_not_found (text : jsstring) :
  ch "*" ∉ text -> colon_ok text -> js_match flag_s re_intro text = None.
Proof.
  intros Hstar Hok.
  change re_intro
    with (RSeq RBol (RSeq (lazy_star RAny)
            (RLook (RAlt (RSeq (RChar (ch "*")) (rstr "*Test Case"))
                         (rseq [plus r_digit; rstr "."; star r_space; rstr "Title:"]))))).
  rewrite js_match_anchored by reflexivity.
  rewrite m_seq, (matcher_none_within text); [reflexivity|reflexivity|].
  intros y Hy. rewrite m_look, m_alt.
  rewrite (star_first_fails flag_s eq_refl text) by assumption.
  rewrite (numbered_title_fails flag_s eq_refl text) by assumption.
  reflexivity.
Qed.

(** The pattern that separates the blocks finds nothing either. *)
Lemma block_marker_not_found (text : jsstring) (prev : option char) (rest : jsstring)
    (pos : nat) :
  ch "*" ∉ text -> colon_ok text -> rest `suffix_of` text ->
  match_at flag_m re_block_marker prev rest pos = None.
Proof.
  intros Hstar Hok Hrest. unfold match_at.
  change re_block_marker
    with (RAlt (RSeq (RSeq (RChar (ch "*")) (rstr "*Test Case "))
                     (RSeq (plus r_digit) (RChar (ch ":"))))
            (RAlt (RSeq (rstr "##") (RSeq (star r_space) (RSeq (rstr "Test Case ")
                     (RSeq (plus r_digit) (RChar (ch ":"))))))
                  (RSeq RBol (rseq [plus r_digit; rstr "."; star r_space; rstr "Title:"])))).
  rewrite !m_alt.
  assert (H1 : forall c, matcher flag_m (RSeq (RSeq (RChar (ch "*")) (rstr "*Test Case "))
                 (RSeq (plus r_digit) (RChar (ch ":")))) (MState prev rest pos []) c = None).
  { intros c. rewrite m_seq. apply (star_first_fails flag_m eq_refl text); assumption. }
  rewrite H1.
  assert (H2 : matcher flag_m (RSeq (rstr "##") (RSeq (star r_space) (RSeq (rstr "Test Case ")
                 (RSeq (plus r_digit) (RChar (ch ":")))))) (MState prev rest pos []) Some
               = None).
  { rewrite m_seq. apply (matcher_none_within text); [exact Hrest|]. intros y1 Hy1.
    rewrite m_seq. apply (matcher_none_within text); [exact Hy1|]. intros y2 Hy2.
    rewrite m_seq. apply (matcher_none_within text); [exact Hy2|]. intros y3 Hy3.
    apply (digits_colon_fails flag_m eq_refl text); assumption. }
  rewrite H2.
  rewrite m_seq. apply (matcher_none_within text); [exact Hrest|]. intros y Hy.
  apply (numbered_title_fails flag_m eq_refl text); assumption.
Qed.

End MarkerFacts.

(** ** Formatting what was parsed (C5, C6) *)

Module RoundTripFacts.
Import RegexFacts StringFacts LineContextFacts StrategyFacts ParagraphFacts MarkerFacts.
Import Parser Formatter Samples.

(** *** The [html] branch of [formatTestCases] *)

Abbreviation occurs_in x s := (exists pre post : jsstring, s = pre ++ x ++ post).

Lemma occurs_here (x b : jsstring) : occurs_in x (x ++ b).
Proof. exists [], b. reflexivity. Qed.

Lemma occurs_later (x a s : jsstring) : occurs_in x s -> occurs_in x (a ++ s).
Proof. intros (pre & post & ->). exists (a ++ pre), post. rewrite <- app_assoc. reflexivity. Qed.

Lemma occurs_earlier (x s b : jsstring) : occurs_in x s -> occurs_in x (s ++ b).
Proof.
  intros (pre & post & ->). exists pre, (post ++ b). rewrite <- !app_assoc. reflexivity.
Qed.

Lemma occurs_in_trans (y x s : jsstring) : occurs_in x y -> occurs_in y s -> occurs_in x s.
Proof.
  intros (a & b & ->) (pre & post & ->). exists (pre ++ a), (b ++ post).
  rewrite <- !app_assoc. reflexivity.
Qed.

Lemma join_piece (sep : jsstring) (parts : list jsstring) (x : jsstring) :
  In x parts -> occurs_in x (join sep parts).
Proof.
  induction parts as [|p parts IH]; intros H; [destruct H|].
  destruct parts as [|q parts].
  - destruct H as [-> | []]. exists [], []. rewrite app_nil_r. reflexivity.
  - change (join sep (p :: q :: parts)) with (p ++ sep ++ join sep (q :: parts)).
    destruct H as [-> | H]; [apply occurs_here|].
    apply occurs_later, occurs_later, IH, H.
Qed.

Lemma mapi_from_piece {A B : Type} (f : nat -> A -> B) (l : list A) (x : A) :
  In x l -> forall k, exists i, In (f i x) (mapi_from k f l).
Proof.
  induction l as [|y l IH]; intros H k; [destruct H|].
  destruct H as [-> | H].
  - exists k. left. reflexivity.
  - destruct (IH H (S k)) as [i Hi]. exists i. right. exact Hi.
Qed.

Lemma format_html_keeps_fields (i : nat) (tc : TestCase) :
  occurs_in (title tc) (format_html i tc)
  /\ occurs_in (expectedResult tc) (format_html i tc)
  /\ forall step, In step (steps tc) -> occurs_in step (format_html i tc).
Proof.
  unfold format_html. cbn zeta. split; [|split].
  - repeat first [apply occurs_here | apply occurs_later].
  - repeat first [apply occurs_here | apply occurs_later].
  - intros step H.
    assert (Hs : occurs_in step
                   (join [] (map (fun step => lit "<li>" ++ step ++ lit "</li>") (steps tc)))).
    { apply (occurs_in_trans (lit "<li>" ++ step ++ lit "</li>")).
      - apply occurs_later, occurs_here.
      - apply join_piece, in_map_iff. exists step. split; [reflexivity|exact H]. }
    repeat first [apply occurs_earlier; exact Hs | apply occurs_later].
Qed.

(** The same for a list: every field of every test case occurs in the
    output as it is. *)
Lemma html_keeps_fields (tcs : list TestCase) (tc : TestCase) :
  In tc tcs ->
  let html := formatTestCases (Value tcs) (Value (lit "html")) in
  occurs_in (title tc) html
  /\ occurs_in (expectedResult tc) html
  /\ forall step, In step (steps tc) -> occurs_in step html.
Proof.
  intros H html.
  assert (E : html = join [] (mapi format_html tcs)).
  { subst html. destruct tcs as [|t l]; [destruct H|]. reflexivity. }
  rewrite E. destruct (mapi_from_piece format_html tcs tc H 0) as [i Hi].
  pose proof (join_piece [] _ _ Hi) as Hj.
  destruct (format_html_keeps_fields i tc) as (Ht & He & Hs).
  split; [|split].
  - exact (occurs_in_trans _ _ _ Ht Hj).
  - exact (occurs_in_trans _ _ _ He Hj).
  - intros step Hstep. exact (occurs_in_trans _ _ _ (Hs step Hstep) Hj).
Qed.

(** C5: the [html] branch of [formatTestCases] escapes nothing.  For every
    list of test cases, the title, the expected result and every step of
    each test case occur in the output as they are, whatever characters
    they contain.  At the input [markup_text] the parser returns the title,
    the step and the expected result with their markup, so the output
    contains the raw element [<script>alert(1)</script>] (and a raw [<b>]
    and [>]). *)
Theorem formatTestCases_html_inserts_raw_markup :
  (forall (tcs : list TestCase) (tc : TestCase),
     In tc tcs ->
     let html := formatTestCases (Value tcs) (Value (lit "html")) in
     occurs_in (title tc) html
     /\ occurs_in (expectedResult tc) html
     /\ forall step, In step (steps tc) -> occurs_in step html)
  /\ parseTestCases markup_text = [markup_case]
  /\ formatTestCases (Value (parseTestCases markup_text)) (Value (lit "html"))
     = lit "<div class=" ++ dquote ++ lit "test-case" ++ dquote ++ lit ">" ++ [nl]
       ++ lit "          <h3>1. <script>alert(1)</script></h3>" ++ [nl]
       ++ lit "          <h4>Test Steps:</h4>" ++ [nl]
       ++ lit "          <ol><li>Click <b>here</b></li></ol>" ++ [nl]
       ++ lit "          <h4>Expected Result:</h4>" ++ [nl]
       ++ lit "          <p>a > b</p>" ++ [nl]
       ++ lit "        </div>"
  /\ str_includes
       (formatTestCases (Value (parseTestCases markup_text)) (Value (lit "html")))
       (lit "<script>alert(1)</script>") = true.
Proof.
  split; [exact html_keeps_fields|].
  repeat split; vm_compute; reflexivity.
Qed.

Lemma formatTestCases_html_witness :
  In markup_case [markup_case]
  /\ occurs_in (lit "<script>alert(1)</script>")
       (formatTestCases (Value [markup_case]) (Value (lit "html"))).
Proof.
  split; [left; reflexivity|].
  exact (proj1 (proj1 formatTestCases_html_inserts_raw_markup [markup_case] markup_case
                  (or_introl eq_refl))).
Defined.

(** The sibling formatter escapes the same fields. *)
Lemma formatAsHtml_escapes_the_same_input :
  ExportUtils.formatAsHtml stringify_none
    (VArray (map obj_of_parsed (parseTestCases markup_text)))
  = lit "<h2>Test Case 1: &lt;script&gt;alert(1)&lt;/script&gt;</h2>" ++ [nl; nl]
    ++ lit "<h3>Steps:</h3>" ++ [nl]
    ++ lit "<ol><li>Click &lt;b&gt;here&lt;/b&gt;</li>" ++ [nl]
    ++ lit "</ol>" ++ [nl; nl].
Proof. vm_compute; reflexivity. Qed.

(** *** The markdown of [formatTestCases], read back *)

Lemma plain_avoids (s : jsstring) :
  plain s -> (nl ∉ s) /\ (ch "*" ∉ s) /\ (ch "-" ∉ s) /\ (ch ":" ∉ s).
Proof.
  intros H. repeat split; apply avoids_Forall; (eapply Forall_impl; [exact H|]);
    intros a (H1 & H2 & H3 & H4); assumption.
Qed.

(** *** The paragraphs of the markdown that [formatTestCases] writes *)

Abbreviation steps_text k steps := (join [nl] (mapi_from k numbered_step steps)).

Lemma blank_tail_indent (a : char) (t : jsstring) :
  isWhiteSpace a = false -> blank_tail (lit "   " ++ a :: t) = None.
Proof.
  intros H. change (lit "   ") with [ch " "; ch " "; ch " "]. cbn [app blank_tail].
  change (isWhiteSpace (ch " ")) with true. cbn iota. rewrite H.
  change (char_eqb nl (ch " ")) with false. reflexivity.
Qed.

Lemma numbered_step_line (k : nat) (step t : jsstring) :
  blank_tail (numbered_step k step ++ t) = None.
Proof.
  unfold numbered_step. destruct (show_nat_head (k + 1)) as (d & ds & -> & Hd).
  rewrite <- !app_assoc. cbn [app]. apply blank_tail_indent, Hd.
Qed.

Lemma numbered_step_calm (k : nat) (step : jsstring) :
  nl ∉ step -> nl ∉ numbered_step k step.
Proof. intros H. unfold numbered_step. avoids. Qed.

(** The lines of the steps stay in the paragraph of their heading. *)
Lemma steps_block (steps : list jsstring) :
  forall (k : nat) (acc t : jsstring),
    steps <> [] -> Forall (fun step => nl ∉ step) steps ->
    paragraphs_from 0 (rev acc) (nl :: steps_text k steps ++ t)
    = paragraphs_from 0 (rev (acc ++ nl :: steps_text k steps)) t.
Proof.
  induction steps as [|step steps IH]; intros k acc t Hne Hall; [congruence|].
  apply Forall_cons in Hall as [Hstep Hall].
  destruct steps as [|step' steps].
  - cbn [mapi_from join].
    rewrite paragraphs_break by apply numbered_step_line.
    rewrite paragraphs_plain by (apply numbered_step_calm, Hstep).
    rewrite <- app_assoc. reflexivity.
  - change (steps_text k (step :: step' :: steps))
      with (numbered_step k step ++ [nl] ++ steps_text (S k) (step' :: steps)).
    rewrite <- !app_assoc.
    rewrite paragraphs_break by apply numbered_step_line.
    rewrite paragraphs_plain by (apply numbered_step_calm, Hstep).
    cbn [app]. rewrite IH by (try discriminate; exact Hall).
    rewrite <- !app_assoc. reflexivity.
Qed.

Lemma case_paragraphs (i : nat) (tc : TestCase) (rest : jsstring) :
  plain_case tc ->
  paragraphs_from 0 (rev []) (format_markdown i tc ++ rest)
  = heading_paragraph i tc :: steps_paragraph tc
      :: paragraphs_from 0 (rev (result_paragraph tc)) rest.
Proof.
  intros (Ht & Hne & Hsteps & He & e & es & Ee & Hns).
  apply plain_avoids in Ht as (Ht & _).
  pose proof (plain_avoids _ He) as (He' & _).
  assert (Hsteps' : Forall (fun step => nl ∉ step) (steps tc)).
  { eapply Forall_impl; [exact Hsteps|]. intros s Hs. apply (plain_avoids s Hs). }
  unfold format_markdown. cbn zeta. unfold mapi. rewrite <- !app_assoc.
  rewrite (paragraphs_plain (lit "## ")) by avoids.
  rewrite (paragraphs_plain (show_nat _)) by avoids.
  rewrite (paragraphs_plain (lit ". ")) by avoids.
  rewrite (paragraphs_plain (title tc)) by avoids.
  change (lit "### Test Steps:") with (ch "#" :: lit "## Test Steps:").
  cbn [app]. rewrite paragraphs_cut by reflexivity.
  change (ch "#" :: lit "## Test Steps:" ++ ?x) with (lit "### Test Steps:" ++ x).
  rewrite (paragraphs_plain (lit "### Test Steps:")) by avoids.
  rewrite steps_block by assumption.
  change (lit "### Expected Result:") with (ch "#" :: lit "## Expected Result:").
  cbn [app]. rewrite paragraphs_cut by reflexivity.
  change (ch "#" :: lit "## Expected Result:" ++ ?x) with (lit "### Expected Result:" ++ x).
  rewrite (paragraphs_plain (lit "### Expected Result:")) by avoids.
  rewrite paragraphs_break by (rewrite Ee; apply blank_tail_nonspace, Hns).
  rewrite (paragraphs_plain (expectedResult tc)) by avoids.
  unfold heading_paragraph, steps_paragraph, result_paragraph.
  cbn [app]. rewrite <- !app_assoc. reflexivity.
Qed.

(** *** The whole text *)

Abbreviation markdown_text k tcs := (join [nl; nl] (mapi_from k format_markdown tcs)).

Lemma markdown_text_head (k : nat) (tc : TestCase) (tcs : list TestCase) :
  exists t, markdown_text k (tc :: tcs) = ch "#" :: t.
Proof.
  destruct tcs as [|tc' tcs]; cbn [mapi_from]; unfold format_markdown; cbn zeta;
    change (lit "## ") with (ch "#" :: lit "# "); eexists; reflexivity.
Qed.

Lemma markdown_paragraphs (tcs : list TestCase) :
  forall k : nat,
    tcs <> [] -> Forall plain_case tcs ->
    paragraphs (markdown_text k tcs)
    = concat (mapi_from k (fun i tc => [heading_paragraph i tc; steps_paragraph tc;
                                        result_paragraph tc]) tcs).
Proof.
  unfold paragraphs.
  induction tcs as [|tc tcs IH]; intros k Hne Hall; [congruence|].
  apply Forall_cons in Hall as [Htc Hall].
  destruct tcs as [|tc' tcs].
  - cbn [mapi_from concat app].
    change (join [nl; nl] [format_markdown k tc]) with (format_markdown k tc).
    rewrite <- (app_nil_r (format_markdown k tc)).
    pose proof (case_paragraphs k tc [] Htc) as Hcase. cbn [rev] in Hcase.
    rewrite Hcase, paragraphs_end. reflexivity.
  - change (markdown_text k (tc :: tc' :: tcs))
      with (format_markdown k tc ++ [nl; nl] ++ markdown_text (S k) (tc' :: tcs)).
    pose proof (case_paragraphs k tc ([nl; nl] ++ markdown_text (S k) (tc' :: tcs)) Htc)
      as Hcase.
    cbn [rev] in Hcase. rewrite Hcase.
    destruct (markdown_text_head (S k) tc' tcs) as [t Ht].
    cbn [app]. rewrite Ht, paragraphs_cut by reflexivity. rewrite <- Ht.
    cbn [rev]. rewrite IH by (try discriminate; exact Hall).
    reflexivity.
Qed.

Abbreviation case_pieces :=
  (fun i tc => [heading_paragraph i tc; steps_paragraph tc; result_paragraph tc]).

Lemma case_pieces_count (tcs : list TestCase) :
  forall k : nat, length (concat (mapi_from k case_pieces tcs)) = 3 * length tcs.
Proof.
  induction tcs as [|tc tcs IH]; intros k; [reflexivity|].
  cbn [mapi_from concat app length]. rewrite IH. lia.
Qed.

Lemma case_pieces_hash (tcs : list TestCase) :
  forall k : nat,
    Forall (fun p => exists t, p = ch "#" :: t) (concat (mapi_from k case_pieces tcs)).
Proof.
  induction tcs as [|tc tcs IH]; intros k; [constructor|].
  cbn [mapi_from concat app].
  unfold heading_paragraph, steps_paragraph, result_paragraph.
  change (lit "## ") with (ch "#" :: lit "# ").
  change (lit "### Test Steps:") with (ch "#" :: lit "## Test Steps:").
  change (lit "### Expected Result:") with (ch "#" :: lit "## Expected Result:").
  repeat (constructor; [eexists; reflexivity|]). apply IH.
Qed.

Lemma markdown_generic_count (tcs : list TestCase) :
  tcs <> [] -> Forall plain_case tcs ->
  length (extractGenericTestCases (markdown_text 0 tcs)) = 3 * length tcs.
Proof.
  intros Hne Hall. unfold extractGenericTestCases.
  rewrite split_paragraphs, markdown_paragraphs by assumption.
  rewrite generic_count; [apply case_pieces_count|apply case_pieces_hash].
Qed.

(** Neither "*" nor "-" is written, except in a field. *)
Abbreviation no_star_dash := (fun a : char => a <> ch "*" /\ a <> ch "-").

Lemma literal_no_star_dash (s : jsstring) :
  forallb (fun a => negb (char_eqb (ch "*") a) && negb (char_eqb (ch "-") a)) s = true ->
  Forall no_star_dash s.
Proof.
  intros H. apply Forall_forall. intros a Ha.
  rewrite forallb_forall in H. apply list_elem_of_In in Ha. specialize (H a Ha).
  apply andb_true_iff in H as [H1 H2].
  apply negb_true_iff, N.eqb_neq in H1, H2. split; intros ->; congruence.
Qed.

Lemma plain_no_star_dash (s : jsstring) : plain s -> Forall no_star_dash s.
Proof.
  intros H. eapply Forall_impl; [exact H|]. intros a (_ & H2 & H3 & _). split; assumption.
Qed.

Lemma show_nat_no_star_dash (n : nat) : Forall no_star_dash (show_nat n).
Proof.
  eapply Forall_impl; [apply show_nat_range|].
  intros a Ha. split; intros ->; vm_compute in Ha; destruct Ha as [Ha _]; apply Ha; reflexivity.
Qed.

Ltac no_star_dash_pieces :=
  lazymatch goal with
  | |- Forall _ (_ ++ _) => apply Forall_app; split; no_star_dash_pieces
  | |- Forall _ (lit _) => apply literal_no_star_dash; vm_compute; reflexivity
  | |- Forall _ (_ :: _) => apply literal_no_star_dash; vm_compute; reflexivity
  | |- Forall _ (show_nat _) => apply show_nat_no_star_dash
  | |- _ => assumption
  end.

Lemma markdown_no_star_dash (tcs : list TestCase) (k : nat) :
  Forall plain_case tcs -> Forall no_star_dash (markdown_text k tcs).
Proof.
  intros Hall. apply join_Forall; [apply literal_no_star_dash; vm_compute; reflexivity|].
  apply (mapi_from_Forall_if _ plain_case); [|exact Hall].
  intros i tc (Ht & _ & Hsteps & He & _).
  apply plain_no_star_dash in Ht, He.
  assert (Hs : Forall no_star_dash (join [nl] (mapi numbered_step (steps tc)))).
  { apply join_Forall; [apply literal_no_star_dash; vm_compute; reflexivity|].
    apply (mapi_from_Forall_if _ plain); [|exact Hsteps].
    intros j step Hstep. apply plain_no_star_dash in Hstep.
    unfold numbered_step. no_star_dash_pieces. }
  unfold format_markdown. cbn zeta. no_star_dash_pieces.
Qed.

Lemma plain_colon_ok (s : jsstring) : plain s -> colon_ok s.
Proof. intros H. apply colon_free_ok, (plain_avoids s H). Qed.

Ltac colon_ok_pieces :=
  lazymatch goal with
  | |- colon_ok (_ ++ _) => apply colon_ok_app; colon_ok_pieces
  | |- colon_ok (lit _) => vm_compute; reflexivity
  | |- colon_ok (_ :: _) => vm_compute; reflexivity
  | |- colon_ok (show_nat _) => apply colon_free_ok, show_nat_avoids; vm_compute; auto
  | |- _ => assumption
  end.

Lemma markdown_colon_ok (tcs : list TestCase) (k : nat) :
  Forall plain_case tcs -> colon_ok (markdown_text k tcs).
Proof.
  intros Hall. apply colon_ok_join; [vm_compute; reflexivity|].
  apply (mapi_from_Forall_if _ plain_case); [|exact Hall].
  intros i tc (Ht & _ & Hsteps & He & _).
  apply plain_colon_ok in Ht, He.
  assert (Hs : colon_ok (join [nl] (mapi numbered_step (steps tc)))).
  { apply colon_ok_join; [vm_compute; reflexivity|].
    apply (mapi_from_Forall_if _ plain); [|exact Hsteps].
    intros j step Hstep. apply plain_colon_ok in Hstep.
    unfold numbered_step. colon_ok_pieces. }
  unfold format_markdown. cbn zeta. colon_ok_pieces.
Qed.

(** *** The three strategies on the formatted text *)

Lemma markdown_finds_nothing (text : jsstring) :
  (exists t, text = ch "#" :: t) -> ch "*" ∉ text -> colon_ok text ->
  parseMarkdownTestCases text = [].
Proof.
  intros [t Ht] Hstar Hok. unfold parseMarkdownTestCases. cbn zeta.
  unfold replace_first. rewrite (intro_not_found text Hstar Hok).
  assert (Hsplit : split_re flag_m re_block_marker text = [text]).
  { rewrite Ht. unfold split_re. rewrite <- Ht.
    apply split_loop_no_match. intros q.
    apply (block_marker_not_found text); [assumption|assumption|apply suffix_drop]. }
  rewrite Hsplit. rewrite Ht at 1.
  destruct (trim_head (ch "#") t eq_refl) as [t' ->]. cbn [truthy drop map concat].
  rewrite Ht, md_block_hash. reflexivity.
Qed.

Lemma formatted_markdown_count (tcs : list TestCase) :
  Forall plain_case tcs ->
  length (parseTestCases (formatTestCases (Value tcs) (Value (lit "markdown"))))
  = 3 * length tcs.
Proof.
  intros Hall. destruct tcs as [|tc tcs]; [reflexivity|].
  change (formatTestCases (Value (tc :: tcs)) (Value (lit "markdown")))
    with (markdown_text 0 (tc :: tcs)).
  pose proof (markdown_no_star_dash (tc :: tcs) 0 Hall) as Hchars.
  assert (Hstar : ch "*" ∉ markdown_text 0 (tc :: tcs)).
  { apply avoids_Forall. eapply Forall_impl; [exact Hchars|]. intros a [H _]. exact H. }
  assert (Hdash : ch "-" ∉ markdown_text 0 (tc :: tcs)).
  { apply avoids_Forall. eapply Forall_impl; [exact Hchars|]. intros a [_ H]. exact H. }
  pose proof (markdown_colon_ok (tc :: tcs) 0 Hall) as Hok.
  destruct (markdown_text_head 0 tc tcs) as [t Ht].
  unfold parseTestCases.
  rewrite (markdown_finds_nothing _ (ex_intro _ t Ht) Hstar Hok).
  rewrite (structured_finds_nothing _ Idle (safe_is_scanned _ (scan_dashless _ Hdash))).
  rewrite Ht at 1. cbn [truthy negb].
  apply markdown_generic_count; [discriminate|exact Hall].
Qed.

(** C6, as stated, fails: one test case with two steps, formatted as
    markdown by [formatTestCases], is parsed back as three test cases (the
    heading, the steps block and the expected-result block). *)
Lemma markdown_round_trip_changes_the_count :
  parseTestCases (formatTestCases (Value [login_case]) (Value (lit "markdown")))
  = [ {| title := lit "## 1. Login";
         steps := [lit "No specific steps provided"];
         expectedResult := lit "No specific expected result provided" |};
      {| title := lit "### Test Steps:";
         steps := [lit "Open page"; lit "Click"];
         expectedResult := lit "No specific expected result provided" |};
      {| title := lit "### Expected Result:";
         steps := [lit "No specific steps provided"];
         expectedResult := lit "Dashboard shown" |} ]
  /\ length (parseTestCases (formatTestCases (Value [login_case]) (Value (lit "markdown"))))
     <> length [login_case].
Proof. split; [vm_compute; reflexivity|vm_compute; discriminate]. Qed.

Lemma plain_check (s : jsstring) :
  forallb (fun a => negb (char_eqb nl a) && negb (char_eqb (ch "*") a)
                    && negb (char_eqb (ch "-") a) && negb (char_eqb (ch ":") a)) s = true ->
  plain s.
Proof.
  intros H. apply Forall_forall. intros a Ha.
  rewrite forallb_forall in H. apply list_elem_of_In in Ha. specialize (H a Ha).
  apply andb_true_iff in H as [H H4]. apply andb_true_iff in H as [H H3].
  apply andb_true_iff in H as [H1 H2].
  apply negb_true_iff, N.eqb_neq in H1, H2, H3, H4.
  repeat split; intros ->; congruence.
Qed.

(** C6, amended: for every list of plain test cases, the markdown of
    [formatTestCases] is read back as three test cases for each one that
    was formatted: the heading, the steps and the expected result of a
    test case are three paragraphs, and the generic strategy makes a test
    case of each.  In the example, the markdown of [formatAsMarkdown] is
    read back by the markdown strategy with as many test cases as were
    formatted, each with the extra step [###] and with the expected
    results as one string. *)
Theorem markdown_round_trip_count :
  (forall tcs : list TestCase,
     Forall plain_case tcs ->
     length (parseTestCases (formatTestCases (Value tcs) (Value (lit "markdown"))))
     = 3 * length tcs)
  /\ map (fun tc => (title tc, length (steps tc)))
        (parseTestCases (formatTestCases (Value [login_case]) (Value (lit "markdown"))))
     = [(lit "## 1. Login", 1%nat); (lit "### Test Steps:", 2%nat);
        (lit "### Expected Result:", 1%nat)]
  /\ parseTestCases (ExportUtils.formatAsMarkdown stringify_none (VArray [login_obj; logout_obj]))
     = [ {| title := lit "Login";
            steps := [lit "Open page"; lit "Click"; lit "###"];
            expectedResult := unlines [lit "s:"; lit "- Shown"; lit "- Ok"] |};
         {| title := lit "Logout";
            steps := [lit "Out"; lit "###"];
            expectedResult := unlines [lit "s:"; lit "- Bye"] |} ].
Proof.
  split; [exact formatted_markdown_count|].
  split; vm_compute; reflexivity.
Qed.

Lemma markdown_round_trip_witness :
  Forall plain_case [login_case]
  /\ length (parseTestCases (formatTestCases (Value [login_case]) (Value (lit "markdown"))))
     = 3.
Proof.
  assert (H : Forall plain_case [login_case]).
  { constructor; [|constructor]. unfold plain_case, login_case. cbn [title steps expectedResult].
    split; [apply plain_check; vm_compute; reflexivity|].
    split; [discriminate|].
    split.
    { repeat (apply List.Forall_cons; [apply plain_check; vm_compute; reflexivity|]).
      apply List.Forall_nil. }
    split; [apply plain_check; vm_compute; reflexivity|].
    exists (ch "D"), (lit "ashboard shown"). split; reflexivity. }
  split; [exact H|].
  exact (proj1 markdown_round_trip_count [login_case] H).
Defined.

End RoundTripFacts.

(** ** Parsing the fallback text (C7) *)

Module FallbackFacts.
Import RegexFacts StringFacts LineContextFacts StrategyFacts.
Import Parser Fallback Samples.

Lemma unique_aux_subset (w : jsstring) :
  forall (l seen : list jsstring), w ∈ unique_aux seen l -> w ∈ l.
Proof.
  induction l as [|x l IH]; intros seen H; cbn [unique_aux] in H; [exact H|].
  destruct (includes seen x).
  - right. exact (IH _ H).
  - apply elem_of_cons in H as [-> | H]; [left|right; exact (IH _ H)].
Qed.

Lemma punctuation_has_dash :
  class_has false false (map CChar (lit ".,/#!$%^&*;:{}=-_`~()")) (ch "-") = true.
Proof. vm_compute. reflexivity. Qed.

Section Keywords.

Variable toLowerCase : jsstring -> jsstring.

Abbreviation keywords := (extractKeywords toLowerCase).

Lemma keyword_is_word (w text : jsstring) :
  w ∈ keywords text ->
  3 < length w
  /\ w ∈ split_char (ch " ")
           (replace_all no_flags re_spaces (lit " ")
              (replace_all no_flags re_punctuation [] (toLowerCase text))).
Proof.
  unfold extractKeywords, unique. intros H. apply unique_aux_subset in H.
  apply list_elem_of_In, filter_In in H as [Hw Hf].
  apply andb_true_iff in Hf as [Hlen _]. apply Nat.ltb_lt in Hlen.
  split; [exact Hlen|]. apply list_elem_of_In. exact Hw.
Qed.

Lemma keyword_dashless (w text : jsstring) : w ∈ keywords text -> ch "-" ∉ w.
Proof.
  intros H. apply keyword_is_word in H as [_ H].
  apply avoids_Forall. revert w H. apply Forall_forall.
  apply split_char_Forall, replace_all_Forall.
  - unfold re_punctuation.
    rewrite (replace_all_one_char _ _ _ _ _ (one_char_class _ _ _)).
    apply Forall_flat_map, Forall_forall. intros a _.
    cbn [ignoreCase no_flags].
    destruct (class_has false false _ a) eqn:E; [constructor|].
    constructor; [|constructor]. intros ->.
    rewrite punctuation_has_dash in E. discriminate.
  - apply avoids_Forall, avoids_check. vm_compute. reflexivity.
Qed.

Hypothesis toLowerCase_keeps_lines :
  forall s : jsstring, nl ∉ s -> nl ∉ toLowerCase s.

Lemma keyword_calm (w text : jsstring) : nl ∉ text -> w ∈ keywords text -> nl ∉ w.
Proof using toLowerCase_keeps_lines.
  intros Ht H. apply keyword_is_word in H as [_ H].
  apply avoids_Forall. revert w H. apply Forall_forall.
  apply split_char_Forall, replace_all_Forall.
  - apply replace_all_Forall; [|constructor].
    apply avoids_Forall, toLowerCase_keeps_lines, Ht.
  - apply avoids_Forall, avoids_check. vm_compute. reflexivity.
Qed.

(** [keywords[i] || dflt] is the default or a keyword. *)
Lemma keyword_or_cases (text : jsstring) (i : nat) (dflt : jsstring) :
  keyword_or (keywords text) i dflt = dflt
  \/ keywords text !! i = Some (keyword_or (keywords text) i dflt)
     /\ keyword_or (keywords text) i dflt ∈ keywords text.
Proof.
  unfold keyword_or. destruct (keywords text !! i) as [[|a w]|] eqn:E; cbn [or_else].
  - left. reflexivity.
  - right. split; [reflexivity|]. apply list_elem_of_lookup. exists i. exact E.
  - left. reflexivity.
Qed.

Lemma keyword_or_dashless (text : jsstring) (i : nat) (dflt : jsstring) :
  ch "-" ∉ dflt -> ch "-" ∉ keyword_or (keywords text) i dflt.
Proof.
  intros Hd. destruct (keyword_or_cases text i dflt) as [-> | [_ H]]; [exact Hd|].
  exact (keyword_dashless _ _ H).
Qed.

End Keywords.

Ltac safe_literal := apply safeb_safe; vm_compute; reflexivity.
Ltac settles_literal := apply settlesb_settles; vm_compute; reflexivity.
Ltac calm :=
  lazymatch goal with
  | |- _ ∉ _ ++ _ => apply not_elem_of_app; split; calm
  | |- _ ∉ lit _ => apply avoids_check; vm_compute; reflexivity
  | |- _ ∉ dquote => apply avoids_check; vm_compute; reflexivity
  | |- _ => assumption
  end.
Ltac safe_line :=
  lazymatch goal with
  | |- safe [] => apply safe_nil
  | |- safe (lit _) => safe_literal
  | |- safe (lit _ ++ _) =>
      first [ apply settles_safe, settles_calm; [settles_literal | solve [calm]]
            | apply safe_app; [safe_literal | safe_line] ]
  | |- safe (_ ++ _) => apply safe_app; [apply scan_dashless; assumption | safe_line]
  | |- safe _ => apply scan_dashless; assumption
  end.

Section FallbackText.

Variable toLowerCase : jsstring -> jsstring.

Hypothesis toLowerCase_keeps_lines :
  forall s : jsstring, nl ∉ s -> nl ∉ toLowerCase s.

Lemma basic_case_safe (feature detail : jsstring) :
  ch "-" ∉ feature -> ch "-" ∉ detail -> safe (basic_case feature detail).
Proof.
  intros Hf Hd. unfold basic_case, unlines. apply safe_join.
  repeat (apply List.Forall_cons; [safe_line|]). apply List.Forall_nil.
Qed.

Lemma behavior_calm (line : jsstring) :
  nl ∉ line -> nl ∉ join (lit " ") (last3 (split_char (ch " ") line)).
Proof.
  intros H. apply avoids_Forall, join_Forall.
  - apply avoids_Forall, avoids_check. vm_compute. reflexivity.
  - unfold last3. apply Forall_drop, split_char_Forall, avoids_Forall, H.
Qed.

Lemma criterion_case_safe (feature : jsstring) (index : nat) (line : jsstring) :
  ch "-" ∉ feature -> nl ∉ line ->
  safe (criterion_case toLowerCase feature index line).
Proof using toLowerCase_keeps_lines.
  intros Hf Hline. unfold criterion_case. cbn zeta.
  pose proof (keyword_or_dashless toLowerCase line 0 feature Hf) as Hac.
  pose proof (show_nat_dashless (index + 2)) as Hshow.
  pose proof (behavior_calm line Hline) as Hbeh.
  assert (Hcond : keyword_or (extractKeywords toLowerCase line) 1 (lit "condition")
                  = lit "condition"
                  \/ ((nl ∉ keyword_or (extractKeywords toLowerCase line) 1 (lit "condition"))
                      /\ (nl ∉ keyword_or (extractKeywords toLowerCase line) 0 feature))).
  { destruct (keyword_or_cases toLowerCase line 1 (lit "condition")) as [E | [E Hin]];
      [left; exact E|right].
    split; [exact (keyword_calm toLowerCase toLowerCase_keeps_lines _ _ Hline Hin)|].
    destruct (lookup_lt_is_Some_2 (extractKeywords toLowerCase line) 0) as [k0 E0].
    { apply lookup_lt_Some in E. lia. }
    assert (Hin0 : k0 ∈ extractKeywords toLowerCase line).
    { apply list_elem_of_lookup. exists 0. exact E0. }
    unfold keyword_or at 1. rewrite E0.
    destruct (keyword_is_word toLowerCase _ _ Hin0) as [Hlen _].
    destruct k0 as [|a k0]; [cbn in Hlen; lia|]. cbn [or_else].
    exact (keyword_calm toLowerCase toLowerCase_keeps_lines _ _ Hline Hin0). }
  set (acFeature := keyword_or (extractKeywords toLowerCase line) 0 feature) in *.
  set (condition := keyword_or (extractKeywords toLowerCase line) 1 (lit "condition")) in *.
  set (behavior := join (lit " ") (last3 (split_char (ch " ") line))) in *.
  assert (Hcondition : ch "-" ∉ condition).
  { apply keyword_or_dashless, avoids_check. vm_compute. reflexivity. }
  unfold unlines. apply safe_join.
  apply List.Forall_cons; [apply safe_nil|].
  apply List.Forall_cons.
  { destruct Hcond as [E | [Hc Ha]].
    - rewrite E. safe_line.
    - safe_line. }
  repeat (apply List.Forall_cons; [safe_line|]). apply List.Forall_nil.
Qed.

Lemma criterion_line_calm (ac line : jsstring) :
  line ∈ List.filter keep_ac_line (map trim (split_char nl ac)) -> nl ∉ line.
Proof.
  intros H. apply list_elem_of_In, filter_In in H as [H _].
  apply in_map_iff in H as (piece & <- & H).
  apply avoids_Forall, trim_Forall, avoids_Forall.
  pose proof (split_char_sep nl ac) as Hsep. rewrite Forall_forall in Hsep.
  apply Hsep, list_elem_of_In, H.
Qed.

Lemma fallback_text_safe (payload : Payload) :
  safe (generateFallbackTestCases toLowerCase payload).
Proof using toLowerCase_keeps_lines.
  unfold generateFallbackTestCases, fallbackBlocks. cbn zeta.
  apply safe_join. constructor.
  - apply basic_case_safe; apply keyword_or_dashless, avoids_check; vm_compute; reflexivity.
  - apply mapi_from_Forall. intros i line Hline.
    apply criterion_case_safe.
    + apply keyword_or_dashless, avoids_check. vm_compute. reflexivity.
    + exact (criterion_line_calm _ _ Hline).
Qed.

Lemma fallback_heading (payload : Payload) :
  exists tail,
    generateFallbackTestCases toLowerCase payload = lit "Test Case 1: Verify" ++ tail.
Proof.
  unfold generateFallbackTestCases, fallbackBlocks. cbn zeta.
  destruct (mapi _ _) as [|q r]; cbn [join]; unfold basic_case, unlines; cbn [join];
    change (lit "Test Case 1: Verify ") with (lit "Test Case 1: Verify" ++ lit " ");
    rewrite <- !app_assoc; eexists; reflexivity.
Qed.

Lemma fallback_is_parsed (payload : Payload) :
  exists tc,
    tc ∈ parseTestCases (generateFallbackTestCases toLowerCase payload)
    /\ truthy (title tc) = true.
Proof using toLowerCase_keeps_lines.
  destruct (fallback_heading payload) as [tail E].
  pose proof (fallback_text_safe payload) as Hsafe.
  assert (Htext : truthy (generateFallbackTestCases toLowerCase payload) = true)
    by (rewrite E; reflexivity).
  unfold parseTestCases. rewrite Htext. cbn [negb].
  destruct (parseMarkdownTestCases _) as [|tc0 tcs] eqn:Hmd.
  - rewrite (structured_finds_nothing _ Idle (safe_is_scanned _ Hsafe)).
    rewrite E. destruct (generic_reads_fallback_heading tail) as (tc & l & -> & Ht).
    exists tc. split; [left|exact Ht].
  - exists tc0. split; [left|].
    apply (markdown_titles (generateFallbackTestCases toLowerCase payload)).
    rewrite Hmd. left.
Qed.

End FallbackText.

Lemma asciiLower_keeps_lines (s : jsstring) : nl ∉ s -> nl ∉ asciiLower s.
Proof.
  intros H Hin. apply H. unfold asciiLower in Hin.
  apply list_elem_of_In, in_map_iff in Hin as (c & Hc & Hin).
  apply list_elem_of_In.
  destruct (isUpperAscii c) eqn:E; [|subst c; exact Hin].
  unfold isUpperAscii in E. apply andb_true_iff in E as [E _].
  apply N.leb_le in E. unfold nl in Hc. lia.
Qed.

(** C7, as stated, fails on its own scenario: the fallback generator builds
    three test-case blocks, and the parser reads the text back as a single
    test case (the markdown strategy finds no block marker and takes the
    whole text as one block). *)
Lemma fallback_scenario_is_parsed_as_one_case :
  length (fallbackBlocks asciiLower login_payload) = 3%nat
  /\ length (parseTestCases (generateFallbackTestCases asciiLower login_payload))
     = 1%nat
  /\ length (parseTestCases (generateFallbackTestCases asciiLower login_payload))
     <> length (fallbackBlocks asciiLower login_payload).
Proof. repeat split; vm_compute; try reflexivity; discriminate. Qed.

(** C7, amended: for every payload (whatever its description), parsing the
    fallback text gives at least one test case whose title is not empty,
    provided that lower-casing a string without line feed gives a string
    without line feed.  In the scenario the generator builds three blocks
    and the parser reads one test case, with five steps, from the text. *)
Theorem fallback_text_is_read_back :
  (forall toLowerCase : jsstring -> jsstring,
     (forall s : jsstring, nl ∉ s -> nl ∉ toLowerCase s) ->
     forall payload : Payload,
     exists tc : TestCase,
       tc ∈ parseTestCases (generateFallbackTestCases toLowerCase payload)
       /\ title tc <> [])
  /\ map (fun block => take 12 block) (fallbackBlocks asciiLower login_payload)
     = [lit "Test Case 1:"; [nl] ++ lit "Test Case 2"; [nl] ++ lit "Test Case 3"]
  /\ map (fun tc => (title tc, length (steps tc)))
        (parseTestCases (generateFallbackTestCases asciiLower login_payload))
     = [(lit "Test Case 1: Verify user Basic Functionality", 5%nat)].
Proof.
  split; [|split; vm_compute; reflexivity].
  intros toLowerCase Hlower payload.
  destruct (fallback_is_parsed toLowerCase Hlower payload) as (tc & Hin & Ht).
  exists tc. split; [exact Hin|]. intros E. rewrite E in Ht. discriminate.
Qed.

Lemma fallback_text_is_read_back_witness :
  (forall s : jsstring, nl ∉ s -> nl ∉ asciiLower s)
  /\ exists tc : TestCase,
       tc ∈ parseTestCases (generateFallbackTestCases asciiLower login_payload)
       /\ title tc <> [].
Proof.
  split; [exact asciiLower_keeps_lines|].
  exact (proj1 fallback_text_is_read_back asciiLower asciiLower_keeps_lines login_payload).
Defined.

End FallbackFacts.

(** ** Running programs against the host *)

Module HostFacts.
Import Orchestrator Host.

Lemma exec_cons {A : Type} (p : Prog A) (a : answer) (answers : list answer)
    (st : gmap jsstring Job) :
  exec p (a :: answers) st
  = match step p a st with
    | Some (p', st', started) =>
        match exec p' answers st' with
        | Some (p'', st'', started') => Some (p'', st'', started ++ started')
        | None => None
        end
    | None => None
    end.
Proof. reflexivity. Qed.

Lemma exec_one {A : Type} (p q : Prog A) (a : answer) (st st' : gmap jsstring Job)
    (started : list (Prog unit)) :
  exec p [a] st = Some (q, st', started) -> step p a st = Some (q, st', started).
Proof.
  rewrite exec_cons. destruct (step p a st) as [[[p1 st1] ts1]|]; [|discriminate].
  simpl. rewrite app_nil_r. trivial.
Qed.

(** A program that has ended makes no further request. *)
Lemma step_finished {A : Type} (p : Prog A) (a : answer) (st : gmap jsstring Job) :
  is_Some (finished p) -> step p a st = None.
Proof. destruct p; simpl; intros [o Ho]; try discriminate; reflexivity. Qed.

End HostFacts.

(** ** The orchestrator, one invocation at a time (C8, C2) *)

Module OrchestratorFacts.
Import Orchestrator Host.

(** String literals stay folded while programs are stepped. *)
Opaque lit.

Section WithBuiltins.

Variable JSON_parse : jsstring -> option JsValue.
Variable JSON_stringify : JsValue -> jsstring.
Variable toLowerCase : jsstring -> jsstring.

Abbreviation start := (startTestCaseGenerationJob JSON_parse JSON_stringify toLowerCase).
Abbreviation background := (generateTestCasesAsync JSON_parse JSON_stringify toLowerCase).
Abbreviation poll := (getJobStatus toLowerCase).
Abbreviation fallback := (generateFallbackTestCases toLowerCase).

(** C8: [startTestCaseGenerationJob] throws the missing-fields error,
    before it makes any request to the host, exactly when the description
    or the acceptance criteria are missing or empty.  For any other payload,
    and a store that accepts the write, it reads the clock, builds the job
    id, stores a [pending] job under it, starts the generation task without
    waiting for it and returns the id. *)
Theorem start_job_validates_then_stores (payload : Payload) :
  (falsy (description payload) || falsy (acceptance_criteria payload) = true
     <-> start payload
           = Throw (Error (lit "Missing required fields: description and acceptance_criteria")))
  /\ (falsy (description payload) || falsy (acceptance_criteria payload) = false ->
      forall (st : gmap jsstring Job) (t0 t1 t2 : Z) (suffix : jsstring),
        let jobId := lit "job_" ++ show_Z t0 ++ lit "_" ++ suffix in
        let jobData := {| status := pending; payload := payload; startTime := t1;
                          timeoutAt := (t2 + 60000)%Z; result := VUndefined;
                          timedOut := None; completionTime := None; error := None |} in
        exec (start payload) [AClock t0; ARandom suffix; AClock t1; AClock t2] st
          = Some (try_catch
                    (storeJob jobId jobData ≫= (fun _ =>
                       Spawn (background jobId payload)
                             (Ret {| started := true; jobId := jobId |})))
                    (fun error => Throw error), st, [])
        /\ run (start payload)
             [AClock t0; ARandom suffix; AClock t1; AClock t2; AStorage None; ASpawn] st
           = Some (Ok {| started := true; jobId := jobId |},
                   <[job_key jobId := jobData]> st,
                   [background jobId payload])).
Proof.
  split.
  - unfold startTestCaseGenerationJob.
    destruct (falsy (description payload) || falsy (acceptance_criteria payload)); simpl.
    + split; reflexivity.
    + split; discriminate.
  - intros Hvalid st t0 t1 t2 suffix jobId jobData.
    unfold run, startTestCaseGenerationJob. rewrite Hvalid.
    split; reflexivity.
Qed.

(** A poll that is served a job whose status is [completed] or [failed]
    answers from the stored job and makes no further request. *)
Lemma poll_terminal (st : gmap jsstring Job) (jobId : jsstring) (job : Job) :
  st !! job_key jobId = Some job ->
  status job = completed \/ status job = failed ->
  exec (poll jobId) [AStorage None] st = Some (Ret (current_view job), st, []).
Proof.
  intros Hjob Hst. unfold getJobStatus. simpl. rewrite Hjob. simpl.
  destruct Hst as [-> | ->]; reflexivity.
Qed.

(** A poll that is served a [processing] job past its deadline. *)
Lemma poll_timeout (st : gmap jsstring Job) (jobId : jsstring) (job : Job) (now now' : Z) :
  st !! job_key jobId = Some job ->
  status job = processing -> (0 < timeoutAt job)%Z -> (timeoutAt job < now)%Z ->
  run (poll jobId) [AStorage None; AClock now; AClock now'; AStorage None] st
  = Some (Ok (view_completed (VString (fallback (payload job))) true),
          <[job_key jobId := set_timed_out job (VString (fallback (payload job))) now']> st,
          []).
Proof.
  intros Hjob Hproc Hpos Hlate.
  unfold run, getJobStatus. simpl. rewrite Hjob. simpl.
  rewrite Hproc. simpl.
  assert (Hnz : (timeoutAt job =? 0)%Z = false) by (apply Z.eqb_neq; lia).
  rewrite Hnz. simpl.
  assert (Hlt : (timeoutAt job <? now)%Z = true) by (apply Z.ltb_lt; lia).
  rewrite Hlt. reflexivity.
Qed.

(** C2: a poll that finds the job [processing] with its [timeoutAt] in the
    past stores the job with status [completed], the fallback text for the
    job's payload as [result], [timedOut = true] and the time of the write
    as [completionTime], every other property as it was, and replies
    [success: true, status: 'completed', result: <fallback text>,
    timedOut: true]; the next poll gives the same reply and leaves the
    store as it is.  A poll of a job that is [completed] replies with the
    stored result and [timedOut] (false when the job has none), a poll of
    a job that is [failed] with [success: false] and the stored error;
    both leave the store as it is, so two polls in a row give the same
    reply. *)
Theorem poll_realizes_timeout_and_is_idempotent
    (st : gmap jsstring Job) (jobId : jsstring) (job : Job) :
  st !! job_key jobId = Some job ->
  (status job = processing -> (0 < timeoutAt job)%Z ->
   forall now now' : Z, (timeoutAt job < now)%Z ->
     let text := VString (fallback (payload job)) in
     let job' := {| status := completed; payload := payload job;
                    startTime := startTime job; timeoutAt := timeoutAt job;
                    result := text; timedOut := Some true;
                    completionTime := Some now'; error := error job |} in
     let reply := {| v_success := true; v_status := Some completed; v_result := text;
                     v_timedOut := Some true; v_error := None |} in
     let st' := <[job_key jobId := job']> st in
     run (poll jobId) [AStorage None; AClock now; AClock now'; AStorage None] st
       = Some (Ok reply, st', [])
     /\ st' !! job_key jobId = Some job'
     /\ run (poll jobId) [AStorage None] st' = Some (Ok reply, st', []))
  /\ (status job = completed \/ status job = failed ->
      let reply :=
        match status job with
        | failed => {| v_success := false; v_status := Some failed; v_result := VUndefined;
                       v_timedOut := None; v_error := error job |}
        | _ => {| v_success := true; v_status := Some completed; v_result := result job;
                  v_timedOut := Some (default false (timedOut job)); v_error := None |}
        end in
      run (poll jobId) [AStorage None] st = Some (Ok reply, st, [])
      /\ forall st1 reply1,
           run (poll jobId) [AStorage None] st = Some (Ok reply1, st1, []) ->
           st1 = st /\ reply1 = reply
           /\ run (poll jobId) [AStorage None] st1 = Some (Ok reply1, st1, [])).
Proof.
  intros Hjob. split.
  - intros Hproc Hpos now now' Hlate text job' reply st'. split; [|split].
    + exact (poll_timeout st jobId job now now' Hjob Hproc Hpos Hlate).
    + subst st'. apply lookup_insert_eq.
    + unfold run. rewrite (poll_terminal st' jobId job').
      * reflexivity.
      * subst st'. apply lookup_insert_eq.
      * left. reflexivity.
  - intros Hterm reply.
    assert (Hrun : run (poll jobId) [AStorage None] st = Some (Ok reply, st, [])).
    { unfold run. rewrite (poll_terminal st jobId job Hjob Hterm). subst reply.
      unfold current_view. destruct Hterm as [-> | ->]; reflexivity. }
    split; [exact Hrun|].
    intros st1 reply1 Heq. rewrite Hrun in Heq. inversion Heq; subst.
    split; [reflexivity|]. split; [reflexivity|]. exact Hrun.
Qed.

(** What [generateDirectTestCases] does with the answer of the backend. *)
Lemma direct_call_step (payload : Payload) (r : outcome Response)
    (st : gmap jsstring Job) :
  exists q,
    step (generateDirectTestCases payload) (AFetch r) st = Some (q, st, [])
    /\ match generation_failure r with
       | Some e =>
           if str_eqb (name e) (lit "AbortError")
           then q = Throw (Error (lit "API request timed out"))
           else q = Ret (errorCases e)
       | None => exists v, q = Ret v
       end.
Proof.
  unfold generateDirectTestCases. simpl.
  eexists. split; [reflexivity|].
  destruct r as [response|e]; simpl.
  - destruct (ok response); simpl.
    + destruct (json response) as [result|e]; simpl.
      * destruct (success result); simpl.
        -- destruct (truthy_value (test_cases result)); eexists; reflexivity.
        -- reflexivity.
      * destruct (str_eqb (name e) (lit "AbortError")); reflexivity.
    + destruct (text response) as [errorText|e]; simpl.
      * reflexivity.
      * destruct (str_eqb (name e) (lit "AbortError")); reflexivity.
  - destruct (str_eqb (name e) (lit "AbortError")); reflexivity.
Qed.

(** The background task when the store serves every request and the
    backend call fails with [e]. *)
Lemma task_on_failure (st : gmap jsstring Job) (jobId : jsstring) (payload : Payload)
    (job : Job) (r : outcome Response) (e : JsError) (now : Z) :
  st !! job_key jobId = Some job ->
  generation_failure r = Some e ->
  exists p',
    exec (background jobId payload) (task_answers r now) st
    = Some (p',
            <[job_key jobId :=
                if str_eqb (name e) (lit "AbortError")
                then set_timed_out job (VString (fallback payload)) now
                else set_completed job (errorCases e) now]> st,
            []).
Proof.
  intros Hjob Hfail.
  destruct (direct_call_step payload r (<[job_key jobId := set_processing job]> st))
    as [q [Hstep Hq]].
  rewrite Hfail in Hq.
  unfold task_answers, generateTestCasesAsync.
  rewrite HostFacts.exec_cons. simpl step. rewrite Hjob. simpl.
  unfold generateDirectTestCases in Hstep. simpl in Hstep.
  injection Hstep as Hq'. rewrite Hq'. clear Hq'.
  destruct (str_eqb (name e) (lit "AbortError")); subst q; simpl;
    rewrite insert_insert_eq; eexists; reflexivity.
Qed.

Lemma kept_from_delete (st : gmap jsstring Job) (key : jsstring) :
  kept_from st (delete key st).
Proof.
  intros k j. destruct (decide (key = k)) as [->|Hne].
  - rewrite lookup_delete_eq. discriminate.
  - rewrite lookup_delete_ne by exact Hne. trivial.
Qed.

Lemma kept_from_trans (st1 st2 st3 : gmap jsstring Job) :
  kept_from st1 st2 -> kept_from st2 st3 -> kept_from st1 st3.
Proof. intros H12 H23 k j H. apply H12, H23, H. Qed.

(** The deletion loop of [cleanupOldJobs], inside the two enclosing [try]
    blocks: it deletes and nothing else, and no error leaves it. *)
Lemma cleanup_loop_only_deletes (h : JsError -> Prog unit)
    (jobs : list (jsstring * Job)) :
  forall (answers : list answer) (st : gmap jsstring Job) p' st' started,
    exec (try_catch
            (try_catch
               (for_each jobs (fun job =>
                  deleteJob (replace_first no_flags (rstr "job_") [] (fst job))))
               (fun error => Ret tt))
            h) answers st = Some (p', st', started) ->
    kept_from st st'.
Proof.
  induction jobs as [|job jobs IH]; intros answers st p' st' started Hexec.
  - destruct answers as [|a answers].
    + injection Hexec as _ <- _. intros k j; trivial.
    + rewrite HostFacts.exec_cons in Hexec. simpl in Hexec. destruct a; discriminate.
  - destruct answers as [|a answers].
    + injection Hexec as _ <- _. intros k j; trivial.
    + rewrite HostFacts.exec_cons in Hexec.
      destruct a as [[e|] | | | |]; try discriminate.
      * (* the deletion is rejected: the loop ends *)
        simpl in Hexec. destruct answers as [|a answers].
        -- injection Hexec as _ <- _. intros k j; trivial.
        -- simpl in Hexec. destruct a; discriminate.
      * cbn [step for_each] in Hexec. simpl in Hexec.
        destruct (exec _ answers _) as [[[p1 st1] ts1]|] eqn:Hrest; [|discriminate].
        injection Hexec as _ <- _.
        eapply kept_from_trans; [apply kept_from_delete|].
        eapply IH. exact Hrest.
Qed.

Lemma cleanup_only_deletes (h : JsError -> Prog unit) (maxJobs : nat) :
  forall (answers : list answer) (st : gmap jsstring Job) p' st' started,
    exec (try_catch (cleanupOldJobs maxJobs) h) answers st = Some (p', st', started) ->
    kept_from st st'.
Proof.
  intros answers st p' st' started Hexec.
  destruct answers as [|a answers].
  - injection Hexec as _ <- _. intros k j; trivial.
  - rewrite HostFacts.exec_cons in Hexec.
    destruct a as [[e|] | | | |]; try discriminate.
    + simpl in Hexec. destruct answers as [|a answers].
      * injection Hexec as _ <- _. intros k j; trivial.
      * simpl in Hexec. destruct a; discriminate.
    + unfold cleanupOldJobs in Hexec. simpl in Hexec.
      destruct (Nat.ltb maxJobs (length (sort_by_start (query (lit "job_") st)))).
      * destruct (exec _ answers st) as [[[p1 st1] ts1]|] eqn:Hrest; [|discriminate].
        injection Hexec as _ <- _.
        eapply cleanup_loop_only_deletes. exact Hrest.
      * simpl in Hexec. destruct answers as [|a answers].
        -- injection Hexec as _ <- _. intros k j; trivial.
        -- simpl in Hexec. destruct a; discriminate.
Qed.

(** The [catch] block of [generateTestCasesAsync]: it leaves the store as
    it is or marks the stored job [failed] with the message of the error. *)
Lemma failure_handler_writes (jobId : jsstring) (e : JsError) :
  forall (answers : list answer) (st : gmap jsstring Job) p' st' started,
    exec (record_failure jobId e) answers st = Some (p', st', started) ->
    st' = st
    \/ exists job now, st !! job_key jobId = Some job
                       /\ st' = <[job_key jobId := set_failed job (message e) now]> st.
Proof.
  intros answers st p' st' started Hexec. unfold record_failure in Hexec.
  destruct answers as [|a answers]; [injection Hexec as _ <- _; auto|].
  rewrite HostFacts.exec_cons in Hexec.
  destruct a as [[e1|] | | | |]; try discriminate; simpl in Hexec.
  { destruct answers as [|a answers]; [injection Hexec as _ <- _; auto|].
    simpl in Hexec. destruct a; discriminate. }
  destruct (st !! job_key jobId) as [job|] eqn:Hjob; simpl in Hexec.
  2:{ destruct answers as [|a answers]; [injection Hexec as _ <- _; auto|].
      simpl in Hexec. destruct a; discriminate. }
  destruct answers as [|a answers]; [injection Hexec as _ <- _; auto|].
  rewrite HostFacts.exec_cons in Hexec.
  destruct a as [ |now| | |]; try discriminate; simpl in Hexec.
  destruct answers as [|a answers]; [injection Hexec as _ <- _; auto|].
  destruct a as [[e2|] | | | |]; try discriminate; simpl in Hexec.
  - destruct answers as [|a answers]; [injection Hexec as _ <- _; auto|].
    simpl in Hexec. destruct a; discriminate.
  - destruct answers as [|a answers].
    + injection Hexec as _ <- _. right. exists job, now. auto.
    + simpl in Hexec. destruct a; discriminate.
Qed.

Ltac stop H := simpl in H; injection H as _ <- _.

(** Every state in which the background task can leave the job: as it
    was, [processing], [completed] (with or without [timedOut]), or
    [failed] with the message of an error that a storage request raised. *)
Lemma task_job_states (jobId : jsstring) (payload : Payload) :
  forall (answers : list answer) (st : gmap jsstring Job) p' st' started job',
    exec (background jobId payload) answers st = Some (p', st', started) ->
    st' !! job_key jobId = Some job' ->
    st !! job_key jobId = Some job'
    \/ (exists job0, st !! job_key jobId = Some job0
          /\ (job' = set_processing job0
              \/ exists v now, job' = set_completed job0 v now
                               \/ job' = set_timed_out job0 v now))
    \/ (exists e jobx now, In (AStorage (Some e)) answers
          /\ job' = set_failed jobx (message e) now).
Proof.
  intros answers st p' st' started job' Hexec Hl.
  unfold generateTestCasesAsync in Hexec.
  (* await getJob(jobId) *)
  destruct answers as [|a1 answers]; [stop Hexec; auto|].
  rewrite HostFacts.exec_cons in Hexec.
  destruct a1 as [[e1|] | | | |]; try discriminate; simpl in Hexec.
  { destruct (exec _ answers st) as [[[p1 st1] ts1]|] eqn:Hh; [|discriminate].
    injection Hexec as _ <- _.
    destruct (failure_handler_writes _ _ _ _ _ _ _ Hh) as [->|(jobx & now & Hx & ->)]; auto.
    rewrite lookup_insert_eq in Hl. injection Hl as <-.
    right; right. exists e1, jobx, now. split; [left; reflexivity|reflexivity]. }
  destruct (st !! job_key jobId) as [job|] eqn:Hjob; simpl in Hexec.
  2:{ destruct answers as [|a answers]; [stop Hexec; left; congruence|].
      simpl in Hexec. destruct a; discriminate. }
  (* await updateJob(jobId, {...job, status: 'processing'}) *)
  destruct answers as [|a2 answers]; [stop Hexec; left; congruence|].
  rewrite HostFacts.exec_cons in Hexec.
  destruct a2 as [[e2|] | | | |]; try discriminate; simpl in Hexec.
  { destruct (exec _ answers st) as [[[p1 st1] ts1]|] eqn:Hh; [|discriminate].
    injection Hexec as _ <- _.
    destruct (failure_handler_writes _ _ _ _ _ _ _ Hh) as [->|(jobx & now & Hx & ->)];
      [left; congruence|].
    rewrite lookup_insert_eq in Hl. injection Hl as <-.
    right; right. exists e2, jobx, now. split; [right; left; reflexivity|reflexivity]. }
  set (st1 := <[job_key jobId := set_processing job]> st) in *.
  assert (Hproc : forall j, st1 !! job_key jobId = Some j -> j = set_processing job).
  { intros j Hj. subst st1. rewrite lookup_insert_eq in Hj. congruence. }
  (* the completing write of either [try] branch, then the cleanup *)
  assert (Hdone : forall (jobc : Job) (answers' : list answer) q st2 ts,
            (exists v now, jobc = set_completed job v now \/ jobc = set_timed_out job v now) ->
            exec (try_catch (cleanupOldJobs 10) (fun error => record_failure jobId error))
                 answers' (<[job_key jobId := jobc]> st1) = Some (q, st2, ts) ->
            st2 !! job_key jobId = Some job' ->
            exists v now, job' = set_completed job v now \/ job' = set_timed_out job v now).
  { intros jobc answers' q st2 ts Hc Hc' Hl'.
    apply cleanup_only_deletes in Hc'. apply Hc' in Hl'.
    rewrite lookup_insert_eq in Hl'. injection Hl' as <-. exact Hc. }
  (* the inner [catch]: clock, write, cleanup *)
  assert (Hfallback : forall (answers' : list answer) q st2 ts,
            exec (try_catch
                    ((now ← DateNow Ret;
                      updateJob jobId (set_timed_out job (VString (fallback payload)) now));;
                     cleanupOldJobs 10)
                    (fun error => record_failure jobId error))
                 answers' st1 = Some (q, st2, ts) ->
            st2 !! job_key jobId = Some job' ->
            job' = set_processing job
            \/ (exists v now, job' = set_completed job v now \/ job' = set_timed_out job v now)
            \/ (exists e jobx now, In (AStorage (Some e)) answers'
                  /\ job' = set_failed jobx (message e) now)).
  { intros answers' q st2 ts Hx Hl'.
    destruct answers' as [|b1 answers']; [stop Hx; auto|].
    rewrite HostFacts.exec_cons in Hx.
    destruct b1 as [ |now| | |]; try discriminate; simpl in Hx.
    destruct answers' as [|b2 answers']; [stop Hx; auto|].
    rewrite HostFacts.exec_cons in Hx.
    destruct b2 as [[e3|] | | | |]; try discriminate; simpl in Hx.
    - destruct (exec _ answers' st1) as [[[p1 st3] ts1]|] eqn:Hh; [|discriminate].
      injection Hx as _ <- _.
      destruct (failure_handler_writes _ _ _ _ _ _ _ Hh) as [->|(jobx & now' & Hx' & ->)];
        [auto|].
      rewrite lookup_insert_eq in Hl'. injection Hl' as <-.
      right; right. exists e3, jobx, now'.
      split; [right; left; reflexivity|reflexivity].
    - destruct (exec _ answers' _) as [[[p1 st3] ts1]|] eqn:Hc; [|discriminate].
      injection Hx as _ <- _.
      right; left. eapply Hdone; [|exact Hc|exact Hl']. eauto. }
  (* await generateDirectTestCases(payload) *)
  destruct answers as [|a3 answers]; [stop Hexec; right; left; eauto|].
  rewrite HostFacts.exec_cons in Hexec.
  destruct a3 as [ | | |r| ]; try discriminate.
  destruct (direct_call_step payload r st1) as [q [Hstep Hq]].
  unfold generateDirectTestCases in Hstep. simpl in Hstep.
  injection Hstep as Hq'. simpl in Hexec. rewrite Hq' in Hexec. clear Hq'.
  assert (Hcases : (exists v, q = Ret v) \/ q = Throw (Error (lit "API request timed out"))).
  { destruct (generation_failure r) as [e|]; [|left; exact Hq].
    destruct (str_eqb (name e) (lit "AbortError")); [right|left; eexists]; exact Hq. }
  clear Hq. destruct Hcases as [[v ->] | ->]; simpl in Hexec.
  - (* a value came back: clock, completing write *)
    destruct answers as [|a4 answers]; [stop Hexec; right; left; eauto|].
    rewrite HostFacts.exec_cons in Hexec.
    destruct a4 as [ |now| | |]; try discriminate; simpl in Hexec.
    destruct answers as [|a5 answers]; [stop Hexec; right; left; eauto|].
    rewrite HostFacts.exec_cons in Hexec.
    destruct a5 as [[e5|] | | | |]; try discriminate; simpl in Hexec.
    + (* the write is rejected: the inner [catch] takes over *)
      destruct (exec _ answers st1) as [[[p1 st3] ts1]|] eqn:Hh; [|discriminate].
      injection Hexec as _ <- _.
      destruct (Hfallback answers _ _ _ Hh Hl) as [->|[Hc|(e & jobx & now' & Hin & ->)]].
      * right; left; eauto.
      * right; left; eauto.
      * right; right. exists e, jobx, now'. split; [|reflexivity].
        do 5 right. exact Hin.
    + destruct (exec _ answers _) as [[[p1 st3] ts1]|] eqn:Hc; [|discriminate].
      injection Hexec as _ <- _.
      right; left. exists job. split; [reflexivity|]. right.
      eapply Hdone; [|exact Hc|exact Hl]. eauto.
  - (* the call timed out *)
    destruct (exec _ answers st1) as [[[p1 st3] ts1]|] eqn:Hh; [|discriminate].
    injection Hexec as _ <- _.
    destruct (Hfallback answers _ _ _ Hh Hl) as [->|[Hc|(e & jobx & now' & Hin & ->)]].
    + right; left; eauto.
    + right; left; eauto.
    + right; right. exists e, jobx, now'. split; [|reflexivity].
      do 3 right. exact Hin.
Qed.

(** C3, amended: when the backend call fails and the store serves every
    request, the background task completes the job: with the fallback text
    and [timedOut = true] when the call was cut off by the abort signal
    (an error named [AbortError]), and with the canned "Error Generating
    Test Cases" record, [timedOut] left as it was, for any other failure.
    In neither case is the job [failed].  Whatever the host answers, the
    task leaves a job [failed] only if a request to the store raised an
    error, and then the job carries the message of that error. *)
Theorem generation_failure_completes_the_job (jobId : jsstring) (payload : Payload) :
  (forall (st : gmap jsstring Job) (job : Job) (r : outcome Response) (e : JsError) (now : Z),
     st !! job_key jobId = Some job ->
     generation_failure r = Some e ->
     let job' := if str_eqb (name e) (lit "AbortError")
                 then set_timed_out job (VString (fallback payload)) now
                 else set_completed job (errorCases e) now in
     job_after (job_key jobId) (exec (background jobId payload) (task_answers r now) st)
       = Some job'
     /\ status job' = completed
     /\ (str_eqb (name e) (lit "AbortError") = true ->
           result job' = VString (fallback payload) /\ timedOut job' = Some true)
     /\ (str_eqb (name e) (lit "AbortError") = false ->
           result job' = errorCases e /\ timedOut job' = timedOut job))
  /\ (forall (answers : list answer) (st : gmap jsstring Job) p' st' started (job' : Job),
        exec (background jobId payload) answers st = Some (p', st', started) ->
        (forall job, st !! job_key jobId = Some job -> status job <> failed) ->
        st' !! job_key jobId = Some job' ->
        status job' = failed ->
        exists e, In (AStorage (Some e)) answers /\ error job' = Some (message e)).
Proof.
  split.
  - intros st job r e now Hjob Hfail job'.
    destruct (task_on_failure st jobId payload job r e now Hjob Hfail) as [p' Hexec].
    rewrite Hexec. simpl. rewrite lookup_insert_eq. subst job'.
    destruct (str_eqb (name e) (lit "AbortError")); repeat split; discriminate.
  - intros answers st p' st' started job' Hexec Hnot Hl Hfailed.
    destruct (task_job_states jobId payload answers st p' st' started job' Hexec Hl)
      as [Hsame | [(job0 & Hjob0 & Hcases) | (e & jobx & now & Hin & ->)]].
    + exfalso. exact (Hnot job' Hsame Hfailed).
    + exfalso. destruct Hcases as [-> | (v & now & [-> | ->])]; discriminate.
    + exists e. split; [exact Hin|reflexivity].
Qed.

End WithBuiltins.

Import Samples.

(** C3, as stated, fails: when the backend answers with HTTP status 500
    the task completes the job with the canned error record, not with the
    fallback text, and [timedOut] is not set. *)
Lemma http_error_is_not_masked_by_fallback :
  job_after login_key
    (exec (generateTestCasesAsync parse_none stringify_none asciiLower login_id login_payload)
          (task_answers (Ok error_response) 30000) pending_store)
  = Some (set_completed created_job
            (errorCases (Error (lit "API request failed: 500 Internal Server Error"
                                ++ [nl] ++ lit "boom"))) 30000)
  /\ timedOut (set_completed created_job
                 (errorCases (Error (lit "API request failed: 500 Internal Server Error"
                                     ++ [nl] ++ lit "boom"))) 30000) <> Some true
  /\ errorCases (Error (lit "API request failed: 500 Internal Server Error"
                        ++ [nl] ++ lit "boom"))
     <> VString (generateFallbackTestCases asciiLower login_payload).
Proof.
  split; [vm_compute; reflexivity|]. split; discriminate.
Qed.

Lemma generation_failure_witness :
  pending_store !! job_key login_id = Some created_job
  /\ generation_failure (Threw abort_error) = Some abort_error
  /\ job_after (job_key login_id)
       (exec (generateTestCasesAsync parse_none stringify_none asciiLower
                login_id login_payload)
             (task_answers (Threw abort_error) 46000) pending_store)
     = Some (set_timed_out created_job
               (VString (generateFallbackTestCases asciiLower login_payload)) 46000)
  /\ job_after (job_key login_id)
       (exec (generateTestCasesAsync parse_none stringify_none asciiLower
                login_id login_payload)
             store_fault_answers pending_store)
     = Some (set_failed created_job (message store_error) 2000)
  /\ exists e, In (AStorage (Some e)) store_fault_answers
               /\ error (set_failed created_job (message store_error) 2000)
                  = Some (message e).
Proof.
  assert (Hjob : pending_store !! job_key login_id = Some created_job)
    by (vm_compute; reflexivity).
  assert (Hrun : exec (generateTestCasesAsync parse_none stringify_none asciiLower
                         login_id login_payload)
                      store_fault_answers pending_store
                 = Some (Ret tt,
                         <[job_key login_id := set_failed created_job (message store_error) 2000]>
                           pending_store, []))
    by (vm_compute; reflexivity).
  split; [exact Hjob|]. split; [reflexivity|]. split.
  - exact (proj1 (proj1 (generation_failure_completes_the_job parse_none stringify_none
                           asciiLower login_id login_payload)
                    pending_store created_job (Threw abort_error) abort_error 46000%Z
                    Hjob eq_refl)).
  - split; [rewrite Hrun; apply lookup_insert_eq|].
    refine (proj2 (generation_failure_completes_the_job parse_none stringify_none
                     asciiLower login_id login_payload)
              store_fault_answers pending_store _ _ _ _ Hrun _ (lookup_insert_eq _ _ _) eq_refl).
    intros job H. rewrite Hjob in H. injection H as <-. discriminate.
Defined.

Lemma start_job_validates_then_stores_witness :
  falsy (description login_payload) || falsy (acceptance_criteria login_payload) = false
  /\ run (startTestCaseGenerationJob parse_none stringify_none asciiLower login_payload)
         [AClock 1000; ARandom (lit "abc1234"); AClock 1000; AClock 1000;
          AStorage None; ASpawn] ∅
     = Some (Ok {| started := true; jobId := login_id |},
             <[login_key := created_job]> ∅,
             [generateTestCasesAsync parse_none stringify_none asciiLower
                login_id login_payload]).
Proof.
  split; [reflexivity|].
  exact (proj2 (proj2 (start_job_validates_then_stores parse_none stringify_none
                         asciiLower login_payload) eq_refl ∅ 1000 1000 1000
                         (lit "abc1234"))%Z).
Defined.

Lemma poll_realizes_timeout_witness :
  processing_store !! job_key login_id = Some (login_job processing)
  /\ status (login_job processing) = processing
  /\ (0 < timeoutAt (login_job processing))%Z
  /\ (timeoutAt (login_job processing) < 62000)%Z
  /\ run (getJobStatus asciiLower login_id)
         [AStorage None; AClock 62000; AClock 62001; AStorage None] processing_store
     = Some (Ok {| v_success := true; v_status := Some completed;
                   v_result := VString (generateFallbackTestCases asciiLower login_payload);
                   v_timedOut := Some true; v_error := None |},
             <[job_key login_id :=
                 {| status := completed; payload := login_payload;
                    startTime := 1000; timeoutAt := 61000;
                    result := VString (generateFallbackTestCases asciiLower login_payload);
                    timedOut := Some true; completionTime := Some 62001%Z;
                    error := None |}]>
               processing_store,
             []).
Proof.
  assert (Hjob : processing_store !! job_key login_id = Some (login_job processing))
    by (vm_compute; reflexivity).
  split; [exact Hjob|]. split; [reflexivity|]. split; [reflexivity|].
  split; [reflexivity|].
  exact (proj1 (proj1 (poll_realizes_timeout_and_is_idempotent asciiLower
                         processing_store login_id (login_job processing) Hjob)
                  eq_refl eq_refl 62000%Z 62001%Z eq_refl)).
Defined.

Transparent lit.

End OrchestratorFacts.

(** ** Polls and the background task on one job (C1) *)

Module InterleavingFacts.
Import Orchestrator Host Samples.

Abbreviation sys_run0 := (sys_run parse_none stringify_none asciiLower).

(** After [sched_poll_reads_task_completes] the job is [completed] with the
    generated text. *)
Lemma task_completed_with_generated_text :
  (s ← sys_run0 sched_poll_reads_task_completes sys_init; store s !! login_key)
  = Some (set_completed created_job (VString real_text) 61000).
Proof. vm_compute. reflexivity. Qed.

(** The poll that had read the job before then replaces the generated
    text by fallback text. *)
Lemma in_flight_poll_overwrites_generated_text :
  (s ← sys_run0 (sched_poll_reads_task_completes ++ sched_poll_writes) sys_init;
   store s !! login_key)
  = Some (set_timed_out (set_processing created_job)
            (VString (generateFallbackTestCases asciiLower login_payload)) 61001).
Proof. vm_compute. reflexivity. Qed.

(** In the other order, the task replaces the fallback text of a job that a
    poll had completed. *)
Lemma late_task_overwrites_fallback_text :
  (s ← sys_run0 sched_poll_times_out sys_init; store s !! login_key)
  = Some (set_timed_out (set_processing created_job)
            (VString (generateFallbackTestCases asciiLower login_payload)) 62000)
  /\ (s ← sys_run0 (sched_poll_times_out ++ sched_task_completes) sys_init;
      store s !! login_key)
     = Some (set_completed created_job (VString real_text) 63000).
Proof. split; vm_compute; reflexivity. Qed.

(** C1, as stated, fails: in the run [sched_poll_reads_task_completes] the
    job is completed with the generated text, and the three further steps
    [sched_poll_writes] of a poll already under way replace that result by
    fallback text. *)
Lemma completed_result_gets_overwritten :
  ~ terminal_results_immutable parse_none stringify_none asciiLower.
Proof.
  intros H.
  pose (s1 := default sys_init (sys_run0 sched_poll_reads_task_completes sys_init)).
  pose (s2 := default sys_init (sys_run0 sched_poll_writes s1)).
  assert (E1 : sys_run0 sched_poll_reads_task_completes sys_init = Some s1)
    by (vm_compute; reflexivity).
  assert (E2 : sys_run0 sched_poll_writes s1 = Some s2) by (vm_compute; reflexivity).
  assert (L1 : store s1 !! login_key
               = Some (set_completed created_job (VString real_text) 61000))
    by (vm_compute; reflexivity).
  assert (L2 : store s2 !! login_key
               = Some (set_timed_out (set_processing created_job)
                         (VString (generateFallbackTestCases asciiLower login_payload)) 61001))
    by (vm_compute; reflexivity).
  specialize (H _ _ _ _ _ _ _ E1 L1 eq_refl E2 L2).
  vm_compute in H. discriminate H.
Qed.

Section WithBuiltins.

Variable toLowerCase : jsstring -> jsstring.

(** C1, amended: a poll that finds the job [completed] or [failed] writes
    nothing, whatever the host answers and however far the poll has got: the
    store, and with it the job's result, is as before, and no task is
    started.  When the read is served, the poll ends there with the view of
    the stored job, whose result is the stored result.  So a poll that
    starts after a job was completed with generated text never replaces it
    by fallback text. *)
Theorem poll_of_terminal_job_writes_nothing
    (st : gmap jsstring Job) (jobId : jsstring) (job : Job) :
  st !! job_key jobId = Some job ->
  terminal job = true ->
  forall (answers : list answer) p' st' started,
    exec (getJobStatus toLowerCase jobId) answers st = Some (p', st', started) ->
    st' = st /\ started = []
    /\ (forall answers', answers = AStorage None :: answers' ->
          answers' = [] /\ p' = Ret (current_view job)
          /\ (status job = completed -> v_result (current_view job) = result job)).
Proof.
  intros Hjob Hterm answers p' st' started.
  assert (Hst : status job = completed \/ status job = failed).
  { unfold terminal in Hterm. destruct (status job); simpl in Hterm;
      try discriminate; auto. }
  pose proof (OrchestratorFacts.poll_terminal toLowerCase st jobId job Hjob Hst) as Hpoll.
  apply HostFacts.exec_one in Hpoll.
  destruct answers as [|a answers].
  - simpl. intros Heq. inversion Heq; subst.
        split; [reflexivity|]. split; [reflexivity|]. intros ? Hx. discriminate Hx.
  - rewrite HostFacts.exec_cons. destruct a as [[e|] | | | |]; try discriminate.
    + (* the read is rejected *)
      simpl. destruct answers as [|a answers]; simpl.
      * intros Heq. inversion Heq; subst.
        split; [reflexivity|]. split; [reflexivity|]. intros ? Hx. discriminate Hx.
      * destruct a; discriminate.
    + rewrite Hpoll. destruct answers as [|a answers]; simpl.
      * intros Heq. inversion Heq; subst.
        split; [reflexivity|]. split; [reflexivity|]. intros ? Hx.
        split; [congruence|]. split; [reflexivity|].
        intros Hc. unfold current_view. rewrite Hc. reflexivity.
      * destruct a; discriminate.
Qed.

End WithBuiltins.

Lemma poll_of_terminal_job_witness :
  done_store !! job_key login_id = Some done_job
  /\ terminal done_job = true
  /\ exec (getJobStatus asciiLower login_id) [AStorage None] done_store
     = Some (Ret (current_view done_job), done_store, [])
  /\ done_store = done_store.
Proof.
  assert (Hjob : done_store !! job_key login_id = Some done_job)
    by (vm_compute; reflexivity).
  assert (Hexec : exec (getJobStatus asciiLower login_id) [AStorage None] done_store
                  = Some (Ret (current_view done_job), done_store, []))
    by (unfold getJobStatus; simpl; rewrite Hjob; reflexivity).
  split; [exact Hjob|]. split; [reflexivity|]. split; [exact Hexec|].
  exact (eq_sym (proj1 (poll_of_terminal_job_writes_nothing asciiLower done_store login_id
                          done_job Hjob eq_refl _ _ _ _ Hexec))).
Defined.

End InterleavingFacts.

(** * Further properties of the code *)

(** ** Further facts about strings *)

Module StringExtraFacts.

Lemma str_eqb_eq (s t : jsstring) : str_eqb s t = true <-> s = t.
Proof.
  revert t. induction s as [|a s IH]; intros [|b t]; simpl; split;
    try discriminate; try reflexivity.
  - intros H. apply andb_true_iff in H as [Hab Hst].
    apply N.eqb_eq in Hab. apply IH in Hst. subst. reflexivity.
  - intros H. injection H as -> ->. apply andb_true_iff. split.
    + apply N.eqb_refl.
    + apply IH. reflexivity.
Qed.

Lemma split_char_aux_line (c : char) (l : jsstring) :
  c ∉ l ->
  forall cur rest,
    split_char_aux c cur (l ++ c :: rest) = (rev cur ++ l) :: split_char_aux c [] rest.
Proof.
  induction l as [|a l IH]; intros Hl cur rest.
  - cbn [app split_char_aux]. unfold char_eqb. rewrite N.eqb_refl, app_nil_r. reflexivity.
  - apply not_elem_of_cons in Hl as [Hne Hl].
    cbn [app split_char_aux]. unfold char_eqb.
    destruct (N.eqb_spec a c) as [->|_]; [contradiction|].
    rewrite (IH Hl). cbn [rev]. rewrite <- app_assoc. reflexivity.
Qed.

Lemma split_char_aux_last (c : char) (l : jsstring) :
  c ∉ l -> forall cur, split_char_aux c cur l = [rev cur ++ l].
Proof.
  induction l as [|a l IH]; intros Hl cur.
  - cbn [split_char_aux]. rewrite app_nil_r. reflexivity.
  - apply not_elem_of_cons in Hl as [Hne Hl].
    cbn [split_char_aux]. unfold char_eqb.
    destruct (N.eqb_spec a c) as [->|_]; [contradiction|].
    rewrite (IH Hl). cbn [rev]. rewrite <- app_assoc. reflexivity.
Qed.

(** Lines that are joined and split again are the same lines. *)
Lemma split_join_lines (c : char) (ls : list jsstring) :
  ls <> [] -> Forall (fun l => c ∉ l) ls -> split_char c (join [c] ls) = ls.
Proof.
  intros Hne Hls. unfold split_char.
  induction Hls as [|l ls Hl Hls IH]; [contradiction|].
  destruct ls as [|l' ls].
  - cbn [join]. rewrite (split_char_aux_last c l Hl). reflexivity.
  - change (join [c] (l :: l' :: ls)) with (l ++ c :: join [c] (l' :: ls)).
    rewrite (split_char_aux_line c l Hl). cbn [rev app]. f_equal. apply IH. discriminate.
Qed.

End StringExtraFacts.

(** ** Decimal numbers *)

Module NumberFacts.

Lemma read_show_aux (fuel : nat) :
  forall (n : N) (acc : jsstring),
    (n < 2 ^ N.of_nat fuel)%N ->
    read_digits 0 (show_N_aux fuel n acc) = read_digits n acc.
Proof.
  induction fuel as [|fuel IH]; intros n acc Hn.
  - cbn [show_N_aux]. change (2 ^ N.of_nat 0)%N with 1%N in Hn.
    assert (n = 0%N) by lia. subst n. reflexivity.
  - cbn [show_N_aux]. destruct (N.ltb_spec n 10) as [Hlt|Hge].
    + unfold read_digits. cbn [fold_left]. unfold digit_char.
      rewrite N.mod_small by exact Hlt. f_equal.
      rewrite (N.add_comm 48 n), N.add_sub. reflexivity.
    + rewrite IH.
      * unfold read_digits. cbn [fold_left]. unfold digit_char. f_equal.
        rewrite (N.add_comm 48 (n mod 10)), N.add_sub, (N.mul_comm (n / 10) 10).
        symmetry. apply N.div_mod. discriminate.
      * rewrite Nat2N.inj_succ, N.pow_succ_r' in Hn.
        apply N.Div0.div_lt_upper_bound.
        revert Hn. generalize (2 ^ N.of_nat fuel)%N. intros k Hn. lia.
Qed.

Lemma size_nat_gt (n : N) : (n < 2 ^ N.of_nat (N.size_nat n))%N.
Proof.
  destruct n as [|p]; [reflexivity|]. cbn [N.size_nat].
  induction p as [p IH|p IH|]; cbn [Pos.size_nat];
    try (rewrite Nat2N.inj_succ, N.pow_succ_r'); try reflexivity.
  - change (N.pos p~1) with (2 * N.pos p + 1)%N.
    revert IH. generalize (2 ^ N.of_nat (Pos.size_nat p))%N. intros k IH. lia.
  - change (N.pos p~0) with (2 * N.pos p)%N.
    revert IH. generalize (2 ^ N.of_nat (Pos.size_nat p))%N. intros k IH. lia.
Qed.

Lemma read_show_N (n : N) : read_digits 0 (show_N n) = n.
Proof.
  unfold show_N. rewrite read_show_aux; [reflexivity|].
  rewrite Nat2N.inj_succ, N.pow_succ_r'.
  pose proof (size_nat_gt n) as H.
  revert H. generalize (2 ^ N.of_nat (N.size_nat n))%N. intros k H. lia.
Qed.

Lemma show_N_inj (n m : N) : show_N n = show_N m -> n = m.
Proof. intros H. rewrite <- (read_show_N n), <- (read_show_N m), H. reflexivity. Qed.

Lemma show_N_range (n : N) : Forall (fun a => (48 <= a <= 57)%N) (show_N n).
Proof. apply StringFacts.show_N_aux_range. constructor. Qed.

Lemma show_N_nonempty (n : N) : show_N n <> [].
Proof.
  unfold show_N. cbn [show_N_aux].
  destruct (_ <? 10)%N; [discriminate|]. apply StringFacts.show_N_aux_nonempty. discriminate.
Qed.

Lemma show_Z_inj (z z' : Z) : show_Z z = show_Z z' -> z = z'.
Proof.
  assert (Hmixed : forall n p, show_N n <> lit "-" ++ show_N (Npos p)).
  { intros n p H. pose proof (show_N_range n) as Hr. rewrite H in Hr.
    apply Forall_cons in Hr as [Hr _]. vm_compute in Hr. destruct Hr as [Hr _]. apply Hr.
    reflexivity. }
  unfold show_Z. destruct z as [|p|p], z' as [|q|q]; intros H;
    try reflexivity;
    try (apply show_N_inj in H; discriminate H);
    try (destruct (Hmixed _ _ H)); try (symmetry in H; destruct (Hmixed _ _ H)).
  - apply show_N_inj in H. cbn in H. congruence.
  - apply app_inv_head, show_N_inj in H. congruence.
Qed.

Lemma show_Z_avoids (c : char) (z : Z) :
  (c < 45 \/ 45 < c < 48 \/ 57 < c)%N -> c ∉ show_Z z.
Proof.
  intros Hc.
  assert (Hn : forall n, c ∉ show_N n).
  { intros n. apply StringFacts.avoids_Forall.
    eapply Forall_impl; [apply show_N_range|]. intros a Ha ->. lia. }
  unfold show_Z. destruct z as [|p|p]; try apply Hn.
  apply not_elem_of_app. split; [|apply Hn].
  apply not_elem_of_cons. split; [|apply not_elem_of_nil].
  intros ->. vm_compute in Hc. destruct Hc as [H | [[H _] | H]]; discriminate H.
Qed.

(** Two texts cut at the first occurrence of a character. *)
Lemma cut_at_first (c : char) (u u' s s' : jsstring) :
  c ∉ u -> c ∉ u' -> u ++ c :: s = u' ++ c :: s' -> u = u' /\ s = s'.
Proof.
  revert u'. induction u as [|a u IH]; intros [|a' u'] Hu Hu' H; cbn [app] in H.
  - injection H as <-. auto.
  - injection H as -> _. destruct Hu'. left.
  - injection H as -> _. destruct Hu. left.
  - injection H as -> H. apply not_elem_of_cons in Hu as [_ Hu].
    apply not_elem_of_cons in Hu' as [_ Hu'].
    destruct (IH _ Hu Hu' H) as [-> ->]. auto.
Qed.

End NumberFacts.

(** ** [escapeHtml] and the HTML export *)

Module ExportFacts.
Import ExportUtils.

Lemma replace_char_flat_map (c : char) (repl s : jsstring) :
  replace_char c repl s = flat_map (fun a => if char_eqb c a then repl else [a]) s.
Proof.
  unfold replace_char.
  exact (RegexFacts.replace_all_one_char no_flags (RChar c) _ repl s
           (RegexFacts.one_char_char no_flags c)).
Qed.

Lemma flat_map_flat_map {A B C : Type} (f : A -> list B) (g : B -> list C) (l : list A) :
  flat_map g (flat_map f l) = flat_map (fun a => flat_map g (f a)) l.
Proof.
  induction l as [|a l IH]; simpl; [reflexivity|].
  rewrite flat_map_app, IH. reflexivity.
Qed.

(** The five replacements in a row write [escape_char] for every
    character: no replacement touches what an earlier one has written,
    because "&" is replaced first. *)
Lemma escapeHtml_flat_map (text : jsstring) :
  escapeHtml (Some text) = flat_map escape_char text.
Proof.
  unfold escapeHtml. rewrite !replace_char_flat_map, !flat_map_flat_map.
  apply flat_map_ext. intros a. unfold escape_char.
  destruct (char_eqb a (ch "&")) eqn:E1.
  { apply N.eqb_eq in E1. subst a. reflexivity. }
  destruct (char_eqb a (ch "<")) eqn:E2.
  { apply N.eqb_eq in E2. subst a. reflexivity. }
  destruct (char_eqb a (ch ">")) eqn:E3.
  { apply N.eqb_eq in E3. subst a. reflexivity. }
  destruct (char_eqb a 34%N) eqn:E4.
  { apply N.eqb_eq in E4. subst a. reflexivity. }
  destruct (char_eqb a (ch "'")) eqn:E5.
  { apply N.eqb_eq in E5. subst a. reflexivity. }
  unfold char_eqb in *. rewrite N.eqb_sym in E1, E2, E3, E4, E5.
  cbn [flat_map app]. rewrite E1. cbn [flat_map app]. rewrite E2.
  cbn [flat_map app]. rewrite E3. cbn [flat_map app]. rewrite E4.
  cbn [flat_map app]. rewrite E5. reflexivity.
Qed.

Lemma escape_char_clean (a : char) : Forall (fun b => markup_char b = false) (escape_char a).
Proof.
  unfold escape_char.
  destruct (char_eqb a (ch "&")) eqn:E1; [repeat constructor|].
  destruct (char_eqb a (ch "<")) eqn:E2; [repeat constructor|].
  destruct (char_eqb a (ch ">")) eqn:E3; [repeat constructor|].
  destruct (char_eqb a 34%N) eqn:E4; [repeat constructor|].
  destruct (char_eqb a (ch "'")) eqn:E5; [repeat constructor|].
  constructor; [|constructor]. unfold markup_char. rewrite E2, E3, E4, E5. reflexivity.
Qed.

Lemma escapeHtml_clean (text : option jsstring) :
  Forall (fun b => markup_char b = false) (escapeHtml text).
Proof.
  destruct text as [text|]; [|constructor].
  rewrite escapeHtml_flat_map.
  induction text as [|a text IH]; simpl; [constructor|].
  apply Forall_app. split; [apply escape_char_clean | exact IH].
Qed.

(** X1: whatever it is given, [escapeHtml] returns a text without the
    characters "<", ">", the double quote and the apostrophe. *)
Theorem escapeHtml_leaves_no_markup (text : option jsstring) :
  (ch "<" ∉ escapeHtml text) /\ (ch ">" ∉ escapeHtml text)
  /\ (34%N ∉ escapeHtml text) /\ (ch "'" ∉ escapeHtml text).
Proof.
  pose proof (escapeHtml_clean text) as H. rewrite Forall_forall in H.
  repeat split; intros Hin; apply H in Hin; discriminate.
Qed.

(** The escapes form a prefix code. *)
Lemma escape_char_cancel (a b : char) (s t : jsstring) :
  escape_char a ++ s = escape_char b ++ t -> a = b /\ s = t.
Proof.
  unfold escape_char.
  destruct (char_eqb a (ch "&")) eqn:A1; [apply N.eqb_eq in A1|];
  [|destruct (char_eqb a (ch "<")) eqn:A2; [apply N.eqb_eq in A2|]];
  [| |destruct (char_eqb a (ch ">")) eqn:A3; [apply N.eqb_eq in A3|]];
  [| | |destruct (char_eqb a 34%N) eqn:A4; [apply N.eqb_eq in A4|]];
  [| | | |destruct (char_eqb a (ch "'")) eqn:A5; [apply N.eqb_eq in A5|]];
  (destruct (char_eqb b (ch "&")) eqn:B1; [apply N.eqb_eq in B1|];
   [|destruct (char_eqb b (ch "<")) eqn:B2; [apply N.eqb_eq in B2|]];
   [| |destruct (char_eqb b (ch ">")) eqn:B3; [apply N.eqb_eq in B3|]];
   [| | |destruct (char_eqb b 34%N) eqn:B4; [apply N.eqb_eq in B4|]];
   [| | | |destruct (char_eqb b (ch "'")) eqn:B5; [apply N.eqb_eq in B5|]]);
  intros H; subst; try discriminate H;
  try (injection H as H; subst; split; reflexivity);
  try (injection H as H _; subst; discriminate).
Qed.

Lemma escape_char_nonempty (a : char) : escape_char a <> [].
Proof.
  unfold escape_char.
  repeat match goal with |- context [if ?b then _ else _] => destruct b end; discriminate.
Qed.

Lemma escapeHtml_cancel (s t : jsstring) :
  escapeHtml (Some s) = escapeHtml (Some t) -> s = t.
Proof.
  rewrite !escapeHtml_flat_map. revert t.
  induction s as [|a s IH]; intros [|b t] H; simpl in H.
  - reflexivity.
  - symmetry in H. apply app_eq_nil in H as [H _]. destruct (escape_char_nonempty _ H).
  - apply app_eq_nil in H as [H _]. destruct (escape_char_nonempty _ H).
  - apply escape_char_cancel in H as [-> H]. f_equal. apply IH, H.
Qed.

(** X2: [escapeHtml] loses nothing: two different texts have different
    escapes, also when one of them looks like the escape of the other. *)
Theorem escapeHtml_keeps_texts_apart (s t : jsstring) :
  s <> t -> escapeHtml (Some s) <> escapeHtml (Some t).
Proof. intros Hne H. apply Hne, escapeHtml_cancel, H. Qed.

Lemma escapeHtml_keeps_texts_apart_witness :
  lit "<" <> lit "&lt;" /\ escapeHtml (Some (lit "<")) <> escapeHtml (Some (lit "&lt;")).
Proof.
  assert (H : lit "<" <> lit "&lt;") by discriminate.
  split; [exact H|]. exact (escapeHtml_keeps_texts_apart (lit "<") (lit "&lt;") H).
Defined.

Lemma tags_only_app (s t : jsstring) : tags_only s -> tags_only t -> tags_only (s ++ t).
Proof.
  intros Hs Ht. induction Hs as [|a s Ha Hs IH|u s Hu Hs IH].
  - exact Ht.
  - simpl. apply tags_only_char; assumption.
  - rewrite <- app_assoc. apply tags_only_tag; assumption.
Qed.

Lemma tags_only_text (s : jsstring) :
  Forall (fun b => markup_char b = false) s -> tags_only s.
Proof.
  induction 1 as [|a s Ha Hs IH]; [apply tags_only_nil | apply tags_only_char; assumption].
Qed.

Lemma tags_only_check (s : jsstring) :
  forallb (fun b => negb (markup_char b)) s = true -> tags_only s.
Proof.
  intros H. apply tags_only_text. rewrite forallb_forall in H.
  apply List.Forall_forall. intros b Hb. apply H in Hb. apply negb_true_iff in Hb. exact Hb.
Qed.

Lemma tags_only_one (t : string) : In (lit t) export_tags -> tags_only (lit t).
Proof.
  intros H. rewrite <- (app_nil_r (lit t)). apply tags_only_tag; [exact H | apply tags_only_nil].
Qed.

Lemma tags_only_number (n : nat) : tags_only (show_nat n).
Proof.
  apply tags_only_text. eapply List.Forall_impl; [|apply StringFacts.show_nat_range].
  intros a [Hlo Hhi]. unfold markup_char, char_eqb.
  repeat (apply orb_false_intro); apply N.eqb_neq; change (ch "<") with 60%N;
    change (ch ">") with 62%N; change (ch "'") with 39%N; lia.
Qed.

Lemma tags_only_concat (l : list jsstring) : Forall tags_only l -> tags_only (concat l).
Proof.
  induction 1 as [|s l Hs Hl IH]; simpl; [apply tags_only_nil | apply tags_only_app; assumption].
Qed.

Lemma tags_only_join (sep : jsstring) (l : list jsstring) :
  tags_only sep -> Forall tags_only l -> tags_only (join sep l).
Proof.
  intros Hsep. induction 1 as [|s l Hs Hl IH]; [apply tags_only_nil|].
  destruct l as [|s' l]; [exact Hs|].
  change (join sep (s :: s' :: l)) with (s ++ sep ++ join sep (s' :: l)).
  repeat apply tags_only_app; assumption.
Qed.

(** The pieces of [html_case]: a tag, a text of the formatter, or an
    escaped field. *)
Ltac tags :=
  lazymatch goal with
  | |- tags_only (_ ++ _) => apply tags_only_app; tags
  | |- tags_only (escapeHtml _) => apply tags_only_text, escapeHtml_clean
  | |- tags_only (show_nat _) => apply tags_only_number
  | |- tags_only (lit _) =>
      first [ apply tags_only_one; vm_compute; tauto
            | apply tags_only_check; vm_compute; reflexivity ]
  | |- tags_only (_ :: _) => apply tags_only_check; vm_compute; reflexivity
  | |- tags_only [] => apply tags_only_nil
  | |- _ => idtac
  end.

Lemma tags_only_items (tag : string) (l : list jsstring) :
  In (lit tag) export_tags ->
  tags_only (concat (map (fun x => lit tag ++ escapeHtml (Some x) ++ lit "</li>" ++ [nl]) l)).
Proof.
  intros Htag. apply tags_only_concat, List.Forall_forall. intros s Hs.
  apply in_map_iff in Hs as (x & <- & _).
  apply tags_only_app; [apply tags_only_one, Htag|]. tags.
Qed.

(** The export functions read [title], [description], [steps] and
    [expected_results]; the objects of the parser carry their expected
    result under another name. *)
Lemma parsed_cases_export (f : nat -> TestCaseObj -> jsstring)
    (change : Parser.TestCase -> jsstring) :
  (forall i tc,
      f i (obj_of_parsed tc)
      = f i (obj_of_parsed {| Parser.title := Parser.title tc; Parser.steps := Parser.steps tc;
                              Parser.expectedResult := change tc |})) ->
  forall (tcs : list Parser.TestCase) (k : nat),
    mapi_from k f (map obj_of_parsed tcs)
    = mapi_from k f
        (map obj_of_parsed
           (map (fun tc => {| Parser.title := Parser.title tc; Parser.steps := Parser.steps tc;
                              Parser.expectedResult := change tc |}) tcs)).
Proof.
  intros Hf. induction tcs as [|tc tcs IH]; intros k; [reflexivity|].
  cbn [map mapi_from]. rewrite Hf, IH. reflexivity.
Qed.

Section WithBuiltins.

Variable JSON_parse : jsstring -> option JsValue.
Variable JSON_stringify : JsValue -> jsstring.
Variable toLowerCase : jsstring -> jsstring.

(** X4: a text that is not read as JSON is exported as it is in every
    format but HTML: the Markdown and the Jira export of a text, and the
    export in a format that the function does not know, change
    nothing. *)
Theorem text_export_is_unchanged_outside_html (s format : jsstring) :
  s <> [] ->
  JSON_parse s = None
  \/ startsWith (trim s) (lit "{") || startsWith (trim s) (lit "[") = false ->
  toLowerCase format <> lit "html" ->
  exportTestCases JSON_parse JSON_stringify toLowerCase (VString s) (Some format) = s.
Proof.
  intros Hs Hjson Hfmt. unfold exportTestCases.
  destruct s as [|a s]; [contradiction|].
  assert (Hdata : (if startsWith (trim (a :: s)) (lit "{") || startsWith (trim (a :: s)) (lit "[")
                   then match JSON_parse (a :: s) with
                        | Some v => v
                        | None => VString (a :: s)
                        end
                   else VString (a :: s)) = VString (a :: s)).
  { destruct Hjson as [-> | ->]; [|reflexivity].
    destruct (_ || _); reflexivity. }
  rewrite Hdata.
  destruct (str_eqb (toLowerCase format) (lit "html")) eqn:E.
  - apply StringExtraFacts.str_eqb_eq in E. contradiction.
  - destruct (str_eqb _ (lit "markdown")); [reflexivity|].
    destruct (str_eqb _ (lit "jira")); reflexivity.
Qed.

(** X5: the export functions never show the expected result of a test
    case that comes from the parser.  They read the property
    [expected_results], the parser writes [expectedResult]: replacing the
    expected results of parsed test cases by anything else changes the
    export in no format. *)
Theorem export_ignores_parsed_expected_results
    (tcs : list Parser.TestCase) (change : Parser.TestCase -> jsstring)
    (format : option jsstring) :
  exportTestCases JSON_parse JSON_stringify toLowerCase
    (VArray (map obj_of_parsed tcs)) format
  = exportTestCases JSON_parse JSON_stringify toLowerCase
      (VArray (map obj_of_parsed
                 (map (fun tc => {| Parser.title := Parser.title tc;
                                    Parser.steps := Parser.steps tc;
                                    Parser.expectedResult := change tc |}) tcs)))
      format.
Proof.
  unfold exportTestCases, formatAsMarkdown, formatAsJira, formatAsHtml, mapi.
  rewrite <- !(parsed_cases_export _ change) by reflexivity.
  reflexivity.
Qed.

End WithBuiltins.

Lemma text_export_witness :
  lit "## Login" <> []
  /\ exportTestCases Samples.parse_none Samples.stringify_none asciiLower
       (VString (lit "## Login")) (Some (lit "Jira")) = lit "## Login".
Proof.
  assert (H : lit "## Login" <> []) by discriminate.
  split; [exact H|].
  apply (text_export_is_unchanged_outside_html Samples.parse_none Samples.stringify_none
           asciiLower (lit "## Login") (lit "Jira") H).
  - left. reflexivity.
  - discriminate.
Defined.


(** *** The HTML export on any JSON value *)

Lemma json_escape_tags (text : option ExportJson.Json) :
  tags_only (ExportJson.escapeHtml text).
Proof. apply tags_only_text, escapeHtml_clean. Qed.

Lemma json_items_tags (tag : string) (l : list ExportJson.Json) :
  In (lit tag) export_tags ->
  tags_only (concat (map (fun x => lit tag ++ ExportJson.escapeHtml (Some x)
                                   ++ lit "</li>" ++ [nl]) l)).
Proof.
  intros Htag. apply tags_only_concat, List.Forall_forall. intros s Hs.
  apply in_map_iff in Hs as (x & <- & _).
  apply tags_only_app; [apply tags_only_one, Htag|].
  apply tags_only_app; [apply json_escape_tags|]. tags.
Qed.

Lemma json_case_tags (index : nat) (tc : ExportJson.Json) (html : jsstring) :
  ExportJson.html_case index tc = Some html -> tags_only html.
Proof.
  unfold ExportJson.html_case. intros H.
  assert (E : html
              = (lit "<h2>" ++ lit "Test Case ") ++ show_nat (index + 1) ++ lit ": "
                ++ ExportJson.escapeHtml
                     (if ExportJson.truthy_prop (ExportJson.prop "title" tc)
                      then ExportJson.prop "title" tc
                      else Some (ExportJson.JString (lit "Untitled")))
                ++ lit "</h2>" ++ [nl; nl]
                ++ (if ExportJson.truthy_prop (ExportJson.prop "description" tc)
                    then (lit "<p>" ++ lit "<strong>" ++ lit "Description:" ++ lit "</strong>"
                          ++ lit " ")
                         ++ ExportJson.escapeHtml (ExportJson.prop "description" tc)
                         ++ lit "</p>" ++ [nl; nl]
                    else [])
                ++ match ExportJson.prop "steps" tc with
                   | Some (ExportJson.JArray steps) =>
                       (lit "<h3>" ++ lit "Steps:" ++ lit "</h3>") ++ [nl] ++ lit "<ol>"
                       ++ concat (map (fun step => lit "<li>"
                                                   ++ ExportJson.escapeHtml (Some step)
                                                   ++ lit "</li>" ++ [nl]) steps)
                       ++ lit "</ol>" ++ [nl; nl]
                   | _ => []
                   end
                ++ match ExportJson.prop "expected_results" tc with
                   | Some (ExportJson.JArray results) =>
                       (lit "<h3>" ++ lit "Expected Results:" ++ lit "</h3>") ++ [nl]
                       ++ lit "<ul>"
                       ++ concat (map (fun result => lit "<li>"
                                                     ++ ExportJson.escapeHtml (Some result)
                                                     ++ lit "</li>" ++ [nl]) results)
                       ++ lit "</ul>"
                   | _ => []
                   end).
  { destruct tc; try discriminate H; injection H as <-; reflexivity. }
  rewrite E. clear E H.
  repeat first
    [ apply tags_only_app
    | apply json_escape_tags
    | apply tags_only_number
    | apply json_items_tags; vm_compute; tauto
    | match goal with
      | |- tags_only (if ?b then _ else _) => destruct b
      | |- tags_only (match ?x with _ => _ end) => destruct x
      end
    | tags ].
Qed.

Lemma json_cases_tags (l : list ExportJson.Json) :
  forall (index : nat) (htmls : list jsstring),
    ExportJson.html_cases index l = Some htmls -> Forall tags_only htmls.
Proof.
  induction l as [|tc l IH]; intros index htmls H; cbn [ExportJson.html_cases] in H.
  - injection H as <-. constructor.
  - destruct (ExportJson.html_case index tc) as [html|] eqn:Hc; [|discriminate H].
    destruct (ExportJson.html_cases (S index) l) as [hs|] eqn:Hl; [|discriminate H].
    injection H as <-. constructor; [exact (json_case_tags _ _ _ Hc) | exact (IH _ _ Hl)].
Qed.

(** The callback throws for [null] and for nothing else. *)
Lemma json_cases_throw (l : list ExportJson.Json) :
  forall index : nat, ExportJson.html_cases index l = None <-> In ExportJson.JNull l.
Proof.
  induction l as [|tc l IH]; intros index; cbn [ExportJson.html_cases].
  - split; [discriminate | intros []].
  - destruct (ExportJson.html_case index tc) as [html|] eqn:Hc.
    + assert (Htc : tc <> ExportJson.JNull) by (intros ->; discriminate Hc).
      destruct (ExportJson.html_cases (S index) l) as [hs|] eqn:Hl.
      * split; [discriminate|]. intros [E | Hin]; [congruence|].
        apply (IH (S index)) in Hin. congruence.
      * split; [|reflexivity]. intros _. right. apply (IH (S index)), Hl.
    + split; [|reflexivity]. intros _. left.
      destruct tc; try discriminate Hc. reflexivity.
Qed.

Lemma json_html_tags (JSON_stringify : ExportJson.Json -> jsstring)
    (testCases : ExportJson.Json) (html : jsstring) :
  ExportJson.formatAsHtml JSON_stringify testCases = Some html -> tags_only html.
Proof.
  assert (Harr : forall l h, join [nl; nl] <$> ExportJson.html_cases 0 l = Some h ->
                             tags_only h).
  { intros l h H. destruct (ExportJson.html_cases 0 l) as [hs|] eqn:E; [|discriminate H].
    injection H as <-. apply tags_only_join; [tags|]. exact (json_cases_tags _ _ _ E). }
  assert (Hother : forall v,
             tags_only ((lit "<pre>" ++ lit "<code>")
                        ++ ExportJson.escapeHtml
                             (Some (ExportJson.JString (JSON_stringify v)))
                        ++ lit "</code>" ++ lit "</pre>")).
  { intros v. repeat first [apply tags_only_app | apply json_escape_tags | tags]. }
  assert (Hstr : forall v,
             tags_only (lit "<pre>" ++ ExportJson.escapeHtml (Some v) ++ lit "</pre>")).
  { intros v. repeat first [apply tags_only_app | apply json_escape_tags | tags]. }
  unfold ExportJson.formatAsHtml.
  destruct testCases as [|b|n|s|l|props]; try discriminate.
  - destruct (ExportJson.prop "test_cases" _) as [[| | | |l|]|];
      first [apply Harr | intros H; injection H as <-; apply Hother].
  - destruct (ExportJson.prop "test_cases" _) as [[| | | |l|]|];
      first [apply Harr | intros H; injection H as <-; apply Hother].
  - intros H. injection H as <-. apply Hstr.
  - apply Harr.
  - destruct (ExportJson.prop "test_cases" _) as [[| | | |l|]|];
      first [apply Harr | intros H; injection H as <-; apply Hother].
Qed.

Lemma json_html_throws (JSON_stringify : ExportJson.Json -> jsstring)
    (testCases : ExportJson.Json) :
  ExportJson.formatAsHtml JSON_stringify testCases = None
  <-> testCases = ExportJson.JNull
      \/ exists l, ExportJson.case_array testCases = Some l /\ In ExportJson.JNull l.
Proof.
  assert (Harr : forall l, join [nl; nl] <$> ExportJson.html_cases 0 l = None
                           <-> In ExportJson.JNull l).
  { intros l. rewrite <- (json_cases_throw l 0).
    destruct (ExportJson.html_cases 0 l); split; try discriminate; reflexivity. }
  unfold ExportJson.formatAsHtml, ExportJson.case_array.
  destruct testCases as [|b|n|s|l|props].
  - split; [left; reflexivity | reflexivity].
  - cbn [ExportJson.prop]. split; [discriminate|]. intros [E | (l & E & _)]; discriminate E.
  - cbn [ExportJson.prop]. split; [discriminate|]. intros [E | (l & E & _)]; discriminate E.
  - split; [discriminate|]. intros [E | (l & E & _)]; discriminate E.
  - rewrite Harr. split.
    + intros H. right. exists l. auto.
    + intros [E | (l' & E & H)]; [discriminate E|]. injection E as <-. exact H.
  - destruct (ExportJson.prop "test_cases" _) as [[| | | |l|]|];
      try (split; [discriminate|]; intros [E | (l' & E & _)]; discriminate E).
    rewrite Harr. split.
    + intros H. right. exists l. auto.
    + intros [E | (l' & E & H)]; [discriminate E|]. injection E as <-. exact H.
Qed.

Section JsonExport.

Variable JSON_parse : jsstring -> option ExportJson.Json.
Variable JSON_stringify : ExportJson.Json -> jsstring.
Variable toLowerCase : jsstring -> jsstring.
Variable formatAsMarkdown : ExportJson.Json -> option jsstring.
Variable formatAsJira : ExportJson.Json -> option jsstring.

Abbreviation html_of := (ExportJson.formatAsHtml JSON_stringify).
Abbreviation export :=
  (ExportJson.exportTestCases JSON_parse JSON_stringify toLowerCase formatAsMarkdown
     formatAsJira).

(** X3: in the HTML format (any spelling that lower-cases to "html"),
    whatever value is exported and whatever [JSON.parse] and
    [JSON.stringify] return, the export either throws a TypeError or is a
    text made of the formatter's own tags and of characters other than
    "<", ">" and the two quotes: no markup of the data reaches the page.
    It throws exactly when the value that reaches the formatter is [null]
    or is an array of test cases, or holds one under [test_cases], with a
    [null] among them; a value that is empty or otherwise falsy is
    exported as the empty text. *)
Theorem html_export_has_no_foreign_markup
    (testCases : ExportJson.Json) (format : jsstring) :
  toLowerCase format = lit "html" ->
  let data := ExportJson.testCaseData JSON_parse testCases in
  (forall html, export testCases (Some format) = Some html -> tags_only html)
  /\ (forall html, html_of testCases = Some html -> tags_only html)
  /\ (export testCases (Some format) = None
      <-> ExportJson.truthy_json testCases = true
          /\ (data = ExportJson.JNull
              \/ exists l, ExportJson.case_array data = Some l /\ In ExportJson.JNull l))
  /\ (ExportJson.truthy_json testCases = false -> export testCases (Some format) = Some []).
Proof.
  intros Hfmt data.
  assert (E : ExportJson.truthy_json testCases = true ->
              export testCases (Some format) = html_of data).
  { intros Ht. unfold ExportJson.exportTestCases. rewrite Ht, Hfmt. reflexivity. }
  assert (E0 : ExportJson.truthy_json testCases = false ->
               export testCases (Some format) = Some []).
  { intros Ht. unfold ExportJson.exportTestCases. rewrite Ht. reflexivity. }
  split; [|split; [apply json_html_tags|split; [|exact E0]]].
  - intros html. destruct (ExportJson.truthy_json testCases) eqn:Ht.
    + rewrite (E eq_refl). apply json_html_tags.
    + rewrite (E0 eq_refl). intros H. injection H as <-. apply tags_only_nil.
  - destruct (ExportJson.truthy_json testCases) eqn:Ht.
    + rewrite (E eq_refl), json_html_throws. tauto.
    + rewrite (E0 eq_refl). split; [discriminate | intros [H _]; discriminate H].
Qed.

End JsonExport.

(** On test-case objects with text properties the two embeddings of the
    formatter agree. *)
Lemma json_of_obj_props (tc : TestCaseObj) :
  ExportJson.prop "title" (ExportJson.json_of_obj tc) = ExportJson.JString <$> o_title tc
  /\ ExportJson.prop "description" (ExportJson.json_of_obj tc)
     = ExportJson.JString <$> o_description tc
  /\ ExportJson.prop "steps" (ExportJson.json_of_obj tc)
     = (fun l => ExportJson.JArray (map ExportJson.JString l)) <$> o_steps tc
  /\ ExportJson.prop "expected_results" (ExportJson.json_of_obj tc)
     = (fun l => ExportJson.JArray (map ExportJson.JString l)) <$> o_expected_results tc.
Proof. destruct tc as [[t|] [d|] [s|] [r|] [e|]]; repeat split; reflexivity. Qed.

Lemma html_case_agrees (index : nat) (tc : TestCaseObj) :
  ExportJson.html_case index (ExportJson.json_of_obj tc) = Some (html_case index tc).
Proof.
  assert (Hitems : forall (tag : string) (l : list jsstring),
             concat (map (fun x => lit tag ++ ExportJson.escapeHtml (Some x)
                                   ++ lit "</li>" ++ [nl]) (map ExportJson.JString l))
             = concat (map (fun x => lit tag ++ escapeHtml (Some x) ++ lit "</li>" ++ [nl]) l)).
  { intros tag l. rewrite map_map. reflexivity. }
  destruct (json_of_obj_props tc) as (Ht & Hd & Hs & Hr).
  change (ExportJson.html_case index (ExportJson.json_of_obj tc))
    with (ExportJson.html_case index (ExportJson.JObject
            (match ExportJson.json_of_obj tc with
             | ExportJson.JObject props => props
             | _ => []
             end))).
  cbv beta iota delta [ExportJson.html_case].
  change (ExportJson.JObject
            match ExportJson.json_of_obj tc with
            | ExportJson.JObject props => props
            | _ => []
            end) with (ExportJson.json_of_obj tc).
  rewrite Ht, Hd, Hs, Hr. unfold html_case. f_equal.
  destruct (o_title tc) as [[|a t]|], (o_description tc) as [[|b d]|],
    (o_steps tc) as [s|], (o_expected_results tc) as [r|];
    cbn [fmap option_fmap option_map ExportJson.truthy_prop ExportJson.truthy_json truthy
         or_else negb];
    rewrite ?Hitems; reflexivity.
Qed.

Lemma html_export_witness :
  asciiLower (lit "HTML") = lit "html"
  /\ tags_only (lit "<h2>Test Case 1: a &lt; b</h2>" ++ [nl; nl])
  /\ ExportJson.exportTestCases (fun _ => None) (fun _ => []) asciiLower
       (fun _ => None) (fun _ => None)
       (ExportJson.JArray [ExportJson.JNull]) (Some (lit "HTML")) = None.
Proof.
  assert (Hfmt : asciiLower (lit "HTML") = lit "html") by reflexivity.
  split; [exact Hfmt|]. split.
  - apply (proj1 (html_export_has_no_foreign_markup (fun _ => None) (fun _ => [])
                    asciiLower (fun _ => None) (fun _ => None)
                    (ExportJson.JArray
                       [ExportJson.JObject [(lit "title", ExportJson.JString (lit "a < b"))]])
                    (lit "HTML") Hfmt)).
    vm_compute. reflexivity.
  - reflexivity.
Defined.

End ExportFacts.

(** ** [formatTestCases] in every format *)

Module FormatterFieldFacts.
Import Parser Formatter RoundTripFacts.

Lemma numbered_steps_keep (tc : TestCase) (step : jsstring) :
  In step (steps tc) -> occurs_in step (join [nl] (mapi numbered_step (steps tc))).
Proof.
  intros H. destruct (mapi_from_piece numbered_step (steps tc) step H 0) as [i Hi].
  apply (occurs_in_trans (numbered_step i step)).
  - unfold numbered_step. repeat first [apply occurs_here | apply occurs_later].
    exists [], []. rewrite app_nil_r. reflexivity.
  - apply join_piece, Hi.
Qed.

Lemma format_markdown_keeps_fields (i : nat) (tc : TestCase) :
  occurs_in (title tc) (format_markdown i tc)
  /\ occurs_in (expectedResult tc) (format_markdown i tc)
  /\ forall step, In step (steps tc) -> occurs_in step (format_markdown i tc).
Proof.
  unfold format_markdown. cbn zeta. split; [|split].
  - repeat first [apply occurs_here | apply occurs_later].
  - repeat first [apply occurs_here | apply occurs_later].
    exists [], []. rewrite app_nil_r. reflexivity.
  - intros step H. pose proof (numbered_steps_keep tc step H) as Hs.
    repeat first [apply occurs_earlier; exact Hs | apply occurs_later].
Qed.

Lemma format_text_keeps_fields (i : nat) (tc : TestCase) :
  occurs_in (title tc) (format_text i tc)
  /\ occurs_in (expectedResult tc) (format_text i tc)
  /\ forall step, In step (steps tc) -> occurs_in step (format_text i tc).
Proof.
  unfold format_text. cbn zeta. split; [|split].
  - repeat first [apply occurs_here | apply occurs_later].
  - repeat first [apply occurs_here | apply occurs_later].
    exists [], []. rewrite app_nil_r. reflexivity.
  - intros step H. pose proof (numbered_steps_keep tc step H) as Hs.
    repeat first [apply occurs_earlier; exact Hs | apply occurs_later].
Qed.

Lemma joined_cases_keep (sep : jsstring) (f : nat -> TestCase -> jsstring)
    (tcs : list TestCase) (tc : TestCase) :
  (forall i,
      occurs_in (title tc) (f i tc) /\ occurs_in (expectedResult tc) (f i tc)
      /\ forall step, In step (steps tc) -> occurs_in step (f i tc)) ->
  In tc tcs ->
  occurs_in (title tc) (join sep (mapi f tcs))
  /\ occurs_in (expectedResult tc) (join sep (mapi f tcs))
  /\ forall step, In step (steps tc) -> occurs_in step (join sep (mapi f tcs)).
Proof.
  intros Hf H. destruct (mapi_from_piece f tcs tc H 0) as [i Hi].
  pose proof (join_piece sep _ _ Hi) as Hj.
  destruct (Hf i) as (Ht & He & Hs).
  split; [|split].
  - exact (occurs_in_trans _ _ _ Ht Hj).
  - exact (occurs_in_trans _ _ _ He Hj).
  - intros step Hstep. exact (occurs_in_trans _ _ _ (Hs step Hstep) Hj).
Qed.

(** X6: [formatTestCases] loses no field, in any format: the title, the
    expected result and every step of each test case occur in the output
    as they are, for "markdown", "html", "text", a format that the
    function does not know, and no format at all. *)
Theorem formatTestCases_keeps_every_field
    (tcs : list TestCase) (tc : TestCase) (format : js_arg jsstring) :
  In tc tcs ->
  occurs_in (title tc) (formatTestCases (Value tcs) format)
  /\ occurs_in (expectedResult tc) (formatTestCases (Value tcs) format)
  /\ forall step, In step (steps tc) -> occurs_in step (formatTestCases (Value tcs) format).
Proof.
  intros H. destruct tcs as [|t l]; [destruct H|].
  destruct format as [| |f].
  - change (formatTestCases (Value (t :: l)) Undefined)
      with (join [nl; nl] (mapi format_text (t :: l))).
    apply (joined_cases_keep [nl; nl] format_text); [intros i; apply format_text_keeps_fields | exact H].
  - change (formatTestCases (Value (t :: l)) Null)
      with (join [nl; nl] (mapi format_text (t :: l))).
    apply (joined_cases_keep [nl; nl] format_text); [intros i; apply format_text_keeps_fields | exact H].
  - unfold formatTestCases.
    destruct (str_eqb f (lit "markdown")).
    { apply (joined_cases_keep [nl; nl] format_markdown);
        [intros i; apply format_markdown_keeps_fields | exact H]. }
    destruct (str_eqb f (lit "html")).
    { apply (joined_cases_keep [] format_html); [intros i; apply format_html_keeps_fields | exact H]. }
    apply (joined_cases_keep [nl; nl] format_text); [intros i; apply format_text_keeps_fields | exact H].
Qed.

Lemma formatTestCases_keeps_witness :
  In Samples.login_case [Samples.login_case]
  /\ occurs_in (lit "Login") (formatTestCases (Value [Samples.login_case]) Undefined).
Proof.
  assert (H : In Samples.login_case [Samples.login_case]) by (left; reflexivity).
  split; [exact H|].
  exact (proj1 (formatTestCases_keeps_every_field [Samples.login_case] Samples.login_case
                  Undefined H)).
Defined.

End FormatterFieldFacts.

(** ** Edge cases and invariants of the parser *)

Module ParserEdgeFacts.
Import Parser.

Lemma trimStart_blank (s : jsstring) : blank s -> trimStart s = [].
Proof. induction 1 as [|a s Ha _ IH]; simpl; [reflexivity|]. rewrite Ha. exact IH. Qed.

Lemma trim_blank (s : jsstring) : blank s -> trim s = [].
Proof. intros H. unfold trim. rewrite trimStart_blank by exact H. reflexivity. Qed.

Lemma blank_avoids (c : char) (s : jsstring) : isWhiteSpace c = false -> blank s -> c ∉ s.
Proof.
  intros Hc Hs Hin. unfold blank in Hs. rewrite Forall_forall in Hs.
  apply Hs in Hin. congruence.
Qed.

Lemma scan_blank (t : jsstring) : blank t -> forall s, is_Some (scan s t).
Proof.
  induction 1 as [|a t Ha _ IH]; intros s; [eexists; reflexivity|].
  cbn [scan]. unfold ctx_step.
  destruct (char_eqb nl a); [apply IH|]. rewrite Ha. apply IH.
Qed.

Lemma paragraphs_from_Forall (P : char -> Prop) (t : jsstring) :
  Forall P t -> forall skip cur, Forall P cur -> Forall (Forall P) (paragraphs_from skip cur t).
Proof.
  induction 1 as [|a t Ha Ht IH]; intros skip cur Hcur.
  - constructor; [|constructor]. apply Forall_rev. exact Hcur.
  - cbn [paragraphs_from]. destruct skip as [|k]; [|apply IH, Hcur].
    destruct (if char_eqb nl a then blank_tail t else None).
    + constructor; [apply Forall_rev, Hcur | apply IH; constructor].
    + apply IH. constructor; assumption.
Qed.

Lemma gen_block_blank (p : jsstring) : blank p -> gen_block p = [].
Proof. intros H. unfold gen_block. rewrite trim_blank by exact H. reflexivity. Qed.

Lemma generic_blank (s : jsstring) : blank s -> extractGenericTestCases s = [].
Proof.
  intros H. unfold extractGenericTestCases. rewrite ParagraphFacts.split_paragraphs.
  assert (Hps : Forall blank (paragraphs s)).
  { apply paragraphs_from_Forall; [exact H | constructor]. }
  induction Hps as [|p ps Hp _ IH]; [reflexivity|].
  cbn [map concat]. rewrite gen_block_blank by exact Hp. exact IH.
Qed.

Lemma markdown_blank (s : jsstring) : blank s -> parseMarkdownTestCases s = [].
Proof.
  intros H.
  assert (Hstar : ch "*" ∉ s) by (apply blank_avoids; [reflexivity | exact H]).
  assert (Hok : colon_ok s).
  { apply MarkerFacts.colon_free_ok, blank_avoids; [reflexivity | exact H]. }
  unfold parseMarkdownTestCases. cbn zeta.
  unfold replace_first. rewrite (MarkerFacts.intro_not_found s Hstar Hok).
  destruct s as [|a s]; [reflexivity|].
  assert (Hsplit : split_re flag_m re_block_marker (a :: s) = [a :: s]).
  { unfold split_re.
    apply RegexFacts.split_loop_no_match. intros q.
    apply (MarkerFacts.block_marker_not_found (a :: s)); [assumption|assumption|apply suffix_drop]. }
  rewrite Hsplit. rewrite (trim_blank _ H). reflexivity.
Qed.

(** X7: a text of white space only (blanks, tabs, line feeds) is parsed
    to no test case: none of the three strategies finds one. *)
Theorem blank_text_has_no_test_cases (s : jsstring) :
  blank s ->
  parseMarkdownTestCases s = [] /\ parseStructuredTestCases s = []
  /\ extractGenericTestCases s = [] /\ parseTestCases s = [].
Proof.
  intros H.
  assert (Hm := markdown_blank s H).
  assert (Hs : parseStructuredTestCases s = []).
  { apply (StrategyFacts.structured_finds_nothing s Idle), scan_blank, H. }
  assert (Hg := generic_blank s H).
  repeat split; try assumption.
  unfold parseTestCases. destruct (negb (truthy s)); [reflexivity|].
  rewrite Hm, Hs. exact Hg.
Qed.

Lemma blank_text_witness :
  blank [ch " "; nl; tab; nl; nl; ch " "]
  /\ parseTestCases [ch " "; nl; tab; nl; nl; ch " "] = [].
Proof.
  assert (H : blank [ch " "; nl; tab; nl; nl; ch " "]) by (repeat constructor).
  split; [exact H|].
  apply (blank_text_has_no_test_cases [ch " "; nl; tab; nl; nl; ch " "] H).
Defined.

(** What [trim] returns does not begin with white space. *)
Lemma trimStart_first (s : jsstring) :
  trimStart s = [] \/ exists a s', trimStart s = a :: s' /\ isWhiteSpace a = false.
Proof.
  induction s as [|a s IH]; [left; reflexivity|].
  cbn [trimStart]. destruct (isWhiteSpace a) eqn:Ha; [exact IH|].
  right. exists a, s. split; [reflexivity | exact Ha].
Qed.

Lemma trim_first (s : jsstring) :
  trim s = [] \/ exists a s', trim s = a :: s' /\ isWhiteSpace a = false.
Proof.
  unfold trim. destruct (trimStart_first s) as [-> | (a & s' & -> & Ha)].
  - left. reflexivity.
  - right. destruct (StringFacts.trim_head a s' Ha) as [s'' H].
    unfold trim in H. rewrite (StringFacts.trimStart_keeps a s' Ha) in H.
    exists a, s''. split; [exact H | exact Ha].
Qed.

Lemma trim_trimmed (s : jsstring) : truthy (trim s) = true -> trimmed (trim s).
Proof.
  intros H. split.
  - destruct (trim_first s) as [E | E]; [rewrite E in H; discriminate | exact E].
  - destruct (StringFacts.trim_last s) as [E | E]; [rewrite E in H; discriminate | exact E].
Qed.

Lemma gen_block_case (raw : jsstring) (tc : TestCase) :
  tc ∈ gen_block raw ->
  trimmed (title tc) /\ steps tc <> [] /\ truthy (expectedResult tc) = true.
Proof.
  unfold gen_block.
  destruct (negb (truthy (trim raw))); [intros H; inversion H|].
  destruct (js_test flag_i re_preamble (trim raw)); [intros H; inversion H|].
  cbn zeta. destruct (truthy (gen_title (trim raw))) eqn:Ht; [|intros H; inversion H].
  intros H. apply list_elem_of_singleton in H. subst tc. cbn [title steps expectedResult].
  split; [|split].
  - unfold gen_title in *. destruct (js_match flag_i re_gen_title (trim raw)); [|discriminate].
    apply trim_trimmed, Ht.
  - destruct (gen_steps (trim raw)); discriminate.
  - destruct (truthy (gen_result (trim raw))) eqn:Hr; [exact Hr | reflexivity].
Qed.

Lemma concat_map_length_le {A B : Type} (f : A -> list B) (l : list A) :
  (forall x, length (f x) <= 1) -> length (concat (map f l)) <= length l.
Proof.
  intros Hf. induction l as [|x l IH]; simpl; [lia|].
  rewrite length_app. specialize (Hf x). lia.
Qed.

(** X8: every test case that [extractGenericTestCases] returns has a
    title that is not empty and neither begins nor ends with white space,
    at least one step and an expected result that is not empty; and there
    are no more test cases than paragraphs in the text. *)
Theorem generic_cases_are_complete (text : jsstring) :
  Forall (fun tc => trimmed (title tc) /\ steps tc <> []
                    /\ truthy (expectedResult tc) = true)
         (extractGenericTestCases text)
  /\ length (extractGenericTestCases text) <= length (paragraphs text).
Proof.
  split.
  - apply Forall_forall. intros tc Htc. unfold extractGenericTestCases in Htc.
    apply list_elem_of_In, in_concat in Htc as (l & Hl & Htc).
    apply in_map_iff in Hl as (raw & <- & _).
    apply gen_block_case with raw, list_elem_of_In, Htc.
  - unfold extractGenericTestCases. rewrite ParagraphFacts.split_paragraphs.
    apply concat_map_length_le. intros raw. unfold gen_block.
    repeat match goal with |- context [if ?b then _ else _] => destruct b end; simpl; lia.
Qed.

Lemma filter_truthy_Forall (l : list jsstring) :
  Forall (fun s => truthy s = true) (List.filter truthy l).
Proof.
  apply List.Forall_forall. intros s Hs. apply filter_In in Hs. tauto.
Qed.

Lemma md_block_case (raw : jsstring) (tc : TestCase) :
  tc ∈ md_block raw ->
  truthy (title tc) = true /\ Forall (fun s => truthy s = true) (steps tc).
Proof.
  unfold md_block.
  destruct (negb (truthy (trim raw))); [intros H; inversion H|].
  cbn zeta. destruct (truthy (md_title (trim raw))) eqn:Ht; [|intros H; inversion H].
  intros H. apply list_elem_of_singleton in H. subst tc. cbn [title steps].
  split; [exact Ht|]. unfold md_steps.
  destruct (js_match flag_i re_md_steps (trim raw)); [|constructor].
  destruct (group (trim raw) r 1) as [[|a sec]|]; try constructor.
  apply filter_truthy_Forall.
Qed.

(** X9: every test case that [parseMarkdownTestCases] returns has a
    title that is not empty, and none of its steps is empty. *)
Theorem markdown_cases_have_titles_and_steps (text : jsstring) :
  Forall (fun tc => truthy (title tc) = true /\ Forall (fun s => truthy s = true) (steps tc))
         (parseMarkdownTestCases text).
Proof.
  apply Forall_forall. intros tc Htc.
  unfold parseMarkdownTestCases in Htc. cbn zeta in Htc.
  apply list_elem_of_In, in_concat in Htc as (l & Hl & Htc).
  apply in_map_iff in Hl as (raw & <- & _).
  apply md_block_case with raw, list_elem_of_In, Htc.
Qed.

End ParserEdgeFacts.

(** ** The keywords of the fallback generator *)

Module KeywordFacts.
Import Fallback.

Lemma includes_elem (l : list jsstring) (w : jsstring) :
  includes l w = true <-> w ∈ l.
Proof.
  unfold includes. rewrite existsb_exists. split.
  - intros (x & Hx & E). apply StringExtraFacts.str_eqb_eq in E. subst x. apply list_elem_of_In, Hx.
  - intros H. exists w. split; [apply list_elem_of_In, H | apply StringExtraFacts.str_eqb_eq; reflexivity].
Qed.

Lemma unique_aux_fresh (l : list jsstring) :
  forall seen w, w ∈ unique_aux seen l -> w ∉ seen.
Proof.
  induction l as [|x l IH]; intros seen w H; cbn [unique_aux] in H; [inversion H|].
  destruct (includes seen x) eqn:E; [exact (IH _ _ H)|].
  apply elem_of_cons in H as [-> | H].
  - intros Hin. apply includes_elem in Hin. congruence.
  - apply IH in H. intros Hin. apply H. right. exact Hin.
Qed.

Lemma unique_aux_NoDup (l : list jsstring) : forall seen, NoDup (unique_aux seen l).
Proof.
  induction l as [|x l IH]; intros seen; cbn [unique_aux]; [constructor|].
  destruct (includes seen x); [apply IH|].
  constructor; [|apply IH].
  intros H. apply unique_aux_fresh in H. apply H. left.
Qed.

(** [unique] keeps every element of the list. *)
Lemma unique_aux_complete (l : list jsstring) :
  forall seen w, w ∈ l -> w ∉ seen -> w ∈ unique_aux seen l.
Proof.
  induction l as [|x l IH]; intros seen w H Hs; [inversion H|].
  cbn [unique_aux]. destruct (includes seen x) eqn:E.
  - apply elem_of_cons in H as [-> | H].
    + apply includes_elem in E. contradiction.
    + apply IH; assumption.
  - destruct (decide (w = x)) as [->|Hne]; [left|].
    apply elem_of_cons in H as [-> | H]; [contradiction|].
    right. apply IH; [exact H|]. intros Hin. apply elem_of_cons in Hin as [-> | Hin]; contradiction.
Qed.

Lemma punctuation_class (a : char) (l : jsstring) :
  class_has false false (map CChar l) a = false -> a ∉ l.
Proof.
  unfold class_has. cbn [xorb]. induction l as [|c l IH]; cbn [map existsb].
  - intros _. apply not_elem_of_nil.
  - intros H. apply orb_false_iff in H as [Hc Hl].
    apply not_elem_of_cons. split; [|exact (IH Hl)].
    cbn in Hc. apply N.eqb_neq in Hc. congruence.
Qed.

Section Keywords.

Variable toLowerCase : jsstring -> jsstring.

Lemma keyword_chars (w text : jsstring) :
  w ∈ extractKeywords toLowerCase text ->
  Forall (fun a => a ∉ punctuation_chars) w.
Proof.
  intros H. apply FallbackFacts.keyword_is_word in H as [_ H].
  revert w H. apply Forall_forall.
  apply StringFacts.split_char_Forall, RegexFacts.replace_all_Forall.
  - unfold re_punctuation.
    rewrite (RegexFacts.replace_all_one_char _ _ _ _ _ (RegexFacts.one_char_class _ _ _)).
    apply Forall_flat_map, Forall_forall. intros a _.
    cbn [ignoreCase no_flags].
    destruct (class_has false false _ a) eqn:E; [constructor|].
    constructor; [|constructor]. apply punctuation_class, E.
  - apply List.Forall_cons; [|constructor]. vm_compute.
    intros H. apply list_elem_of_In in H. simpl in H.
    repeat (destruct H as [H|H]; [discriminate H|]). exact H.
Qed.

(** X10: the keywords that [extractKeywords] returns are pairwise
    distinct; each is longer than three characters, is none of the common
    words, and has neither a blank nor one of the punctuation characters
    that the function strips.  Every word of the cleaned text that
    passes the filter is among them. *)
Theorem keywords_are_distinct_content_words (text : jsstring) :
  NoDup (extractKeywords toLowerCase text)
  /\ Forall (fun w => 3 < length w /\ (w ∉ commonWords) /\ (ch " " ∉ w)
                      /\ Forall (fun a => a ∉ punctuation_chars) w)
            (extractKeywords toLowerCase text)
  /\ Forall (fun w => w ∈ extractKeywords toLowerCase text)
       (List.filter (fun word => Nat.ltb 3 (length word) && negb (includes commonWords word))
          (split_char (ch " ")
             (replace_all no_flags re_spaces (lit " ")
                (replace_all no_flags re_punctuation [] (toLowerCase text))))).
Proof.
  split; [apply unique_aux_NoDup|]. split.
  - apply Forall_forall. intros w Hw.
    pose proof (keyword_chars w text Hw) as Hchars.
    unfold extractKeywords, unique in Hw. apply FallbackFacts.unique_aux_subset in Hw.
    apply list_elem_of_In, filter_In in Hw as [Hw Hf].
    apply andb_true_iff in Hf as [Hlen Hcommon]. apply Nat.ltb_lt in Hlen.
    split; [exact Hlen|]. split.
    + intros Hin. apply includes_elem in Hin. rewrite Hin in Hcommon. discriminate.
    + split; [|exact Hchars].
      pose proof (StringFacts.split_char_sep (ch " ")
                    (replace_all no_flags re_spaces (lit " ")
                       (replace_all no_flags re_punctuation [] (toLowerCase text)))) as Hsep.
      rewrite List.Forall_forall in Hsep. apply Hsep, Hw.
  - apply Forall_forall. intros w Hw.
    unfold extractKeywords, unique. apply unique_aux_complete; [exact Hw|apply not_elem_of_nil].
Qed.

End Keywords.

End KeywordFacts.

(** ** Runs of the storage functions and of the entry points *)

Module RunFacts.
Import Orchestrator OrchestratorExt Host.

Opaque lit.

Lemma run_nil {A : Type} (p : Prog A) (st : gmap jsstring Job) :
  run p [] st = match finished p with Some o => Some (o, st, []) | None => None end.
Proof. reflexivity. Qed.

Lemma run_cons {A : Type} (p : Prog A) (a : answer) (answers : list answer)
    (st : gmap jsstring Job) :
  run p (a :: answers) st
  = match step p a st with
    | Some (p', st1, ts1) =>
        match run p' answers st1 with
        | Some (o, st2, ts2) => Some (o, st2, ts1 ++ ts2)
        | None => None
        end
    | None => None
    end.
Proof.
  unfold run. rewrite HostFacts.exec_cons.
  destruct (step p a st) as [[[p1 st1] ts1]|]; [|reflexivity].
  destruct (exec p1 answers st1) as [[[p2 st2] ts2]|]; [|reflexivity].
  destruct (finished p2); reflexivity.
Qed.

(** The sort of [cleanupOldJobs] puts the oldest job first and keeps the
    order of jobs that started at the same time. *)
Lemma insert_by_start_sorted (x : jsstring * Job) (l : list (jsstring * Job)) :
  StronglySorted (fun a b => (startTime (snd a) <= startTime (snd b))%Z) l ->
  StronglySorted (fun a b => (startTime (snd a) <= startTime (snd b))%Z)
    (insert_by_start x l)
  /\ (forall z, In z (insert_by_start x l) <-> x = z \/ In z l).
Proof.
  induction 1 as [|y l Hl [IH Hin] Hy].
  - split; [repeat constructor|]. intros z. reflexivity.
  - cbn [insert_by_start].
    destruct (startTime (snd x) <=? startTime (snd y))%Z eqn:Hle.
    + split; [|intros z; reflexivity].
      apply Z.leb_le in Hle. constructor; [constructor; assumption|].
      constructor; [exact Hle|].
      eapply List.Forall_impl; [|exact Hy]. intros z Hz. cbn in Hz. lia.
    + apply Z.leb_gt in Hle. split.
      * constructor; [exact IH|]. apply List.Forall_forall. intros z Hz.
        apply Hin in Hz as [<- | Hz]; [lia|].
        exact (proj1 (List.Forall_forall _ _) Hy z Hz).
      * intros z. cbn [In]. rewrite Hin. tauto.
Qed.

Lemma sort_by_start_sorted (l : list (jsstring * Job)) :
  StronglySorted (fun a b => (startTime (snd a) <= startTime (snd b))%Z) (sort_by_start l)
  /\ (forall z, In z (sort_by_start l) <-> In z l).
Proof.
  induction l as [|x l [IH Hin]]; [split; [constructor|reflexivity]|].
  change (sort_by_start (x :: l)) with (insert_by_start x (sort_by_start l)).
  destruct (insert_by_start_sorted x (sort_by_start l) IH) as [Hs Hi].
  split; [exact Hs|]. intros z. rewrite Hi, Hin. reflexivity.
Qed.

Lemma sort_by_start_keeps_ties (l : list (jsstring * Job)) :
  StronglySorted (fun a b => (startTime (snd a) <= startTime (snd b))%Z) l ->
  sort_by_start l = l.
Proof.
  induction 1 as [|x l Hl IH Hx]; [reflexivity|].
  change (sort_by_start (x :: l)) with (insert_by_start x (sort_by_start l)).
  rewrite IH. destruct l as [|y l']; [reflexivity|]. cbn [insert_by_start].
  apply Forall_cons_1 in Hx as [Hxy _]. cbn in Hxy.
  apply Z.leb_le in Hxy. rewrite Hxy. reflexivity.
Qed.

(** A program that has returned makes no request. *)
Lemma run_ret {A : Type} (x : A) (answers : list answer) (st st' : gmap jsstring Job)
    (o : outcome A) (ts : list (Prog unit)) :
  run (Ret x) answers st = Some (o, st', ts) ->
  answers = [] /\ o = Ok x /\ st' = st /\ ts = [].
Proof.
  destruct answers as [|a answers]; [|rewrite run_cons; discriminate].
  rewrite run_nil. simpl. intros H. injection H as <- <- <-. auto.
Qed.

Lemma run_throw {A : Type} (e : JsError) (answers : list answer) (st st' : gmap jsstring Job)
    (o : outcome A) (ts : list (Prog unit)) :
  run (Throw e) answers st = Some (o, st', ts) ->
  answers = [] /\ o = Threw e /\ st' = st /\ ts = [].
Proof.
  destruct answers as [|a answers]; [|rewrite run_cons; discriminate].
  rewrite run_nil. simpl. intros H. injection H as <- <- <-. auto.
Qed.

(** [returns o]: the run did not end in an exception. *)
Lemma try_catch_returns {A : Type} (h : JsError -> Prog A) :
  (forall e answers st o st' ts,
      run (h e) answers st = Some (o, st', ts) -> returns o) ->
  forall (answers : list answer) (p : Prog A) st o st' ts,
    run (try_catch p h) answers st = Some (o, st', ts) -> returns o.
Proof.
  intros Hh. induction answers as [|a answers IH]; intros p st o st' ts H.
  - destruct p; try (rewrite run_nil in H; discriminate H).
    + rewrite run_nil in H. injection H as <- _ _. eexists; reflexivity.
    + exact (Hh _ _ _ _ _ _ H).
  - destruct p; try (rewrite run_cons in H; discriminate H);
      try (exact (Hh _ _ _ _ _ _ H));
      rewrite run_cons in H; destruct a; try discriminate H; cbn [step try_catch] in H;
      match type of H with
      | context [run ?q answers ?s] =>
          destruct (run q answers s) as [[[o1 st1] ts1]|] eqn:E; [|discriminate H]
      end;
      injection H as <- _ _; exact (IH _ _ _ _ _ E).
Qed.

Lemma job_key_inj (id id' : jsstring) : job_key id = job_key id' -> id = id'.
Proof. unfold job_key. apply app_inv_head. Qed.

(** X11: a job that has been stored is read back under its id, reading
    another id is not affected, a deleted job is gone, and an update
    replaces the job; a request that the store rejects leaves the store
    as it was, and the function throws the error of the store. *)
Theorem stored_job_is_read_back (st : gmap jsstring Job) (jobId other : jsstring)
    (job job' : Job) (e : JsError) :
  other <> jobId ->
  run (storeJob jobId job ;; getJob jobId) [AStorage None; AStorage None] st
    = Some (Ok (Some job), <[job_key jobId := job]> st, [])
  /\ run (storeJob jobId job ;; getJob other) [AStorage None; AStorage None] st
    = Some (Ok (st !! job_key other), <[job_key jobId := job]> st, [])
  /\ run (storeJob jobId job ;; updateJob jobId job' ;; getJob jobId)
         [AStorage None; AStorage None; AStorage None] st
    = Some (Ok (Some job'), <[job_key jobId := job']> st, [])
  /\ run (storeJob jobId job ;; deleteJob jobId ;; getJob jobId)
         [AStorage None; AStorage None; AStorage None] st
    = Some (Ok None, delete (job_key jobId) st, [])
  /\ run (storeJob jobId job) [AStorage (Some e)] st = Some (Threw e, st, [])
  /\ run (updateJob jobId job) [AStorage (Some e)] st = Some (Threw e, st, [])
  /\ run (deleteJob jobId) [AStorage (Some e)] st = Some (Threw e, st, [])
  /\ run (getJob jobId) [AStorage (Some e)] st = Some (Threw e, st, []).
Proof.
  intros Hne.
  assert (Hkey : job_key jobId <> job_key other).
  { intros H. apply job_key_inj in H. congruence. }
  unfold run, storeJob, updateJob, deleteJob, getJob. simpl.
  rewrite insert_insert_eq, delete_insert_eq, !lookup_insert_eq,
    (lookup_insert_ne _ _ _ _ Hkey), lookup_delete_eq.
  repeat split; reflexivity.
Qed.

(** [try] commutes with the requests of its block. *)
Lemma exec_try_catch {A : Type} (h : JsError -> Prog A) (answers : list answer) :
  forall (p q : Prog A) st st' ts,
    exec p answers st = Some (q, st', ts) ->
    exec (try_catch p h) answers st = Some (try_catch q h, st', ts).
Proof.
  induction answers as [|a answers IH]; intros p q st st' ts H.
  - injection H as <- <- <-. reflexivity.
  - rewrite HostFacts.exec_cons in H. rewrite HostFacts.exec_cons.
    destruct p, a; try discriminate H; cbn [step try_catch] in H |- *;
      match type of H with
      | context [exec ?r answers ?s] =>
          destruct (exec r answers s) as [[[q1 st1] ts1]|] eqn:E; [|discriminate H]
      end;
      injection H as <- <- <-; rewrite (IH _ _ _ _ _ E); reflexivity.
Qed.

Lemma run_exec {A : Type} (p : Prog A) (answers : list answer) st o st' ts :
  run p answers st = Some (o, st', ts) ->
  exists q, exec p answers st = Some (q, st', ts) /\ finished q = Some o.
Proof.
  unfold run. destruct (exec p answers st) as [[[q st1] ts1]|]; [|discriminate].
  destruct (finished q) as [o1|] eqn:E; [|discriminate].
  intros H. injection H as <- <- <-. exists q. auto.
Qed.

(** X12: [cleanupOldJobs] never ends in an exception, whatever the store
    answers to its query and to its deletions, and it never adds or
    changes an entry of the store: what is there afterwards was there
    before.  When the query is rejected it returns at once and the store
    is as it was. *)
Theorem cleanup_never_fails (maxJobs : nat) (answers : list answer)
    (st st' : gmap jsstring Job) (o : outcome unit) (ts : list (Prog unit)) (e : JsError) :
  run (cleanupOldJobs maxJobs) answers st = Some (o, st', ts) ->
  o = Ok tt /\ kept_from st st'
  /\ run (cleanupOldJobs maxJobs) [AStorage (Some e)] st = Some (Ok tt, st, []).
Proof.
  intros H. split; [|split; [|reflexivity]].
  - assert (Hr : returns o).
    { unfold cleanupOldJobs in H. revert H. apply try_catch_returns.
      intros e0 answers0 st0 o0 st0' ts0 H0. apply run_ret in H0 as (_ & -> & _).
      eexists; reflexivity. }
    destruct Hr as [[] ->]. reflexivity.
  - apply run_exec in H as (q & H & _).
    apply (exec_try_catch (fun error => Throw error)) in H.
    exact (OrchestratorFacts.cleanup_only_deletes _ _ _ _ _ _ _ H).
Qed.


(** A [try] block that rethrows, around a call whose result is mapped. *)
Lemma run_try_map {A B : Type} (g : A -> B) (answers : list answer) :
  forall (p : Prog A) (st : gmap jsstring Job),
    run (try_catch (p ≫= (fun x => Ret (g x))) (fun error => Throw error)) answers st
    = match run p answers st with
      | Some (Ok x, st', ts) => Some (Ok (g x), st', ts)
      | Some (Threw e, st', ts) => Some (Threw e, st', ts)
      | None => None
      end.
Proof.
  induction answers as [|a answers IH]; intros p st.
  - rewrite !run_nil. destruct p; reflexivity.
  - rewrite !run_cons.
    destruct p, a; try reflexivity; cbn [step]; cbn;
      match goal with
      | |- context [run (try_catch (bind ?q _) _) answers ?s] =>
          change (run (try_catch (bind q (fun x => Ret (g x))) (fun error => Throw error))
                      answers s)
            with (run (try_catch (q ≫= (fun x => Ret (g x))) (fun error => Throw error))
                      answers s);
          rewrite (IH q s); destruct (run q answers s) as [[[[x|e] st1] ts1]|]; reflexivity
      end.
Qed.

Lemma exec_cons_inv {A : Type} (p p' : Prog A) (a : answer) (answers : list answer)
    st st' ts :
  exec p (a :: answers) st = Some (p', st', ts) ->
  exists q st1 ts1 ts2,
    step p a st = Some (q, st1, ts1) /\ exec q answers st1 = Some (p', st', ts2)
    /\ ts = ts1 ++ ts2.
Proof.
  rewrite HostFacts.exec_cons.
  destruct (step p a st) as [[[q st1] ts1]|]; [|discriminate].
  destruct (exec q answers st1) as [[[q2 st2] ts2]|] eqn:E; [|discriminate].
  intros H. injection H as <- <- <-. exists q, st1, ts1, ts2. auto.
Qed.

Section WithBuiltins.

Variable JSON_parse : jsstring -> option JsValue.
Variable JSON_stringify : JsValue -> jsstring.
Variable toLowerCase : jsstring -> jsstring.

Abbreviation start := (startTestCaseGenerationJob JSON_parse JSON_stringify toLowerCase).
Abbreviation background := (generateTestCasesAsync JSON_parse JSON_stringify toLowerCase).
Abbreviation poll := (getJobStatus toLowerCase).
Abbreviation fallback := (generateFallbackTestCases toLowerCase).
Abbreviation legacy := (generateTestCases JSON_parse JSON_stringify toLowerCase).

(** The end of a run whose program has returned. *)
Ltac settle H :=
  match type of H with
  | context [run (Ret ?x) ?answers ?s] =>
      let E := fresh "E" in
      destruct (run (Ret x) answers s) as [[[? ?] ?]|] eqn:E; [|discriminate H];
      apply run_ret in E as (-> & -> & -> & ->); injection H as <- <- <-
  end.

(** The next request of a run. *)
Ltac request H answers :=
  destruct answers as [|[[?e|]|?now|?suffix|?r|] answers];
  [discriminate H | rewrite run_cons in H; try discriminate H; simpl in H ..].

(** X14: [getJobStatus] never ends in an exception and starts no task,
    whatever the store and the clock answer.  The only change it ever
    makes to the store is the write that completes a [processing] job
    whose deadline has passed; a job that is [pending], [completed] or
    [failed], or has no deadline, is never written. *)
Theorem poll_writes_only_a_timeout (jobId : jsstring) (answers : list answer)
    (st st' : gmap jsstring Job) (o : outcome StatusView) (ts : list (Prog unit)) :
  run (poll jobId) answers st = Some (o, st', ts) ->
  exists view, o = Ok view /\ ts = []
    /\ (st' = st
        \/ exists job now now',
             st !! job_key jobId = Some job /\ status job = processing
             /\ timeoutAt job <> 0%Z /\ (timeoutAt job < now)%Z
             /\ st' = <[job_key jobId :=
                          set_timed_out job (VString (fallback (payload job))) now']> st
             /\ view = view_completed (VString (fallback (payload job))) true).
Proof.
  intros H. unfold getJobStatus in H.
  request H answers.
  { settle H. eexists. auto. }
  destruct (st !! job_key jobId) as [job|] eqn:Hjob; simpl in H.
  2:{ settle H. eexists. auto. }
  destruct (status_eqb (status job) processing && negb (timeoutAt job =? 0)%Z) eqn:Htest;
    simpl in H.
  2:{ settle H. eexists. auto. }
  apply andb_true_iff in Htest as [Hst Hnz].
  assert (Hproc : status job = processing) by (destruct (status job); try discriminate; reflexivity).
  apply negb_true_iff, Z.eqb_neq in Hnz.
  request H answers.
  destruct (timeoutAt job <? now)%Z eqn:Hlate; simpl in H.
  2:{ settle H. eexists. auto. }
  apply Z.ltb_lt in Hlate.
  request H answers.
  request H answers.
  { settle H. eexists. auto. }
  settle H. eexists. split; [reflexivity|]. split; [reflexivity|].
  right. exists job, now, now0. auto 10.
Qed.


(** The [catch] block of [generateTestCasesAsync] swallows its own
    errors. *)
Lemma record_failure_returns (jobId : jsstring) (error : JsError) answers st o st' ts :
  run (record_failure jobId error) answers st = Some (o, st', ts) -> returns o.
Proof.
  unfold record_failure. apply try_catch_returns.
  intros e0 answers0 st0 o0 st0' ts0 H0. apply run_ret in H0 as (_ & -> & _).
  eexists; reflexivity.
Qed.

(** X16: the background task never ends in an exception, whatever the
    store, the clock and the backend answer: the promise that
    [startTestCaseGenerationJob] leaves behind is never rejected.  When
    the job is no longer in the store the task ends after its first read,
    without a request to the backend. *)
Theorem background_task_never_throws (jobId : jsstring) (payload : Payload)
    (answers : list answer) (st st' : gmap jsstring Job) (o : outcome unit)
    (ts : list (Prog unit)) :
  run (background jobId payload) answers st = Some (o, st', ts) ->
  o = Ok tt
  /\ (st !! job_key jobId = None ->
      run (background jobId payload) [AStorage None] st = Some (Ok tt, st, [])).
Proof.
  intros H. split.
  - assert (Hr : returns o).
    { unfold generateTestCasesAsync in H. revert H. apply try_catch_returns.
      intros e. apply record_failure_returns. }
    destruct Hr as [[] ->]. reflexivity.
  - intros Hjob. unfold run, generateTestCasesAsync. simpl. rewrite Hjob. reflexivity.
Qed.

(** X17: the legacy [generateTestCases] is [startTestCaseGenerationJob]
    with another reply: it makes the same requests, leaves the same store
    and the same task, throws the same error, and where the start returns
    a job id it returns at once with a text that quotes it after
    "Job ID: ". *)
Theorem legacy_call_is_a_start (payload : Payload) (answers : list answer)
    (st : gmap jsstring Job) :
  run (legacy payload) answers st
  = match run (start payload) answers st with
    | Some (Ok reply, st', ts) =>
        Some (Ok {| l_success := true; l_test_cases := legacy_text (jobId reply) |}, st', ts)
    | Some (Threw e, st', ts) => Some (Threw e, st', ts)
    | None => None
    end
  /\ forall id, exists pre post, legacy_text id = pre ++ lit "Job ID: " ++ id ++ post.
Proof.
  split.
  - unfold generateTestCases.
    exact (run_try_map
             (fun reply => {| l_success := true; l_test_cases := legacy_text (jobId reply) |})
             answers (start payload) st).
  - intros id. unfold legacy_text, unlines.
    eexists ([] ++ [nl] ++ lit "Test case generation has started in the background." ++ [nl]), _.
    cbn [join]. rewrite <- !app_assoc. reflexivity.
Qed.

Ltac next_request H a :=
  let q := fresh "q" in
  let st1 := fresh "st" in
  let Hstep := fresh "Hstep" in
  apply exec_cons_inv in H as (q & st1 & ? & ? & Hstep & H & ->);
  destruct a as [[?e|]|?now|?suffix|?r|]; try discriminate Hstep;
  simpl in Hstep; injection Hstep as <- <- <-.

(** X18: [startTestCaseGenerationJob] starts at most one generation task,
    and only once the job is in the store as [pending] with the payload
    of the call; when the store rejects the job, the call throws the
    error of the store and no task is started. *)
Theorem task_starts_only_for_a_stored_job (payload : Payload) (answers : list answer)
    (st st' : gmap jsstring Job) (p' : Prog StartReply) (ts : list (Prog unit)) :
  exec (start payload) answers st = Some (p', st', ts) ->
  (ts = []
   \/ exists id job,
        ts = [background id payload] /\ st' !! job_key id = Some job
        /\ status job = pending /\ Orchestrator.payload job = payload
        /\ p' = Ret {| started := true; jobId := id |})
  /\ forall (t0 t1 t2 : Z) (suffix : jsstring) (e : JsError),
       falsy (description payload) || falsy (acceptance_criteria payload) = false ->
       run (start payload)
           [AClock t0; ARandom suffix; AClock t1; AClock t2; AStorage (Some e)] st
       = Some (Threw e, st, []).
Proof.
  intros H. split.
  2:{ intros t0 t1 t2 suffix e Hvalid. unfold run, startTestCaseGenerationJob.
      rewrite Hvalid. reflexivity. }
  unfold startTestCaseGenerationJob in H.
  destruct (falsy (description payload) || falsy (acceptance_criteria payload)).
  { destruct answers as [|a answers]; [|discriminate H]. injection H as <- <- <-. auto. }
  destruct answers as [|a answers]; [injection H as <- <- <-; auto|]. next_request H a.
  destruct answers as [|a answers]; [injection H as <- <- <-; auto|]. next_request H a.
  destruct answers as [|a answers]; [injection H as <- <- <-; auto|]. next_request H a.
  destruct answers as [|a answers]; [injection H as <- <- <-; auto|]. next_request H a.
  destruct answers as [|a answers]; [injection H as <- <- <-; auto|]. next_request H a.
  { destruct answers as [|a answers]; [injection H as <- <- <-; auto|]. discriminate H. }
  destruct answers as [|a answers]; [injection H as <- <- <-; auto|]. next_request H a.
  destruct answers as [|a answers]; [|discriminate H]. injection H as <- <- <-.
  right. eexists _, _. split; [reflexivity|]. split; [apply lookup_insert_eq|]. auto.
Qed.

(** X19: the job id tells two starts apart: when two calls of
    [startTestCaseGenerationJob] have stored their jobs under the same
    key, they read the same time from the clock and drew the same random
    suffix.  Starts at different milliseconds, or with different
    suffixes, never write to the same entry of the store. *)
Theorem job_ids_tell_starts_apart (payload payload' : Payload)
    (t0 t1 t2 t0' t1' t2' : Z) (suffix suffix' : jsstring)
    (st st' st1 st1' : gmap jsstring Job) (reply reply' : StartReply)
    (ts ts' : list (Prog unit)) :
  run (start payload)
      [AClock t0; ARandom suffix; AClock t1; AClock t2; AStorage None; ASpawn] st
    = Some (Ok reply, st1, ts) ->
  run (start payload')
      [AClock t0'; ARandom suffix'; AClock t1'; AClock t2'; AStorage None; ASpawn] st'
    = Some (Ok reply', st1', ts') ->
  job_key (jobId reply) = job_key (jobId reply') ->
  t0 = t0' /\ suffix = suffix'.
Proof.
  intros H H' Hkey. unfold run, startTestCaseGenerationJob in H, H'.
  destruct (falsy (description payload) || falsy (acceptance_criteria payload));
    [discriminate H|].
  destruct (falsy (description payload') || falsy (acceptance_criteria payload'));
    [discriminate H'|].
  simpl in H, H'. injection H as <- _ _. injection H' as <- _ _.
  cbn [jobId] in Hkey. apply job_key_inj, app_inv_head in Hkey.
  change (lit "_" ++ suffix) with (ch "_" :: suffix) in Hkey.
  change (lit "_" ++ suffix') with (ch "_" :: suffix') in Hkey.
  apply NumberFacts.cut_at_first in Hkey as [Ht Hs];
    try (apply NumberFacts.show_Z_avoids; right; right; reflexivity).
  split; [apply NumberFacts.show_Z_inj, Ht | exact Hs].
Qed.

End WithBuiltins.

Lemma stored_job_witness :
  Samples.login_id <> MoreSamples.other_id
  /\ run (storeJob MoreSamples.other_id Samples.done_job ;; getJob Samples.login_id)
         [AStorage None; AStorage None] Samples.pending_store
     = Some (Ok (Samples.pending_store !! job_key Samples.login_id),
             <[job_key MoreSamples.other_id := Samples.done_job]> Samples.pending_store, []).
Proof.
  assert (H : Samples.login_id <> MoreSamples.other_id) by discriminate.
  split; [exact H|].
  exact (proj1 (proj2 (stored_job_is_read_back Samples.pending_store MoreSamples.other_id
                         Samples.login_id Samples.done_job Samples.done_job
                         Samples.store_error H))).
Defined.

Lemma cleanup_never_fails_witness :
  run (cleanupOldJobs 10) [AStorage (Some Samples.store_error)] Samples.pending_store
    = Some (Ok tt, Samples.pending_store, [])
  /\ Ok tt = Ok tt
  /\ kept_from Samples.pending_store Samples.pending_store.
Proof.
  assert (H : run (cleanupOldJobs 10) [AStorage (Some Samples.store_error)]
                  Samples.pending_store
              = Some (Ok tt, Samples.pending_store, [])) by reflexivity.
  split; [exact H|].
  destruct (cleanup_never_fails 10 _ _ _ _ _ Samples.store_error H) as (Ho & Hkept & _).
  split; [exact Ho | exact Hkept].
Defined.

Lemma poll_writes_witness :
  run (getJobStatus asciiLower Samples.login_id) [AStorage None] Samples.pending_store
    = Some (Ok (view_plain pending), Samples.pending_store, [])
  /\ exists view, Ok (view_plain pending) = Ok view.
Proof.
  assert (H : run (getJobStatus asciiLower Samples.login_id) [AStorage None]
                  Samples.pending_store
              = Some (Ok (view_plain pending), Samples.pending_store, []))
    by (vm_compute; reflexivity).
  split; [exact H|].
  destruct (poll_writes_only_a_timeout asciiLower _ _ _ _ _ _ H) as (view & Hview & _).
  exists view. exact Hview.
Defined.


Lemma background_task_witness :
  run (generateTestCasesAsync Samples.parse_none Samples.stringify_none asciiLower
         MoreSamples.other_id Samples.login_payload)
      [AStorage None] Samples.pending_store
    = Some (Ok tt, Samples.pending_store, [])
  /\ Ok tt = Ok tt.
Proof.
  assert (H : run (generateTestCasesAsync Samples.parse_none Samples.stringify_none asciiLower
                     MoreSamples.other_id Samples.login_payload)
                  [AStorage None] Samples.pending_store
              = Some (Ok tt, Samples.pending_store, [])) by (vm_compute; reflexivity).
  split; [exact H|].
  exact (proj1 (background_task_never_throws Samples.parse_none Samples.stringify_none
                  asciiLower _ _ _ _ _ _ _ H)).
Defined.

Lemma task_starts_witness :
  exec (startTestCaseGenerationJob Samples.parse_none Samples.stringify_none asciiLower
          Samples.login_payload)
       [AClock 1000; ARandom (lit "abc1234"); AClock 1000; AClock 1000; AStorage None; ASpawn]
       ∅
    = Some (Ret {| started := true; jobId := Samples.login_id |},
            Samples.pending_store,
            [generateTestCasesAsync Samples.parse_none Samples.stringify_none asciiLower
               Samples.login_id Samples.login_payload])
  /\ exists id job,
       Samples.pending_store !! job_key id = Some job /\ status job = pending.
Proof.
  assert (H : exec (startTestCaseGenerationJob Samples.parse_none Samples.stringify_none
                      asciiLower Samples.login_payload)
                   [AClock 1000; ARandom (lit "abc1234"); AClock 1000; AClock 1000;
                    AStorage None; ASpawn] ∅
              = Some (Ret {| started := true; jobId := Samples.login_id |},
                      Samples.pending_store,
                      [generateTestCasesAsync Samples.parse_none Samples.stringify_none
                         asciiLower Samples.login_id Samples.login_payload]))
    by reflexivity.
  split; [exact H|].
  destruct (proj1 (task_starts_only_for_a_stored_job Samples.parse_none
                     Samples.stringify_none asciiLower _ _ _ _ _ _ H))
    as [Hnone | (id & job & _ & Hjob & Hst & _)]; [discriminate Hnone|].
  exists id, job. split; [exact Hjob | exact Hst].
Defined.

Lemma job_ids_witness :
  run (startTestCaseGenerationJob Samples.parse_none Samples.stringify_none asciiLower
         Samples.login_payload)
      [AClock 1000; ARandom (lit "abc1234"); AClock 1000; AClock 1000; AStorage None; ASpawn]
      ∅
    = Some (Ok {| started := true; jobId := Samples.login_id |}, Samples.pending_store,
            [generateTestCasesAsync Samples.parse_none Samples.stringify_none asciiLower
               Samples.login_id Samples.login_payload])
  /\ 1000%Z = 1000%Z /\ lit "abc1234" = lit "abc1234".
Proof.
  assert (H : run (startTestCaseGenerationJob Samples.parse_none Samples.stringify_none
                     asciiLower Samples.login_payload)
                  [AClock 1000; ARandom (lit "abc1234"); AClock 1000; AClock 1000;
                   AStorage None; ASpawn] ∅
              = Some (Ok {| started := true; jobId := Samples.login_id |},
                      Samples.pending_store,
                      [generateTestCasesAsync Samples.parse_none Samples.stringify_none
                         asciiLower Samples.login_id Samples.login_payload]))
    by reflexivity.
  split; [exact H|].
  exact (job_ids_tell_starts_apart Samples.parse_none Samples.stringify_none asciiLower
           _ _ _ _ _ _ _ _ _ _ _ _ _ _ _ _ _ _ H H eq_refl).
Defined.

Transparent lit.

End RunFacts.

(** ** Which entries of the store a program writes *)

Module FrameFacts.
Import Orchestrator Host.

Opaque lit.

Lemma wo_bind (key : jsstring) {A B : Type} (p : Prog A) (f : A -> Prog B) :
  writes_only key p -> (forall a, writes_only key (f a)) -> writes_only key (bind p f).
Proof.
  intros Hp Hf. induction Hp; cbn [bind]; try (constructor; auto); apply Hf.
Qed.

Lemma wo_try (key : jsstring) {A : Type} (p : Prog A) (h : JsError -> Prog A) :
  writes_only key p -> (forall e, writes_only key (h e)) -> writes_only key (try_catch p h).
Proof.
  intros Hp Hh. induction Hp; cbn [try_catch]; try (constructor; auto); apply Hh.
Qed.

Lemma wo_await (key : jsstring) {A : Type} (o : outcome A) : writes_only key (await o).
Proof. destruct o; constructor. Qed.

Lemma wo_for_each (key : jsstring) {A : Type} (l : list A) (body : A -> Prog unit) :
  (forall x, writes_only key (body x)) -> writes_only key (for_each l body).
Proof.
  intros Hb. induction l as [|x l IH]; cbn [for_each]; [constructor|].
  apply wo_bind; [apply Hb | intros _; exact IH].
Qed.

(** What a program that writes only to [key] leaves of the other entries:
    each is as it was, or deleted. *)
Lemma wo_exec (key : jsstring) {A : Type} (answers : list answer) :
  forall (p p' : Prog A) st st' ts,
    writes_only key p ->
    exec p answers st = Some (p', st', ts) ->
    forall k j, k <> key -> st' !! k = Some j -> st !! k = Some j.
Proof.
  induction answers as [|a answers IH]; intros p p' st st' ts Hp H k j Hk Hj.
  - injection H as _ <- _. exact Hj.
  - rewrite HostFacts.exec_cons in H.
    destruct Hp, a as [[e1|]| | | |]; try discriminate H; cbn [step] in H;
      match type of H with
      | context [exec ?q answers ?s] =>
          destruct (exec q answers s) as [[[q1 st1] ts1]|] eqn:E; [|discriminate H]
      end;
      injection H as _ <- _;
      match type of E with
      | exec ?q answers _ = _ =>
          assert (Hq : writes_only key q) by auto;
          pose proof (IH _ _ _ _ _ Hq E k j Hk Hj) as Hold
      end;
      try exact Hold.
    + rewrite lookup_insert_ne in Hold by congruence. exact Hold.
    + destruct (decide (k0 = k)) as [->|Hne].
      * rewrite lookup_delete_eq in Hold. discriminate.
      * rewrite lookup_delete_ne in Hold by exact Hne. exact Hold.
Qed.

Ltac wo :=
  repeat first
    [ apply wo_try | apply wo_bind | apply wo_await | apply wo_for_each
    | progress (unfold mbind, Prog_bind, storeJob, getJob, updateJob, deleteJob)
    | progress intros
    | constructor
    | match goal with
      | |- writes_only _ (match ?x with _ => _ end) => destruct x
      | |- writes_only _ (if ?b then _ else _) => destruct b
      end ].

Lemma wo_cleanup (key : jsstring) (maxJobs : nat) : writes_only key (cleanupOldJobs maxJobs).
Proof. unfold cleanupOldJobs. wo. Qed.

Lemma wo_direct (key : jsstring) (payload : Payload) :
  writes_only key (generateDirectTestCases payload).
Proof. unfold generateDirectTestCases. wo. Qed.

Section WithBuiltins.

Variable JSON_parse : jsstring -> option JsValue.
Variable JSON_stringify : JsValue -> jsstring.
Variable toLowerCase : jsstring -> jsstring.

Lemma wo_background (jobId : jsstring) (payload : Payload) :
  writes_only (job_key jobId)
    (generateTestCasesAsync JSON_parse JSON_stringify toLowerCase jobId payload).
Proof.
  unfold generateTestCasesAsync, record_failure.
  wo; try apply wo_cleanup; try apply wo_direct.
Qed.

Lemma wo_poll (jobId : jsstring) :
  writes_only (job_key jobId) (getJobStatus toLowerCase jobId).
Proof. unfold getJobStatus. wo. Qed.

(** X20: the background task and [getJobStatus] write to the store under
    the key of their own job only.  However their requests are answered
    and wherever they stop, every other entry of the store is as it was
    before, or, after the cleanup of the task, deleted. *)
Theorem other_jobs_are_not_written (jobId : jsstring) (payload : Payload)
    (answers : list answer) (st st' : gmap jsstring Job) (ts : list (Prog unit))
    (key : jsstring) (job : Job) :
  key <> job_key jobId ->
  st' !! key = Some job ->
  (forall p',
      exec (generateTestCasesAsync JSON_parse JSON_stringify toLowerCase jobId payload)
           answers st = Some (p', st', ts) ->
      st !! key = Some job)
  /\ (forall p',
        exec (getJobStatus toLowerCase jobId) answers st = Some (p', st', ts) ->
        st !! key = Some job).
Proof.
  intros Hkey Hjob. split; intros p' H.
  - exact (wo_exec _ _ _ _ _ _ _ (wo_background jobId payload) H key job Hkey Hjob).
  - exact (wo_exec _ _ _ _ _ _ _ (wo_poll jobId) H key job Hkey Hjob).
Qed.

End WithBuiltins.

Lemma other_jobs_witness :
  job_key MoreSamples.other_id <> job_key Samples.login_id
  /\ MoreSamples.two_job_store !! job_key MoreSamples.other_id = Some Samples.done_job
  /\ exec (getJobStatus asciiLower Samples.login_id) [AStorage None] MoreSamples.two_job_store
     = Some (Ret (view_plain pending), MoreSamples.two_job_store, []).
Proof.
  assert (Hkey : job_key MoreSamples.other_id <> job_key Samples.login_id) by discriminate.
  assert (Hrun : exec (getJobStatus asciiLower Samples.login_id) [AStorage None]
                      MoreSamples.two_job_store
                 = Some (Ret (view_plain pending), MoreSamples.two_job_store, []))
    by (vm_compute; reflexivity).
  split; [exact Hkey|]. split; [|exact Hrun].
  refine (proj2 (other_jobs_are_not_written Samples.parse_none Samples.stringify_none
                   asciiLower Samples.login_id Samples.login_payload [AStorage None]
                   MoreSamples.two_job_store MoreSamples.two_job_store []
                   (job_key MoreSamples.other_id) Samples.done_job Hkey _) _ Hrun).
  apply lookup_insert_eq.
Defined.

Transparent lit.

End FrameFacts.

(** ** The text of an issue *)

Module IntakeFacts.
Import Orchestrator Intake.

Section WithLowerCase.

Variable toLowerCase : jsstring -> jsstring.

Abbreviation opens := (opens_section toLowerCase).
Abbreviation closes := (closes_section toLowerCase).
Abbreviation criteria := (extractAcceptanceCriteria toLowerCase).

(** What the loop adds to [acLines]. *)
Lemma ac_loop_adds (lines : list jsstring) :
  forall (inAcSection : bool) (acLines : list jsstring),
    exists added,
      ac_loop toLowerCase lines inAcSection acLines = acLines ++ added
      /\ sublist added lines
      /\ Forall (fun l => truthy (trim l) = true /\ opens l = false) added
      /\ (inAcSection = false -> Forall (fun l => opens l = false) lines -> added = []).
Proof.
  induction lines as [|line lines IH]; intros b acc.
  - exists []. cbn [ac_loop]. rewrite app_nil_r. repeat split; constructor.
  - cbn [ac_loop]. destruct (opens line) eqn:Ho.
    + destruct (IH true acc) as (added & -> & Hsub & Hall & _).
      exists added. split; [reflexivity|]. split; [apply sublist_cons, Hsub|].
      split; [exact Hall|]. intros _ Hno. inversion Hno; congruence.
    + destruct b.
      * cbn [andb]. destruct (truthy (trim line)) eqn:Ht.
        -- destruct (closes line).
           ++ exists [line]. split; [reflexivity|].
              split; [apply sublist_skip, sublist_nil_l|].
              split; [repeat constructor; assumption | discriminate].
           ++ destruct (IH true (acc ++ [line])) as (added & -> & Hsub & Hall & _).
              exists (line :: added). rewrite <- app_assoc. split; [reflexivity|].
              split; [apply sublist_skip, Hsub|].
              split; [constructor; auto | discriminate].
        -- destruct (closes line).
           ++ exists []. rewrite app_nil_r. repeat split; try constructor.
              apply sublist_nil_l.
           ++ destruct (IH true acc) as (added & -> & Hsub & Hall & _).
              exists added. split; [reflexivity|]. split; [apply sublist_cons, Hsub|].
              split; [exact Hall | discriminate].
      * cbn [andb]. destruct (IH false acc) as (added & -> & Hsub & Hall & Hnone).
        exists added. split; [reflexivity|]. split; [apply sublist_cons, Hsub|].
        split; [exact Hall|]. intros _ Hno. apply Hnone; [reflexivity|].
        inversion Hno; assumption.
Qed.

(** X21: the acceptance criteria that [extractAcceptanceCriteria]
    returns are lines of the description, in their order, none of them
    blank and none of them a line with "acceptance criteria" or "ac:" in
    it (so criteria written on the heading line itself are lost); without
    such a heading line the result is empty. *)
Theorem acceptance_criteria_are_section_lines (description : jsstring) :
  criteria description = join [nl] (acceptanceLines toLowerCase description)
  /\ sublist (acceptanceLines toLowerCase description) (split_char nl description)
  /\ Forall (fun l => truthy (trim l) = true /\ opens l = false)
            (acceptanceLines toLowerCase description)
  /\ (criteria description = []
      \/ Exists (fun l => opens l = true) (split_char nl description)).
Proof.
  split; [reflexivity|]. unfold extractAcceptanceCriteria, acceptanceLines.
  destruct (ac_loop_adds (split_char nl description) false [])
    as (added & -> & Hsub & Hall & Hnone).
  cbn [app]. split; [exact Hsub|]. split; [exact Hall|].
  destruct (List.Exists_dec (fun l => opens l = true) (split_char nl description)
              (fun l => bool_dec (opens l) true)) as [Hex|Hno].
  - right. exact Hex.
  - left. rewrite Hnone; [reflexivity | reflexivity |].
    apply Forall_forall. intros l Hl. destruct (opens l) eqn:E; [|reflexivity].
    exfalso. apply Hno, List.Exists_exists. exists l. split; [apply list_elem_of_In, Hl | exact E].
Qed.

(** Once the section is open, the loop ends at the first closing line. *)
Lemma ac_loop_stops (c : jsstring) (post : list jsstring) :
  closes c = true -> opens c = false ->
  forall (pre : list jsstring) (inAcSection : bool) (acLines : list jsstring),
    inAcSection = true \/ Exists (fun l => opens l = true) pre ->
    ac_loop toLowerCase (pre ++ c :: post) inAcSection acLines
    = ac_loop toLowerCase (pre ++ [c]) inAcSection acLines.
Proof.
  intros Hc Ho. induction pre as [|line pre IH]; intros b acc Hopen.
  - destruct Hopen as [-> | Hex]; [|inversion Hex].
    cbn [app ac_loop]. rewrite Ho, Hc. reflexivity.
  - cbn [app ac_loop]. destruct (opens line) eqn:Hl.
    + apply IH. left. reflexivity.
    + destruct b.
      * cbn [andb]. destruct (closes line); [reflexivity|]. apply IH. left. reflexivity.
      * cbn [andb]. apply IH. right. destruct Hopen as [Hb | Hex]; [discriminate|].
        inversion Hex; subst; [congruence | assumption].
Qed.

(** X22: what follows the first line with "implementation" or "notes:"
    after the heading of the section is not read: cutting the description
    after that line does not change the acceptance criteria. *)
Theorem nothing_is_read_after_the_closing_line (pre post : list jsstring) (c : jsstring) :
  Forall (fun l => nl ∉ l) (pre ++ c :: post) ->
  Exists (fun l => opens l = true) pre ->
  closes c = true -> opens c = false ->
  criteria (join [nl] (pre ++ c :: post)) = criteria (join [nl] (pre ++ [c])).
Proof.
  intros Hnl Hex Hc Ho. unfold extractAcceptanceCriteria, acceptanceLines.
  rewrite !StringExtraFacts.split_join_lines.
  - rewrite (ac_loop_stops c post Hc Ho pre false []); [reflexivity | right; exact Hex].
  - destruct pre; discriminate.
  - apply Forall_app in Hnl as [Hpre Hrest]. apply Forall_app. split; [exact Hpre|].
    inversion Hrest; subst. repeat constructor; assumption.
  - destruct pre; discriminate.
  - exact Hnl.
Qed.

End WithLowerCase.

Lemma closing_line_witness :
  Exists (fun l => opens_section asciiLower l = true) MoreSamples.story_lines
  /\ closes_section asciiLower MoreSamples.closing_line = true
  /\ extractAcceptanceCriteria asciiLower
       (join [nl] (MoreSamples.story_lines ++ MoreSamples.closing_line
                   :: MoreSamples.later_lines))
     = lit "- login works" ++ [nl] ++ lit "Implementation notes".
Proof.
  assert (Hex : Exists (fun l => opens_section asciiLower l = true) MoreSamples.story_lines).
  { apply List.Exists_cons_tl, List.Exists_cons_hd. vm_compute. reflexivity. }
  assert (Hc : closes_section asciiLower MoreSamples.closing_line = true)
    by (vm_compute; reflexivity).
  split; [exact Hex|]. split; [exact Hc|].
  rewrite (nothing_is_read_after_the_closing_line asciiLower MoreSamples.story_lines
             MoreSamples.later_lines MoreSamples.closing_line).
  - vm_compute. reflexivity.
  - repeat (apply List.Forall_cons; [apply StringFacts.avoids_check; vm_compute; reflexivity|]).
    apply List.Forall_nil.
  - exact Hex.
  - exact Hc.
  - vm_compute. reflexivity.
Defined.

(** The loop of [extractTextFromADF] appends what each node gives. *)
Lemma adf_fold (content : list AdfNode) :
  forall text,
    fold_left (fun text node => text ++ adf_node_text node) content text
    = text ++ concat (map adf_node_text content).
Proof.
  induction content as [|node content IH]; intros text; cbn [fold_left map concat].
  - rewrite app_nil_r. reflexivity.
  - rewrite IH, <- app_assoc. reflexivity.
Qed.

Lemma adf_skips (content : list AdfNode) :
  concat (map adf_node_text (List.filter adf_readable content))
  = concat (map adf_node_text content).
Proof.
  induction content as [|node content IH]; [reflexivity|].
  cbn [List.filter]. destruct (adf_readable node) eqn:E; cbn [map concat]; rewrite IH.
  - reflexivity.
  - unfold adf_readable in E. unfold adf_node_text.
    apply orb_false_iff in E as [E1 E2]. apply orb_false_iff in E1 as [E0 E1].
    rewrite E0, E1, E2. reflexivity.
Qed.

(** X23: [extractTextFromADF] reads the paragraphs and the bullet and
    ordered lists at the top of the document and nothing else: headings,
    code blocks, quotes, tables and panels add nothing to the text, and
    neither do the type and the text of the document node itself. *)
Theorem only_paragraphs_and_lists_are_read
    (type type' text text' : option jsstring) (content : list AdfNode) :
  extractTextFromADF (AdfDoc (Node type text (Some content)))
  = extractTextFromADF (AdfDoc (Node type' text' (Some (List.filter adf_readable content))))
  /\ extractTextFromADF (AdfDoc (Node type text (Some content)))
     = trim (concat (map adf_node_text content))
  /\ extractTextFromADF (AdfDoc (Node type text None)) = []
  /\ extractTextFromADF AdfMissing = [].
Proof.
  unfold extractTextFromADF. cbn [node_content]. rewrite !adf_fold, adf_skips.
  repeat split; reflexivity.
Qed.

Lemma filter_none {A : Type} (p : A -> bool) (l : list A) :
  forallb (fun x => negb (p x)) l = true -> List.filter p l = [].
Proof.
  induction l as [|x l IH]; [reflexivity|]. cbn [forallb List.filter].
  intros H. apply andb_true_iff in H as [Hx Hl]. apply negb_true_iff in Hx.
  rewrite Hx. exact (IH Hl).
Qed.

(** X24: the text of a list item is read from the text nodes directly
    under the item only.  An item that wraps its text in a paragraph, as
    documents of Jira do, gives the bare marker "- ". *)
Theorem nested_item_text_is_not_read
    (type text : option jsstring) (items : list AdfNode) :
  Forall (fun item => no_direct_text item = true) items ->
  extractListText (Node type text (Some items))
  = join [nl] (map (fun _ => lit "- ") (List.filter (has_type "listItem") items)).
Proof.
  intros H. unfold extractListText. cbn [node_content]. f_equal.
  apply map_ext_in. intros item Hin. apply filter_In in Hin as [Hin _].
  rewrite List.Forall_forall in H. specialize (H item Hin).
  unfold extractNodeText. unfold no_direct_text in H.
  destruct (node_content item) as [content|]; [|apply app_nil_r].
  rewrite (filter_none _ _ H). apply app_nil_r.
Qed.

Lemma nested_item_text_witness :
  Forall (fun item => no_direct_text item = true) [MoreSamples.wrapped_item]
  /\ extractListText (Node (Some (lit "bulletList")) None (Some [MoreSamples.wrapped_item]))
     = lit "- ".
Proof.
  assert (H : Forall (fun item => no_direct_text item = true) [MoreSamples.wrapped_item])
    by (repeat constructor).
  split; [exact H|].
  exact (nested_item_text_is_not_read (Some (lit "bulletList")) None
           [MoreSamples.wrapped_item] H).
Defined.

Section Fetch.

Variable toLowerCase : jsstring -> jsstring.

(** A custom field that is a string with "accept" in it. *)
Abbreviation accepting kv :=
  (match snd kv with
   | FString ((_ :: _) as v) => str_includes (toLowerCase v) (lit "accept")
   | _ => false
   end).

Lemma custom_criteria_cases (fields : list (jsstring * FieldValue)) :
  (exists key value,
      In (key, FString value) fields /\ startsWith key (lit "customfield_") = true
      /\ str_includes (toLowerCase value) (lit "accept") = true
      /\ value <> [] /\ custom_criteria toLowerCase fields = value)
  \/ (Forall (fun kv => startsWith (fst kv) (lit "customfield_") && accepting kv = false) fields
      /\ custom_criteria toLowerCase fields = []).
Proof.
  unfold custom_criteria. cbn zeta.
  destruct (List.find _ (List.filter _ fields)) as [[key value]|] eqn:E.
  - apply find_some in E as [Hin Hacc]. apply filter_In in Hin as [Hin Hkey].
    cbn [fst snd] in *. destruct value as [[|a v]|]; try discriminate Hacc.
    left. exists key, (a :: v). repeat split; try assumption. discriminate.
  - right. split; [|reflexivity]. apply List.Forall_forall. intros kv Hin.
    destruct (startsWith (fst kv) (lit "customfield_")) eqn:Hkey; [|reflexivity].
    cbn [andb]. apply (find_none _ _ E kv). apply filter_In. split; assumption.
Qed.

(** X25: [fetchIssueDetails] returns details only for a response that is
    [ok] and whose body can be read as an issue; every other end of the
    request is thrown, a response that is not [ok] as "Failed to fetch
    issue: " with the status.  The acceptance criteria are the value of a
    custom field that is a string with "accept" in it, whatever the
    description says; only when there is no such field are they read from
    the description. *)
Theorem issue_details_come_from_an_ok_response (response : outcome JiraResponse) :
  match fetchIssueDetails toLowerCase response with
  | Ok details =>
      exists resp data,
        response = Ok resp /\ jira_ok resp = true /\ jira_json resp = Ok data
        /\ details = issue_details toLowerCase data
        /\ issue_description details = description_text (f_description data)
        /\ ((exists key value,
                In (key, FString value) (f_others data)
                /\ startsWith key (lit "customfield_") = true
                /\ str_includes (toLowerCase value) (lit "accept") = true
                /\ issue_acceptanceCriteria details = value)
            \/ (Forall (fun kv => startsWith (fst kv) (lit "customfield_") && accepting kv = false)
                       (f_others data)
                /\ (issue_acceptanceCriteria details
                    = extractAcceptanceCriteria toLowerCase (issue_description details)
                    \/ issue_acceptanceCriteria details = [])))
  | Threw e =>
      response = Threw e
      \/ exists resp,
           response = Ok resp
           /\ ((jira_ok resp = false
                /\ (jira_text resp = Threw e
                    \/ e = Error (lit "Failed to fetch issue: " ++ show_nat (jira_status resp)
                                  ++ lit " " ++ jira_statusText resp)))
               \/ (jira_ok resp = true /\ jira_json resp = Threw e))
  end.
Proof.
  destruct response as [resp|e]; cbn [fetchIssueDetails]; [|left; reflexivity].
  destruct (jira_ok resp) eqn:Hok; cbn [negb].
  - destruct (jira_json resp) as [data|e] eqn:Hjson.
    + exists resp, data. split; [reflexivity|]. split; [exact Hok|].
      split; [exact Hjson|]. do 2 (split; [reflexivity|]).
      unfold issue_details. cbn zeta. cbn [issue_description issue_acceptanceCriteria].
      destruct (custom_criteria_cases (f_others data))
        as [(key & value & Hin & Hkey & Hacc & Hne & ->) | [Hnone ->]].
      * left. exists key, value. do 3 (split; [assumption|]).
        destruct value; [contradiction|]. reflexivity.
      * right. split; [exact Hnone|]. cbn [truthy negb andb].
        destruct (truthy (description_text (f_description data))); [|right; reflexivity].
        destruct (truthy (extractAcceptanceCriteria toLowerCase _)) eqn:Hac;
          [left; reflexivity | right; reflexivity].
    + right. exists resp. split; [reflexivity|]. right. auto.
  - destruct (jira_text resp) as [errorText|e] eqn:Htext;
      right; exists resp; (split; [reflexivity|]); left; auto.
Qed.

End Fetch.

End IntakeFacts.

(** ** The fallback generator and the formatter in the world of their caller (C9) *)

Module RuntimeFacts.
Import Orchestrator Runtime.

Lemma bind_ok {A B : Type} (p : JS A) (f : A -> JS B) (w w' : World) (a : A) :
  p w = (Ok a, w') -> (p ≫= f) w = f a w'.
Proof. intros H. unfold mbind, JS_bind, js_bind. rewrite H. reflexivity. Qed.

(** A callback that returns without a change of the world, on items that
    stand for the elements of a list. *)
Lemma each_pure {A B : Type} (R : Val -> B -> Prop) (callback : Val -> nat -> JS A)
    (g : nat -> B -> A) (w : World) :
  (forall x b i, R x b -> callback x i w = (Ok (g i b), w)) ->
  forall (items : list Val) (bs : list B) (k : nat),
    Forall2 R items bs -> each items k callback w = (Ok (mapi_from k g bs), w).
Proof.
  intros Hcb items bs k H. revert k.
  induction H as [|x b items bs Hx _ IH]; intros k; [reflexivity|].
  cbn [each mapi_from].
  rewrite (bind_ok _ _ _ _ _ (Hcb x b k Hx)), (bind_ok _ _ _ _ _ (IH (S k))).
  reflexivity.
Qed.

Lemma strings_stand (l : list jsstring) :
  Forall2 (fun x s => x = HString s) (map HString l) l.
Proof. induction l; constructor; auto. Qed.

(** [push] on the array that the function has made last. *)
Lemma push_new (w : World) (h : list Obj) (items : list Val) (x : Val) :
  push (HRef (length h)) x (with_heap w (h ++ [HArray items]))
  = (Ok tt, with_heap w (h ++ [HArray (items ++ [x])])).
Proof.
  unfold push. cbn [heap with_heap].
  rewrite lookup_app_r by reflexivity. rewrite Nat.sub_diag. cbn [lookup list_lookup].
  unfold with_heap. cbn. f_equal. f_equal.
  rewrite insert_app_r_alt by reflexivity. rewrite Nat.sub_diag. reflexivity.
Qed.

(** The loop of [generateFallbackTestCases]: each round adds one text at
    the end of that array. *)
Lemma push_lines (g : nat -> jsstring -> jsstring) (w : World) (h : list Obj) :
  forall (lines : list jsstring) (k : nat) (items : list Val),
    for_each_line lines k (fun line index => push (HRef (length h)) (HString (g index line)))
      (with_heap w (h ++ [HArray items]))
    = (Ok tt, with_heap w (h ++ [HArray (items ++ map HString (mapi_from k g lines))])).
Proof.
  induction lines as [|line lines IH]; intros k items.
  - cbn [for_each_line mapi_from map]. rewrite app_nil_r. reflexivity.
  - cbn [for_each_line mapi_from map].
    rewrite (bind_ok _ _ _ _ _ (push_new w h items (HString (g k line)))), IH, <- app_assoc.
    reflexivity.
Qed.

Section WithBuiltins.

Variable objectText : list Obj -> nat -> jsstring.
Variable toLowerCase : jsstring -> jsstring.

Abbreviation fallback_js := (Runtime.generateFallbackTestCases objectText toLowerCase).
Abbreviation format_js := (Runtime.formatTestCases objectText).

Lemma fallback_refines (w : World) (payload : Val) (p : Payload) :
  holds_payload (heap w) payload p ->
  fallback_js payload w
  = (Ok (Fallback.generateFallbackTestCases toLowerCase p),
     with_heap (with_console w (console w ++ [lit "Generating fallback test cases"]))
       (heap w ++ [HArray (map HString (Fallback.fallbackBlocks toLowerCase p))])).
Proof.
  intros (a & props & -> & Ha & Hd & Hc).
  unfold Runtime.generateFallbackTestCases, Fallback.generateFallbackTestCases,
    Fallback.fallbackBlocks.
  unfold holds_text in Hd, Hc.
  set (w1 := with_console w (console w ++ [lit "Generating fallback test cases"])).
  assert (Hlog : console_log (lit "Generating fallback test cases") w = (Ok tt, w1))
    by reflexivity.
  rewrite (bind_ok _ _ _ _ _ Hlog).
  assert (Hget : forall name, get (HRef a) name w1 = (Ok (lookup_prop (lit name) props), w1)).
  { intros name. unfold get. cbn [heap w1 with_console]. rewrite Ha. reflexivity. }
  rewrite (bind_ok _ _ _ _ _ (Hget "description"%string)), Hd.
  rewrite (bind_ok _ _ _ _ _ (Hget "acceptance_criteria"%string)), Hc.
  set (d := or_else (description p) []).
  set (c := or_else (acceptance_criteria p) []).
  assert (Ed : (if truthy_val match description p with
                              | Some s => HString s
                              | None => HUndefined
                              end
                then match description p with Some s => HString s | None => HUndefined end
                else HString []) = HString d).
  { subst d. destruct (description p) as [[|x s]|]; reflexivity. }
  assert (Ec : (if truthy_val match acceptance_criteria p with
                              | Some s => HString s
                              | None => HUndefined
                              end
                then match acceptance_criteria p with
                     | Some s => HString s
                     | None => HUndefined
                     end
                else HString []) = HString c).
  { subst c. destruct (acceptance_criteria p) as [[|x s]|]; reflexivity. }
  cbv zeta. rewrite Ed, Ec.
  assert (Hsd : as_string (HString d) w1 = (Ok d, w1)) by reflexivity.
  rewrite (bind_ok _ _ _ _ _ Hsd).
  assert (Htc : Runtime.text objectText (HString c) w1 = (Ok c, w1)) by reflexivity.
  rewrite (bind_ok _ _ _ _ _ Htc).
  set (keywords := Fallback.extractKeywords toLowerCase (d ++ lit " " ++ c)).
  set (feature := Fallback.keyword_or keywords 0 (lit "feature")).
  assert (Hnew : new_array [] w1
                 = (Ok (HRef (length (heap w))), with_heap w1 (heap w ++ [HArray []])))
    by reflexivity.
  rewrite (bind_ok _ _ _ _ _ Hnew).
  rewrite (bind_ok _ _ _ _ _ (push_new w1 (heap w) [] _)).
  assert (Hsc : forall w', as_string (HString c) w' = (Ok c, w')) by reflexivity.
  rewrite (bind_ok _ _ _ _ _ (Hsc _)).
  rewrite (bind_ok _ _ _ _ _
             (push_lines (Fallback.criterion_case toLowerCase feature) w1 (heap w) _ 0 _)).
  unfold join_array. cbn [heap with_heap].
  rewrite lookup_app_r by reflexivity. rewrite Nat.sub_diag. cbn [lookup list_lookup].
  unfold mapi. cbn [app map]. rewrite map_map, map_id. reflexivity.
Qed.

Lemma get_held (w : World) (a : nat) (props : list (jsstring * Val)) (name : string) :
  heap w !! a = Some (HRecord props) ->
  get (HRef a) name w = (Ok (lookup_prop (lit name) props), w).
Proof. intros Ha. unfold get. rewrite Ha. reflexivity. Qed.

Lemma map_held {A : Type} (w : World) (a : nat) (items : list Val)
    (callback : Val -> nat -> JS A) :
  heap w !! a = Some (HArray items) ->
  array_map (HRef a) callback w = each items 0 callback w.
Proof. intros Ha. unfold array_map. rewrite Ha. reflexivity. Qed.

Lemma numbered_steps_refine (w : World) (v : Val) (tc : Parser.TestCase) :
  holds_case (heap w) v tc ->
  numbered_steps objectText v w
  = (Ok (join [nl] (mapi Formatter.numbered_step (Parser.steps tc))), w).
Proof.
  intros (a & props & s & -> & Ha & _ & Hs & Hitems & _). unfold numbered_steps.
  rewrite (bind_ok _ _ _ _ _ (get_held w a props "steps" Ha)), Hs.
  assert (Hmap : array_map (HRef s)
                   (fun step i =>
                      step ← Runtime.text objectText step;
                      mret (lit "   " ++ show_nat (i + 1) ++ lit ". " ++ step)) w
                 = (Ok (mapi Formatter.numbered_step (Parser.steps tc)), w)).
  { rewrite (map_held w s _ _ Hitems).
    apply (each_pure (fun x t => x = HString t)); [|apply strings_stand].
    intros x t i ->. reflexivity. }
  rewrite (bind_ok _ _ _ _ _ Hmap). reflexivity.
Qed.

Lemma format_markdown_refines (w : World) (v : Val) (tc : Parser.TestCase) (index : nat) :
  holds_case (heap w) v tc ->
  Runtime.format_markdown objectText v index w = (Ok (Formatter.format_markdown index tc), w).
Proof.
  intros H. unfold Runtime.format_markdown.
  rewrite (bind_ok _ _ _ _ _ (numbered_steps_refine w v tc H)).
  destruct H as (a & props & s & -> & Ha & Ht & _ & _ & He).
  rewrite (bind_ok _ _ _ _ _ (get_held w a props "title" Ha)), Ht.
  rewrite (bind_ok _ _ _ _ _ (eq_refl : Runtime.text objectText (HString _) w = (Ok _, w))).
  rewrite (bind_ok _ _ _ _ _ (get_held w a props "expectedResult" Ha)), He.
  reflexivity.
Qed.

Lemma format_text_refines (w : World) (v : Val) (tc : Parser.TestCase) (index : nat) :
  holds_case (heap w) v tc ->
  Runtime.format_text objectText v index w = (Ok (Formatter.format_text index tc), w).
Proof.
  intros H. unfold Runtime.format_text.
  rewrite (bind_ok _ _ _ _ _ (numbered_steps_refine w v tc H)).
  destruct H as (a & props & s & -> & Ha & Ht & _ & _ & He).
  rewrite (bind_ok _ _ _ _ _ (get_held w a props "title" Ha)), Ht.
  rewrite (bind_ok _ _ _ _ _ (eq_refl : Runtime.text objectText (HString _) w = (Ok _, w))).
  rewrite (bind_ok _ _ _ _ _ (get_held w a props "expectedResult" Ha)), He.
  reflexivity.
Qed.

Lemma format_html_refines (w : World) (v : Val) (tc : Parser.TestCase) (index : nat) :
  holds_case (heap w) v tc ->
  Runtime.format_html objectText v index w = (Ok (Formatter.format_html index tc), w).
Proof.
  intros (a & props & s & -> & Ha & Ht & Hs & Hitems & He). unfold Runtime.format_html.
  rewrite (bind_ok _ _ _ _ _ (get_held w a props "steps" Ha)), Hs.
  assert (Hmap : array_map (HRef s)
                   (fun step (_ : nat) =>
                      step ← Runtime.text objectText step;
                      mret (lit "<li>" ++ step ++ lit "</li>")) w
                 = (Ok (map (fun step => lit "<li>" ++ step ++ lit "</li>")
                            (Parser.steps tc)), w)).
  { rewrite (map_held w s _ _ Hitems).
    assert (Hm : forall (l : list jsstring) k,
               mapi_from k (fun (_ : nat) step => lit "<li>" ++ step ++ lit "</li>") l
               = map (fun step => lit "<li>" ++ step ++ lit "</li>") l).
    { induction l as [|x l IH]; intros k; [reflexivity|]. cbn [mapi_from map]. rewrite IH.
      reflexivity. }
    rewrite <- (Hm _ 0).
    apply (each_pure (fun x t => x = HString t)); [|apply strings_stand].
    intros x t i ->. reflexivity. }
  rewrite (bind_ok _ _ _ _ _ Hmap).
  rewrite (bind_ok _ _ _ _ _ (get_held w a props "title" Ha)), Ht.
  rewrite (bind_ok _ _ _ _ _ (eq_refl : Runtime.text objectText (HString _) w = (Ok _, w))).
  rewrite (bind_ok _ _ _ _ _ (get_held w a props "expectedResult" Ha)), He.
  reflexivity.
Qed.

Lemma format_refines (w : World) (testCases : Val) (tcs : list Parser.TestCase)
    (format : js_arg jsstring) :
  holds_cases (heap w) testCases tcs ->
  format_js testCases format w = (Ok (Formatter.formatTestCases (Value tcs) format), w).
Proof.
  intros (a & items & -> & Ha & Hall). unfold Runtime.formatTestCases.
  cbn [truthy_val negb].
  assert (Hlen : has_no_items (HRef a) w = (Ok (Nat.eqb (length tcs) 0), w)).
  { unfold has_no_items. rewrite Ha, (Forall2_length _ _ _ Hall). reflexivity. }
  rewrite (bind_ok _ _ _ _ _ Hlen).
  destruct tcs as [|tc tcs]; [reflexivity|]. cbn [length Nat.eqb].
  assert (Hmap : forall (cb : Val -> nat -> JS jsstring) (g : nat -> Parser.TestCase -> jsstring)
                        (sep : jsstring),
             (forall v t i, holds_case (heap w) v t -> cb v i w = (Ok (g i t), w)) ->
             (cases ← array_map (HRef a) cb; mret (join sep cases)) w
             = (Ok (join sep (mapi g (tc :: tcs))), w)).
  { intros cb g sep Hcb.
    assert (Hcases : array_map (HRef a) cb w = (Ok (mapi g (tc :: tcs)), w)).
    { rewrite (map_held w a _ _ Ha). apply (each_pure (holds_case (heap w))); assumption. }
    rewrite (bind_ok _ _ _ _ _ Hcases). reflexivity. }
  cbv zeta. unfold Formatter.formatTestCases.
  destruct format as [| |f].
  - change (str_eqb (lit "text") (lit "markdown")) with false.
    change (str_eqb (lit "text") (lit "html")) with false. cbv iota.
    apply Hmap. intros v t i Hv. apply format_text_refines, Hv.
  - apply Hmap. intros v t i Hv. apply format_text_refines, Hv.
  - destruct (str_eqb f (lit "markdown"));
      [apply Hmap; intros v t i Hv; apply format_markdown_refines, Hv|].
    destruct (str_eqb f (lit "html"));
      [apply Hmap; intros v t i Hv; apply format_html_refines, Hv|].
    apply Hmap. intros v t i Hv. apply format_text_refines, Hv.
Qed.

(** C9: the fallback generator and the formatter, followed statement by
    statement in the world of their caller.  Given a payload object with
    its two texts, [generateFallbackTestCases] returns the text that is
    computed from these two texts alone, whatever the heap, the console,
    the store, the clock, the random generator and the backend are; it
    writes one line to the console, makes one array of its own, and
    changes nothing else.  Given an array of test cases with their texts,
    [formatTestCases] returns the text that is computed from the test
    cases and the format alone, and leaves the world as it is; for
    [undefined], [null] and the other falsy values it returns the empty
    text.  So in any
    two worlds, equal payloads give equal fallback texts and equal test
    cases and formats give equal formatted texts. *)
Theorem fallback_and_format_ignore_the_world :
  (forall (w : World) (payload : Val) (p : Payload),
      holds_payload (heap w) payload p ->
      fallback_js payload w
      = (Ok (Fallback.generateFallbackTestCases toLowerCase p),
         {| heap := heap w ++ [HArray (map HString (Fallback.fallbackBlocks toLowerCase p))];
            console := console w ++ [lit "Generating fallback test cases"];
            store := store w; clock := clock w; random := random w;
            backend := backend w |}))
  /\ (forall (w : World) (testCases : Val) (tcs : list Parser.TestCase)
             (format : js_arg jsstring),
        holds_cases (heap w) testCases tcs ->
        format_js testCases format w
        = (Ok (Formatter.formatTestCases (Value tcs) format), w))
  /\ (forall (w : World) (testCases : Val) (format : js_arg jsstring),
        truthy_val testCases = false -> format_js testCases format w = (Ok [], w))
  /\ (forall (w1 w2 : World) (payload1 payload2 : Val) (p : Payload),
        holds_payload (heap w1) payload1 p -> holds_payload (heap w2) payload2 p ->
        exists text : jsstring,
          fst (fallback_js payload1 w1) = Ok text /\ fst (fallback_js payload2 w2) = Ok text)
  /\ (forall (w1 w2 : World) (testCases1 testCases2 : Val) (tcs : list Parser.TestCase)
             (format : js_arg jsstring),
        holds_cases (heap w1) testCases1 tcs -> holds_cases (heap w2) testCases2 tcs ->
        exists text : jsstring,
          fst (format_js testCases1 format w1) = Ok text
          /\ fst (format_js testCases2 format w2) = Ok text).
Proof.
  split; [exact fallback_refines|]. split; [exact format_refines|]. split; [|split].
  - intros w testCases format H. unfold Runtime.formatTestCases. rewrite H. reflexivity.
  - intros w1 w2 v1 v2 p H1 H2. eexists.
    rewrite (fallback_refines w1 v1 p H1), (fallback_refines w2 v2 p H2). split; reflexivity.
  - intros w1 w2 v1 v2 tcs format H1 H2. eexists.
    rewrite (format_refines w1 v1 tcs format H1), (format_refines w2 v2 tcs format H2).
    split; reflexivity.
Qed.

End WithBuiltins.

Lemma fallback_and_format_world_witness :
  let fallback_js := Runtime.generateFallbackTestCases Worlds.object_text asciiLower in
  let format_js := Runtime.formatTestCases Worlds.object_text in
  let text := Fallback.generateFallbackTestCases asciiLower Samples.login_payload in
  let html := Formatter.formatTestCases (Value [Samples.login_case]) (Value (lit "html")) in
  holds_payload (heap Worlds.quiet_world) (HRef 0) Samples.login_payload
  /\ holds_payload (heap Worlds.busy_world) (HRef 2) Samples.login_payload
  /\ fst (fallback_js (HRef 0) Worlds.quiet_world) = Ok text
  /\ fst (fallback_js (HRef 2) Worlds.busy_world) = Ok text
  /\ console (snd (fallback_js (HRef 0) Worlds.quiet_world))
     = [lit "Generating fallback test cases"]
  /\ holds_cases (heap Worlds.quiet_world) (HRef 1) [Samples.login_case]
  /\ holds_cases (heap Worlds.busy_world) (HRef 3) [Samples.login_case]
  /\ format_js (HRef 1) (Value (lit "html")) Worlds.quiet_world = (Ok html, Worlds.quiet_world)
  /\ format_js (HRef 3) (Value (lit "html")) Worlds.busy_world = (Ok html, Worlds.busy_world).
Proof.
  assert (Hq : holds_payload (heap Worlds.quiet_world) (HRef 0) Samples.login_payload).
  { eexists 0, _. repeat split. }
  assert (Hb : holds_payload (heap Worlds.busy_world) (HRef 2) Samples.login_payload).
  { eexists 2, _. repeat split. }
  assert (Hcq : holds_cases (heap Worlds.quiet_world) (HRef 1) [Samples.login_case]).
  { eexists 1, _. repeat split. constructor; [|constructor].
    eexists 2, _, 3. repeat split. }
  assert (Hcb : holds_cases (heap Worlds.busy_world) (HRef 3) [Samples.login_case]).
  { eexists 3, _. repeat split. constructor; [|constructor].
    eexists 1, _, 0. repeat split. }
  pose proof (fallback_and_format_ignore_the_world Worlds.object_text asciiLower)
    as (Hfallback & Hformat & _).
  intros fallback_js format_js text html.
  split; [exact Hq|]. split; [exact Hb|].
  split; [exact (f_equal fst (Hfallback _ _ _ Hq))|].
  split; [exact (f_equal fst (Hfallback _ _ _ Hb))|].
  split; [exact (f_equal (fun r => console (snd r)) (Hfallback _ _ _ Hq))|].
  split; [exact Hcq|]. split; [exact Hcb|].
  split; [exact (Hformat _ _ _ (Value (lit "html")) Hcq)|].
  exact (Hformat _ _ _ (Value (lit "html")) Hcb).
Defined.

End RuntimeFacts.

